(** * Voice to Drive: capture / persistence / sync engine

    A shallow embedding of the recording catalog and chunk log
    (js/storage.js), the recorder state machine (js/recorder.js and its
    older copy), the Drive uploader (js/drive.js) and the two sync passes
    (js/app.js and the App object that follows the Drive and Supabase
    services in js/drive.js), with the properties of the engine stated and
    proved over them.

    Conventions of the embedding:
    - an [async] function is a state transformer; where interleaving
      matters its body is cut into the segments that run without
      interruption: [saveCurrentChunk] at its [await], a sync pass at its
      scan and between two recordings;
    - a request to the object store takes effect when it is issued
      (IndexedDB runs the transactions of a store in the order they were
      created) and succeeds; the chunk writes of js/recorder.js are the
      exception, each accepted or refused as the store decides;
    - the two copies of the recorder are embedded side by side: the
      definitions of js/recorder.js under the names of the source, those
      of the older copy (src/unnamed/part_000) with the suffix [_old]
      where the two differ;
    - a rejected promise / thrown exception is the [Throw] case of [Res];
    - [Date.now()] and [new Date()] are explicit arguments, or readings
      of a clock carried by the world of the sync pass;
    - a [Blob] is its byte sequence and its MIME type; a string is a
      sequence of 8-bit code units;
    - the UI calls are left out, except for the sync indicator. *)

From Stdlib Require Import ZArith List String Ascii Lia Bool Sorted Permutation.
From stdpp Require Import base gmap strings list.
Import ListNotations.

Local Open Scope Z_scope.
Local Open Scope list_scope.

(** ** JavaScript values shared by the services *)

Definition Timestamp := Z.
Definition SessionId := string.
Definition FileId := string.

Record Blob := mkBlob { data : list Byte.byte; type : string }.

Definition size (b : Blob) : nat := length (data b).

(** [new Blob(parts, { type })]: the parts' bytes, in order. *)
Definition newBlob (parts : list Blob) (ty : string) : Blob :=
  mkBlob (concat (map data parts)) ty.

(** An [Error], with the ad hoc [status] field the Drive calls attach. *)
Record JsError := mkError { message : string; errStatus : option Z }.

Inductive Res (A : Type) : Type :=
| Ok (a : A)
| Throw (e : JsError).
Arguments Ok {A} a.
Arguments Throw {A} e.

(** A [Date]: its epoch milliseconds and its local calendar fields. *)
Record JsDate := mkDate {
  iso : Timestamp;
  fullYear : nat; month0 : nat; dayOfMonth : nat;
  hours : nat; minutes : nat; seconds : nat }.

(** ** js/storage.js *)
Module StorageService.

Inductive Status := pending | uploading | synced_st | failed.

#[global] Instance Status_eq_dec : EqDecision Status.
Proof. solve_decision. Defined.

Record Recording := mkRecording {
  id : nat;
  blob : Blob;
  timestamp : Timestamp;
  duration : Z;
  fileName : string;
  drivePath : string;
  status : Status;
  synced : Z;
  retryCount : Z;
  lastRetry : option Timestamp;
  fileSize : nat;
  mimeType : string;
  recovered : bool;
  originalSessionId : option SessionId;
  syncedAt : option Timestamp;
  driveFileId : option FileId;
  driveId : option FileId }.

Record Chunk := mkChunk {
  chunkKey : nat;
  sessionId : SessionId;
  sequence : nat;
  chunkBlob : Blob;
  chunkTimestamp : Timestamp }.

(** The two object stores. Both have [autoIncrement] keys, so a store is
    the list of its records in key order together with its key generator. *)
Record DB := mkDB {
  recordings : list Recording;
  recordingsKeyGen : nat;
  chunks : list Chunk;
  chunksKeyGen : nat }.

Definition emptyDB : DB := mkDB [] 1 [] 1.

(** *** Helper functions *)

Definition digit (n : nat) : ascii := ascii_of_nat (48 + n mod 10).

Fixpoint toStringFuel (fuel n : nat) (acc : string) : string :=
  match fuel with
  | O => acc
  | S fuel' =>
      let acc' := String (digit n) acc in
      if Nat.ltb n 10 then acc' else toStringFuel fuel' (n / 10)%nat acc'
  end.

Definition toString (n : nat) : string := toStringFuel (S n) n EmptyString.

(** [n.toString().padStart(2, '0')] *)
Definition pad (n : nat) : string :=
  let s := toString n in
  if Nat.ltb (String.length s) 2 then String "0"%char s else s.

Definition generateFileName (d : JsDate) : string :=
  (toString (fullYear d) ++ "-" ++ pad (month0 d + 1) ++ "-" ++ pad (dayOfMonth d)
   ++ "_" ++ pad (hours d) ++ "-" ++ pad (minutes d) ++ "-" ++ pad (seconds d)
   ++ ".webm")%string.

Definition generateDrivePath (d : JsDate) : string :=
  ("recordings/" ++ toString (fullYear d) ++ "/" ++ pad (month0 d + 1)
   ++ "/" ++ pad (dayOfMonth d))%string.

(** *** saveRecording *)

(** The [metadata] argument; the callers pass [duration] and [mimeType]
    (a finished recording) or [recovered] and [originalSessionId]
    (crash recovery). An absent [recovered] reads as [false]. *)
Record Metadata := mkMetadata {
  m_duration : option Z;
  m_mimeType : option string;
  m_recovered : option bool;
  m_originalSessionId : option SessionId }.

Definition noMetadata : Metadata := mkMetadata None None None None.

(** The three [new Date()] of one call are taken as one reading, [now]. *)
Definition saveRecording (b : Blob) (md : Metadata) (now : JsDate) (db : DB)
  : nat * DB :=
  let key := recordingsKeyGen db in
  let recording :=
    {| id := key;
       blob := b;
       timestamp := iso now;
       (* [metadata.duration || 0], then overwritten by the spread *)
       duration := default 0 (m_duration md);
       fileName := generateFileName now;
       drivePath := generateDrivePath now;
       status := pending;
       synced := 0;
       retryCount := 0;
       lastRetry := None;
       fileSize := size b;
       mimeType := default (type b) (m_mimeType md);
       recovered := default false (m_recovered md);
       originalSessionId := m_originalSessionId md;
       syncedAt := None;
       driveFileId := None;
       driveId := None |} in
  (key, mkDB (recordings db ++ [recording]) (S key) (chunks db) (chunksKeyGen db)).

(** *** Chunk log *)

Definition saveChunk (sid : SessionId) (seqno : nat) (b : Blob) (now : Timestamp)
    (db : DB) : nat * DB :=
  let key := chunksKeyGen db in
  (key, mkDB (recordings db) (recordingsKeyGen db)
             (chunks db ++ [mkChunk key sid seqno b now]) (S key)).

(** [Array.prototype.sort] with [(a, b) => a.sequence - b.sequence]: a
    stable sort, ascending in [sequence]. *)
Fixpoint insertBySequence (c : Chunk) (l : list Chunk) : list Chunk :=
  match l with
  | [] => [c]
  | d :: l' =>
      if Nat.leb (sequence c) (sequence d) then c :: d :: l'
      else d :: insertBySequence c l'
  end.

Fixpoint sortBySequence (l : list Chunk) : list Chunk :=
  match l with
  | [] => []
  | c :: l' => insertBySequence c (sortBySequence l')
  end.

(** [index.getAll(sessionId)]: the session's chunks in key order. *)
Definition chunksOfSession (sid : SessionId) (db : DB) : list Chunk :=
  List.filter (fun c => bool_decide (sessionId c = sid)) (chunks db).

Definition getSessionChunks (sid : SessionId) (db : DB) : list Chunk :=
  sortBySequence (chunksOfSession sid db).

Definition clearSessionChunks (sid : SessionId) (db : DB) : DB :=
  mkDB (recordings db) (recordingsKeyGen db)
       (List.filter (fun c => negb (bool_decide (sessionId c = sid))) (chunks db))
       (chunksKeyGen db).

(** [saveChunk] called with one argument, as js/recorder.js calls it:
    the object [{ sessionId, sequence, blob, timestamp }] the recorder has
    built arrives as the parameter [sessionId], and the parameters
    [sequence] and [blob] are [undefined]. *)
Record ChunkObject := mkChunkObject {
  o_sessionId : option SessionId;
  o_sequence : nat;
  o_blob : Blob;
  o_timestamp : Timestamp }.

(** The record such a call adds to the chunk store: its [sessionId] is
    the object, it has neither [sequence] nor [blob]. An object is not a
    valid key, so the [sessionId] index does not list the record under any
    session. *)
Record UnlistedChunk := mkUnlistedChunk {
  u_key : nat;
  u_sessionId : ChunkObject;
  u_timestamp : Timestamp }.

(** The database together with the records of the chunk store that its
    indexes do not list, and with what the store answers to the chunk
    writes of js/recorder.js, which is not the program's to decide:
    [accepts k] tells whether the [k]-th of them succeeds. *)
Record Store := mkStore {
  indexed : DB;
  unlisted : list UnlistedChunk;
  writes : nat;
  accepts : nat -> bool }.

(** [saveChunk(object)]: [None] is a rejected request, which leaves the
    store as it was. An accepted one takes the next key of the chunk
    store. *)
Definition saveChunk_object (o : ChunkObject) (now : Timestamp) (st : Store)
  : option nat * Store :=
  if accepts st (writes st) then
    let key := chunksKeyGen (indexed st) in
    (Some key,
     mkStore (mkDB (recordings (indexed st)) (recordingsKeyGen (indexed st))
                   (chunks (indexed st)) (S key))
             (unlisted st ++ [mkUnlistedChunk key o now]) (S (writes st)) (accepts st))
  else (None, mkStore (indexed st) (unlisted st) (S (writes st)) (accepts st)).

(** A database read or written through its indexes, the unlisted records
    left where they are. *)
Definition withIndexed (db : DB) (st : Store) : Store :=
  mkStore db (unlisted st) (writes st) (accepts st).

(** [null] when the session has no chunk. *)
Definition recoverFromChunks (sid : SessionId) (db : DB) : option Blob :=
  match getSessionChunks sid db with
  | [] => None
  | c :: cs =>
      let blobs := map chunkBlob (c :: cs) in
      Some (newBlob blobs (type (chunkBlob c)))
  end.

(** [[...new Set(xs)]]: the distinct values, in order of first occurrence. *)
Fixpoint distinct (seen xs : list SessionId) : list SessionId :=
  match xs with
  | [] => []
  | x :: xs' =>
      if bool_decide (x ∈ seen) then distinct seen xs'
      else x :: distinct (x :: seen) xs'
  end.

Definition getOrphanedSessions (db : DB) : list SessionId :=
  distinct [] (map sessionId (chunks db)).

(** *** Catalog reads *)

(** [index('synced').getAll(IDBKeyRange.only(0))], in key order. *)
Definition getUnsyncedRecordings (db : DB) : list Recording :=
  List.filter (fun r => Z.eqb (synced r) 0) (recordings db).

Fixpoint getRecording (i : nat) (l : list Recording) : option Recording :=
  match l with
  | [] => None
  | r :: l' => if Nat.eqb (id r) i then Some r else getRecording i l'
  end.

(** *** Catalog writes *)

(** [store.put(recording)]: replaces the record with the same key, or
    inserts it at its place in key order. *)
Fixpoint put (r : Recording) (l : list Recording) : list Recording :=
  match l with
  | [] => [r]
  | x :: l' =>
      if Nat.eqb (id x) (id r) then r :: l'
      else if Nat.ltb (id r) (id x) then r :: x :: l'
      else x :: put r l'
  end.

(** The [extraFields] the callers pass to [updateRecordingStatus]. *)
Record ExtraFields := mkExtra {
  x_driveId : option FileId;
  x_driveFileId : option FileId;
  x_retryCount : option Z;
  x_lastRetry : option Timestamp }.

Definition noExtra : ExtraFields := mkExtra None None None None.

Definition setStatus (s : Status) (now : Timestamp) (r : Recording) : Recording :=
  {| id := id r; blob := blob r; timestamp := timestamp r;
     duration := duration r; fileName := fileName r; drivePath := drivePath r;
     status := s;
     synced := if decide (s = synced_st) then 1 else 0;
     retryCount := retryCount r; lastRetry := lastRetry r;
     fileSize := fileSize r; mimeType := mimeType r;
     recovered := recovered r; originalSessionId := originalSessionId r;
     syncedAt := if decide (s = synced_st) then Some now else syncedAt r;
     driveFileId := driveFileId r; driveId := driveId r |}.

(** [Object.assign(recording, extraFields)] *)
Definition assign (x : ExtraFields) (r : Recording) : Recording :=
  {| id := id r; blob := blob r; timestamp := timestamp r;
     duration := duration r; fileName := fileName r; drivePath := drivePath r;
     status := status r; synced := synced r;
     retryCount := default (retryCount r) (x_retryCount x);
     lastRetry := match x_lastRetry x with Some t => Some t | None => lastRetry r end;
     fileSize := fileSize r; mimeType := mimeType r;
     recovered := recovered r; originalSessionId := originalSessionId r;
     syncedAt := syncedAt r;
     driveFileId := match x_driveFileId x with Some f => Some f | None => driveFileId r end;
     driveId := match x_driveId x with Some f => Some f | None => driveId r end |}.

Definition notFound : JsError := mkError "Recording not found" None.

Definition updateRecordingStatus (i : nat) (s : Status) (x : ExtraFields)
    (now : Timestamp) (db : DB) : Res (Recording * DB) :=
  match getRecording i (recordings db) with
  | None => Throw notFound
  | Some recording =>
      let recording' := assign x (setStatus s now recording) in
      Ok (recording',
          mkDB (put recording' (recordings db)) (recordingsKeyGen db)
               (chunks db) (chunksKeyGen db))
  end.

(** [markRecordingAsSynced(id, driveId)]; [None] is a [driveId] that is
    [undefined], which [Object.assign] copies as such. *)
Definition markRecordingAsSynced (i : nat) (f : option FileId) (now : Timestamp)
    (db : DB) : Res (Recording * DB) :=
  match f with
  | Some f => updateRecordingStatus i synced_st (mkExtra (Some f) None None None) now db
  | None =>
      match getRecording i (recordings db) with
      | None => Throw notFound
      | Some recording =>
          let r := setStatus synced_st now recording in
          let recording' :=
            {| id := id r; blob := blob r; timestamp := timestamp r;
               duration := duration r; fileName := fileName r;
               drivePath := drivePath r; status := status r; synced := synced r;
               retryCount := retryCount r; lastRetry := lastRetry r;
               fileSize := fileSize r; mimeType := mimeType r;
               recovered := recovered r; originalSessionId := originalSessionId r;
               syncedAt := syncedAt r; driveFileId := driveFileId r;
               driveId := None |} in
          Ok (recording',
              mkDB (put recording' (recordings db)) (recordingsKeyGen db)
                   (chunks db) (chunksKeyGen db))
      end
  end.

(** The counts [n] for which [n + 1] is exact in double precision. *)
Definition safeCount (n : Z) : Prop := - 2 ^ 53 <= n < 2 ^ 53.

(** [tRetry] is the clock read for [lastRetry], [tPut] the one read inside
    [updateRecordingStatus]. [None] is the plain [return] for a missing
    record. [retryCount] is a JavaScript number, kept here in [Z]: the sum
    [(recording.retryCount || 0) + 1] is the sum of [Z] for the counts
    the addition of doubles is exact on, those from -2^53 to 2^53 - 1
    ([safeCount]); what is stated of the sum carries that bound. *)
Definition incrementRetryCount (i : nat) (tRetry tPut : Timestamp) (db : DB)
  : option (Res (Recording * DB)) :=
  match getRecording i (recordings db) with
  | None => None
  | Some recording =>
      Some (updateRecordingStatus i (status recording)
              (mkExtra None None (Some (retryCount recording + 1)) (Some tRetry))
              tPut db)
  end.

(** [index('synced').openCursor(IDBKeyRange.only(1))], deleting as it goes. *)
Definition clearSyncedRecordings (db : DB) : nat * DB :=
  (length (List.filter (fun r => Z.eqb (synced r) 1) (recordings db)),
   mkDB (List.filter (fun r => negb (Z.eqb (synced r) 1)) (recordings db))
        (recordingsKeyGen db) (chunks db) (chunksKeyGen db)).

(** *** Catalog listing and deletion *)

(** [Array.prototype.sort] with
    [(a, b) => new Date(b.timestamp) - new Date(a.timestamp)]: a stable
    sort, newest first. *)
Fixpoint insertByTimestamp (r : Recording) (l : list Recording) : list Recording :=
  match l with
  | [] => [r]
  | x :: l' =>
      if Z.leb (timestamp x) (timestamp r) then r :: x :: l'
      else x :: insertByTimestamp r l'
  end.

Fixpoint sortByTimestamp (l : list Recording) : list Recording :=
  match l with
  | [] => []
  | r :: l' => insertByTimestamp r (sortByTimestamp l')
  end.

Definition getAllRecordings (db : DB) : list Recording :=
  sortByTimestamp (recordings db).

(** [store.delete(id)]: succeeds whether or not the key is there. *)
Definition deleteRecording (i : nat) (db : DB) : DB :=
  mkDB (List.filter (fun r => negb (Nat.eqb (id r) i)) (recordings db))
       (recordingsKeyGen db) (chunks db) (chunksKeyGen db).

(** *** Settings *)

(** The values the callers keep in the settings store: [null], flags,
    numbers, device identifiers, and the [{ token, expiry }] object of the
    Drive service. *)
Inductive SettingValue :=
| VNull
| VBool (b : bool)
| VNumber (n : Z)
| VString (s : string)
| VToken (token : string) (expiry : Z).

(** The settings store, keyed by [key]. *)
Definition Settings := gmap string SettingValue.

(** [result ? result.value : defaultValue]: a stored [null] is returned
    as such. *)
Definition getSetting (key : string) (defaultValue : SettingValue) (st : Settings)
  : SettingValue :=
  match st !! key with
  | Some value => value
  | None => defaultValue
  end.

Definition setSetting (key : string) (value : SettingValue) (st : Settings) : Settings :=
  <[key := value]> st.

End StorageService.

(** ** js/recorder.js, and the older copy of it *)
Module RecorderService.

(** [MediaRecorder.state] *)
Inductive RecordingState := inactive | recording | paused.

#[global] Instance RecordingState_eq_dec : EqDecision RecordingState.
Proof. solve_decision. Defined.

Record MediaRecorder := mkMediaRecorder {
  state : RecordingState;
  mimeType : string }.

(** The module-level variables of the service. [mediaStream] and
    [chunkInterval] are kept as "is set" flags. *)
Record Recorder := mkRecorder {
  mediaRecorder : option MediaRecorder;
  mediaStream : bool;
  chunks : list Blob;
  sessionId : option SessionId;
  chunkSequence : nat;
  chunkInterval : bool;
  startTime : option Z;
  pausedDuration : Z;
  pauseStartTime : option Z }.

Definition initial : Recorder :=
  mkRecorder None false [] None 0 false None 0 None.

(** Truthiness of a variable holding [null] or a number. *)
Definition truthy (v : option Z) : bool :=
  match v with
  | Some z => negb (Z.eqb z 0)
  | None => false
  end.

Definition getState (r : Recorder) : RecordingState :=
  match mediaRecorder r with
  | None => inactive
  | Some mr => state mr
  end.

Definition configMimeType : string := "audio/webm;codecs=opus".

Definition notInitialised : JsError :=
  mkError "Recorder not initialised. Call init() first." None.

(** *** start *)

(** The [ReferenceError] of [mediaRecorder.onstop = handleStop] in
    js/recorder.js: the file declares no [handleStop], and the other
    scripts keep theirs inside their own function scopes. *)
Definition handleStopNotDefined : JsError :=
  mkError "handleStop is not defined" None.

(** [start()] of js/recorder.js. [sid] is the identifier the template
    [session_${Date.now()}_${random}] evaluates to and [supported] the
    answer of [MediaRecorder.isTypeSupported]. Past the two guards the
    session variables are overwritten and a new [MediaRecorder] is made;
    the assignment of [onstop] then throws, before
    [mediaRecorder.start()], [startTime = Date.now()] and
    [startChunkInterval()]: the new media recorder stays [inactive], and
    the start time and the flush timer stay as they were. The service is
    returned as the call leaves it, next to how the call ends. *)
Definition start (sid : SessionId) (supported : bool) (r : Recorder)
  : Res unit * Recorder :=
  if negb (mediaStream r) then (Throw notInitialised, r)
  else if bool_decide (getState r = recording) then (Ok tt, r)
  else
    (Throw handleStopNotDefined,
     mkRecorder
       (Some (mkMediaRecorder inactive
                (if supported then configMimeType else "audio/webm")))
       true [] (Some sid) 0 (chunkInterval r) (startTime r) 0 None).

(** [start()] of the older copy, which declares [handleStop]: the call
    goes through. [now] is the clock read for [startTime]. *)
Definition start_old (sid : SessionId) (supported : bool) (now : Z) (r : Recorder)
  : Res Recorder :=
  if negb (mediaStream r) then Throw notInitialised
  else
    match mediaRecorder r with
    | Some mr =>
        if decide (state mr = recording) then Ok r   (* console.warn; return *)
        else
          Ok (mkRecorder
                (Some (mkMediaRecorder recording
                         (if supported then configMimeType else "audio/webm")))
                true [] (Some sid) 0 true (Some now) 0 None)
    | None =>
        Ok (mkRecorder
              (Some (mkMediaRecorder recording
                       (if supported then configMimeType else "audio/webm")))
              true [] (Some sid) 0 true (Some now) 0 None)
    end.

(** [handleDataAvailable] *)
Definition handleDataAvailable (d : Blob) (r : Recorder) : Recorder :=
  if Nat.ltb 0 (size d) then
    mkRecorder (mediaRecorder r) (mediaStream r) (chunks r ++ [d]) (sessionId r)
      (chunkSequence r) (chunkInterval r) (startTime r) (pausedDuration r)
      (pauseStartTime r)
  else r.

(** *** The flush of js/recorder.js *)

(** [saveCurrentChunk] of js/recorder.js, up to its first [await]: the
    chunk object is built, the counter is advanced by the post-increment
    inside the object literal, and the object is handed to
    [StorageService.saveChunk] as its only argument. [None] is a call that
    does not reach the [await] (nothing in memory, or no [mediaRecorder]
    to take the MIME type from); otherwise the [bool] tells whether the
    store accepts the write. The two readings of the clock are taken as
    one, [now]. *)
Definition saveCurrentChunk_begin (now : Z) (r : Recorder) (st : StorageService.Store)
  : Recorder * StorageService.Store * option bool :=
  match chunks r, mediaRecorder r with
  | _ :: _, Some mr =>
      let chunkBlob := newBlob (chunks r) (mimeType mr) in
      let chunkInfo :=
        StorageService.mkChunkObject (sessionId r) (chunkSequence r) chunkBlob now in
      let r' :=
        mkRecorder (mediaRecorder r) (mediaStream r) (chunks r) (sessionId r)
          (S (chunkSequence r)) (chunkInterval r) (startTime r)
          (pausedDuration r) (pauseStartTime r) in
      match StorageService.saveChunk_object chunkInfo now st with
      | (Some _, st') => (r', st', Some true)
      | (None, st') => (r', st', Some false)
      end
  | _, _ => (r, st, None)
  end.

(** [StorageService.saveRecoveryData], which js/storage.js does not
    define. *)
Definition saveRecoveryDataNotAFunction : JsError :=
  mkError "StorageService.saveRecoveryData is not a function" None.

(** [saveCurrentChunk] of js/recorder.js after an acknowledged write: the
    in-memory fragments are dropped, and the call of
    [StorageService.saveRecoveryData] throws, which rejects the promise of
    the flush. After a refused write the [await] throws and nothing more
    of the function runs. *)
Definition saveCurrentChunk_resume (r : Recorder) : Res unit * Recorder :=
  (Throw saveRecoveryDataNotAFunction,
   mkRecorder (mediaRecorder r) (mediaStream r) [] (sessionId r)
     (chunkSequence r) (chunkInterval r) (startTime r) (pausedDuration r)
     (pauseStartTime r)).

Definition setState (s : RecordingState) (r : Recorder) : Recorder :=
  mkRecorder
    (match mediaRecorder r with
     | Some mr => Some (mkMediaRecorder s (mimeType mr))
     | None => None
     end)
    (mediaStream r) (chunks r) (sessionId r) (chunkSequence r)
    (chunkInterval r) (startTime r) (pausedDuration r) (pauseStartTime r).

(** [pause()] of js/recorder.js: the synchronous part, which ends by
    starting a [saveCurrentChunk] it does not wait for. *)
Definition pause (now : Z) (r : Recorder) (st : StorageService.Store)
  : Recorder * StorageService.Store * option bool :=
  if decide (getState r = recording) then
    let r1 := setState paused r in
    let r2 :=
      mkRecorder (mediaRecorder r1) (mediaStream r1) (chunks r1) (sessionId r1)
        (chunkSequence r1) (chunkInterval r1) (startTime r1) (pausedDuration r1)
        (Some now) in
    saveCurrentChunk_begin now r2 st
  else (r, st, None).

(** [resume()], the same in both copies. *)
Definition resume (now : Z) (r : Recorder) : Recorder :=
  if decide (getState r = paused) then
    let r1 :=
      if truthy (pauseStartTime r) then
        mkRecorder (mediaRecorder r) (mediaStream r) (chunks r) (sessionId r)
          (chunkSequence r) (chunkInterval r) (startTime r)
          (pausedDuration r + (now - default 0 (pauseStartTime r))) None
      else r in
    setState recording r1
  else r.

(** [getElapsedTime()] of js/recorder.js. On the integers the clock
    returns, [Math.floor(elapsed / 1000)] is the floor division. *)
Definition getElapsedTime (now : Z) (r : Recorder) : Z :=
  if negb (truthy (startTime r)) then 0
  else
    let elapsed := now - default 0 (startTime r) in
    let elapsed := elapsed - pausedDuration r in
    let elapsed :=
      if bool_decide (getState r = paused) && truthy (pauseStartTime r)
      then elapsed - (now - default 0 (pauseStartTime r))
      else elapsed in
    elapsed / 1000.

(** [getElapsedTime()] of the older copy of the recorder: the pause term
    is subtracted whenever [pauseStartTime] is set. *)
Definition getElapsedTime_old (now : Z) (r : Recorder) : Z :=
  if negb (truthy (startTime r)) then 0
  else
    let elapsed := now - default 0 (startTime r) - pausedDuration r in
    let elapsed :=
      if truthy (pauseStartTime r)
      then elapsed - (now - default 0 (pauseStartTime r))
      else elapsed in
    elapsed / 1000.

(** *** The events of an open session *)

(** What can happen to a recorder that is running: a fragment arrives,
    the flush timer fires, the user pauses or resumes, or the store
    settles the oldest pending chunk write and the suspended
    [saveCurrentChunk] continues. *)
Inductive Event :=
| DataAvailable (d : Blob)
| TimerTick (now : Z)
| Pause (now : Z)
| Resume (now : Z)
| ChunkSaved.

(** js/recorder.js: the service, the store, and the chunk writes that
    are pending, oldest first, each with the answer the store will
    give. *)
Record Page := mkPage {
  recorder : Recorder;
  storage : StorageService.Store;
  pendingWrites : list bool }.

Definition issued (w : option bool) : list bool :=
  match w with
  | Some accepted => [accepted]
  | None => []
  end.

Definition step (p : Page) (e : Event) : Page :=
  match e with
  | DataAvailable d =>
      mkPage (handleDataAvailable d (recorder p)) (storage p) (pendingWrites p)
  | TimerTick now =>
      if chunkInterval (recorder p) then
        let '(r', st', w) := saveCurrentChunk_begin now (recorder p) (storage p) in
        mkPage r' st' (pendingWrites p ++ issued w)
      else p
  | Pause now =>
      let '(r', st', w) := pause now (recorder p) (storage p) in
      mkPage r' st' (pendingWrites p ++ issued w)
  | Resume now => mkPage (resume now (recorder p)) (storage p) (pendingWrites p)
  | ChunkSaved =>
      match pendingWrites p with
      | [] => p
      | true :: rest =>
          mkPage (snd (saveCurrentChunk_resume (recorder p))) (storage p) rest
      | false :: rest => mkPage (recorder p) (storage p) rest
      end
  end.

Definition run (p : Page) (es : list Event) : Page := fold_left step es p.

(** *** The older copy of the recorder *)

(** The older copy: the recorder, the store, and the number of
    [saveCurrentChunk] calls suspended at their [await]. *)
Record Session := mkSession {
  rec : Recorder;
  store : StorageService.DB;
  pendingSaves : nat }.

(** [saveCurrentChunk] of the older copy, up to its [await]: the chunk is
    written, with the three arguments [saveChunk] declares, under the
    current value of the counter, which is left as it is. The [bool] tells
    whether the [await] was reached. *)
Definition saveCurrentChunk_old_begin (now : Z) (r : Recorder)
    (db : StorageService.DB) : Recorder * StorageService.DB * bool :=
  match chunks r, sessionId r with
  | _ :: _, Some sid =>
      if bool_decide (sid = ""%string) then (r, db, false)
      else
        let ty :=
          match mediaRecorder r with
          | Some mr => if bool_decide (mimeType mr = ""%string) then "audio/webm"%string
                       else mimeType mr
          | None => "audio/webm"%string
          end in
        (r, snd (StorageService.saveChunk sid (chunkSequence r)
                   (newBlob (chunks r) ty) now db), true)
  | _, _ => (r, db, false)
  end.

(** After the [await]: only now is the counter advanced. *)
Definition saveCurrentChunk_old_resume (r : Recorder) : Recorder :=
  mkRecorder (mediaRecorder r) (mediaStream r) (chunks r) (sessionId r)
    (S (chunkSequence r)) (chunkInterval r) (startTime r) (pausedDuration r)
    (pauseStartTime r).

Definition pause_old (now : Z) (r : Recorder) (db : StorageService.DB)
  : Recorder * StorageService.DB * bool :=
  if decide (getState r = recording) then
    let r1 := setState paused r in
    let r2 :=
      mkRecorder (mediaRecorder r1) (mediaStream r1) (chunks r1) (sessionId r1)
        (chunkSequence r1) (chunkInterval r1) (startTime r1) (pausedDuration r1)
        (Some now) in
    saveCurrentChunk_old_begin now r2 db
  else (r, db, false).

Definition step_old (s : Session) (e : Event) : Session :=
  match e with
  | DataAvailable d => mkSession (handleDataAvailable d (rec s)) (store s) (pendingSaves s)
  | TimerTick now =>
      if chunkInterval (rec s) then
        let '(r', db', started) := saveCurrentChunk_old_begin now (rec s) (store s) in
        mkSession r' db' (if started then S (pendingSaves s) else pendingSaves s)
      else s
  | Pause now =>
      let '(r', db', started) := pause_old now (rec s) (store s) in
      mkSession r' db' (if started then S (pendingSaves s) else pendingSaves s)
  | Resume now => mkSession (resume now (rec s)) (store s) (pendingSaves s)
  | ChunkSaved =>
      match pendingSaves s with
      | O => s
      | S n => mkSession (saveCurrentChunk_old_resume (rec s)) (store s) n
      end
  end.

Definition run_old (s : Session) (es : list Event) : Session := fold_left step_old es s.

(** *** stop and cancel *)

Record StopResult := mkStopResult {
  resBlob : Blob;
  resDuration : Z;
  resSessionId : SessionId;
  resMimeType : string }.

(** How the promise of a call ends: resolved, rejected, or never
    settled. *)
Inductive Settled (A : Type) : Type :=
| Resolved (a : A)
| Rejected (e : JsError)
| Unsettled.
Arguments Resolved {A} a.
Arguments Rejected {A} e.
Arguments Unsettled {A}.

Definition noRecording : JsError := mkError "No recording in progress" None.

(** [IDBKeyRange.only(null)] inside [clearSessionChunks(null)]. *)
Definition dataError : JsError := mkError "DataError" None.

(** [mediaRecorder.mimeType] with [mediaRecorder] at [null]. *)
Definition nullMediaRecorder : JsError :=
  mkError "Cannot read properties of null (reading 'mimeType')" None.

Definition stopChunkInterval (r : Recorder) : Recorder :=
  mkRecorder (mediaRecorder r) (mediaStream r) (chunks r) (sessionId r)
    (chunkSequence r) false (startTime r) (pausedDuration r) (pauseStartTime r).

(** [chunks = []; sessionId = null] *)
Definition resetSession (r : Recorder) : Recorder :=
  mkRecorder (mediaRecorder r) (mediaStream r) [] None (chunkSequence r)
    (chunkInterval r) (startTime r) (pausedDuration r) (pauseStartTime r).

(** [stop()], the executor of the promise it returns, the same in both
    copies: the flush timer is stopped, the completion handler is
    installed, and [mediaRecorder.stop()] is called unless the state is
    [inactive] already; the call sets the state to [inactive] at once and
    queues the last [dataavailable] event and the [stop] event. The [bool]
    tells whether it was called, that is, whether a [stop] event will
    come; without one the promise is never settled. *)
Definition stop_call (r : Recorder) : Res (Recorder * bool) :=
  match mediaRecorder r with
  | None => Throw noRecording
  | Some mr =>
      Ok (setState inactive (stopChunkInterval r),
          negb (bool_decide (state mr = inactive)))
  end.

(** The [onstop] handler [stop()] installs, in the older copy, run from
    the event to its end. Nothing that can be scheduled in between
    changes what it reads: the flush of that copy leaves the fragments in
    memory and writes the counter only. *)
Definition onstop_old (now : Z) (r : Recorder) (db : StorageService.DB)
  : Res StopResult * Recorder * StorageService.DB :=
  match mediaRecorder r with
  | None => (Throw nullMediaRecorder, r, db)
  | Some mr =>
      let blob := newBlob (chunks r) (mimeType mr) in
      let duration := getElapsedTime_old now r in
      match sessionId r with
      | None => (Throw dataError, r, db)
      | Some sid =>
          (Ok (mkStopResult blob duration sid (mimeType mr)),
           resetSession r, StorageService.clearSessionChunks sid db)
      end
  end.

(** [stop()] of the older copy followed to its end. [last] is the
    fragment the last [dataavailable] event brings, just before the [stop]
    event. *)
Definition stop_old (last : Blob) (now : Z) (r : Recorder) (db : StorageService.DB)
  : Settled StopResult * Recorder * StorageService.DB :=
  match stop_call r with
  | Throw e => (Rejected e, r, db)
  | Ok (r1, false) => (Unsettled, r1, db)
  | Ok (r1, true) =>
      match onstop_old now (handleDataAvailable last r1) db with
      | (Ok result, r2, db2) => (Resolved result, r2, db2)
      | (Throw e, r2, db2) => (Rejected e, r2, db2)
      end
  end.

(** [cancel()] up to its [await], the same in both copies: the timer and
    the media recorder are stopped, with no completion handler, and the
    session's chunks are cleared when [sessionId] is set. *)
Definition cancel_begin (r : Recorder) (db : StorageService.DB)
  : Recorder * StorageService.DB :=
  (setState inactive (stopChunkInterval r),
   match sessionId r with
   | Some sid =>
       if bool_decide (sid = ""%string) then db
       else StorageService.clearSessionChunks sid db
   | None => db
   end).

(** [cancel()] followed to its end; [last] is the fragment of the last
    [dataavailable] event, when it comes before the call resumes. *)
Definition cancel (last : option Blob) (r : Recorder) (db : StorageService.DB)
  : Recorder * StorageService.DB :=
  let '(r1, db1) := cancel_begin r db in
  (resetSession
     (match last with
      | Some d => handleDataAvailable d r1
      | None => r1
      end), db1).

(** *** The calls the page makes of js/recorder.js *)

(** [StorageService.loadSessionChunks], which js/storage.js does not
    define. *)
Definition loadSessionChunksNotAFunction : JsError :=
  mkError "StorageService.loadSessionChunks is not a function" None.

(** [resumeFromRecovery(recoveryData)] of js/recorder.js: four variables
    are set from the fields of [recoveryData], and the call of
    [StorageService.loadSessionChunks] throws, before the media recorder
    is made. *)
Definition resumeFromRecovery (sid : option SessionId) (t0 : option Z)
    (pausedFor : Z) (sequence : nat) (r : Recorder) : Res unit * Recorder :=
  (Throw loadSessionChunksNotAFunction,
   mkRecorder (mediaRecorder r) (mediaStream r) (chunks r) sid sequence
     (chunkInterval r) t0 pausedFor (pauseStartTime r)).

(** [init()] once the microphone is granted, the five controls, and
    [resumeFromRecovery] with the fields of its argument. *)
Inductive Call :=
| CallInit
| CallStart (sid : SessionId) (supported : bool)
| CallPause (now : Z)
| CallResume (now : Z)
| CallStop
| CallCancel
| CallResumeFromRecovery (sid : option SessionId) (t0 : option Z)
    (pausedFor : Z) (sequence : nat).

(** The service and the store after a call, whichever way the call ends;
    [stop()] is taken up to the end of its executor, [cancel()] to its
    end. *)
Definition call (p : Page) (c : Call) : Page :=
  match c with
  | CallInit =>
      mkPage
        (mkRecorder (mediaRecorder (recorder p)) true (chunks (recorder p))
           (sessionId (recorder p)) (chunkSequence (recorder p))
           (chunkInterval (recorder p)) (startTime (recorder p))
           (pausedDuration (recorder p)) (pauseStartTime (recorder p)))
        (storage p) (pendingWrites p)
  | CallStart sid supported =>
      mkPage (snd (start sid supported (recorder p))) (storage p) (pendingWrites p)
  | CallPause now => step p (Pause now)
  | CallResume now => step p (Resume now)
  | CallStop =>
      match stop_call (recorder p) with
      | Ok (r', _) => mkPage r' (storage p) (pendingWrites p)
      | Throw _ => p
      end
  | CallCancel =>
      let '(r', db') :=
        cancel None (recorder p) (StorageService.indexed (storage p)) in
      mkPage r' (StorageService.withIndexed db' (storage p)) (pendingWrites p)
  | CallResumeFromRecovery sid t0 pausedFor sequence =>
      mkPage (snd (resumeFromRecovery sid t0 pausedFor sequence (recorder p)))
        (storage p) (pendingWrites p)
  end.

Definition calls (p : Page) (cs : list Call) : Page := fold_left call cs p.

End RecorderService.

(** ** js/drive.js: the Drive service *)
Module DriveService.

Definition ROOT_FOLDER : string := "Voice Recordings".

(** *** The remote side *)

Record RemoteFolder := mkFolder {
  folderId : FileId;
  folderName : string;
  folderParent : FileId;
  trashed : bool }.

Record RemoteFile := mkFile {
  fileId : FileId;
  fileName : string;
  fileParent : FileId;
  content : Blob }.

(** What a [fetch] comes back with: a rejected promise (no response at
    all) or a response with its status code. *)
Inductive HttpOutcome := NetworkError | Status (code : Z).

(** Google's side of the conversation. The answers it gives are not the
    program's to decide: [respond k] is the outcome of the [k]-th Drive
    request and [grant k] the token handed out at the [k]-th sign-in
    ([None]: an error response). *)
Record Remote := mkRemote {
  folders : list RemoteFolder;
  files : list RemoteFile;
  minted : nat;
  requests : nat;
  respond : nat -> HttpOutcome;
  signIns : nat;
  grant : nat -> option string }.

Definition mintId (n : nat) : FileId := ("id" ++ StorageService.toString n)%string.

(** [response.ok] *)
Definition ok (code : Z) : bool := Z.leb 200 code && Z.leb code 299.

Definition fetch (rm : Remote) : HttpOutcome * Remote :=
  (respond rm (requests rm),
   mkRemote (folders rm) (files rm) (minted rm) (S (requests rm)) (respond rm)
            (signIns rm) (grant rm)).

Definition fetchFailed : JsError := mkError "Failed to fetch" None.

(** *** The service *)

Record Drive := mkDrive {
  isInitialised : bool;
  isSignedIn : bool;
  accessToken : option string;
  folderCache : gmap string FileId }.

Definition isAuthenticated (d : Drive) : bool :=
  isSignedIn d &&
  match accessToken d with
  | Some t => negb (bool_decide (t = ""%string))
  | None => false
  end.

(** [signIn()]: settled by [handleTokenResponse]. *)
Definition signIn (d : Drive) (rm : Remote) : Res unit * Drive * Remote :=
  if negb (isInitialised d) then
    (Throw (mkError "Drive service not initialised" None), d, rm)
  else
    let rm' := mkRemote (folders rm) (files rm) (minted rm) (requests rm)
                 (respond rm) (S (signIns rm)) (grant rm) in
    match grant rm (signIns rm) with
    | None => (Throw (mkError "access_denied" None), d, rm')
    | Some token =>
        (Ok tt, mkDrive (isInitialised d) true (Some token) (folderCache d), rm')
    end.

Definition matches (name : string) (parentId : FileId) (f : RemoteFolder) : bool :=
  bool_decide (folderName f = name) && bool_decide (folderParent f = parentId)
  && negb (trashed f).

Definition findFolder (name : string) (parentId : FileId) (rm : Remote)
  : Res (option FileId) * Remote :=
  match fetch rm with
  | (NetworkError, rm') => (Throw fetchFailed, rm')
  | (Status code, rm') =>
      if ok code then
        (Ok (match List.filter (matches name parentId) (folders rm') with
             | [] => None
             | f :: _ => Some (folderId f)
             end), rm')
      else (Throw (mkError "Failed to search folders" (Some code)), rm')
  end.

Definition createFolder (name : string) (parentId : FileId) (rm : Remote)
  : Res FileId * Remote :=
  match fetch rm with
  | (NetworkError, rm') => (Throw fetchFailed, rm')
  | (Status code, rm') =>
      if ok code then
        let i := mintId (minted rm') in
        (Ok i,
         mkRemote (folders rm' ++ [mkFolder i name parentId false]) (files rm')
                  (S (minted rm')) (requests rm') (respond rm') (signIns rm')
                  (grant rm'))
      else (Throw (mkError "Failed to create folder" (Some code)), rm')
  end.

Definition uploadFile (b : Blob) (name : string) (folder : FileId) (rm : Remote)
  : Res FileId * Remote :=
  match fetch rm with
  | (NetworkError, rm') => (Throw fetchFailed, rm')
  | (Status code, rm') =>
      if ok code then
        let i := mintId (minted rm') in
        (Ok i,
         mkRemote (folders rm') (files rm' ++ [mkFile i name folder b])
                  (S (minted rm')) (requests rm') (respond rm') (signIns rm')
                  (grant rm'))
      else (Throw (mkError "Failed to upload file" (Some code)), rm')
  end.

(** [path.split('/')] *)
Fixpoint split (sep : ascii) (s : string) : list string :=
  match s with
  | EmptyString => [EmptyString]
  | String c s' =>
      if Ascii.eqb c sep then EmptyString :: split sep s'
      else
        match split sep s' with
        | p :: ps => String c p :: ps
        | [] => [String c EmptyString]
        end
  end.

(** The white space [trim()] removes, among 8-bit code units. *)
Definition isWhiteSpace (c : ascii) : bool :=
  let n := nat_of_ascii c in
  (Nat.leb 9 n && Nat.leb n 13) || Nat.eqb n 32 || Nat.eqb n 160.

Fixpoint blank (s : string) : bool :=
  match s with
  | EmptyString => true
  | String c s' => isWhiteSpace c && blank s'
  end.

(** [path.split('/').filter(p => p && p.trim() !== '')] *)
Definition pathParts (path : string) : list string :=
  List.filter (fun p => negb (blank p)) (split "/"%char path).

Definition setCache (k : string) (v : FileId) (d : Drive) : Drive :=
  mkDrive (isInitialised d) (isSignedIn d) (accessToken d) (<[k := v]> (folderCache d)).

(** The [for] loop of [ensureFolderPath] over the remaining segments. *)
Fixpoint ensureParts (parts : list string) (parentId : FileId) (currentPath : string)
    (d : Drive) (rm : Remote) : Res FileId * Drive * Remote :=
  match parts with
  | [] => (Ok parentId, d, rm)
  | folderName :: rest =>
      let currentPath :=
        (currentPath ++ (if bool_decide (currentPath = "") then "" else "/")
         ++ folderName)%string in
      match folderCache d !! currentPath with
      | Some cached => ensureParts rest cached currentPath d rm
      | None =>
          match findFolder folderName parentId rm with
          | (Throw e, rm1) => (Throw e, d, rm1)
          | (Ok found, rm1) =>
              let created :=
                match found with
                | Some f =>
                    if bool_decide (f = ""%string)
                    then createFolder folderName parentId rm1
                    else (Ok f, rm1)
                | None => createFolder folderName parentId rm1
                end in
              match created with
              | (Throw e, rm2) => (Throw e, d, rm2)
              | (Ok f, rm2) => ensureParts rest f currentPath (setCache currentPath f d) rm2
              end
          end
      end
  end.

Definition ensureFolderPath (path : string) (d : Drive) (rm : Remote)
  : Res FileId * Drive * Remote :=
  match folderCache d !! path with
  | Some cached => (Ok cached, d, rm)
  | None =>
      match ensureParts (pathParts path) "root" "" d rm with
      | (Ok parentId, d', rm') => (Ok parentId, setCache path parentId d', rm')
      | (Throw e, d', rm') => (Throw e, d', rm')
      end
  end.

Record UploadResult := mkUploadResult {
  success : bool;
  resFileId : FileId;
  resFileName : string;
  resFolderPath : string }.

(** The [try] block of [uploadRecording]. *)
Definition attemptUpload (b : Blob) (name folderPath : string)
    (d : Drive) (rm : Remote) : Res UploadResult * Drive * Remote :=
  let fullPath := if bool_decide (folderPath = ""%string) then ROOT_FOLDER
                  else folderPath in
  match ensureFolderPath fullPath d rm with
  | (Throw e, d1, rm1) => (Throw e, d1, rm1)
  | (Ok folder, d1, rm1) =>
      match uploadFile b name folder rm1 with
      | (Throw e, rm2) => (Throw e, d1, rm2)
      | (Ok f, rm2) => (Ok (mkUploadResult true f name folderPath), d1, rm2)
      end
  end.

(** [uploadRecording]. The function calls itself after a 401, so the
    embedding takes the number of nested calls it may make; [None] is a
    call that has not returned within them. *)
Fixpoint uploadRecording (fuel : nat) (b : Blob) (name folderPath : string)
    (d : Drive) (rm : Remote) : option (Res UploadResult * Drive * Remote) :=
  match fuel with
  | O => None
  | S fuel' =>
      if negb (isAuthenticated d) then
        Some (Throw (mkError "Not authenticated" None), d, rm)
      else
        match attemptUpload b name folderPath d rm with
        | (Ok r, d1, rm1) => Some (Ok r, d1, rm1)
        | (Throw e, d1, rm1) =>
            if bool_decide (errStatus e = Some 401) then
              match signIn d1 rm1 with
              | (Throw e', d2, rm2) => Some (Throw e', d2, rm2)
              | (Ok _, d2, rm2) => uploadRecording fuel' b name folderPath d2 rm2
              end
            else Some (Throw e, d1, rm1)
        end
  end.

(** *** The stored token *)

(** What the token client hands to [handleTokenResponse]. *)
Inductive TokenResponse :=
| TokenError (error : string)
| TokenGranted (access_token : string) (expires_in : Z).

(** [handleTokenResponse], with the settings store it writes the token
    to; [signIn] above is this function on the service alone. *)
Definition handleTokenResponse (response : TokenResponse) (now : Z) (d : Drive)
    (st : StorageService.Settings) : Drive * StorageService.Settings :=
  match response with
  | TokenError _ => (d, st)
  | TokenGranted token expires_in =>
      (mkDrive (isInitialised d) true (Some token) (folderCache d),
       StorageService.setSetting "driveToken"
         (StorageService.VToken token (now + expires_in * 1000)) st)
  end.

(** [init()]; [loaded] tells whether the Google scripts could be loaded.
    The promise resolves with [isSignedIn]. *)
Definition init (loaded : bool) (now : Z) (d : Drive) (st : StorageService.Settings)
  : Res bool * Drive :=
  if negb loaded then (Throw (mkError "Failed to load Google API" None), d)
  else
    let d1 := mkDrive true (isSignedIn d) (accessToken d) (folderCache d) in
    match StorageService.getSetting "driveToken" StorageService.VNull st with
    | StorageService.VToken token expiry =>
        if Z.ltb now expiry then
          (Ok true, mkDrive true true (Some token) (folderCache d))
        else (Ok (isSignedIn d1), d1)
    | _ => (Ok (isSignedIn d1), d1)
    end.

(** [signOut()] *)
Definition signOut (d : Drive) (st : StorageService.Settings)
  : Drive * StorageService.Settings :=
  (mkDrive (isInitialised d) false None ∅,
   StorageService.setSetting "driveToken" StorageService.VNull st).

End DriveService.

(** ** js/drive.js: the App object driving the local catalog *)
Module App.

Definition MAX_RETRY_COUNT : Z := 5.

(** Everything a sync pass reads or writes: the local database, the Drive
    service and its remote side, [navigator.onLine], the [isSyncing] guard,
    the sync indicator last handed to the UI, and the clock ([clock k] is
    what the [k]-th reading of the time returns). [uploads] records, oldest
    first, the ids of the recordings handed to
    [DriveService.uploadRecording]. *)
Record World := mkWorld {
  db : StorageService.DB;
  drive : DriveService.Drive;
  remote : DriveService.Remote;
  onLine : bool;
  isSyncing : bool;
  indicator : option (nat * bool);
  uploads : list nat;
  clockReads : nat;
  clock : nat -> Timestamp }.

Definition setDb (x : StorageService.DB) (w : World) : World :=
  mkWorld x (drive w) (remote w) (onLine w) (isSyncing w) (indicator w)
    (uploads w) (clockReads w) (clock w).

Definition setDrive (d : DriveService.Drive) (rm : DriveService.Remote) (w : World)
  : World :=
  mkWorld (db w) d rm (onLine w) (isSyncing w) (indicator w) (uploads w)
    (clockReads w) (clock w).

Definition setSyncing (b : bool) (w : World) : World :=
  mkWorld (db w) (drive w) (remote w) (onLine w) b (indicator w) (uploads w)
    (clockReads w) (clock w).

Definition setIndicator (i : option (nat * bool)) (w : World) : World :=
  mkWorld (db w) (drive w) (remote w) (onLine w) (isSyncing w) i (uploads w)
    (clockReads w) (clock w).

Definition logUpload (i : nat) (w : World) : World :=
  mkWorld (db w) (drive w) (remote w) (onLine w) (isSyncing w) (indicator w)
    (uploads w ++ [i]) (clockReads w) (clock w).

Definition setClockReads (n : nat) (w : World) : World :=
  mkWorld (db w) (drive w) (remote w) (onLine w) (isSyncing w) (indicator w)
    (uploads w) n (clock w).

(** The clock is read once inside [updateRecordingStatus], for
    [syncedAt], when the status written is [synced]. *)
Definition readsOf (s : StorageService.Status) : nat :=
  if decide (s = StorageService.synced_st) then 1%nat else 0%nat.

(** [await StorageService.updateRecordingStatus(id, status, extra)] *)
Definition updateRecordingStatus (i : nat) (s : StorageService.Status)
    (x : StorageService.ExtraFields) (w : World) : Res World :=
  match StorageService.updateRecordingStatus i s x (clock w (clockReads w)) (db w) with
  | Throw e => Throw e
  | Ok (_, db') => Ok (setDb db' (setClockReads (clockReads w + readsOf s) w))
  end.

(** [await StorageService.incrementRetryCount(id)]: one reading of the
    clock for [lastRetry], then the one of [updateRecordingStatus]. *)
Definition incrementRetryCount (i : nat) (w : World) : Res World :=
  match StorageService.incrementRetryCount i (clock w (clockReads w))
          (clock w (S (clockReads w))) (db w) with
  | None => Ok w
  | Some (Throw e) => Throw e
  | Some (Ok (recording, db')) =>
      Ok (setDb db'
            (setClockReads
               (S (clockReads w) + readsOf (StorageService.status recording)) w))
  end.

(** [updateSyncStatus()]: the pending count and the guard go to the UI. *)
Definition updateSyncStatus (w : World) : World :=
  setIndicator
    (Some (length (StorageService.getUnsyncedRecordings (db w)), isSyncing w)) w.

(** How the body of the [for] loop ends for one recording: the loop goes
    on, an exception leaves the loop, or the upload never returns. *)
Inductive Outcome := Continue | Abort (e : JsError) | Hang.

(** The [catch] block of the loop body. *)
Definition recordFailure (i : nat) (w : World) : World * Outcome :=
  match updateRecordingStatus i StorageService.failed StorageService.noExtra w with
  | Throw e => (w, Abort e)
  | Ok w1 =>
      match incrementRetryCount i w1 with
      | Throw e => (w1, Abort e)
      | Ok w2 => (w2, Continue)
      end
  end.

(** The body of the [for] loop for one recording of the scan. [fuel]
    bounds the nested calls of [uploadRecording]. *)
Definition syncItem (fuel : nat) (r : StorageService.Recording) (w : World)
  : World * Outcome :=
  if Z.leb MAX_RETRY_COUNT (StorageService.retryCount r) then (w, Continue)
  else
    match updateRecordingStatus (StorageService.id r) StorageService.uploading
            StorageService.noExtra w with
    | Throw _ => recordFailure (StorageService.id r) w
    | Ok w1 =>
        let w2 := logUpload (StorageService.id r) w1 in
        match DriveService.uploadRecording fuel (StorageService.blob r)
                (StorageService.fileName r) (StorageService.drivePath r)
                (drive w2) (remote w2) with
        | None => (w2, Hang)
        | Some (Throw _, d, rm) => recordFailure (StorageService.id r) (setDrive d rm w2)
        | Some (Ok result, d, rm) =>
            let w3 := setDrive d rm w2 in
            match updateRecordingStatus (StorageService.id r) StorageService.synced_st
                    (StorageService.mkExtra None (Some (DriveService.resFileId result))
                       None None) w3 with
            | Throw _ => recordFailure (StorageService.id r) w3
            | Ok w4 => (w4, Continue)
            end
        end
    end.

(** The [for] loop. *)
Fixpoint syncLoop (fuel : nat) (rs : list StorageService.Recording) (w : World)
  : World * Outcome :=
  match rs with
  | [] => (w, Continue)
  | r :: rs' =>
      match syncItem fuel r w with
      | (w', Continue) => syncLoop fuel rs' w'
      | (w', o) => (w', o)
      end
  end.

(** The [finally] block. *)
Definition finish (w : World) : World := updateSyncStatus (setSyncing false w).

(** The guard of [syncRecordings]. *)
Definition refuses (w : World) : bool :=
  isSyncing w || negb (onLine w) || negb (DriveService.isAuthenticated (drive w)).

(** A call followed to its end: it returned, leaving the world as
    given, or it is waiting for ever on an upload, with the world as it was
    left at that point. *)
Inductive Run := Returned (w : World) | Hung (w : World).

Definition worldOf (r : Run) : World :=
  match r with Returned w => w | Hung w => w end.

(** [syncRecordings()] run from call to return, with nothing else
    scheduled in between. *)
Definition syncRecordings (fuel : nat) (w : World) : Run :=
  if refuses w then Returned w
  else
    let w1 := setSyncing true w in
    let recordings := StorageService.getUnsyncedRecordings (db w1) in
    match recordings with
    | [] => Returned (finish (updateSyncStatus w1))
    | _ :: _ =>
        let w2 := setIndicator (Some (length recordings, true)) w1 in
        match syncLoop fuel recordings w2 with
        | (w3, Hang) => Hung w3
        | (w3, _) => Returned (finish w3)
        end
    end.

(** [n] passes one after the other, as the interval timer starts them;
    a pass that hangs keeps the guard, and nothing follows it. *)
Fixpoint passes (fuel n : nat) (w : World) : World :=
  match n with
  | O => w
  | S n' =>
      match syncRecordings fuel w with
      | Returned w' => passes fuel n' w'
      | Hung w' => w'
      end
  end.

(** *** The pass cut at its awaits *)

(** Where a suspended pass waits: for the scan it has issued, inside the
    loop with some recordings still to go, or for an upload that never
    returns. *)
Inductive Cont :=
| AwaitScan (recordings : list StorageService.Recording)
| InLoop (rest : list StorageService.Recording)
| Stuck.

(** The call of [syncRecordings()] up to its first [await]: the guard is
    tested and set, and the scan is issued. [None] is the early [return]. *)
Definition enter (w : World) : option (World * Cont) :=
  if refuses w then None
  else
    let w1 := setSyncing true w in
    Some (w1, AwaitScan (StorageService.getUnsyncedRecordings (db w1))).

(** A suspended pass runs on to its next suspension; [None] once it has
    returned. *)
Definition continue (fuel : nat) (k : Cont) (w : World) : World * option Cont :=
  match k with
  | AwaitScan [] => (finish (updateSyncStatus w), None)
  | AwaitScan (r :: rs) =>
      (setIndicator (Some (length (r :: rs), true)) w, Some (InLoop (r :: rs)))
  | InLoop [] => (finish w, None)
  | InLoop (r :: rs) =>
      match syncItem fuel r w with
      | (w', Continue) => (w', Some (InLoop rs))
      | (w', Abort _) => (finish w', None)
      | (w', Hang) => (w', Some Stuck)
      end
  | Stuck => (w, Some Stuck)
  end.

(** *** The recording controls *)

(** [handlePause()]: pauses a running recording, resumes a paused one. *)
Definition handlePause (now : Z) (r : RecorderService.Recorder)
    (d : StorageService.Store) : RecorderService.Recorder * StorageService.Store :=
  match RecorderService.getState r with
  | RecorderService.recording =>
      let '(r', d', _) := RecorderService.pause now r d in (r', d')
  | RecorderService.paused => (RecorderService.resume now r, d)
  | RecorderService.inactive => (r, d)
  end.

(** [handleStop()], up to the call of [syncRecordings()], over the older
    copy of the recorder (the one whose [start()] goes through): the
    recording is saved when [stop()] resolves with a blob that holds
    something. [date] is the [new Date()] of [saveRecording]; the
    [option nat] is the key of the entry written. *)
Definition handleStop (last : Blob) (now : Z) (date : JsDate)
    (r : RecorderService.Recorder) (d : StorageService.DB)
  : RecorderService.Recorder * StorageService.DB * option nat :=
  match RecorderService.stop_old last now r d with
  | (RecorderService.Resolved result, r', d') =>
      if Nat.ltb 0 (size (RecorderService.resBlob result)) then
        let '(key, d'') :=
          StorageService.saveRecording (RecorderService.resBlob result)
            (StorageService.mkMetadata (Some (RecorderService.resDuration result))
               (Some (RecorderService.resMimeType result)) None None) date d' in
        (r', d'', Some key)
      else (r', d', None)
  | (_, r', d') => (r', d', None)
  end.

(** *** Crash recovery *)

(** The body of the loop of [checkForRecovery] for one orphaned session. *)
Definition recoverSession (now : JsDate) (sid : SessionId) (d : StorageService.DB)
  : StorageService.DB :=
  let d1 :=
    match StorageService.recoverFromChunks sid d with
    | Some b =>
        if Nat.ltb 0 (size b) then
          snd (StorageService.saveRecording b
                 (StorageService.mkMetadata None None (Some true) (Some sid)) now d)
        else d
    | None => d
    end in
  StorageService.clearSessionChunks sid d1.

(** [checkForRecovery()]; [dates k] is the [new Date()] of the [k]-th
    session of the list. *)
Fixpoint recoverSessions (dates : nat -> JsDate) (k : nat) (sids : list SessionId)
    (d : StorageService.DB) : StorageService.DB :=
  match sids with
  | [] => d
  | sid :: rest => recoverSessions dates (S k) rest (recoverSession (dates k) sid d)
  end.

Definition checkForRecovery (dates : nat -> JsDate) (d : StorageService.DB)
  : StorageService.DB :=
  recoverSessions dates 0 (StorageService.getOrphanedSessions d) d.

End App.

(** ** js/drive.js: the Supabase service *)
Module SupabaseService.

(** A row of the [recordings] table, as a query returns it. *)
Record Row := mkRow {
  rowId : nat;
  title : string;
  synced_to_drive : Z }.

(** A client of the Supabase library, which is not part of the
    repository: [selected k] is the outcome of the [k]-th request made of
    it when that is a query, [updated k] when it is an update; an [error]
    in the answer is the [Throw] case. *)
Record Client := mkClient {
  requests : nat;
  selected : nat -> Res (list Row);
  updated : nat -> Res unit }.

(** The module-level variables of the service. *)
Record Service := mkService {
  supabaseUrl : option string;
  supabaseAnonKey : option string;
  supabase : option Client }.

(** [let supabaseUrl = null; let supabaseAnonKey = null; let supabase = null] *)
Definition initial : Service := mkService None None None.

Inductive JsType := TUndefined | TObject.

(** [typeof supabase], for the variable declared with
    [let supabase = null]: ['object'] for [null] and for a client alike,
    never ['undefined']. *)
Definition typeof (v : option Client) : JsType :=
  match v with
  | None => TObject
  | Some _ => TObject
  end.

(** [init(url, anonKey)]; [library] is what [window.supabase.createClient]
    would return, [None] when the library is not loaded. The client is
    created only if [typeof supabase === 'undefined']. *)
Definition init (url anonKey : string) (library : option Client) (s : Service)
  : Service :=
  match typeof (supabase s), library with
  | TUndefined, Some client => mkService (Some url) (Some anonKey) (Some client)
  | _, _ => mkService (Some url) (Some anonKey) (supabase s)
  end.

Definition notInitialized : JsError :=
  mkError "Supabase service not initialized." None.

Definition afterRequest (c : Client) (s : Service) : Service :=
  mkService (supabaseUrl s) (supabaseAnonKey s)
    (Some (mkClient (S (requests c)) (selected c) (updated c))).

(** [getUnsyncedToDriveRecords()] *)
Definition getUnsyncedToDriveRecords (s : Service) : Res (list Row) * Service :=
  match supabase s with
  | None => (Throw notInitialized, s)
  | Some c => (selected c (requests c), afterRequest c s)
  end.

(** [markSyncedToDrive(recordId, driveId)] *)
Definition markSyncedToDrive (recordId : nat) (driveId : option FileId) (s : Service)
  : Res unit * Service :=
  match supabase s with
  | None => (Throw notInitialized, s)
  | Some c => (updated c (requests c), afterRequest c s)
  end.

End SupabaseService.

(** ** js/app.js: the App object driving the queue kept in Supabase *)
Module SupabaseApp.

(** [UIService.setSyncStatus] *)
Inductive SyncStatus := syncing | synced | error.

Record World := mkWorld {
  db : StorageService.DB;
  drive : DriveService.Drive;
  remote : DriveService.Remote;
  supabase : SupabaseService.Service;
  isSyncing : bool;
  syncStatus : option SyncStatus;
  uploads : list nat;
  clockReads : nat;
  clock : nat -> Timestamp }.

Definition setSyncing (b : bool) (st : option SyncStatus) (w : World) : World :=
  mkWorld (db w) (drive w) (remote w) (supabase w) b st (uploads w)
    (clockReads w) (clock w).

(** What [FormData.append('file', recording)] sends for a row object. *)
Definition objectAsBlob : Blob :=
  mkBlob (String.list_byte_of_string "[object Object]") "".

(** How the loop body ends: the loop goes on, an exception leaves the
    [try], or the upload never returns. *)
Inductive Outcome := Continue | Abort (e : JsError) | Hang.

(** The body of the [for] loop: nothing in it catches. The row is the
    only argument of [DriveService.uploadRecording], so the file name and
    the folder path are [undefined], and so is [driveFile.id]. *)
Definition syncItem (fuel : nat) (r : SupabaseService.Row) (w : World)
  : World * Outcome :=
  let w1 := mkWorld (db w) (drive w) (remote w) (supabase w) (isSyncing w)
              (syncStatus w) (uploads w ++ [SupabaseService.rowId r])
              (clockReads w) (clock w) in
  match DriveService.uploadRecording fuel objectAsBlob "" "" (drive w1) (remote w1) with
  | None => (w1, Hang)
  | Some (Throw e, d, rm) =>
      (mkWorld (db w1) d rm (supabase w1) (isSyncing w1) (syncStatus w1)
         (uploads w1) (clockReads w1) (clock w1), Abort e)
  | Some (Ok _, d, rm) =>
      match StorageService.markRecordingAsSynced (SupabaseService.rowId r) None
              (clock w1 (clockReads w1)) (db w1) with
      | Throw e =>
          (mkWorld (db w1) d rm (supabase w1) (isSyncing w1) (syncStatus w1)
             (uploads w1) (clockReads w1) (clock w1), Abort e)
      | Ok (_, db') =>
          match SupabaseService.markSyncedToDrive (SupabaseService.rowId r) None
                  (supabase w1) with
          | (Throw e, s') =>
              (mkWorld db' d rm s' (isSyncing w1) (syncStatus w1) (uploads w1)
                 (S (clockReads w1)) (clock w1), Abort e)
          | (Ok _, s') =>
              (mkWorld db' d rm s' (isSyncing w1) (syncStatus w1) (uploads w1)
                 (S (clockReads w1)) (clock w1), Continue)
          end
      end
  end.

Fixpoint syncLoop (fuel : nat) (rs : list SupabaseService.Row) (w : World)
  : World * Outcome :=
  match rs with
  | [] => (w, Continue)
  | r :: rs' =>
      match syncItem fuel r w with
      | (w', Continue) => syncLoop fuel rs' w'
      | (w', o) => (w', o)
      end
  end.

(** [handleRecordToggle()]: starts from the inactive state, pauses a
    running recording, resumes a paused one. An exception of [start()]
    is caught and shown; what the call had done before it threw stays. *)
Definition handleRecordToggle (sid : SessionId) (supported : bool) (now : Z)
    (r : RecorderService.Recorder) (d : StorageService.Store)
  : RecorderService.Recorder * StorageService.Store :=
  match RecorderService.getState r with
  | RecorderService.inactive => (snd (RecorderService.start sid supported r), d)
  | RecorderService.recording =>
      let '(r', d', _) := RecorderService.pause now r d in (r', d')
  | RecorderService.paused => (RecorderService.resume now r, d)
  end.

Definition refuses (w : World) : bool :=
  isSyncing w || negb (DriveService.isAuthenticated (drive w)).

Inductive Run := Returned (w : World) | Hung (w : World).

Definition worldOf (r : Run) : World :=
  match r with Returned w => w | Hung w => w end.

Definition withSupabase (s : SupabaseService.Service) (w : World) : World :=
  mkWorld (db w) (drive w) (remote w) s (isSyncing w) (syncStatus w)
    (uploads w) (clockReads w) (clock w).

(** [syncRecordings()] run from call to return. *)
Definition syncRecordings (fuel : nat) (w : World) : Run :=
  if refuses w then Returned w
  else
    let w1 := setSyncing true (Some syncing) w in
    match SupabaseService.getUnsyncedToDriveRecords (supabase w1) with
    | (Throw _, s') => Returned (setSyncing false (Some error) (withSupabase s' w1))
    | (Ok unsynced, s') =>
        let w2 := withSupabase s' w1 in
        match unsynced with
        | [] => Returned (setSyncing false (Some synced) w2)
        | _ :: _ =>
            match syncLoop fuel unsynced w2 with
            | (w3, Continue) => Returned (setSyncing false (Some synced) w3)
            | (w3, Abort _) => Returned (setSyncing false (Some error) w3)
            | (w3, Hang) => Hung w3
            end
        end
    end.

(** The pass cut at its awaits, as for [App]. *)
Inductive Cont :=
| AwaitScan
| InLoop (rest : list SupabaseService.Row)
| Stuck.

(** Up to the first [await]: the guard is tested and set, the status
    indicator is switched, and the query is sent. *)
Definition enter (w : World) : option (World * Cont) :=
  if refuses w then None
  else Some (setSyncing true (Some syncing) w, AwaitScan).

Definition continue (fuel : nat) (k : Cont) (w : World) : World * option Cont :=
  match k with
  | AwaitScan =>
      match SupabaseService.getUnsyncedToDriveRecords (supabase w) with
      | (Throw _, s') => (setSyncing false (Some error) (withSupabase s' w), None)
      | (Ok [], s') => (setSyncing false (Some synced) (withSupabase s' w), None)
      | (Ok (r :: rs), s') => (withSupabase s' w, Some (InLoop (r :: rs)))
      end
  | InLoop [] => (setSyncing false (Some synced) w, None)
  | InLoop (r :: rs) =>
      match syncItem fuel r w with
      | (w', Continue) => (w', Some (InLoop rs))
      | (w', Abort _) => (setSyncing false (Some error) w', None)
      | (w', Hang) => (w', Some Stuck)
      end
  | Stuck => (w, Some Stuck)
  end.

End SupabaseApp.

(** ** Triggers and suspended passes on the one event loop *)

(** [syncRecordings] is called by the interval timer, by the [online]
    event and after a recording is saved, and each call runs until its
    next [await]; other calls and events run in between. The scheduler
    below interleaves them freely, for any pass given by its first segment
    [enter] and its resumption [continue]. *)
Module EventLoop.
Section Loop.
Context {World Cont Outside : Type}.
Variable enter : World -> option (World * Cont).
Variable continue : Cont -> World -> World * option Cont.
Variable outside : Outside -> World -> World.

(** The shared state, the passes suspended at an [await], and counts of
    the passes that got past the guard and of those that returned. *)
Record Sys := mkSys {
  world : World;
  inflight : list Cont;
  started : nat;
  returned : nat }.

Inductive Event :=
| Trigger                 (* a call of [syncRecordings()] *)
| Resume (n : nat)        (* the [n]-th suspended pass runs on *)
| Happens (o : Outside).  (* something else runs *)

Definition step (s : Sys) (e : Event) : Sys :=
  match e with
  | Trigger =>
      match enter (world s) with
      | None => s
      | Some (w', k) => mkSys w' (inflight s ++ [k]) (S (started s)) (returned s)
      end
  | Resume n =>
      match inflight s !! n with
      | None => s
      | Some k =>
          match continue k (world s) with
          | (w', Some k') => mkSys w' (<[n := k']> (inflight s)) (started s) (returned s)
          | (w', None) => mkSys w' (delete n (inflight s)) (started s) (S (returned s))
          end
      end
  | Happens o => mkSys (outside o (world s)) (inflight s) (started s) (returned s)
  end.

Definition run (s : Sys) (es : list Event) : Sys := fold_left step es s.

Definition quiescent (w : World) : Sys := mkSys w [] 0 0.
End Loop.
End EventLoop.

(** What else runs between the segments of a pass of [App]: the network
    comes or goes, the user signs out of or in to Drive, a recording is
    saved. None of it writes [isSyncing]. *)
Inductive AppOutside :=
| NetworkChange (online : bool)
| SignedOut
| SignedIn (token : string)
| RecordingSaved (b : Blob) (md : StorageService.Metadata) (now : JsDate).

Definition appOutside (o : AppOutside) (w : App.World) : App.World :=
  match o with
  | NetworkChange b =>
      App.mkWorld (App.db w) (App.drive w) (App.remote w) b (App.isSyncing w)
        (App.indicator w) (App.uploads w) (App.clockReads w) (App.clock w)
  | SignedOut =>
      App.setDrive
        (DriveService.mkDrive (DriveService.isInitialised (App.drive w)) false None ∅)
        (App.remote w) w
  | SignedIn token =>
      App.setDrive
        (DriveService.mkDrive (DriveService.isInitialised (App.drive w)) true
           (Some token) (DriveService.folderCache (App.drive w)))
        (App.remote w) w
  | RecordingSaved b md now =>
      App.setDb (snd (StorageService.saveRecording b md now (App.db w))) w
  end.

Definition supabaseOutside (o : AppOutside) (w : SupabaseApp.World) : SupabaseApp.World :=
  match o with
  | NetworkChange _ => w
  | SignedOut =>
      SupabaseApp.mkWorld (SupabaseApp.db w)
        (DriveService.mkDrive (DriveService.isInitialised (SupabaseApp.drive w))
           false None ∅)
        (SupabaseApp.remote w) (SupabaseApp.supabase w) (SupabaseApp.isSyncing w)
        (SupabaseApp.syncStatus w) (SupabaseApp.uploads w)
        (SupabaseApp.clockReads w) (SupabaseApp.clock w)
  | SignedIn token =>
      SupabaseApp.mkWorld (SupabaseApp.db w)
        (DriveService.mkDrive (DriveService.isInitialised (SupabaseApp.drive w))
           true (Some token) (DriveService.folderCache (SupabaseApp.drive w)))
        (SupabaseApp.remote w) (SupabaseApp.supabase w) (SupabaseApp.isSyncing w)
        (SupabaseApp.syncStatus w) (SupabaseApp.uploads w)
        (SupabaseApp.clockReads w) (SupabaseApp.clock w)
  | RecordingSaved b md now =>
      SupabaseApp.mkWorld
        (snd (StorageService.saveRecording b md now (SupabaseApp.db w)))
        (SupabaseApp.drive w) (SupabaseApp.remote w) (SupabaseApp.supabase w)
        (SupabaseApp.isSyncing w) (SupabaseApp.syncStatus w)
        (SupabaseApp.uploads w) (SupabaseApp.clockReads w) (SupabaseApp.clock w)
  end.

(** ** The properties, as the specification words them *)

(** [elapsed()] in the words of the specification, before any clamping:
    now - startedAt - pausedDurationTotal, less now - pauseStartedAt when
    currently paused. In milliseconds. *)
Definition elapsed_spec (now startedAt pausedDurationTotal : Z)
    (pauseStartedAt : option Z) : Z :=
  now - startedAt - pausedDurationTotal
  - match pauseStartedAt with
    | Some p => now - p
    | None => 0
    end.

(** A record [r'] that is [r] with its retry count raised by one and
    [lastRetry] set, and nothing else touched. *)
Definition retried (tRetry : Timestamp) (r r' : StorageService.Recording) : Prop :=
  r' = StorageService.assign
         (StorageService.mkExtra None None (Some (StorageService.retryCount r + 1))
            (Some tRetry)) r.

(** The entry crash recovery writes for session [sid] of the database [d]. *)
Definition recoveredEntry (sid : SessionId) (d : StorageService.DB)
    (r : StorageService.Recording) : Prop :=
  StorageService.status r = StorageService.pending
  /\ StorageService.synced r = 0
  /\ StorageService.retryCount r = 0
  /\ StorageService.recovered r = true
  /\ StorageService.originalSessionId r = Some sid
  /\ data (StorageService.blob r)
     = concat (map (fun c => data (StorageService.chunkBlob c))
                 (StorageService.getSessionChunks sid d)).

(** The bytes recovery puts together for a session. *)
Definition sessionPayload (sid : SessionId) (d : StorageService.DB) : list Byte.byte :=
  concat (map (fun c => data (StorageService.chunkBlob c))
            (StorageService.getSessionChunks sid d)).

(** The catalog entries that came from session [sid]. *)
Definition entriesOf (sid : SessionId) (l : list StorageService.Recording)
  : list StorageService.Recording :=
  List.filter (fun r => bool_decide (StorageService.originalSessionId r = Some sid)) l.

(** The uploads a run added to the log. *)
Definition newUploads (w w' : App.World) : list nat :=
  drop (length (App.uploads w)) (App.uploads w').

(** The catalog is held in the order of its primary keys. *)
Definition keyOrdered (d : StorageService.DB) : Prop :=
  StronglySorted Nat.lt (map StorageService.id (StorageService.recordings d)).

(** A catalog as the object store keeps it: in key order, every key
    below the key generator. *)
Definition wfCatalog (d : StorageService.DB) : Prop :=
  keyOrdered d
  /\ List.Forall (fun k => (k < StorageService.recordingsKeyGen d)%nat)
       (map StorageService.id (StorageService.recordings d)).

(** The frame of [incrementRetryCount] read literally: whatever record
    is stored under [i] comes back with its retry count raised, [lastRetry]
    set, and every other field as it was. *)
Definition incrementRetry_frame_as_stated : Prop :=
  forall (d : StorageService.DB) (i : nat) (tRetry tPut : Timestamp)
         (r : StorageService.Recording),
    StorageService.getRecording i (StorageService.recordings d) = Some r ->
    exists r' d',
      StorageService.incrementRetryCount i tRetry tPut d = Some (Ok (r', d'))
      /\ retried tRetry r r'.

(** [elapsed()] never negative, read literally. *)
Definition elapsed_clamped_as_stated : Prop :=
  forall (now : Z) (r : RecorderService.Recorder),
    0 <= RecorderService.getElapsedTime now r
    /\ 0 <= RecorderService.getElapsedTime_old now r.


(** The state of the event loop when passes are single-flight: either no
    pass is suspended and the guard is down, or exactly one is and the
    guard is up; every pass that got past the guard has returned or is
    that one. *)
Definition singleFlight {World Cont : Type} (guard : World -> bool)
    (s : @EventLoop.Sys World Cont) : Prop :=
  (EventLoop.inflight s = [] /\ guard (EventLoop.world s) = false
   /\ EventLoop.started s = EventLoop.returned s)
  \/ (exists k, EventLoop.inflight s = [k] /\ guard (EventLoop.world s) = true
               /\ EventLoop.started s = S (EventLoop.returned s)).

(** The first segment of a pass is guarded: it goes on only with the
    guard down and leaves it up, and with the guard up it returns at
    once. *)
Definition guardedEntry {World Cont : Type} (guard : World -> bool)
    (enter : World -> option (World * Cont)) : Prop :=
  (forall w w' k, enter w = Some (w', k) -> guard w = false /\ guard w' = true)
  /\ (forall w, guard w = true -> enter w = None).

(** What single flight means at a state [s] of the event loop: at most
    one pass is suspended, the guard is up exactly while one is, every
    pass that got past the guard has returned or is that one, a call
    arriving while a pass is suspended changes nothing, and two calls in a
    row do what one does. *)
Definition singleFlightAt {World Cont Outside : Type} (guard : World -> bool)
    (enter : World -> option (World * Cont))
    (continue : Cont -> World -> World * option Cont)
    (outside : Outside -> World -> World) (s : @EventLoop.Sys World Cont) : Prop :=
  (length (EventLoop.inflight s) <= 1)%nat
  /\ (guard (EventLoop.world s) = true <-> length (EventLoop.inflight s) = 1%nat)
  /\ EventLoop.started s
     = (EventLoop.returned s + length (EventLoop.inflight s))%nat
  /\ (EventLoop.inflight s <> [] ->
      EventLoop.step enter continue outside s EventLoop.Trigger = s)
  /\ EventLoop.step enter continue outside
       (EventLoop.step enter continue outside s EventLoop.Trigger) EventLoop.Trigger
     = EventLoop.step enter continue outside s EventLoop.Trigger.

(** Crash recovery read literally: every session with at least one
    chunk gets exactly one new catalog entry. *)
Definition recovery_as_stated : Prop :=
  forall (dates : nat -> JsDate) (d : StorageService.DB) (sid : SessionId),
    StorageService.chunksOfSession sid d <> [] ->
    exists news r,
      StorageService.recordings (App.checkForRecovery dates d)
      = StorageService.recordings d ++ news
      /\ entriesOf sid news = [r]
      /\ recoveredEntry sid d r.

(** ** Sample values *)

(** A recording that has been uploaded. *)
Definition syncedRecording : StorageService.Recording :=
  StorageService.mkRecording 1 (mkBlob [] "audio/webm") 1000 3 "a.webm"
    "recordings/2024/01/01" StorageService.synced_st 1 0 None 0 "audio/webm"
    false None (Some 2000) (Some "f1"%string) None.

(** A recorder in the middle of session [A], paused at 5000 after three
    chunks, with one fragment still in memory. *)
Definition pausedRecorder : RecorderService.Recorder :=
  RecorderService.mkRecorder
    (Some (RecorderService.mkMediaRecorder RecorderService.paused "audio/webm"))
    true [mkBlob [Byte.x01] "audio/webm"] (Some "A"%string) 3 true
    (Some 1000) 250 (Some 5000).

(** A recorder whose start time lies after the clock reading (the system
    clock was set back). *)
Definition clockSetBack : RecorderService.Recorder :=
  RecorderService.mkRecorder
    (Some (RecorderService.mkMediaRecorder RecorderService.recording "audio/webm"))
    true [] (Some "A"%string) 0 true (Some 5000) 0 None.

(** A recorder after [init()], before any recording. *)
Definition readyRecorder : RecorderService.Recorder :=
  RecorderService.mkRecorder None true [] None 0 false None 0 None.

Definition fragment : Blob := mkBlob [Byte.x48; Byte.x65] "audio/webm".

(** The recorder of the older copy right after [start()] at 1000, as
    session [A]. *)
Definition sessionA : RecorderService.Recorder :=
  RecorderService.mkRecorder
    (Some (RecorderService.mkMediaRecorder RecorderService.recording
             RecorderService.configMimeType))
    true [] (Some "A"%string) 0 true (Some 1000) 0 None.

(** A fragment arrives, the user pauses at 5000 (which flushes it) and
    resumes at 5250, a second fragment arrives, and the user pauses again
    at 35000; both writes are acknowledged. *)
Definition pausedAfterFlush : list RecorderService.Event :=
  [RecorderService.DataAvailable fragment; RecorderService.Pause 5000;
   RecorderService.ChunkSaved; RecorderService.Resume 5250;
   RecorderService.DataAvailable fragment; RecorderService.Pause 35000;
   RecorderService.ChunkSaved].

(** Session [A] after that: paused, two chunks saved, both fragments in
    memory, a quarter of a second of pause on the books. *)
Definition pausedSessionA : RecorderService.Recorder :=
  RecorderService.mkRecorder
    (Some (RecorderService.mkMediaRecorder RecorderService.paused
             RecorderService.configMimeType))
    true [fragment; fragment] (Some "A"%string) 2 true (Some 1000) 250 (Some 35000).

(** An empty store that refuses the second chunk write made of it. *)
Definition refusingSecond : StorageService.Store :=
  StorageService.mkStore StorageService.emptyDB [] 0 (fun k => negb (Nat.eqb k 1)).

(** The timer fires while the write of the pause flush is still pending,
    and the other way round. *)
Definition overlappingFlushes : list RecorderService.Event :=
  [RecorderService.DataAvailable fragment; RecorderService.TimerTick 31000;
   RecorderService.DataAvailable fragment; RecorderService.Pause 31500;
   RecorderService.ChunkSaved; RecorderService.Resume 40000;
   RecorderService.DataAvailable fragment; RecorderService.Pause 50000;
   RecorderService.DataAvailable fragment; RecorderService.TimerTick 61000;
   RecorderService.ChunkSaved; RecorderService.ChunkSaved;
   RecorderService.ChunkSaved].

(** A Drive service signed in with the token [t0], nothing cached. *)
Definition signedInDrive : DriveService.Drive :=
  DriveService.mkDrive true true (Some "t0"%string) ∅.

(** An empty Drive that answers every request with 200. *)
Definition emptyRemote : DriveService.Remote :=
  DriveService.mkRemote [] [] 0 0 (fun _ => DriveService.Status 200) 0
    (fun _ => Some "t1"%string).

(** A Drive that holds the folder [A] under the root, and answers every
    request with 200. *)
Definition driveWithA : DriveService.Remote :=
  DriveService.mkRemote [DriveService.mkFolder "x1" "A" "root" false] [] 0 0
    (fun _ => DriveService.Status 200) 0 (fun _ => Some "t1"%string).

(** An empty Drive that answers its first two requests with 401 and the
    later ones with 200, and grants a token at every sign-in. *)
Definition expiredTwice : DriveService.Remote :=
  DriveService.mkRemote [] [] 0 0
    (fun k => if Nat.ltb k 2 then DriveService.Status 401 else DriveService.Status 200)
    0 (fun _ => Some "t1"%string).

(** A pending recording, never tried. *)
Definition pendingRecording : StorageService.Recording :=
  StorageService.mkRecording 1 fragment 1000 3 "a.webm" "Notes"
    StorageService.pending 0 0 None 2 "audio/webm" false None None None None.

(** The world of a sync pass with that one recording to upload. *)
Definition expiredTwiceWorld : App.World :=
  App.mkWorld (StorageService.mkDB [pendingRecording] 2 [] 1) signedInDrive
    expiredTwice true true None [] 0 (fun k => 7000 + Z.of_nat k).

(** Between two worlds of a sync pass: the key order of the catalog is
    kept, every record but the one under [i] is as before, and the only
    id the upload log may have gained is [i]. *)
Definition touchesOnly (i : nat) (w w' : App.World) : Prop :=
  (wfCatalog (App.db w) -> wfCatalog (App.db w'))
  /\ (forall j, j <> i ->
        StorageService.getRecording j (StorageService.recordings (App.db w'))
        = StorageService.getRecording j (StorageService.recordings (App.db w)))
  /\ (is_Some (StorageService.getRecording i (StorageService.recordings (App.db w))) ->
      is_Some (StorageService.getRecording i (StorageService.recordings (App.db w'))))
  /\ exists l, App.uploads w' = App.uploads w ++ l /\ forall j, In j l -> j = i.

(** Between two worlds of a sync pass: the record under [i] is as
    before, [i] was not handed to the uploader, and the key order of the
    catalog is kept. *)
Definition spares (i : nat) (w w' : App.World) : Prop :=
  (wfCatalog (App.db w) -> wfCatalog (App.db w'))
  /\ StorageService.getRecording i (StorageService.recordings (App.db w'))
     = StorageService.getRecording i (StorageService.recordings (App.db w))
  /\ exists l, App.uploads w' = App.uploads w ++ l /\ ~ In i l.

(** The recordings of a scan the loop does not step over. *)
Definition eligible (rs : list StorageService.Recording) : list StorageService.Recording :=
  List.filter (fun r => negb (Z.leb App.MAX_RETRY_COUNT (StorageService.retryCount r))) rs.

(** A suspended pass has no recording stored under [i] left to process
    other than ones at the retry limit. *)
Definition contSpares (i : nat) (k : App.Cont) : Prop :=
  match k with
  | App.AwaitScan rs | App.InLoop rs =>
      forall r, In r rs -> StorageService.id r = i ->
                App.MAX_RETRY_COUNT <= StorageService.retryCount r
  | App.Stuck => True
  end.

(** What holds of the event loop started in the world [w0], for a record
    [r] stored under [i]: the catalog is well formed, [r] is still there
    under [i], no suspended pass is about to process it, and [i] is not
    among the uploads made since [w0]. *)
Definition deadLetterInv (i : nat) (r : StorageService.Recording) (w0 : App.World)
    (s : @EventLoop.Sys App.World App.Cont) : Prop :=
  wfCatalog (App.db (EventLoop.world s))
  /\ StorageService.getRecording i
       (StorageService.recordings (App.db (EventLoop.world s))) = Some r
  /\ List.Forall (contSpares i) (EventLoop.inflight s)
  /\ exists l, App.uploads (EventLoop.world s) = App.uploads w0 ++ l /\ ~ In i l.

(** A client the Supabase library could hand out: its queries return two
    rows, its updates succeed. *)
Definition twoRowsClient : SupabaseService.Client :=
  SupabaseService.mkClient 0
    (fun _ => Ok [SupabaseService.mkRow 1 "first" 0; SupabaseService.mkRow 2 "second" 0])
    (fun _ => Ok tt).

(** The Supabase service as the page has it once [App.init()] of
    js/app.js has called [SupabaseService.init], with the library loaded
    and ready to hand out that client. *)
Definition initialisedSupabase : SupabaseService.Service :=
  SupabaseService.init "https://project.supabase.co" "anon-key" (Some twoRowsClient)
    SupabaseService.initial.

(** A Drive whose first answer is a 500 and which is fine afterwards. *)
Definition failsOnce : DriveService.Remote :=
  DriveService.mkRemote [] [] 0 0
    (fun k => if Nat.eqb k 0 then DriveService.Status 500 else DriveService.Status 200)
    0 (fun _ => Some "t1"%string).

(** The world of the pass of js/app.js with that service, two recordings
    in the local catalog, and a Drive whose first answer is a 500. *)
Definition firstUploadFails : SupabaseApp.World :=
  SupabaseApp.mkWorld
    (StorageService.mkDB
       [pendingRecording;
        StorageService.mkRecording 2 fragment 2000 3 "b.webm" "Notes"
          StorageService.pending 0 0 None 2 "audio/webm" false None None None None]
       3 [] 1)
    signedInDrive failsOnce initialisedSupabase false None [] 0
    (fun k => 7000 + Z.of_nat k).

(** The same catalog and the same Drive under the pass of [App]. *)
Definition firstUploadFailsApp : App.World :=
  App.mkWorld (SupabaseApp.db firstUploadFails) signedInDrive failsOnce true false
    None [] 0 (fun k => 7000 + Z.of_nat k).

(** A recording that has used up its retries, next to a pending one. *)
Definition deadLetter : StorageService.Recording :=
  StorageService.mkRecording 1 fragment 1000 3 "a.webm" "Notes"
    StorageService.failed 0 5 (Some 6000) 2 "audio/webm" false None None None None.

Definition deadLetterWorld : App.World :=
  App.mkWorld
    (StorageService.mkDB
       [deadLetter;
        StorageService.mkRecording 2 fragment 2000 3 "b.webm" "Notes"
          StorageService.pending 0 0 None 2 "audio/webm" false None None None None]
       3 [] 1)
    signedInDrive emptyRemote true false None [] 0 (fun k => 7000 + Z.of_nat k).

(** A signed-in, online world with the two recordings waiting. *)
Definition idleWorld : App.World :=
  App.mkWorld (SupabaseApp.db firstUploadFails) signedInDrive emptyRemote true false
    None [] 0 (fun k => 7000 + Z.of_nat k).

Definition idleSupabaseWorld : SupabaseApp.World :=
  SupabaseApp.mkWorld (SupabaseApp.db firstUploadFails) signedInDrive emptyRemote
    initialisedSupabase false None [] 0 (fun k => 7000 + Z.of_nat k).

(** The interval timer and the [online] event call [syncRecordings] one
    right after the other; the pass that got in runs on, is called again
    in its middle, and finishes. *)
Definition doubleTrigger : list (@EventLoop.Event AppOutside) :=
  [EventLoop.Trigger; EventLoop.Trigger; EventLoop.Resume 0;
   EventLoop.Happens (NetworkChange true); EventLoop.Trigger;
   EventLoop.Resume 0; EventLoop.Resume 1; EventLoop.Resume 0;
   EventLoop.Resume 0].

(** The clock of the samples. *)
Definition someDay (k : nat) : JsDate := mkDate (9000 + Z.of_nat k) 2024 0 15 10 30 k.

(** A chunk log holding one chunk, of no bytes, for session [S]. *)
Definition emptyChunkOnly : StorageService.DB :=
  StorageService.mkDB [] 1
    [StorageService.mkChunk 1 "S" 0 (mkBlob [] "audio/webm") 500] 2.

(** The chunk log of the specification's example: [He] then [llo] for
    session [S], written here out of order and next to another session. *)
Definition helloChunks : StorageService.DB :=
  StorageService.mkDB [] 1
    [StorageService.mkChunk 1 "S" 1
       (mkBlob (String.list_byte_of_string "llo") "audio/webm") 600;
     StorageService.mkChunk 2 "T" 0
       (mkBlob (String.list_byte_of_string "other") "audio/webm") 650;
     StorageService.mkChunk 3 "S" 0
       (mkBlob (String.list_byte_of_string "He") "audio/webm") 500] 4.

(** ** Invariants of the catalog *)

(** The [synced] index key of a record mirrors its status: 1 exactly for
    [synced]. *)
Definition mirrored (r : StorageService.Recording) : Prop :=
  StorageService.synced r
  = if decide (StorageService.status r = StorageService.synced_st) then 1 else 0.

Definition mirroredCatalog (d : StorageService.DB) : Prop :=
  List.Forall mirrored (StorageService.recordings d).

(** Newest first. *)
Definition newerFirst (a b : StorageService.Recording) : Prop :=
  StorageService.timestamp b <= StorageService.timestamp a.

(** A catalog of three recordings: one uploaded, one waiting, one that
    has failed twice. *)
Definition threeRecordings : StorageService.DB :=
  StorageService.mkDB
    [syncedRecording;
     StorageService.mkRecording 2 fragment 3000 3 "b.webm" "Notes"
       StorageService.pending 0 0 None 2 "audio/webm" false None None None None;
     StorageService.mkRecording 4 fragment 2500 3 "c.webm" "Notes"
       StorageService.failed 0 2 (Some 6000) 2 "audio/webm" false None None None None]
    5 [] 1.

(** ** Decimal strings *)

(** A decimal digit, as a code unit. *)
Definition isDigit (c : ascii) : bool :=
  Nat.leb 48 (nat_of_ascii c) && Nat.leb (nat_of_ascii c) 57.

Fixpoint allDigits (s : string) : bool :=
  match s with
  | EmptyString => true
  | String c s' => isDigit c && allDigits s'
  end.

(** The number a string of decimal digits reads as, continuing from the
    value [v] of the digits already read. *)
Fixpoint readDigits (s : string) (v : nat) : nat :=
  match s with
  | EmptyString => v
  | String c s' => readDigits s' (10 * v + (nat_of_ascii c - 48))
  end.

(** The code unit [sep] does not occur in [s]. *)
Fixpoint noSep (sep : ascii) (s : string) : bool :=
  match s with
  | EmptyString => true
  | String c s' => negb (Ascii.eqb c sep) && noSep sep s'
  end.

(** ** Runs of the recorder *)

(** The fragment of the last [dataavailable] event, as
    [handleDataAvailable] keeps it. *)
Definition kept (last : Blob) : list Blob :=
  if Nat.ltb 0 (size last) then [last] else [].

(** A recorder in the middle of session [A], running, with two
    fragments in memory. *)
Definition runningRecorder : RecorderService.Recorder :=
  RecorderService.mkRecorder
    (Some (RecorderService.mkMediaRecorder RecorderService.recording "audio/webm"))
    true [fragment; fragment] (Some "A"%string) 1 true (Some 1000) 0 None.

(** The chunk that session has flushed, next to one of another session. *)
Definition oneChunkOfA : StorageService.DB :=
  StorageService.mkDB [] 1
    [StorageService.mkChunk 1 "A" 0 fragment 31000;
     StorageService.mkChunk 2 "T" 0 fragment 650] 3.

(** The number a flush of js/recorder.js has put in the object it hands
    to the store. *)
Definition numberOf (u : StorageService.UnlistedChunk) : nat :=
  StorageService.o_sequence (StorageService.u_sessionId u).


(** One call of [SupabaseService.init], with the URL, the key, and the
    client library as the page has it at the time. *)
Definition initWith (s : SupabaseService.Service)
    (a : string * string * option SupabaseService.Client) : SupabaseService.Service :=
  let '(url, anonKey, library) := a in SupabaseService.init url anonKey library s.

(** A store that accepts every chunk write, over the database [d]. *)
Definition accepting (d : StorageService.DB) : StorageService.Store :=
  StorageService.mkStore d [] 0 (fun _ => true).

(** The service of js/recorder.js at rest: the media recorder, if there
    is one, inactive, nothing in memory, the flush timer off and no chunk
    write pending. *)
Definition idle (p : RecorderService.Page) : Prop :=
  RecorderService.getState (RecorderService.recorder p) = RecorderService.inactive
  /\ RecorderService.chunks (RecorderService.recorder p) = []
  /\ RecorderService.chunkInterval (RecorderService.recorder p) = false
  /\ RecorderService.pendingWrites p = [].

(** The store [st'] is the store [st], but for the chunks of the
    sessions that were cleared. *)
Definition trimmed (st st' : StorageService.Store) : Prop :=
  StorageService.unlisted st' = StorageService.unlisted st
  /\ StorageService.writes st' = StorageService.writes st
  /\ StorageService.recordings (StorageService.indexed st')
     = StorageService.recordings (StorageService.indexed st)
  /\ forall sid,
       StorageService.chunksOfSession sid (StorageService.indexed st')
       = StorageService.chunksOfSession sid (StorageService.indexed st)
       \/ StorageService.chunksOfSession sid (StorageService.indexed st') = [].

(** The fragments a run of events hands to [handleDataAvailable], less
    the empty ones it drops. *)
Definition fragmentsOf (es : list RecorderService.Event) : list Blob :=
  flat_map (fun e => match e with
                     | RecorderService.DataAvailable d => kept d
                     | _ => []
                     end) es.

(** What holds all along a session of the older copy of the recorder:
    the session and the media recorder stay, and every chunk the session
    has in the store is a prefix of what is held in memory. *)
Definition oldSessionInv (sid : SessionId) (s : RecorderService.Session) : Prop :=
  RecorderService.sessionId (RecorderService.rec s) = Some sid
  /\ RecorderService.getState (RecorderService.rec s) <> RecorderService.inactive
  /\ forall c, In c (StorageService.chunksOfSession sid (RecorderService.store s)) ->
       exists rest,
         concat (map data (RecorderService.chunks (RecorderService.rec s)))
         = data (StorageService.chunkBlob c) ++ rest.

(** ** The Drive side *)

(** A Drive without duplicates: every folder has an id, and no two live
    folders have the same name under the same parent. *)
Definition tidy (rm : DriveService.Remote) : Prop :=
  (forall f, In f (DriveService.folders rm) -> DriveService.folderId f <> ""%string)
  /\ forall name parent,
       (length (List.filter (DriveService.matches name parent) (DriveService.folders rm))
        <= 1)%nat.

(** A Drive that answers every request with a 2xx status. *)
Definition reliable (rm : DriveService.Remote) : Prop :=
  forall k, exists code,
    DriveService.respond rm k = DriveService.Status code /\ DriveService.ok code = true.


(** A Drive that never answers a request with the status 401. *)
Definition never401 (rm : DriveService.Remote) : Prop :=
  forall k, DriveService.respond rm k <> DriveService.Status 401.

(** Where the segments [parts] lead on the Drive [rm], starting from the
    folder [parent], when each of them names exactly one live folder under
    the one before; [None] as soon as a segment names no folder, or more
    than one. *)
Fixpoint folderAt (parts : list string) (parent : FileId) (rm : DriveService.Remote)
  : option FileId :=
  match parts with
  | [] => Some parent
  | name :: rest =>
      match List.filter (DriveService.matches name parent) (DriveService.folders rm) with
      | [f] => folderAt rest (DriveService.folderId f) rm
      | _ => None
      end
  end.

(** The cache tells the truth about the Drive: every path it holds leads,
    one folder per segment, to the id kept for it. *)
Definition soundCache (d : DriveService.Drive) (rm : DriveService.Remote) : Prop :=
  forall path f,
    DriveService.folderCache d !! path = Some f ->
    folderAt (DriveService.pathParts path) "root" rm = Some f.

(** The cache key [ensureFolderPath] has built once it has walked the
    segments [parts]. *)
Definition joinPath (parts : list string) : string :=
  fold_left
    (fun currentPath folderName =>
       (currentPath ++ (if bool_decide (currentPath = "") then "" else "/")
        ++ folderName)%string)
    parts ""%string.

(** A segment as [pathParts] keeps them: without a slash, and not
    blank. *)
Definition segment (p : string) : Prop :=
  noSep "/" p = true /\ DriveService.blank p = false.

(** What [ensureFolderPath] does to the service and to Drive, one step
    at a time: a request is sent, a folder is created where [findFolder]
    has found none (or one without an id), an id is put in the cache. *)
Inductive driveStep
  : DriveService.Drive * DriveService.Remote
    -> DriveService.Drive * DriveService.Remote -> Prop :=
| step_request d rm : driveStep (d, rm) (d, snd (DriveService.fetch rm))
| step_folder d rm name parent :
    match List.filter (DriveService.matches name parent) (DriveService.folders rm) with
    | [] => True
    | f :: _ => DriveService.folderId f = ""%string
    end ->
    driveStep (d, rm)
      (d, DriveService.mkRemote
            (DriveService.folders rm
             ++ [DriveService.mkFolder (DriveService.mintId (DriveService.minted rm))
                   name parent false])
            (DriveService.files rm) (S (DriveService.minted rm))
            (DriveService.requests rm) (DriveService.respond rm)
            (DriveService.signIns rm) (DriveService.grant rm))
| step_cache d rm k v : driveStep (d, rm) (DriveService.setCache k v d, rm).

(** What such steps leave as it is: the files, the answers Drive and the
    token client will give, the sign-in state; folders are only added, and
    a tidy Drive stays tidy. *)
Definition keepsDrive (x y : DriveService.Drive * DriveService.Remote) : Prop :=
  DriveService.files (snd y) = DriveService.files (snd x)
  /\ DriveService.respond (snd y) = DriveService.respond (snd x)
  /\ DriveService.grant (snd y) = DriveService.grant (snd x)
  /\ DriveService.signIns (snd y) = DriveService.signIns (snd x)
  /\ DriveService.isInitialised (fst y) = DriveService.isInitialised (fst x)
  /\ DriveService.isSignedIn (fst y) = DriveService.isSignedIn (fst x)
  /\ DriveService.accessToken (fst y) = DriveService.accessToken (fst x)
  /\ (exists l, DriveService.folders (snd y) = DriveService.folders (snd x) ++ l)
  /\ (tidy (snd x) -> tidy (snd y)).

(** A freshly loaded page: the Drive service before [init()]. *)
Definition freshDrive : DriveService.Drive := DriveService.mkDrive false false None ∅.

(** Calls of [syncRecordings()] that arrive while a pass is suspended:
    before each resumption of the pass, as many more calls are made as
    the list tells for it. *)
Definition callsBetween (ts : list nat) : list (@EventLoop.Event AppOutside) :=
  flat_map (fun t => repeat EventLoop.Trigger t ++ [EventLoop.Resume 0]) ts.

(** How a pass of [App] leaves a recording it has handed to the
    uploader: [synced], or [failed] with one more retry counted (for a
    count the addition is exact on); the blob stays. *)
Definition settled (r0 r' : StorageService.Recording) : Prop :=
  StorageService.blob r' = StorageService.blob r0
  /\ ((StorageService.status r' = StorageService.synced_st
       /\ StorageService.synced r' = 1
       /\ StorageService.retryCount r' = StorageService.retryCount r0)
      \/ (StorageService.status r' = StorageService.failed
          /\ StorageService.synced r' = 0
          /\ (StorageService.safeCount (StorageService.retryCount r0) ->
              StorageService.retryCount r' = StorageService.retryCount r0 + 1))).

(** ** The writes of a sync pass *)

(** The two kinds of write a pass of [App] makes to the catalog: a
    status, with a file id whenever the status is [synced], and a retry
    increment. *)
Inductive passWrite : StorageService.DB -> StorageService.DB -> Prop :=
| write_status i s f now d r' d' :
    (s = StorageService.synced_st -> is_Some f) ->
    StorageService.updateRecordingStatus i s
      (StorageService.mkExtra None f None None) now d = Ok (r', d') ->
    passWrite d d'
| write_retry i tRetry tPut d r' d' :
    StorageService.incrementRetryCount i tRetry tPut d = Some (Ok (r', d')) ->
    passWrite d d'.

(** A record as a pass may leave it: payload, names and origin as they
    were, the retry count not lower. *)
Definition carriedOver (r r' : StorageService.Recording) : Prop :=
  StorageService.id r' = StorageService.id r
  /\ StorageService.blob r' = StorageService.blob r
  /\ StorageService.timestamp r' = StorageService.timestamp r
  /\ StorageService.duration r' = StorageService.duration r
  /\ StorageService.fileName r' = StorageService.fileName r
  /\ StorageService.drivePath r' = StorageService.drivePath r
  /\ StorageService.fileSize r' = StorageService.fileSize r
  /\ StorageService.mimeType r' = StorageService.mimeType r
  /\ StorageService.recovered r' = StorageService.recovered r
  /\ StorageService.originalSessionId r' = StorageService.originalSessionId r
  /\ StorageService.retryCount r <= StorageService.retryCount r'.

(** A database as a pass may leave it: every record carried over under
    its id, no record added, the chunk log and the key generator as they
    were. *)
Definition catalogCarriedOver (d d' : StorageService.DB) : Prop :=
  (forall i r, StorageService.getRecording i (StorageService.recordings d) = Some r ->
     exists r', StorageService.getRecording i (StorageService.recordings d') = Some r'
                /\ carriedOver r r')
  /\ (forall i, StorageService.getRecording i (StorageService.recordings d) = None ->
        StorageService.getRecording i (StorageService.recordings d') = None)
  /\ StorageService.chunks d' = StorageService.chunks d
  /\ StorageService.chunksKeyGen d' = StorageService.chunksKeyGen d
  /\ StorageService.recordingsKeyGen d' = StorageService.recordingsKeyGen d.

(** Every record marked as uploaded carries the id of its Drive file. *)
Definition uploadedHasFile (d : StorageService.DB) : Prop :=
  List.Forall
    (fun r => StorageService.status r = StorageService.synced_st ->
              is_Some (StorageService.driveFileId r))
    (StorageService.recordings d).

(** The files a run has added to Drive, as name and content. *)
Definition newFiles (w w' : App.World) : list (string * Blob) :=
  map (fun f => (DriveService.fileName f, DriveService.content f))
    (drop (length (DriveService.files (App.remote w)))
       (DriveService.files (App.remote w'))).


(** * Proofs *)

(** ** The catalog *)
Section Catalog.
Import StorageService.

Lemma getRecording_id i l r : getRecording i l = Some r -> id r = i.
Proof.
  induction l as [|x l IH]; simpl; [discriminate|].
  destruct (Nat.eqb_spec (id x) i); [intros [= <-]; assumption | exact IH].
Qed.

Lemma getRecording_In i l r : getRecording i l = Some r -> In r l.
Proof.
  induction l as [|x l IH]; simpl; [discriminate|].
  destruct (Nat.eqb (id x) i); [intros [= <-]; now left | right; auto].
Qed.

Lemma getRecording_put_eq r l : getRecording (id r) (put r l) = Some r.
Proof.
  induction l as [|x l IH]; simpl.
  - now rewrite Nat.eqb_refl.
  - destruct (Nat.eqb_spec (id x) (id r)) as [E|N]; simpl.
    + now rewrite Nat.eqb_refl.
    + destruct (Nat.ltb (id r) (id x)); simpl.
      * now rewrite Nat.eqb_refl.
      * destruct (Nat.eqb_spec (id x) (id r)); [contradiction | exact IH].
Qed.

Lemma getRecording_put_ne r l j :
  j <> id r -> getRecording j (put r l) = getRecording j l.
Proof.
  intros Hj. induction l as [|x l IH]; simpl.
  - destruct (Nat.eqb_spec (id r) j); [congruence | reflexivity].
  - destruct (Nat.eqb_spec (id x) (id r)) as [E|N]; simpl.
    + destruct (Nat.eqb_spec (id r) j); [congruence|].
      destruct (Nat.eqb_spec (id x) j); [congruence | reflexivity].
    + destruct (Nat.ltb (id r) (id x)); simpl.
      * destruct (Nat.eqb_spec (id r) j); [congruence | reflexivity].
      * destruct (Nat.eqb (id x) j); [reflexivity | exact IH].
Qed.

Lemma In_getRecording_Some r l :
  In r l -> exists r', getRecording (id r) l = Some r'.
Proof.
  induction l as [|x l IH]; simpl; [tauto|].
  intros [->|HIn].
  - rewrite Nat.eqb_refl. eauto.
  - destruct (Nat.eqb (id x) (id r)); eauto.
Qed.

(** In a key-ordered store a key leads to the one record that has it. *)
Lemma In_getRecording r l :
  StronglySorted Nat.lt (map id l) -> In r l -> getRecording (id r) l = Some r.
Proof.
  induction l as [|x l IH]; simpl; [tauto|].
  intros Hs [->|HIn].
  - now rewrite Nat.eqb_refl.
  - apply StronglySorted_inv in Hs as [Hs Hx].
    destruct (Nat.eqb_spec (id x) (id r)) as [E|N]; [|auto].
    exfalso. rewrite List.Forall_forall in Hx.
    specialize (Hx (id r) (in_map id _ _ HIn)). unfold Nat.lt in Hx. lia.
Qed.

(** Replacing a record of a key-ordered store keeps the keys. *)
Lemma put_keys r l :
  StronglySorted Nat.lt (map id l) -> In (id r) (map id l) ->
  map id (put r l) = map id l.
Proof.
  induction l as [|x l IH]; simpl; [tauto|].
  intros Hs HIn. apply StronglySorted_inv in Hs as [Hs Hx].
  destruct (Nat.eqb_spec (id x) (id r)) as [E|N]; simpl.
  - now rewrite E.
  - destruct HIn as [E|HIn]; [contradiction|].
    rewrite List.Forall_forall in Hx. specialize (Hx _ HIn). unfold Nat.lt in Hx.
    destruct (Nat.ltb_spec (id r) (id x)); [lia|].
    simpl. f_equal. auto.
Qed.

Lemma getRecording_Some_key i l r :
  getRecording i l = Some r -> In i (map id l).
Proof.
  intros H. rewrite <- (getRecording_id _ _ _ H).
  apply in_map. eapply getRecording_In; eauto.
Qed.

Lemma updateRecordingStatus_found i s x now d r :
  getRecording i (recordings d) = Some r ->
  updateRecordingStatus i s x now d
  = Ok (assign x (setStatus s now r),
        mkDB (put (assign x (setStatus s now r)) (recordings d))
             (recordingsKeyGen d) (chunks d) (chunksKeyGen d)).
Proof. intros H. unfold updateRecordingStatus. now rewrite H. Qed.

Lemma updateRecordingStatus_keyOrdered i s x now d r' d' :
  keyOrdered d -> updateRecordingStatus i s x now d = Ok (r', d') ->
  keyOrdered d' /\ map id (recordings d') = map id (recordings d).
Proof.
  unfold keyOrdered, updateRecordingStatus. intros Hs.
  destruct (getRecording i (recordings d)) as [r|] eqn:E; [|discriminate].
  intros [= <- <-]. simpl.
  assert (HK: map id (put (assign x (setStatus s now r)) (recordings d))
              = map id (recordings d)).
  { apply put_keys; [assumption|]. simpl.
    rewrite (getRecording_id _ _ _ E). eapply getRecording_Some_key; eauto. }
  rewrite HK. auto.
Qed.

Lemma updateRecordingStatus_wf i s x now d r' d' :
  wfCatalog d -> updateRecordingStatus i s x now d = Ok (r', d') -> wfCatalog d'.
Proof.
  intros [K F] H.
  destruct (updateRecordingStatus_keyOrdered _ _ _ _ _ _ _ K H) as [K' M].
  split; [exact K'|]. rewrite M.
  revert H. unfold updateRecordingStatus.
  destruct (getRecording i (recordings d)); [|discriminate].
  intros [= _ <-]. exact F.
Qed.

(** Adding a recording keeps the catalog well formed and the records
    that were there within reach. *)
Lemma saveRecording_wf b md now d :
  wfCatalog d -> wfCatalog (snd (saveRecording b md now d)).
Proof.
  intros [K F]. unfold wfCatalog, keyOrdered, saveRecording in *. simpl.
  rewrite map_app. simpl. split.
  - induction (map id (recordings d)) as [|k l IH]; simpl.
    + repeat constructor.
    + apply StronglySorted_inv in K as [K Hk]. apply Forall_inv in F as Hlt.
      apply Forall_inv_tail in F. constructor; [auto|].
      apply List.Forall_app. split; [exact Hk|]. constructor; [exact Hlt|constructor].
  - apply List.Forall_app. split.
    + eapply List.Forall_impl; [|exact F]. simpl. intros k Hk. lia.
    + constructor; [lia|constructor].
Qed.

Lemma getRecording_app_l i l l' r :
  getRecording i l = Some r -> getRecording i (l ++ l') = Some r.
Proof.
  induction l as [|x l IH]; simpl; [discriminate|].
  destruct (Nat.eqb (id x) i); auto.
Qed.

(** A write to record [i] leaves every other record as it is. *)
Lemma updateRecordingStatus_other i s x now d r' d' j :
  updateRecordingStatus i s x now d = Ok (r', d') -> j <> i ->
  getRecording j (recordings d') = getRecording j (recordings d).
Proof.
  unfold updateRecordingStatus.
  destruct (getRecording i (recordings d)) as [r|] eqn:E; [|discriminate].
  intros [= <- <-] Hj. simpl. apply getRecording_put_ne. simpl.
  now rewrite (getRecording_id _ _ _ E).
Qed.

Lemma updateRecordingStatus_same i s x now d r' d' :
  updateRecordingStatus i s x now d = Ok (r', d') ->
  getRecording i (recordings d') = Some r'.
Proof.
  unfold updateRecordingStatus.
  destruct (getRecording i (recordings d)) as [r|] eqn:E; [|discriminate].
  intros [= <- <-]. simpl.
  pose proof (getRecording_put_eq (assign x (setStatus s now r)) (recordings d)) as H.
  simpl in H. now rewrite (getRecording_id _ _ _ E) in H.
Qed.
End Catalog.

(** ** incrementRetryCount *)
Section IncrementRetry.
Import StorageService.

(** C10, as stated, fails: for a recording whose status is [synced],
    [incrementRetryCount] goes through [updateRecordingStatus], which
    stamps [syncedAt] anew. *)
Lemma incrementRetry_frame_counterexample : ~ incrementRetry_frame_as_stated.
Proof.
  intros H.
  destruct (H (mkDB [syncedRecording] 2 [] 1) 1%nat 5000 6000 syncedRecording
              eq_refl) as (r' & d' & Hrun & Hret).
  vm_compute in Hrun. injection Hrun as <- _.
  unfold retried in Hret. vm_compute in Hret. discriminate Hret.
Qed.

(** C10, amended: for a recording stored under [i],
    [incrementRetryCount] raises [retryCount] by one when the count is
    one the addition is exact on (from -2^53 to 2^53 - 1), sets [lastRetry],
    keeps [status], [blob], [fileName], [drivePath] and the other fields,
    except that the [synced] mirror is recomputed from the status and, for
    a [synced] recording, [syncedAt] is set to the time of the write;
    every other record and the chunk log are untouched. With no record
    under [i] it returns without writing. *)
Theorem incrementRetryCount_frame (d : DB) (i : nat) (tRetry tPut : Timestamp) :
  match getRecording i (recordings d) with
  | Some r =>
      exists r' d',
        incrementRetryCount i tRetry tPut d = Some (Ok (r', d'))
        /\ getRecording i (recordings d') = Some r'
        /\ (safeCount (retryCount r) -> retryCount r' = retryCount r + 1)
        /\ lastRetry r' = Some tRetry
        /\ status r' = status r
        /\ (id r' = id r /\ blob r' = blob r /\ timestamp r' = timestamp r
            /\ duration r' = duration r /\ fileName r' = fileName r
            /\ drivePath r' = drivePath r /\ fileSize r' = fileSize r
            /\ mimeType r' = mimeType r /\ recovered r' = recovered r
            /\ originalSessionId r' = originalSessionId r
            /\ driveFileId r' = driveFileId r /\ driveId r' = driveId r)
        /\ synced r' = (if decide (status r = synced_st) then 1 else 0)
        /\ syncedAt r' = (if decide (status r = synced_st) then Some tPut
                          else syncedAt r)
        /\ (forall j, j <> i ->
              getRecording j (recordings d') = getRecording j (recordings d))
        /\ chunks d' = chunks d
  | None => incrementRetryCount i tRetry tPut d = None
  end.
Proof.
  unfold incrementRetryCount.
  destruct (getRecording i (recordings d)) as [r|] eqn:E; [|reflexivity].
  rewrite (updateRecordingStatus_found _ _ _ _ _ _ E).
  eexists. eexists. split; [reflexivity|].
  split.
  { simpl.
    pose proof (getRecording_put_eq
      (assign (mkExtra None None (Some (retryCount r + 1)) (Some tRetry))
         (setStatus (status r) tPut r)) (recordings d)) as H.
    simpl in H. now rewrite (getRecording_id _ _ _ E) in H. }
  simpl. repeat split; try reflexivity.
  intros j Hj. apply getRecording_put_ne. simpl.
  now rewrite (getRecording_id _ _ _ E).
Qed.

(** For the recordings the sync pass calls it on (status [failed], so
    not [synced], with the mirror at 0) the literal frame does hold. *)
Lemma incrementRetryCount_frame_unsynced d i tRetry tPut r :
  getRecording i (recordings d) = Some r ->
  status r <> synced_st -> synced r = 0 ->
  exists r' d',
    incrementRetryCount i tRetry tPut d = Some (Ok (r', d'))
    /\ retried tRetry r r'.
Proof.
  intros E Hs H0. unfold incrementRetryCount. rewrite E.
  rewrite (updateRecordingStatus_found _ _ _ _ _ _ E).
  eexists. eexists. split; [reflexivity|].
  unfold retried, assign, setStatus. simpl.
  destruct (decide (status r = synced_st)); [contradiction|].
  rewrite H0. reflexivity.
Qed.
End IncrementRetry.

(** ** The recorder *)
Section Recorder.
Import RecorderService.

(** C8, as stated, fails: nothing clamps the result. With the start
    time 5000 and the clock at 1000 both versions return -4. *)
Lemma elapsed_clamped_counterexample : ~ elapsed_clamped_as_stated.
Proof.
  intros H. destruct (H 1000 clockSetBack) as [H1 _].
  vm_compute in H1. apply H1. reflexivity.
Qed.

Lemma floor_seconds_sign (a : Z) : 0 <= a / 1000 <-> 0 <= a.
Proof.
  split; intros H.
  - destruct (Z.le_gt_cases 0 a) as [|Hneg]; [assumption|].
    pose proof (Z.div_lt_upper_bound a 1000 0). lia.
  - apply Z.div_pos; lia.
Qed.

Lemma truthy_Some v : truthy v = true -> v = Some (default 0 v).
Proof. destruct v; simpl; [reflexivity | discriminate]. Qed.

(** C8, amended: [getElapsedTime] returns, in whole seconds rounded
    down, now - startTime - pausedDuration, less now - pauseStartTime
    when paused ([pauseStartTime] set and, in js/recorder.js, the
    recorder in the paused state), and 0 while [startTime] is unset. The
    value is not clamped: it is negative exactly when that difference
    is. *)
Theorem getElapsedTime_value (now : Z) (r : Recorder) :
  let pausedAt :=
    if bool_decide (getState r = paused) && truthy (pauseStartTime r)
    then pauseStartTime r else None in
  let pausedAt_old :=
    if truthy (pauseStartTime r) then pauseStartTime r else None in
  (truthy (startTime r) = false ->
     getElapsedTime now r = 0 /\ getElapsedTime_old now r = 0)
  /\ (forall t0, startTime r = Some t0 -> t0 <> 0 ->
        getElapsedTime now r
        = elapsed_spec now t0 (pausedDuration r) pausedAt / 1000
        /\ getElapsedTime_old now r
           = elapsed_spec now t0 (pausedDuration r) pausedAt_old / 1000
        /\ (0 <= getElapsedTime now r
            <-> 0 <= elapsed_spec now t0 (pausedDuration r) pausedAt)
        /\ (0 <= getElapsedTime_old now r
            <-> 0 <= elapsed_spec now t0 (pausedDuration r) pausedAt_old)).
Proof.
  intros pausedAt pausedAt_old. split.
  - intros H. unfold getElapsedTime, getElapsedTime_old. now rewrite H.
  - intros t0 Ht0 Hnz.
    assert (Htr: truthy (startTime r) = true).
    { rewrite Ht0. simpl. now apply negb_true_iff, Z.eqb_neq. }
    assert (E1: getElapsedTime now r
                = elapsed_spec now t0 (pausedDuration r) pausedAt / 1000).
    { unfold getElapsedTime, elapsed_spec, pausedAt. rewrite Htr, Ht0. simpl.
      destruct (bool_decide (getState r = paused) && truthy (pauseStartTime r))
        eqn:Ep.
      - apply andb_true_iff in Ep as [_ Ep].
        rewrite (truthy_Some _ Ep). simpl. reflexivity.
      - f_equal. lia. }
    assert (E2: getElapsedTime_old now r
                = elapsed_spec now t0 (pausedDuration r) pausedAt_old / 1000).
    { unfold getElapsedTime_old, elapsed_spec, pausedAt_old. rewrite Htr, Ht0.
      simpl. destruct (truthy (pauseStartTime r)) eqn:Ep.
      - rewrite (truthy_Some _ Ep). simpl. reflexivity.
      - f_equal. lia. }
    rewrite E1, E2. repeat split; try reflexivity; apply floor_seconds_sign.
Qed.

(** The elapsed-time example of the specification, on an absolute
    clock: started at [t], paused from [t + 10 s] to [t + 15 s], read at
    [t + 20 s]: 15 seconds. *)
Lemma getElapsedTime_value_witness :
  getElapsedTime 1020000
    (mkRecorder (Some (mkMediaRecorder recording "audio/webm")) true []
       (Some "A"%string) 1 true (Some 1000000) 5000 None) = 15.
Proof.
  destruct (getElapsedTime_value 1020000
    (mkRecorder (Some (mkMediaRecorder recording "audio/webm")) true []
       (Some "A"%string) 1 true (Some 1000000) 5000 None)) as [_ H].
  destruct (H 1000000 eq_refl ltac:(discriminate)) as [E _].
  rewrite E. reflexivity.
Defined.

(** *** start *)

(** While the recorder is recording, [start] returns without touching
    anything, in either copy (it warns on the console and does not
    throw). *)
Lemma start_ignored_while_recording sid supported now r :
  mediaStream r = true -> getState r = recording ->
  start sid supported r = (Ok tt, r) /\ start_old sid supported now r = Ok r.
Proof.
  unfold start, start_old. intros -> H. simpl.
  rewrite bool_decide_eq_true_2 by exact H. split; [reflexivity|].
  unfold getState in H. destruct (mediaRecorder r) as [mr|]; [|discriminate].
  destruct (decide (state mr = recording)); [reflexivity | contradiction].
Qed.

(** Past its guards [start()] of js/recorder.js always throws: the
    session variables have been overwritten by then, the new media
    recorder has not been started, and the start time and the flush timer
    are as they were. *)
Lemma start_throws sid supported r :
  mediaStream r = true -> getState r <> recording ->
  exists r',
    start sid supported r = (Throw handleStopNotDefined, r')
    /\ sessionId r' = Some sid /\ chunks r' = [] /\ chunkSequence r' = 0%nat
    /\ pausedDuration r' = 0 /\ pauseStartTime r' = None
    /\ getState r' = inactive
    /\ startTime r' = startTime r /\ chunkInterval r' = chunkInterval r.
Proof.
  unfold start. intros -> H. simpl.
  rewrite bool_decide_eq_false_2 by exact H.
  eexists. split; [reflexivity|]. simpl. repeat split.
Qed.

(** In the older copy, [start] on a paused recorder goes through: the
    session is replaced. *)
Lemma start_old_replaces_paused_session sid supported now r :
  mediaStream r = true -> getState r = paused ->
  exists r', start_old sid supported now r = Ok r'
    /\ sessionId r' = Some sid /\ chunks r' = [] /\ chunkSequence r' = 0%nat
    /\ pausedDuration r' = 0 /\ pauseStartTime r' = None
    /\ startTime r' = Some now /\ getState r' = recording.
Proof.
  unfold start_old, getState. intros -> H. simpl.
  destruct (mediaRecorder r) as [mr|]; [|discriminate].
  destruct (decide (state mr = recording)); [congruence|].
  eexists. split; [reflexivity|]. simpl. repeat split.
Qed.

(** C7: in the older copy of the recorder a session [A] is started and
    runs until the user pauses it for the second time, with two fragments
    in memory, two chunks saved and a pause on the books. [start()] called
    now does not fail and does not leave the session alone: it returns
    normally with session [B] in its place, the fragments dropped, the
    sequence counter and the pause bookkeeping reset. In js/recorder.js
    no session gets that far: the first [start()] already throws the
    [ReferenceError], with the media recorder left [inactive], and so
    does the second, each having replaced the session variables of the
    one before. *)
Theorem start_overwrites_paused_session :
  start_old "A" true 1000 readyRecorder = Ok sessionA
  /\ (let s := run_old (mkSession sessionA StorageService.emptyDB 0) pausedAfterFlush in
      rec s = pausedSessionA
      /\ map StorageService.sequence (StorageService.getSessionChunks "A" (store s))
         = [0; 1]%nat
      /\ start_old "B" true 40000 (rec s)
         = Ok (mkRecorder (Some (mkMediaRecorder recording configMimeType)) true []
                 (Some "B"%string) 0 true (Some 40000) 0 None))
  /\ start "A" true readyRecorder
     = (Throw handleStopNotDefined,
        mkRecorder (Some (mkMediaRecorder inactive configMimeType)) true []
          (Some "A"%string) 0 false None 0 None)
  /\ start "B" true (snd (start "A" true readyRecorder))
     = (Throw handleStopNotDefined,
        mkRecorder (Some (mkMediaRecorder inactive configMimeType)) true []
          (Some "B"%string) 0 false None 0 None).
Proof. repeat split. Qed.

(** *** Chunk numbering *)

Lemma sortBySequence_ascending l : forall k,
  map StorageService.sequence l = seq k (length l) ->
  StorageService.sortBySequence l = l.
Proof.
  induction l as [|c l IH]; intros k H; [reflexivity|].
  simpl in H. injection H as Hc Hl. simpl.
  rewrite (IH (S k) Hl). destruct l as [|d l']; [reflexivity|].
  simpl in Hl. injection Hl as Hd _. simpl.
  destruct (Nat.leb_spec (StorageService.sequence c) (StorageService.sequence d));
    [reflexivity | lia].
Qed.

Lemma sortBySequence_seq l n :
  map StorageService.sequence l = seq 0 n -> StorageService.sortBySequence l = l.
Proof.
  intros H. apply (sortBySequence_ascending l 0%nat).
  assert (length l = n) as ->; [|assumption].
  rewrite <- (length_map StorageService.sequence), H. apply length_seq.
Qed.

Lemma chunksOfSession_saveChunk sid' sid n b t d :
  StorageService.chunksOfSession sid' (snd (StorageService.saveChunk sid n b t d))
  = StorageService.chunksOfSession sid' d
    ++ (if bool_decide (sid = sid')
        then [StorageService.mkChunk (StorageService.chunksKeyGen d) sid n b t]
        else []).
Proof.
  unfold StorageService.chunksOfSession, StorageService.saveChunk. simpl.
  rewrite List.filter_app. reflexivity.
Qed.








(** A session of js/recorder.js as it would run if [start()] went
    through: two flushes overlap, and the store refuses the second write.
    The session has no chunk to recover; the store holds the objects
    numbered 0, 2 and 3. *)
Example flushes_leave_session_empty :
  let p := run (mkPage sessionA refusingSecond []) overlappingFlushes in
  StorageService.getSessionChunks "A" (StorageService.indexed (storage p)) = []
  /\ StorageService.recoverFromChunks "A" (StorageService.indexed (storage p)) = None
  /\ map numberOf (StorageService.unlisted (storage p)) = [0; 2; 3]%nat
  /\ chunkSequence (recorder p) = 4%nat.
Proof. repeat split. Qed.

(** The older copy of the recorder hands [saveChunk] its three arguments,
    but reads the counter before its [await] and advances it after. A
    pause arriving while the write of a timer flush is pending gives its
    chunk the number of that flush. *)
Example old_recorder_repeats_a_number :
  let s := run_old (mkSession sessionA StorageService.emptyDB 0)
             [DataAvailable fragment; TimerTick 31000; Pause 31005;
              ChunkSaved; ChunkSaved] in
  map StorageService.sequence (StorageService.getSessionChunks "A" (store s))
  = [0; 0]%nat.
Proof. reflexivity. Qed.
End Recorder.

(** ** The Drive service *)
Section Drive.
Import DriveService.

Lemma ensureFolderPath_cached path d rm f :
  folderCache d !! path = Some f -> ensureFolderPath path d rm = (Ok f, d, rm).
Proof. intros H. unfold ensureFolderPath. now rewrite H. Qed.

Lemma ensureFolderPath_caches path d rm f d1 rm1 :
  ensureFolderPath path d rm = (Ok f, d1, rm1) -> folderCache d1 !! path = Some f.
Proof.
  unfold ensureFolderPath.
  destruct (folderCache d !! path) as [c|] eqn:E.
  - intros [= <- <- <-]. exact E.
  - destruct (ensureParts (pathParts path) "root" "" d rm) as [[[p|e] d'] rm'];
      [|discriminate].
    intros [= <- <- <-]. simpl. apply lookup_insert_eq.
Qed.

Lemma fetch_folders rm : folders (snd (fetch rm)) = folders rm.
Proof. reflexivity. Qed.

Lemma findFolder_folders name parent rm :
  folders (snd (findFolder name parent rm)) = folders rm.
Proof.
  unfold findFolder. simpl. destruct (respond rm (requests rm)) as [|code];
    [reflexivity|]. destruct (ok code); reflexivity.
Qed.

Lemma createFolder_folders name parent rm :
  (length (folders (snd (createFolder name parent rm))) <= S (length (folders rm)))%nat.
Proof.
  unfold createFolder. simpl. destruct (respond rm (requests rm)) as [|code];
    simpl; [lia|]. destruct (ok code); simpl; [|lia].
  rewrite length_app. simpl. lia.
Qed.

(** The loop creates at most one folder for each segment it is given. *)
Lemma ensureParts_creates parts : forall parent current d rm,
  (length (folders (snd (ensureParts parts parent current d rm)))
   <= length (folders rm) + length parts)%nat.
Proof.
  induction parts as [|name rest IH]; intros parent current d rm; simpl; [lia|].
  destruct (folderCache d !! _) as [c|].
  - etransitivity; [apply IH|]. lia.
  - pose proof (findFolder_folders name parent rm) as Hf.
    destruct (findFolder name parent rm) as [[found|e] rm1]; simpl in Hf;
      [|simpl; rewrite Hf; lia].
    assert (Hc: forall res rm2,
              (match found with
               | Some f => if bool_decide (f = ""%string)
                           then createFolder name parent rm1 else (Ok f, rm1)
               | None => createFolder name parent rm1
               end) = (res, rm2) ->
              (length (folders rm2) <= S (length (folders rm)))%nat).
    { intros res rm2 H. pose proof (createFolder_folders name parent rm1) as Hcr.
      rewrite Hf in Hcr.
      destruct found as [f|]; [destruct (bool_decide (f = ""%string))|];
        try (rewrite H in Hcr; exact Hcr).
      injection H as _ <-. rewrite Hf. lia. }
    destruct (match found with Some _ => _ | None => _ end) as [[f|e] rm2] eqn:Ecr;
      specialize (Hc _ _ eq_refl); [|simpl; lia].
    etransitivity; [apply IH|]. lia.
Qed.

(** *** Expired tokens *)

Lemma ensureParts_401 parts : forall parent current d rm,
  (forall k, respond rm k = Status 401) ->
  match ensureParts parts parent current d rm with
  | (Ok _, _, rm') => respond rm' = respond rm /\ signIns rm' = signIns rm
  | (Throw e, _, rm') =>
      errStatus e = Some 401 /\ respond rm' = respond rm /\ signIns rm' = signIns rm
  end.
Proof.
  induction parts as [|name rest IH]; intros parent current d rm H; simpl; [auto|].
  destruct (folderCache d !! _) as [c|]; [apply IH; assumption|].
  unfold findFolder, fetch. rewrite H. simpl. auto.
Qed.

Lemma findFolder_grant name parent rm :
  grant (snd (findFolder name parent rm)) = grant rm.
Proof.
  unfold findFolder, fetch. destruct (respond rm (requests rm)) as [|code];
    [reflexivity|]. destruct (ok code); reflexivity.
Qed.

Lemma createFolder_grant name parent rm :
  grant (snd (createFolder name parent rm)) = grant rm.
Proof.
  unfold createFolder, fetch. destruct (respond rm (requests rm)) as [|code];
    [reflexivity|]. destruct (ok code); reflexivity.
Qed.

(** The loop leaves the token client and the initialisation flag alone. *)
Lemma ensureParts_keeps parts : forall parent current d rm,
  grant (snd (ensureParts parts parent current d rm)) = grant rm
  /\ isInitialised (snd (fst (ensureParts parts parent current d rm)))
     = isInitialised d.
Proof.
  induction parts as [|name rest IH]; intros parent current d rm; simpl; [auto|].
  destruct (folderCache d !! _) as [c|]; [apply IH|].
  pose proof (findFolder_grant name parent rm) as Hf.
  destruct (findFolder name parent rm) as [[found|e] rm1]; simpl in Hf; [|auto].
  assert (Hc: forall res rm2,
            (match found with
             | Some f => if bool_decide (f = ""%string)
                         then createFolder name parent rm1 else (Ok f, rm1)
             | None => createFolder name parent rm1
             end) = (res, rm2) -> grant rm2 = grant rm).
  { intros res rm2 H. pose proof (createFolder_grant name parent rm1) as Hcr.
    rewrite Hf in Hcr.
    destruct found as [f|]; [destruct (bool_decide (f = ""%string))|];
      try (rewrite H in Hcr; exact Hcr).
    injection H as _ <-. exact Hf. }
  destruct (match found with Some _ => _ | None => _ end) as [[f|e] rm2] eqn:Ecr;
    specialize (Hc _ _ eq_refl); [|simpl; auto].
  match goal with
  | |- context [ensureParts rest f ?c ?d' rm2] =>
      destruct (IH f c d' rm2) as [A B]
  end.
  split; [congruence | exact B].
Qed.

Lemma attemptUpload_401 b name folderPath d rm :
  (forall k, respond rm k = Status 401) ->
  exists e d1 rm1,
    attemptUpload b name folderPath d rm = (Throw e, d1, rm1)
    /\ errStatus e = Some 401
    /\ isInitialised d1 = isInitialised d
    /\ respond rm1 = respond rm /\ grant rm1 = grant rm.
Proof.
  intros H. unfold attemptUpload.
  set (fullPath := if bool_decide (folderPath = ""%string) then ROOT_FOLDER
                   else folderPath).
  assert (Hup: forall folder d1 rm1, respond rm1 = respond rm -> grant rm1 = grant rm ->
            isInitialised d1 = isInitialised d ->
            exists e d2 rm2,
              match uploadFile b name folder rm1 with
              | (Throw e, rm2) => (Throw e, d1, rm2)
              | (Ok f, rm2) => (Ok (mkUploadResult true f name folderPath), d1, rm2)
              end = (Throw e, d2, rm2)
              /\ errStatus e = Some 401 /\ isInitialised d2 = isInitialised d
              /\ respond rm2 = respond rm /\ grant rm2 = grant rm).
  { intros folder d1 rm1 Hr Hg Hi. unfold uploadFile, fetch. rewrite Hr, H. simpl.
    eexists _, _, _. split; [reflexivity|]. simpl. auto. }
  unfold ensureFolderPath. destruct (folderCache d !! fullPath) as [c|].
  - apply Hup; reflexivity.
  - pose proof (ensureParts_401 (pathParts fullPath) "root" "" d rm H) as Hp.
    pose proof (ensureParts_keeps (pathParts fullPath) "root" "" d rm) as Hg.
    destruct (ensureParts (pathParts fullPath) "root" "" d rm) as [[[p|e] d1] rm1];
      simpl in Hg; destruct Hg as [Hg Hi].
    + destruct Hp as [Hr _]. apply Hup; assumption.
    + destruct Hp as (He & Hr & _). eexists _, _, _. split; [reflexivity|]. auto.
Qed.

(** While Drive keeps answering 401 and the token client keeps granting
    tokens, [uploadRecording] signs in and tries again without end: no
    number of nested calls is enough for it to return. *)
Lemma uploadRecording_never_gives_up fuel b name folderPath : forall d rm,
  isInitialised d = true -> isAuthenticated d = true ->
  (forall k, respond rm k = Status 401) ->
  (forall k, exists t, grant rm k = Some t /\ t <> ""%string) ->
  uploadRecording fuel b name folderPath d rm = None.
Proof.
  induction fuel as [|fuel IH]; intros d rm Hi Ha Hr Hg; [reflexivity|].
  simpl. rewrite Ha. simpl.
  destruct (attemptUpload_401 b name folderPath d rm Hr)
    as (e & d1 & rm1 & -> & He & Hi1 & Hr1 & Hg1).
  rewrite He, bool_decide_eq_true_2 by reflexivity.
  unfold signIn. rewrite Hi1, Hi. simpl.
  destruct (Hg (signIns rm1)) as (t & Ht & Hne). rewrite Hg1, Ht.
  apply IH; simpl; auto.
  - unfold isAuthenticated. simpl. now rewrite bool_decide_eq_false_2.
  - intros k. rewrite Hr1. apply Hr.
Qed.
End Drive.

(** ** The event loop *)

Lemma run_cons {World Cont Outside : Type} enter continue outside
    (s : @EventLoop.Sys World Cont) (e : @EventLoop.Event Outside) es :
  EventLoop.run enter continue outside s (e :: es)
  = EventLoop.run enter continue outside (EventLoop.step enter continue outside s e) es.
Proof. reflexivity. Qed.

Lemma step_resume_only {World Cont Outside : Type} enter continue
    (outside : Outside -> World -> World) (w : World) (k : Cont) a b :
  EventLoop.step enter continue outside (EventLoop.mkSys w [k] a b) (EventLoop.Resume 0)
  = match continue k w with
    | (w', Some k') => EventLoop.mkSys w' [k'] a b
    | (w', None) => EventLoop.mkSys w' [] a (S b)
    end.
Proof. simpl. destruct (continue k w) as [w' [k'|]]; reflexivity. Qed.

(** ** The sync pass over the local catalog *)
Section SyncPass.
Import StorageService.

Lemma touchesOnly_refl i w : touchesOnly i w w.
Proof.
  split; [auto|]. split; [auto|]. split; [auto|].
  exists []. split; [now rewrite app_nil_r | intros j []].
Qed.

Lemma touchesOnly_trans i w1 w2 w3 :
  touchesOnly i w1 w2 -> touchesOnly i w2 w3 -> touchesOnly i w1 w3.
Proof.
  intros (K1 & G1 & P1 & l1 & U1 & L1) (K2 & G2 & P2 & l2 & U2 & L2).
  split; [auto|]. split; [|split; [auto|]].
  - intros j Hj. rewrite (G2 j Hj). auto.
  - exists (l1 ++ l2). split.
    + rewrite U2, U1. now rewrite app_assoc.
    + intros j Hin. apply in_app_or in Hin as [H|H]; auto.
Qed.

(** Worlds that differ in neither the catalog nor the upload log. *)
Lemma touchesOnly_same i w w' :
  App.db w' = App.db w -> App.uploads w' = App.uploads w -> touchesOnly i w w'.
Proof.
  intros Hd Hu. unfold touchesOnly. rewrite Hd, Hu.
  split; [auto|]. split; [auto|]. split; [auto|].
  exists []. split; [now rewrite app_nil_r | intros j []].
Qed.

Lemma App_updateRecordingStatus_touches i s x w w' :
  App.updateRecordingStatus i s x w = Ok w' -> touchesOnly i w w'.
Proof.
  unfold App.updateRecordingStatus.
  destruct (updateRecordingStatus i s x _ (App.db w)) as [[r' d']|e] eqn:E;
    [|discriminate].
  intros [= <-]. unfold touchesOnly. simpl. split; [|split; [|split]].
  - intros K. eapply updateRecordingStatus_wf; eauto.
  - intros j Hj. eapply updateRecordingStatus_other; eauto.
  - intros _. rewrite (updateRecordingStatus_same _ _ _ _ _ _ _ E). eauto.
  - exists []. split; [now rewrite app_nil_r | intros j []].
Qed.

Lemma App_updateRecordingStatus_present i s x w :
  is_Some (getRecording i (recordings (App.db w))) ->
  exists w', App.updateRecordingStatus i s x w = Ok w'.
Proof.
  intros [r Hr]. unfold App.updateRecordingStatus.
  rewrite (updateRecordingStatus_found _ _ _ _ _ _ Hr). eauto.
Qed.

Lemma App_incrementRetryCount_touches i w w' :
  App.incrementRetryCount i w = Ok w' -> touchesOnly i w w'.
Proof.
  unfold App.incrementRetryCount, incrementRetryCount.
  destruct (getRecording i (recordings (App.db w))) as [r|] eqn:G.
  - destruct (updateRecordingStatus i (status r) _ _ (App.db w)) as [[r' d']|e] eqn:E;
      [|discriminate].
    intros [= <-]. unfold touchesOnly. simpl. split; [|split; [|split]].
    + intros K. eapply updateRecordingStatus_wf; eauto.
    + intros j Hj. eapply updateRecordingStatus_other; eauto.
    + intros _. rewrite (updateRecordingStatus_same _ _ _ _ _ _ _ E). eauto.
    + exists []. split; [now rewrite app_nil_r | intros j []].
  - intros [= <-]. apply touchesOnly_refl.
Qed.

Lemma App_incrementRetryCount_returns i w :
  exists w', App.incrementRetryCount i w = Ok w'.
Proof.
  unfold App.incrementRetryCount, incrementRetryCount.
  destruct (getRecording i (recordings (App.db w))) as [r|] eqn:G; [|eauto].
  rewrite (updateRecordingStatus_found _ _ _ _ _ _ G). eauto.
Qed.

Lemma recordFailure_touches i w : touchesOnly i w (fst (App.recordFailure i w)).
Proof.
  unfold App.recordFailure.
  destruct (App.updateRecordingStatus i failed noExtra w) as [w1|e] eqn:E1;
    [|apply touchesOnly_refl].
  pose proof (App_updateRecordingStatus_touches _ _ _ _ _ E1) as T1.
  destruct (App.incrementRetryCount i w1) as [w2|e] eqn:E2; [|exact T1].
  exact (touchesOnly_trans _ _ _ _ T1 (App_incrementRetryCount_touches _ _ _ E2)).
Qed.

(** With the record in the catalog the [catch] block runs through: the
    status becomes [failed], the retry count goes up by one, and the loop
    goes on. *)
Lemma recordFailure_records i w r :
  getRecording i (recordings (App.db w)) = Some r ->
  exists w' r',
    App.recordFailure i w = (w', App.Continue)
    /\ getRecording i (recordings (App.db w')) = Some r'
    /\ status r' = failed
    /\ retryCount r' = retryCount r + 1.
Proof.
  intros G. unfold App.recordFailure, App.updateRecordingStatus.
  rewrite (updateRecordingStatus_found _ _ _ _ _ _ G).
  set (r1 := assign noExtra (setStatus failed _ r)).
  set (w1 := App.setDb _ _).
  assert (G1: getRecording i (recordings (App.db w1)) = Some r1).
  { subst w1. simpl.
    pose proof (getRecording_put_eq r1 (recordings (App.db w))) as H.
    subst r1. simpl in *. now rewrite (getRecording_id _ _ _ G) in H. }
  unfold App.incrementRetryCount, incrementRetryCount. rewrite G1.
  rewrite (updateRecordingStatus_found _ _ _ _ _ _ G1).
  eexists _, _. split; [reflexivity|]. split.
  { cbn [App.db App.setDb recordings].
    match goal with
    | |- getRecording i (put ?r2 ?l) = _ =>
        pose proof (getRecording_put_eq r2 l) as H
    end.
    subst r1. simpl in H. rewrite (getRecording_id _ _ _ G) in H. exact H. }
  subst r1. simpl. split; reflexivity.
Qed.

Lemma syncItem_skips fuel r w :
  App.MAX_RETRY_COUNT <= retryCount r -> App.syncItem fuel r w = (w, App.Continue).
Proof.
  intros H. unfold App.syncItem.
  now rewrite (proj2 (Z.leb_le _ _) H).
Qed.

Lemma logUpload_touches i w : touchesOnly i w (App.logUpload i w).
Proof.
  unfold touchesOnly. simpl. split; [auto|]. split; [auto|]. split; [auto|].
  exists [i]. split; [reflexivity|]. intros j [<-|[]]. reflexivity.
Qed.

Lemma setDrive_touches i d rm w : touchesOnly i w (App.setDrive d rm w).
Proof. apply touchesOnly_same; reflexivity. Qed.

(** One turn of the loop writes to its own recording only, and there
    only if the recording is below the retry limit. *)
Lemma syncItem_touches fuel r w :
  touchesOnly (id r) w (fst (App.syncItem fuel r w))
  /\ (App.MAX_RETRY_COUNT <= retryCount r -> fst (App.syncItem fuel r w) = w).
Proof.
  split; [|intros H; now rewrite syncItem_skips].
  unfold App.syncItem.
  destruct (Z.leb App.MAX_RETRY_COUNT (retryCount r)); [apply touchesOnly_refl|].
  destruct (App.updateRecordingStatus (id r) uploading noExtra w) as [w1|e] eqn:E1;
    [|apply recordFailure_touches].
  pose proof (App_updateRecordingStatus_touches _ _ _ _ _ E1) as T1.
  pose proof (touchesOnly_trans _ _ _ _ T1 (logUpload_touches (id r) w1)) as T2.
  destruct (DriveService.uploadRecording fuel (blob r) (fileName r) (drivePath r) _ _)
    as [[[[res|e] d] rm]|]; [| |exact T2].
  - pose proof (touchesOnly_trans _ _ _ _ T2
                  (setDrive_touches (id r) d rm (App.logUpload (id r) w1))) as T3.
    destruct (App.updateRecordingStatus (id r) synced_st _ _) as [w4|e] eqn:E4.
    + exact (touchesOnly_trans _ _ _ _ T3 (App_updateRecordingStatus_touches _ _ _ _ _ E4)).
    + exact (touchesOnly_trans _ _ _ _ T3 (recordFailure_touches _ _)).
  - exact (touchesOnly_trans _ _ _ _ T2
             (touchesOnly_trans _ _ _ _ (setDrive_touches (id r) d rm _)
                (recordFailure_touches _ _))).
Qed.

Lemma spares_refl i w : spares i w w.
Proof.
  split; [auto|]. split; [auto|].
  exists []. split; [now rewrite app_nil_r | intros []].
Qed.

Lemma spares_trans i w1 w2 w3 : spares i w1 w2 -> spares i w2 w3 -> spares i w1 w3.
Proof.
  intros (K1 & G1 & l1 & U1 & L1) (K2 & G2 & l2 & U2 & L2).
  split; [auto|]. split; [congruence|].
  exists (l1 ++ l2). split.
  - rewrite U2, U1. now rewrite app_assoc.
  - intros Hin. apply in_app_or in Hin as [H|H]; auto.
Qed.

Lemma spares_same i w w' :
  App.db w' = App.db w -> App.uploads w' = App.uploads w -> spares i w w'.
Proof.
  intros Hd Hu. unfold spares. rewrite Hd, Hu.
  split; [auto|]. split; [auto|].
  exists []. split; [now rewrite app_nil_r | intros []].
Qed.

Lemma touchesOnly_spares i j w w' : i <> j -> touchesOnly j w w' -> spares i w w'.
Proof.
  intros Hne (K & G & _ & l & U & L). split; [exact K|]. split; [auto|].
  exists l. split; [exact U|]. intros Hin. apply Hne. auto.
Qed.

(** A loop over recordings among which those stored under [i] are at the
    retry limit neither writes to the record under [i] nor uploads it. *)
Lemma syncLoop_spares fuel i rs : forall w,
  (forall r, In r rs -> id r = i -> App.MAX_RETRY_COUNT <= retryCount r) ->
  spares i w (fst (App.syncLoop fuel rs w)).
Proof.
  induction rs as [|r rs IH]; intros w H; simpl; [apply spares_refl|].
  assert (S1: spares i w (fst (App.syncItem fuel r w))).
  { destruct (Nat.eq_dec (id r) i) as [E|N].
    - rewrite (proj2 (syncItem_touches fuel r w) (H r (or_introl eq_refl) E)).
      apply spares_refl.
    - apply (touchesOnly_spares i (id r)); [congruence|].
      apply syncItem_touches. }
  destruct (App.syncItem fuel r w) as [w1 o]. simpl in S1.
  destruct o; simpl; try exact S1.
  eapply spares_trans; [exact S1|]. apply IH.
  intros r' Hin. apply H. now right.
Qed.

Lemma syncRecordings_spares fuel w r :
  wfCatalog (App.db w) -> In r (recordings (App.db w)) ->
  App.MAX_RETRY_COUNT <= retryCount r ->
  spares (id r) w (App.worldOf (App.syncRecordings fuel w)).
Proof.
  intros [K _] Hin Hmax. unfold App.syncRecordings.
  destruct (App.refuses w); [apply spares_refl|].
  assert (Hscan: forall r', In r' (getUnsyncedRecordings (App.db (App.setSyncing true w))) ->
                  id r' = id r -> App.MAX_RETRY_COUNT <= retryCount r').
  { intros r' Hr' E. unfold getUnsyncedRecordings in Hr'.
    apply List.filter_In in Hr' as [Hr' _]. simpl in Hr'.
    pose proof (In_getRecording _ _ K Hr') as G'.
    pose proof (In_getRecording _ _ K Hin) as G.
    rewrite E in G'. rewrite G in G'. injection G' as <-. exact Hmax. }
  destruct (getUnsyncedRecordings (App.db (App.setSyncing true w))) as [|r1 rs] eqn:E.
  - apply spares_same; reflexivity.
  - set (w2 := App.setIndicator _ _).
    pose proof (syncLoop_spares fuel (id r) (r1 :: rs) w2 Hscan) as S.
    assert (S0: spares (id r) w w2) by (apply spares_same; reflexivity).
    destruct (App.syncLoop fuel (r1 :: rs) w2) as [w3 o]. simpl in S.
    destruct o; simpl.
    + eapply spares_trans; [exact S0|].
      eapply spares_trans; [exact S|]. apply spares_same; reflexivity.
    + eapply spares_trans; [exact S0|].
      eapply spares_trans; [exact S|]. apply spares_same; reflexivity.
    + eapply spares_trans; [exact S0|exact S].
Qed.

Lemma passes_spares fuel n : forall w r,
  wfCatalog (App.db w) -> In r (recordings (App.db w)) ->
  App.MAX_RETRY_COUNT <= retryCount r ->
  spares (id r) w (App.passes fuel n w).
Proof.
  induction n as [|n IH]; intros w r K Hin Hmax; simpl; [apply spares_refl|].
  pose proof (syncRecordings_spares fuel w r K Hin Hmax) as S.
  destruct (App.syncRecordings fuel w) as [w'|w']; simpl in S; [|exact S].
  eapply spares_trans; [exact S|].
  destruct S as (K' & G' & _).
  apply IH; [auto| |exact Hmax].
  rewrite (In_getRecording _ _ (proj1 K) Hin) in G'.
  eapply getRecording_In; eauto.
Qed.

(** Pass after pass, as the interval timer starts them, a recording at
    the retry limit is neither uploaded nor written to. *)
Lemma dead_letter_passes (fuel n : nat) (w : App.World) (r : Recording) :
  wfCatalog (App.db w) ->
  In r (recordings (App.db w)) ->
  App.MAX_RETRY_COUNT <= retryCount r ->
  ~ In (id r) (newUploads w (App.passes fuel n w))
  /\ getRecording (id r) (recordings (App.db (App.passes fuel n w))) = Some r.
Proof.
  intros K Hin Hmax.
  destruct (passes_spares fuel n w r K Hin Hmax) as (_ & G & l & U & L).
  split.
  - unfold newUploads. rewrite U, drop_app_length. exact L.
  - rewrite G. apply In_getRecording; [apply K | exact Hin].
Qed.

(** The pending recording next to it is uploaded, once. *)
Example pending_neighbour_uploaded :
  newUploads deadLetterWorld (App.passes 3 2 deadLetterWorld) = [2%nat].
Proof. vm_compute. reflexivity. Qed.

(** *** The dead-letter boundary on the event loop *)

(** The scan itself does not look at the retry count: a recording at the
    limit that is not synced is returned with the rest. *)
Lemma dead_letter_still_scanned d r :
  In r (recordings d) -> synced r = 0 -> In r (getUnsyncedRecordings d).
Proof.
  intros Hin H0. unfold getUnsyncedRecordings. apply List.filter_In.
  split; [exact Hin|]. rewrite H0. reflexivity.
Qed.

Lemma deadLetterInv_step fuel i r w0 s e :
  App.MAX_RETRY_COUNT <= retryCount r ->
  deadLetterInv i r w0 s ->
  deadLetterInv i r w0 (EventLoop.step App.enter (App.continue fuel) appOutside s e).
Proof.
  intros Hmax Hinv. pose proof Hinv as (K & G & C & l & U & L).
  assert (Hscan: forall w, App.db w = App.db (EventLoop.world s) ->
            contSpares i (App.AwaitScan (getUnsyncedRecordings (App.db w)))).
  { intros w ->. simpl. intros r' Hr' E.
    apply List.filter_In in Hr' as [Hr' _].
    pose proof (In_getRecording _ _ (proj1 K) Hr') as G'.
    rewrite E, G in G'. injection G' as <-. exact Hmax. }
  destruct e as [|n|o]; simpl.
  - unfold App.enter. destruct (App.refuses (EventLoop.world s)); [exact Hinv|].
    unfold deadLetterInv. simpl. split; [exact K|]. split; [exact G|].
    split; [|eauto].
    apply List.Forall_app. split; [exact C|]. constructor; [|constructor].
    apply (Hscan (App.setSyncing true (EventLoop.world s))). reflexivity.
  - destruct (EventLoop.inflight s !! n) as [k|] eqn:Ek; [|exact Hinv].
    pose proof (Forall_lookup_1 _ _ _ _ C Ek) as Ck.
    assert (Hfin: forall w', App.db w' = App.db (EventLoop.world s) ->
              App.uploads w' = App.uploads (EventLoop.world s) ->
              deadLetterInv i r w0
                (EventLoop.mkSys (App.finish w') (delete n (EventLoop.inflight s))
                   (EventLoop.started s) (S (EventLoop.returned s)))).
    { intros w' Hd Hu. unfold deadLetterInv. simpl. rewrite Hd, Hu.
      split; [exact K|]. split; [exact G|]. split; [|eauto].
      now apply Forall_delete. }
    destruct k as [[|r1 rs]|[|r1 rs]|]; cbn [App.continue].
    + apply Hfin; reflexivity.
    + unfold deadLetterInv. simpl. split; [exact K|]. split; [exact G|].
      split; [|eauto]. apply Forall_insert; [exact C | exact Ck].
    + apply Hfin; reflexivity.
    + assert (S1: spares i (EventLoop.world s)
                    (fst (App.syncItem fuel r1 (EventLoop.world s)))).
      { destruct (Nat.eq_dec (id r1) i) as [E|N].
        - rewrite (proj2 (syncItem_touches fuel r1 _) (Ck r1 (or_introl eq_refl) E)).
          apply spares_refl.
        - apply (touchesOnly_spares i (id r1)); [congruence|].
          apply syncItem_touches. }
      destruct (App.syncItem fuel r1 (EventLoop.world s)) as [w1 o].
      destruct S1 as (K1 & G1 & l1 & U1 & L1). simpl in K1, G1, U1.
      assert (U': exists l', App.uploads w1 = App.uploads w0 ++ l' /\ ~ In i l').
      { exists (l ++ l1). split; [rewrite U1, U; now rewrite app_assoc|].
        intros Hin. apply in_app_or in Hin as [H|H]; auto. }
      assert (Crest: contSpares i (App.InLoop rs)).
      { simpl. intros r' Hr'. apply Ck. now right. }
      destruct o as [|e|]; unfold deadLetterInv; simpl.
      * split; [auto|]. split; [congruence|]. split; [|exact U'].
        apply Forall_insert; [exact C | exact Crest].
      * split; [auto|]. split; [congruence|]. split; [|exact U'].
        now apply Forall_delete.
      * split; [auto|]. split; [congruence|]. split; [|exact U'].
        apply Forall_insert; [exact C | exact I].
    + unfold deadLetterInv. simpl. split; [exact K|]. split; [exact G|].
      split; [|eauto]. apply Forall_insert; [exact C | exact I].
  - unfold deadLetterInv. simpl.
    destruct o as [b| |token|b md now]; simpl;
      try (split; [exact K|]; split; [exact G|]; split; [exact C|eauto]).
    split; [now apply saveRecording_wf|].
    split; [now apply getRecording_app_l|]. split; [exact C|eauto].
Qed.

Lemma deadLetterInv_run fuel i r w0 es : forall s,
  App.MAX_RETRY_COUNT <= retryCount r ->
  deadLetterInv i r w0 s ->
  deadLetterInv i r w0 (EventLoop.run App.enter (App.continue fuel) appOutside s es).
Proof.
  induction es as [|e es IH]; intros s Hmax H; [exact H|].
  rewrite run_cons. apply IH; [exact Hmax|]. now apply deadLetterInv_step.
Qed.

(** C3: a recording of the catalog whose retry count has reached
    [MAX_RETRY_COUNT] still comes back from the scan, but the loop steps
    over it. Whatever follows on the event loop (calls of
    [syncRecordings] from the timer or the [online] event, suspended
    passes running on, recordings being saved, the network coming and
    going, signing out and in) its id is never handed to the uploader and
    the record stays in the catalog exactly as it is; only something
    other than these, writing the record from outside, brings it back. *)
Theorem dead_letter_never_uploaded
    (fuel : nat) (es : list (@EventLoop.Event AppOutside)) (w : App.World)
    (r : Recording) :
  wfCatalog (App.db w) ->
  In r (recordings (App.db w)) ->
  App.MAX_RETRY_COUNT <= retryCount r ->
  let s := EventLoop.run App.enter (App.continue fuel) appOutside
             (EventLoop.quiescent w) es in
  ~ In (id r) (newUploads w (EventLoop.world s))
  /\ getRecording (id r) (recordings (App.db (EventLoop.world s))) = Some r.
Proof.
  intros K Hin Hmax s.
  assert (H0: deadLetterInv (id r) r w (EventLoop.quiescent w)).
  { unfold deadLetterInv. simpl. split; [exact K|].
    split; [apply In_getRecording; [apply K | exact Hin]|]. split; [constructor|].
    exists []. split; [now rewrite app_nil_r | intros []]. }
  destruct (deadLetterInv_run fuel (id r) r w es _ Hmax H0) as (_ & G & _ & l & U & L).
  fold s in G, U. split; [|exact G].
  unfold newUploads. rewrite U, drop_app_length. exact L.
Qed.

Lemma dead_letter_never_uploaded_witness :
  let s := EventLoop.run App.enter (App.continue 3) appOutside
             (EventLoop.quiescent deadLetterWorld) doubleTrigger in
  ~ In 1%nat (newUploads deadLetterWorld (EventLoop.world s))
  /\ getRecording 1 (recordings (App.db (EventLoop.world s))) = Some deadLetter.
Proof.
  apply (dead_letter_never_uploaded 3 doubleTrigger deadLetterWorld deadLetter).
  - unfold wfCatalog, keyOrdered. simpl. split; repeat constructor.
  - simpl. auto.
  - unfold App.MAX_RETRY_COUNT. simpl. lia.
Defined.

(** *** Failures inside a pass *)

Lemma App_updateRecordingStatus_ok i s x w :
  is_Some (getRecording i (recordings (App.db w))) ->
  exists w', App.updateRecordingStatus i s x w = Ok w'
    /\ App.uploads w' = App.uploads w
    /\ App.drive w' = App.drive w /\ App.remote w' = App.remote w
    /\ (forall j, is_Some (getRecording j (recordings (App.db w))) ->
                  is_Some (getRecording j (recordings (App.db w'))))
    /\ (forall r, getRecording i (recordings (App.db w)) = Some r ->
          exists r', getRecording i (recordings (App.db w')) = Some r'
                     /\ retryCount r' = default (retryCount r) (x_retryCount x)
                     /\ status r' = s).
Proof.
  intros [r G]. unfold App.updateRecordingStatus.
  rewrite (updateRecordingStatus_found _ _ _ _ _ _ G).
  eexists. split; [reflexivity|]. simpl. repeat split.
  - intros j Hj. destruct (Nat.eq_dec j i) as [->|N].
    + pose proof (getRecording_put_eq
        (assign x (setStatus s (App.clock w (App.clockReads w)) r))
        (recordings (App.db w))) as H.
      simpl in H. rewrite (getRecording_id _ _ _ G) in H. rewrite H. eauto.
    + rewrite getRecording_put_ne; [exact Hj|].
      simpl. now rewrite (getRecording_id _ _ _ G).
  - intros r0 G0. rewrite G in G0. injection G0 as <-.
    eexists. split.
    + pose proof (getRecording_put_eq
        (assign x (setStatus s (App.clock w (App.clockReads w)) r))
        (recordings (App.db w))) as H.
      simpl in H. rewrite (getRecording_id _ _ _ G) in H. exact H.
    + simpl. split; reflexivity.
Qed.

Lemma recordFailure_ok i w r :
  getRecording i (recordings (App.db w)) = Some r ->
  exists w' r',
    App.recordFailure i w = (w', App.Continue)
    /\ App.uploads w' = App.uploads w
    /\ (forall j, is_Some (getRecording j (recordings (App.db w))) ->
                  is_Some (getRecording j (recordings (App.db w'))))
    /\ getRecording i (recordings (App.db w')) = Some r'
    /\ status r' = failed
    /\ retryCount r' = retryCount r + 1.
Proof.
  intros G.
  destruct (recordFailure_records i w r G) as (w' & r' & E & G' & Hs & Hr).
  exists w', r'. split; [exact E|].
  pose proof (recordFailure_touches i w) as (_ & Hoth & _ & l & U & L).
  rewrite E in *. simpl in *.
  assert (Hup: App.uploads w' = App.uploads w).
  { revert E. unfold App.recordFailure.
    destruct (App_updateRecordingStatus_ok i failed noExtra w (ex_intro _ r G))
      as (w1 & -> & U1 & _ & _ & P1 & _).
    unfold App.incrementRetryCount.
    destruct (incrementRetryCount i _ _ (App.db w1)) as [[[r2 d2]|e]|];
      intros [= <-]; exact U1. }
  repeat split; auto.
  intros j Hj. destruct (Nat.eq_dec j i) as [->|N]; [rewrite G'; eauto|].
  now rewrite (Hoth j N).
Qed.

(** One turn of the loop over a recording that is in the catalog never
    leaves the loop by an exception; unless the upload hangs, the loop
    goes on, and the recording was handed to the uploader exactly when it
    is below the retry limit. *)
Lemma syncItem_goes_on fuel r w :
  is_Some (getRecording (id r) (recordings (App.db w))) ->
  match App.syncItem fuel r w with
  | (w', App.Continue) =>
      App.uploads w' = App.uploads w ++ map id (eligible [r])
      /\ forall j, is_Some (getRecording j (recordings (App.db w))) ->
                   is_Some (getRecording j (recordings (App.db w')))
  | (_, App.Hang) => True
  | (_, App.Abort _) => False
  end.
Proof.
  intros P. unfold App.syncItem, eligible. simpl.
  destruct (Z.leb App.MAX_RETRY_COUNT (retryCount r)); simpl;
    [split; [now rewrite app_nil_r | auto]|].
  destruct (App_updateRecordingStatus_ok (id r) uploading noExtra w P)
    as (w1 & -> & U1 & D1 & R1 & P1 & _).
  destruct (DriveService.uploadRecording fuel (blob r) (fileName r) (drivePath r) _ _)
    as [[[[res|e] d] rm]|]; [| |exact I].
  - set (w3 := App.setDrive d rm (App.logUpload (id r) w1)).
    assert (P3: is_Some (getRecording (id r) (recordings (App.db w3)))) by (apply P1, P).
    destruct (App_updateRecordingStatus_ok (id r) synced_st
                (mkExtra None (Some (DriveService.resFileId res)) None None) w3 P3)
      as (w4 & -> & U4 & _ & _ & P4 & _).
    split; [rewrite U4; simpl; now rewrite U1 | intros j Hj; apply P4, P1, Hj].
  - set (w3 := App.setDrive d rm (App.logUpload (id r) w1)).
    destruct (P1 _ P) as [r1 G1].
    destruct (recordFailure_ok (id r) w3 r1 G1) as (w' & r' & -> & U' & P' & _).
    split; [rewrite U'; simpl; now rewrite U1 | intros j Hj; apply P', P1, Hj].
Qed.

(** The sync pass of [App] over recordings that are in the catalog:
    whichever uploads fail, the loop is never left by an exception, and
    unless an upload hangs every recording below the retry limit is handed
    to the uploader, in scan order. *)
Lemma syncLoop_never_aborts fuel rs : forall w,
  (forall r, In r rs -> is_Some (getRecording (id r) (recordings (App.db w)))) ->
  match App.syncLoop fuel rs w with
  | (w', App.Continue) => App.uploads w' = App.uploads w ++ map id (eligible rs)
  | (_, App.Hang) => True
  | (_, App.Abort _) => False
  end.
Proof.
  induction rs as [|r rs IH]; intros w P; simpl; [now rewrite app_nil_r|].
  pose proof (syncItem_goes_on fuel r w (P r (or_introl eq_refl))) as H1.
  destruct (App.syncItem fuel r w) as [w1 [|e|]]; [|contradiction|exact I].
  destruct H1 as [U1 P1].
  assert (P': forall r', In r' rs ->
            is_Some (getRecording (id r') (recordings (App.db w1)))).
  { intros r' Hin. apply P1, P. now right. }
  specialize (IH w1 P').
  destruct (App.syncLoop fuel rs w1) as [w2 [|e|]]; [|contradiction|exact I].
  rewrite IH, U1. unfold eligible. simpl.
  destruct (Z.leb App.MAX_RETRY_COUNT (retryCount r)); simpl;
    now rewrite <- app_assoc.
Qed.

(** An upload that fails leaves its recording [failed] with one more
    retry counted, and the loop goes on. *)
Lemma syncItem_records_failure fuel r w r0 e d rm :
  retryCount r < App.MAX_RETRY_COUNT ->
  getRecording (id r) (recordings (App.db w)) = Some r0 ->
  DriveService.uploadRecording fuel (blob r) (fileName r) (drivePath r)
    (App.drive w) (App.remote w) = Some (Throw e, d, rm) ->
  exists w' r',
    App.syncItem fuel r w = (w', App.Continue)
    /\ getRecording (id r) (recordings (App.db w')) = Some r'
    /\ status r' = failed
    /\ retryCount r' = retryCount r0 + 1.
Proof.
  intros Hlt G Hup. unfold App.syncItem.
  rewrite (proj2 (Z.leb_gt _ _) Hlt).
  destruct (App_updateRecordingStatus_ok (id r) uploading noExtra w (ex_intro _ r0 G))
    as (w1 & -> & U1 & D1 & R1 & P1 & Q1).
  destruct (Q1 r0 G) as (r1 & G1 & C1 & _). simpl in C1.
  cbn [App.drive App.remote App.logUpload]. rewrite D1, R1, Hup.
  destruct (recordFailure_ok (id r) (App.setDrive d rm (App.logUpload (id r) w1)) r1 G1)
    as (w' & r' & -> & _ & _ & G' & S' & C').
  exists w', r'. repeat split; auto. congruence.
Qed.

(** Under the pass of [App] the failure of the first upload is written
    down and the second recording is uploaded all the same. *)
Example app_pass_survives_first_failure :
  let w' := App.worldOf (App.syncRecordings 3 firstUploadFailsApp) in
  App.uploads w' = [1; 2]%nat
  /\ option_map status (getRecording 1 (recordings (App.db w'))) = Some failed
  /\ option_map retryCount (getRecording 1 (recordings (App.db w'))) = Some 1
  /\ option_map status (getRecording 2 (recordings (App.db w'))) = Some synced_st
  /\ App.isSyncing w' = false.
Proof. vm_compute. repeat split. Qed.

(** C4: a Drive that answers 401 twice. [uploadRecording] signs in
    after the first 401 and again after the second, and the third attempt
    goes through: two re-authentications for the one item, which ends
    [synced] with no retry counted, where a single retry would have left
    it [failed] with one. *)
Theorem reauthenticates_on_every_401 :
  let w' := fst (App.syncItem 3 pendingRecording expiredTwiceWorld) in
  snd (App.syncItem 3 pendingRecording expiredTwiceWorld) = App.Continue
  /\ DriveService.signIns (App.remote w') = 2%nat
  /\ length (DriveService.files (App.remote w')) = 1%nat
  /\ option_map status (getRecording 1 (recordings (App.db w'))) = Some synced_st
  /\ option_map retryCount (getRecording 1 (recordings (App.db w'))) = Some 0.
Proof. vm_compute. repeat split. Qed.

(** A whole pass of [App]: it is never cut short by a failure. When it
    returns, every recording of the scan below the retry limit has been
    handed to the uploader, in scan order. *)
Lemma App_pass_uploads_all_eligible fuel w w' :
  App.refuses w = false ->
  App.syncRecordings fuel w = App.Returned w' ->
  App.uploads w'
  = App.uploads w ++ map id (eligible (getUnsyncedRecordings (App.db w))).
Proof.
  intros Hr. unfold App.syncRecordings. rewrite Hr.
  change (App.db (App.setSyncing true w)) with (App.db w).
  pose proof (fun r (H : In r (getUnsyncedRecordings (App.db w))) =>
                In_getRecording_Some r (recordings (App.db w))
                  (proj1 (proj1 (List.filter_In _ _ _) H))) as Hp.
  destruct (getUnsyncedRecordings (App.db w)) as [|r rs] eqn:E.
  - intros [= <-]. simpl. now rewrite app_nil_r.
  - set (w2 := App.setIndicator _ _).
    pose proof (syncLoop_never_aborts fuel (r :: rs) w2) as H.
    destruct (App.syncLoop fuel (r :: rs) w2) as [w3 [|e|]].
    + intros [= <-]. simpl. apply H. intros r' Hr'.
      destruct (Hp r' Hr') as [r0 G]. exists r0. exact G.
    + exfalso. apply H. intros r' Hr'.
      destruct (Hp r' Hr') as [r0 G]. exists r0. exact G.
    + discriminate.
Qed.

(** The loop of the pass of js/app.js, which only a client that was
    created could have the pass enter, has no [try] of its own: an upload
    that throws ends it, the rows after it are not looked at, and the
    catalog is not written. *)
Lemma supabase_loop_aborts fuel r rs w e d rm :
  DriveService.uploadRecording fuel SupabaseApp.objectAsBlob "" ""
    (SupabaseApp.drive w) (SupabaseApp.remote w) = Some (Throw e, d, rm) ->
  exists w',
    SupabaseApp.syncLoop fuel (r :: rs) w = (w', SupabaseApp.Abort e)
    /\ SupabaseApp.uploads w' = SupabaseApp.uploads w ++ [SupabaseService.rowId r]
    /\ SupabaseApp.db w' = SupabaseApp.db w.
Proof.
  intros H. simpl. unfold SupabaseApp.syncItem. simpl. rewrite H.
  eexists. split; [reflexivity|]. split; reflexivity.
Qed.
End SyncPass.

(** ** Single flight *)
Section SingleFlight.
Context {World Cont Outside : Type}.
Variable guard : World -> bool.
Variable enter : World -> option (World * Cont).
Variable continue : Cont -> World -> World * option Cont.
Variable outside : Outside -> World -> World.

(** What the first segment and the later ones do with the guard. *)
Hypothesis enter_refused : forall w, guard w = true -> enter w = None.
Hypothesis enter_sets : forall w w' k, enter w = Some (w', k) -> guard w' = true.
Hypothesis continue_keeps : forall k w w' k',
  guard w = true -> continue k w = (w', Some k') -> guard w' = true.
Hypothesis continue_releases : forall k w w',
  continue k w = (w', None) -> guard w' = false.
Hypothesis outside_keeps : forall o w, guard (outside o w) = guard w.

Let step := EventLoop.step enter continue outside.
Let run := EventLoop.run enter continue outside.

Lemma step_singleFlight s e : singleFlight guard s -> singleFlight guard (step s e).
Proof using enter_refused enter_sets continue_keeps continue_releases outside_keeps.
  unfold step.
  intros [(Hq & Hg & Hc)|(k & Hq & Hg & Hc)]; destruct e as [|n|o]; simpl.
  - destruct (enter (EventLoop.world s)) as [[w' k]|] eqn:E;
      [|left; repeat split; assumption].
    right. exists k. simpl. rewrite Hq, Hc. repeat split; eauto.
  - rewrite Hq. simpl. left. repeat split; assumption.
  - left. simpl. rewrite outside_keeps. repeat split; assumption.
  - rewrite (enter_refused _ Hg). right. exists k. repeat split; assumption.
  - rewrite Hq. destruct n as [|n]; simpl;
      [|right; exists k; repeat split; assumption].
    destruct (continue k (EventLoop.world s)) as [w' [k'|]] eqn:E.
    + right. exists k'. simpl. repeat split; eauto.
    + left. simpl. rewrite Hc. repeat split; eauto.
  - right. exists k. simpl. rewrite outside_keeps. repeat split; assumption.
Qed.

Lemma run_singleFlight es : forall s,
  singleFlight guard s -> singleFlight guard (run s es).
Proof using enter_refused enter_sets continue_keeps continue_releases outside_keeps.
  unfold run.
  induction es as [|e es IH]; intros s H; [exact H|].
  simpl. apply IH. now apply step_singleFlight.
Qed.

(** A call that arrives while a pass is suspended changes nothing. *)
Lemma trigger_refused s :
  singleFlight guard s -> EventLoop.inflight s <> [] -> step s EventLoop.Trigger = s.
Proof using enter_refused.
  unfold step.
  intros [(Hq & _)|(k & _ & Hg & _)] Hne; [contradiction|].
  simpl. now rewrite (enter_refused _ Hg).
Qed.

(** Two calls in a row do what one does. *)
Lemma trigger_twice s :
  step (step s EventLoop.Trigger) EventLoop.Trigger = step s EventLoop.Trigger.
Proof using enter_refused enter_sets.
  unfold step. simpl.
  destruct (enter (EventLoop.world s)) as [[w' k]|] eqn:E; simpl.
  - now rewrite (enter_refused _ (enter_sets _ _ _ E)).
  - now rewrite E.
Qed.

Lemma singleFlight_facts (s : @EventLoop.Sys World Cont) :
  singleFlight guard s ->
  (length (EventLoop.inflight s) <= 1)%nat
  /\ (guard (EventLoop.world s) = true <-> length (EventLoop.inflight s) = 1%nat)
  /\ EventLoop.started s
     = (EventLoop.returned s + length (EventLoop.inflight s))%nat.
Proof using Type.
  intros [(Hq & Hg & Hc)|(k & Hq & Hg & Hc)]; rewrite Hq, Hg, Hc; simpl.
  - repeat split; try lia; discriminate.
  - repeat split; try lia; auto.
Qed.
End SingleFlight.

(** *** The two passes *)

(** Case analysis on whatever the goal is matching on. *)
Ltac case_match_goal :=
  match goal with
  | |- context [match ?x with _ => _ end] => destruct x
  end.

Section Passes.
Import StorageService.

Lemma App_updateRecordingStatus_isSyncing i s x w w' :
  App.updateRecordingStatus i s x w = Ok w' -> App.isSyncing w' = App.isSyncing w.
Proof.
  unfold App.updateRecordingStatus.
  destruct (updateRecordingStatus i s x _ (App.db w)) as [[r' d']|e]; [|discriminate].
  intros [= <-]. reflexivity.
Qed.

Lemma App_incrementRetryCount_isSyncing i w w' :
  App.incrementRetryCount i w = Ok w' -> App.isSyncing w' = App.isSyncing w.
Proof.
  unfold App.incrementRetryCount.
  destruct (incrementRetryCount i _ _ (App.db w)) as [[[r' d']|e]|];
    [|discriminate|]; intros [= <-]; reflexivity.
Qed.

Lemma recordFailure_isSyncing i w :
  App.isSyncing (fst (App.recordFailure i w)) = App.isSyncing w.
Proof.
  unfold App.recordFailure.
  destruct (App.updateRecordingStatus i failed noExtra w) as [w1|e] eqn:E1;
    [|reflexivity].
  pose proof (App_updateRecordingStatus_isSyncing _ _ _ _ _ E1) as H1.
  destruct (App.incrementRetryCount i w1) as [w2|e] eqn:E2; [|exact H1].
  simpl. rewrite (App_incrementRetryCount_isSyncing _ _ _ E2). exact H1.
Qed.

(** The loop body never writes the guard. *)
Lemma syncItem_isSyncing fuel r w :
  App.isSyncing (fst (App.syncItem fuel r w)) = App.isSyncing w.
Proof.
  unfold App.syncItem.
  destruct (Z.leb App.MAX_RETRY_COUNT (retryCount r)); [reflexivity|].
  destruct (App.updateRecordingStatus (id r) uploading noExtra w) as [w1|e] eqn:E1;
    [|apply recordFailure_isSyncing].
  pose proof (App_updateRecordingStatus_isSyncing _ _ _ _ _ E1) as H1.
  destruct (DriveService.uploadRecording fuel (blob r) (fileName r) (drivePath r) _ _)
    as [[[[res|e] d] rm]|]; [| |exact H1].
  - destruct (App.updateRecordingStatus (id r) synced_st _ _) as [w4|e] eqn:E4.
    + simpl. rewrite (App_updateRecordingStatus_isSyncing _ _ _ _ _ E4). exact H1.
    + rewrite recordFailure_isSyncing. exact H1.
  - rewrite recordFailure_isSyncing. exact H1.
Qed.

Lemma App_enter_refused w : App.isSyncing w = true -> App.enter w = None.
Proof. intros H. unfold App.enter, App.refuses. now rewrite H. Qed.

Lemma App_enter_sets w w' k :
  App.enter w = Some (w', k) -> App.isSyncing w' = true.
Proof.
  unfold App.enter. destruct (App.refuses w); [discriminate|].
  intros [= <- _]. reflexivity.
Qed.

Lemma App_continue_keeps fuel k w w' k' :
  App.isSyncing w = true -> App.continue fuel k w = (w', Some k') ->
  App.isSyncing w' = true.
Proof.
  intros H. destruct k as [[|r rs]|[|r rs]|]; simpl; try discriminate.
  - intros [= <- _]. exact H.
  - pose proof (syncItem_isSyncing fuel r w) as Hs.
    destruct (App.syncItem fuel r w) as [w1 [|e|]]; simpl in Hs;
      intros [= <- _]; congruence.
  - intros [= <- _]. exact H.
Qed.

Lemma App_continue_releases fuel k w w' :
  App.continue fuel k w = (w', None) -> App.isSyncing w' = false.
Proof.
  destruct k as [[|r rs]|[|r rs]|]; simpl; try discriminate.
  - intros [= <-]. reflexivity.
  - intros [= <-]. reflexivity.
  - destruct (App.syncItem fuel r w) as [w1 [|e|]]; intros [= <-]; reflexivity.
Qed.

Lemma appOutside_keeps o w : App.isSyncing (appOutside o w) = App.isSyncing w.
Proof. destruct o; reflexivity. Qed.

Lemma Supabase_syncItem_isSyncing fuel r w :
  SupabaseApp.isSyncing (fst (SupabaseApp.syncItem fuel r w)) = SupabaseApp.isSyncing w.
Proof.
  unfold SupabaseApp.syncItem.
  repeat case_match_goal; reflexivity.
Qed.

Lemma Supabase_enter_refused w :
  SupabaseApp.isSyncing w = true -> SupabaseApp.enter w = None.
Proof. intros H. unfold SupabaseApp.enter, SupabaseApp.refuses. now rewrite H. Qed.

Lemma Supabase_enter_sets w w' k :
  SupabaseApp.enter w = Some (w', k) -> SupabaseApp.isSyncing w' = true.
Proof.
  unfold SupabaseApp.enter. destruct (SupabaseApp.refuses w); [discriminate|].
  intros [= <- _]. reflexivity.
Qed.

Lemma Supabase_continue_keeps fuel k w w' k' :
  SupabaseApp.isSyncing w = true -> SupabaseApp.continue fuel k w = (w', Some k') ->
  SupabaseApp.isSyncing w' = true.
Proof.
  intros H. destruct k as [|[|r rs]|]; simpl; try discriminate.
  - destruct (SupabaseService.getUnsyncedToDriveRecords _) as [[[|r rs]|e] s'];
      try discriminate. intros [= <- _]. exact H.
  - pose proof (Supabase_syncItem_isSyncing fuel r w) as Hs.
    destruct (SupabaseApp.syncItem fuel r w) as [w1 [|e|]]; simpl in Hs;
      intros [= <- _]; congruence.
  - intros [= <- _]. exact H.
Qed.

Lemma Supabase_continue_releases fuel k w w' :
  SupabaseApp.continue fuel k w = (w', None) -> SupabaseApp.isSyncing w' = false.
Proof.
  destruct k as [|[|r rs]|]; simpl; try discriminate.
  - destruct (SupabaseService.getUnsyncedToDriveRecords _) as [[[|r rs]|e] s'];
      try discriminate; intros [= <-]; reflexivity.
  - intros [= <-]. reflexivity.
  - destruct (SupabaseApp.syncItem fuel r w) as [w1 [|e|]]; intros [= <-]; reflexivity.
Qed.

Lemma supabaseOutside_keeps o w :
  SupabaseApp.isSyncing (supabaseOutside o w) = SupabaseApp.isSyncing w.
Proof. destruct o; reflexivity. Qed.

(** The segments put end to end are the pass: a call followed by enough
    resumptions, with nothing else scheduled, leaves the world where
    [syncRecordings] as a whole leaves it, with no pass suspended unless
    an upload hangs. *)
Lemma App_loop_segments fuel rs : forall w a b,
  exists n,
    EventLoop.run App.enter (App.continue fuel) appOutside
      (EventLoop.mkSys w [App.InLoop rs] a b) (repeat (EventLoop.Resume 0) n)
    = match App.syncLoop fuel rs w with
      | (w', App.Hang) => EventLoop.mkSys w' [App.Stuck] a b
      | (w', _) => EventLoop.mkSys (App.finish w') [] a (S b)
      end.
Proof.
  induction rs as [|r rs IH]; intros w a b.
  - exists 1%nat. reflexivity.
  - destruct (App.syncItem fuel r w) as [w1 o] eqn:E. destruct o as [|e|].
    + destruct (IH w1 a b) as [n Hn]. exists (S n).
      cbn [repeat]. rewrite run_cons, step_resume_only.
      cbn [App.continue App.syncLoop]. rewrite E. exact Hn.
    + exists 1%nat. cbn [repeat]. rewrite run_cons, step_resume_only.
      cbn [App.continue App.syncLoop]. rewrite E. reflexivity.
    + exists 1%nat. cbn [repeat]. rewrite run_cons, step_resume_only.
      cbn [App.continue App.syncLoop]. rewrite E. reflexivity.
Qed.

Lemma App_segments_agree fuel w :
  exists n,
    let s := EventLoop.run App.enter (App.continue fuel) appOutside
               (EventLoop.quiescent w)
               (EventLoop.Trigger :: repeat (EventLoop.Resume 0) n) in
    EventLoop.world s = App.worldOf (App.syncRecordings fuel w)
    /\ (EventLoop.inflight s = [] <->
        exists w', App.syncRecordings fuel w = App.Returned w').
Proof.
  unfold App.syncRecordings.
  assert (Hstep: EventLoop.step App.enter (App.continue fuel) appOutside
                   (EventLoop.quiescent w) EventLoop.Trigger
                 = if App.refuses w then EventLoop.quiescent w
                   else EventLoop.mkSys (App.setSyncing true w)
                          [App.AwaitScan
                             (getUnsyncedRecordings (App.db (App.setSyncing true w)))]
                          1 0).
  { simpl. unfold App.enter. destruct (App.refuses w); reflexivity. }
  destruct (App.refuses w).
  - exists 0%nat. cbn [repeat]. rewrite run_cons, Hstep. simpl.
    split; [reflexivity|]. split; eauto.
  - destruct (getUnsyncedRecordings (App.db (App.setSyncing true w))) as [|r rs] eqn:E.
    + exists 1%nat. cbn [repeat]. rewrite run_cons, Hstep, run_cons, step_resume_only.
      simpl. split; [reflexivity|]. split; eauto.
    + set (w2 := App.setIndicator _ _).
      destruct (App_loop_segments fuel (r :: rs) w2 1 0) as [n Hn].
      exists (S n). cbn [repeat].
      rewrite run_cons, Hstep, run_cons, step_resume_only.
      cbn [App.continue]. fold w2. rewrite Hn.
      destruct (App.syncLoop fuel (r :: rs) w2) as [w3 [|e|]]; simpl.
      * split; [reflexivity|]. split; eauto.
      * split; [reflexivity|]. split; eauto.
      * split; [reflexivity|]. split; [discriminate|]. intros [w' H]. discriminate.
Qed.

Lemma App_guardedEntry : guardedEntry App.isSyncing App.enter.
Proof.
  split; [|exact App_enter_refused].
  intros w w' k H. split; [|eapply App_enter_sets; eauto].
  revert H. unfold App.enter, App.refuses.
  destruct (App.isSyncing w); [discriminate | reflexivity].
Qed.

Lemma Supabase_guardedEntry : guardedEntry SupabaseApp.isSyncing SupabaseApp.enter.
Proof.
  split; [|exact Supabase_enter_refused].
  intros w w' k H. split; [|eapply Supabase_enter_sets; eauto].
  revert H. unfold SupabaseApp.enter, SupabaseApp.refuses.
  destruct (SupabaseApp.isSyncing w); [discriminate | reflexivity].
Qed.

Lemma App_singleFlightAt fuel es w :
  App.isSyncing w = false ->
  singleFlightAt App.isSyncing App.enter (App.continue fuel) appOutside
    (EventLoop.run App.enter (App.continue fuel) appOutside (EventLoop.quiescent w) es).
Proof.
  intros H.
  assert (Inv: singleFlight App.isSyncing
            (EventLoop.run App.enter (App.continue fuel) appOutside
               (EventLoop.quiescent w) es)).
  { apply (run_singleFlight App.isSyncing App.enter (App.continue fuel) appOutside
             App_enter_refused App_enter_sets (App_continue_keeps fuel)
             (App_continue_releases fuel) appOutside_keeps).
    left. repeat split; auto. }
  destruct (singleFlight_facts _ _ Inv) as (A & B & C).
  split; [exact A|]. split; [exact B|]. split; [exact C|]. split.
  - intros Hne.
    exact (trigger_refused App.isSyncing App.enter (App.continue fuel) appOutside
             App_enter_refused _ Inv Hne).
  - exact (trigger_twice App.isSyncing App.enter (App.continue fuel) appOutside
             App_enter_refused App_enter_sets _).
Qed.

Lemma Supabase_singleFlightAt fuel es w :
  SupabaseApp.isSyncing w = false ->
  singleFlightAt SupabaseApp.isSyncing SupabaseApp.enter (SupabaseApp.continue fuel)
    supabaseOutside
    (EventLoop.run SupabaseApp.enter (SupabaseApp.continue fuel) supabaseOutside
       (EventLoop.quiescent w) es).
Proof.
  intros H.
  assert (Inv: singleFlight SupabaseApp.isSyncing
            (EventLoop.run SupabaseApp.enter (SupabaseApp.continue fuel)
               supabaseOutside (EventLoop.quiescent w) es)).
  { apply (run_singleFlight SupabaseApp.isSyncing SupabaseApp.enter
             (SupabaseApp.continue fuel) supabaseOutside
             Supabase_enter_refused Supabase_enter_sets (Supabase_continue_keeps fuel)
             (Supabase_continue_releases fuel) supabaseOutside_keeps).
    left. repeat split; auto. }
  destruct (singleFlight_facts _ _ Inv) as (A & B & C).
  split; [exact A|]. split; [exact B|]. split; [exact C|]. split.
  - intros Hne.
    exact (trigger_refused SupabaseApp.isSyncing SupabaseApp.enter
             (SupabaseApp.continue fuel) supabaseOutside
             Supabase_enter_refused _ Inv Hne).
  - exact (trigger_twice SupabaseApp.isSyncing SupabaseApp.enter
             (SupabaseApp.continue fuel) supabaseOutside
             Supabase_enter_refused Supabase_enter_sets _).
Qed.

End Passes.

(** ** Crash recovery *)
Section Recovery.
Import StorageService.

(** *** getSessionChunks sorts *)

Lemma insertBySequence_perm c l : Permutation (insertBySequence c l) (c :: l).
Proof.
  induction l as [|d l IH]; simpl; [reflexivity|].
  destruct (Nat.leb (sequence c) (sequence d)); [reflexivity|].
  rewrite IH. apply perm_swap.
Qed.

Lemma sortBySequence_perm l : Permutation (sortBySequence l) l.
Proof.
  induction l as [|c l IH]; simpl; [reflexivity|].
  rewrite insertBySequence_perm. now rewrite IH.
Qed.

Lemma insertBySequence_sorted c l :
  Sorted le (map sequence l) -> Sorted le (map sequence (insertBySequence c l)).
Proof.
  induction l as [|d l IH]; simpl; intros H; [repeat constructor|].
  destruct (Nat.leb_spec (sequence c) (sequence d)) as [Hle|Hgt]; simpl.
  - constructor; [exact H | constructor; exact Hle].
  - apply Sorted_inv in H as [Hs Hd]. constructor; [auto|].
    destruct l as [|e l]; simpl in *.
    + constructor. lia.
    + destruct (Nat.leb (sequence c) (sequence e)); simpl; constructor;
        [lia | now apply HdRel_inv in Hd].
Qed.

Lemma sortBySequence_sorted l : Sorted le (map sequence (sortBySequence l)).
Proof.
  induction l as [|c l IH]; simpl; [constructor | now apply insertBySequence_sorted].
Qed.

Lemma sortBySequence_nil l : sortBySequence l = [] -> l = [].
Proof.
  intros H. pose proof (sortBySequence_perm l) as P. rewrite H in P.
  now apply Permutation_nil in P.
Qed.

(** *** One session *)

Lemma sessionPayload_none sid d : chunksOfSession sid d = [] -> sessionPayload sid d = [].
Proof. unfold sessionPayload, getSessionChunks. now intros ->. Qed.

Lemma chunksOfSession_clear sid' sid d :
  chunksOfSession sid' (clearSessionChunks sid d)
  = if bool_decide (sid' = sid) then [] else chunksOfSession sid' d.
Proof.
  unfold chunksOfSession, clearSessionChunks. simpl.
  induction (chunks d) as [|c l IH]; simpl; [now destruct (bool_decide _)|].
  destruct (bool_decide_reflect (sessionId c = sid)) as [E|N]; simpl.
  - rewrite IH. destruct (bool_decide_reflect (sid' = sid)) as [E'|N']; [reflexivity|].
    rewrite bool_decide_eq_false_2 by congruence. reflexivity.
  - destruct (bool_decide_reflect (sessionId c = sid')) as [E'|N'].
    + rewrite bool_decide_eq_false_2 by congruence. now rewrite IH,
        bool_decide_eq_false_2 by congruence.
    + rewrite IH. now destruct (bool_decide (sid' = sid)).
Qed.

(** The entries [recoverSession] adds for [sid]: one when the bytes put
    together are not empty, none otherwise. *)
Lemma recoverSession_spec now sid d :
  exists news,
    recordings (App.recoverSession now sid d) = recordings d ++ news
    /\ chunks (App.recoverSession now sid d)
       = List.filter (fun c => negb (bool_decide (sessionId c = sid))) (chunks d)
    /\ (forall r, In r news -> originalSessionId r = Some sid)
    /\ (sessionPayload sid d = [] -> news = [])
    /\ (sessionPayload sid d <> [] -> exists r, news = [r] /\ recoveredEntry sid d r).
Proof.
  unfold App.recoverSession, recoverFromChunks, sessionPayload.
  destruct (getSessionChunks sid d) as [|c cs] eqn:E.
  - exists []. simpl. rewrite app_nil_r. repeat split; auto.
    + intros r []. 
    + intros H. now contradiction H.
  - set (b := newBlob _ _).
    assert (Hb: data b = concat (map (fun c => data (chunkBlob c)) (c :: cs))).
    { subst b. unfold newBlob. simpl. now rewrite map_map. }
    unfold size. rewrite Hb.
    destruct (concat (map (fun c => data (chunkBlob c)) (c :: cs))) as [|x xs] eqn:Ep.
    + exists []. simpl. rewrite app_nil_r. repeat split; auto.
      * intros r [].
      * intros H. now contradiction H.
    + eexists [_]. simpl. repeat split; try reflexivity.
      * intros r [<-|[]]. reflexivity.
      * discriminate.
      * intros _. eexists. split; [reflexivity|].
        unfold recoveredEntry. simpl. rewrite E. repeat split; auto.
        simpl. now rewrite map_map.
Qed.

Lemma getSessionChunks_recoverSession now sid sid' d :
  sid' <> sid ->
  getSessionChunks sid' (App.recoverSession now sid d) = getSessionChunks sid' d.
Proof.
  intros Hne. unfold getSessionChunks. f_equal. unfold chunksOfSession.
  destruct (recoverSession_spec now sid d) as (news & _ & -> & _).
  induction (chunks d) as [|c l IH]; simpl; [reflexivity|].
  destruct (bool_decide_reflect (sessionId c = sid)) as [E|N]; simpl.
  - rewrite bool_decide_eq_false_2 by congruence. exact IH.
  - destruct (bool_decide (sessionId c = sid')); [f_equal|]; exact IH.
Qed.

Lemma entriesOf_app sid l1 l2 : entriesOf sid (l1 ++ l2) = entriesOf sid l1 ++ entriesOf sid l2.
Proof. unfold entriesOf. apply List.filter_app. Qed.

Lemma entriesOf_all sid l :
  (forall r, In r l -> originalSessionId r = Some sid) -> entriesOf sid l = l.
Proof.
  induction l as [|r l IH]; intros H; simpl; [reflexivity|].
  rewrite bool_decide_eq_true_2 by (apply H; now left).
  f_equal. apply IH. intros r' Hr'. apply H. now right.
Qed.

Lemma entriesOf_none sid sid' l :
  sid <> sid' -> (forall r, In r l -> originalSessionId r = Some sid') ->
  entriesOf sid l = [].
Proof.
  intros Hne. induction l as [|r l IH]; intros H; simpl; [reflexivity|].
  rewrite bool_decide_eq_false_2.
  - apply IH. intros r' Hr'. apply H. now right.
  - rewrite (H r (or_introl eq_refl)). congruence.
Qed.

Lemma recoveredEntry_transfer sid d d' r :
  getSessionChunks sid d' = getSessionChunks sid d ->
  recoveredEntry sid d' r -> recoveredEntry sid d r.
Proof. unfold recoveredEntry. now intros ->. Qed.

(** *** The orphaned sessions *)

Lemma elem_of_distinct xs : forall seen x,
  x ∈ distinct seen xs <-> x ∈ xs /\ x ∉ seen.
Proof.
  induction xs as [|y xs IH]; intros seen x; simpl.
  - split; [intros H; inversion H | intros [H _]; inversion H].
  - destruct (bool_decide_reflect (y ∈ seen)) as [Hy|Hy].
    + rewrite IH, elem_of_cons. split; [tauto|].
      intros [[->|H] Hn]; [contradiction | tauto].
    + rewrite elem_of_cons, IH, !elem_of_cons. split.
      * intros [->|[H Hn]]; [tauto|]. split; [tauto|]. tauto.
      * intros [[->|H] Hn]; [tauto|].
        destruct (decide (x = y)) as [->|N]; [tauto|]. right. split; [exact H|].
        intros [E|E]; [contradiction | contradiction].
Qed.

Lemma NoDup_distinct xs : forall seen, NoDup (distinct seen xs).
Proof.
  induction xs as [|y xs IH]; intros seen; simpl; [constructor|].
  destruct (bool_decide (y ∈ seen)); [apply IH|].
  constructor; [|apply IH].
  rewrite elem_of_distinct, elem_of_cons. tauto.
Qed.

Lemma orphaned_complete d c : In c (chunks d) -> sessionId c ∈ getOrphanedSessions d.
Proof.
  intros H. unfold getOrphanedSessions. rewrite elem_of_distinct. split.
  - apply list_elem_of_In. now apply in_map.
  - intros E. inversion E.
Qed.

Lemma filter_sessions s rest l :
  List.filter (fun c => negb (bool_decide (sessionId c ∈ rest)))
    (List.filter (fun c => negb (bool_decide (sessionId c = s))) l)
  = List.filter (fun c => negb (bool_decide (sessionId c ∈ s :: rest))) l.
Proof.
  induction l as [|c l IH]; simpl; [reflexivity|].
  destruct (bool_decide_reflect (sessionId c = s)) as [E|N]; simpl.
  - rewrite bool_decide_eq_true_2 by (rewrite E; apply list_elem_of_here).
    exact IH.
  - destruct (bool_decide_reflect (sessionId c ∈ rest)) as [Hin|Hout]; simpl.
    + rewrite bool_decide_eq_true_2 by (now apply list_elem_of_further). exact IH.
    + rewrite bool_decide_eq_false_2; [simpl; now f_equal|].
      rewrite elem_of_cons. tauto.
Qed.

Lemma filter_all_out (sids : list SessionId) (l : list Chunk) :
  (forall c, In c l -> sessionId c ∈ sids) ->
  List.filter (fun c => negb (bool_decide (sessionId c ∈ sids))) l = [].
Proof.
  induction l as [|c l IH]; intros Hall; simpl; [reflexivity|].
  rewrite bool_decide_eq_true_2 by (apply Hall; now left). simpl.
  apply IH. intros c' Hc'. apply Hall. now right.
Qed.

Lemma sessionPayload_recoverSession now s sid d :
  sid <> s -> sessionPayload sid (App.recoverSession now s d) = sessionPayload sid d.
Proof.
  intros H. unfold sessionPayload. now rewrite getSessionChunks_recoverSession.
Qed.

(** The loop of [checkForRecovery] over distinct sessions. *)
Lemma recoverSessions_spec dates sids : NoDup sids -> forall k d,
  exists news,
    recordings (App.recoverSessions dates k sids d) = recordings d ++ news
    /\ chunks (App.recoverSessions dates k sids d)
       = List.filter (fun c => negb (bool_decide (sessionId c ∈ sids))) (chunks d)
    /\ (forall r, In r news -> exists sid, sid ∈ sids /\ originalSessionId r = Some sid)
    /\ (forall sid, sid ∉ sids -> entriesOf sid news = [])
    /\ (forall sid, sid ∈ sids -> sessionPayload sid d = [] -> entriesOf sid news = [])
    /\ (forall sid, sid ∈ sids -> sessionPayload sid d <> [] ->
          exists r, entriesOf sid news = [r] /\ recoveredEntry sid d r).
Proof.
  induction sids as [|s rest IH]; intros Hnd k d; simpl.
  - exists []. rewrite app_nil_r. split; [reflexivity|]. split.
    { induction (chunks d) as [|c l IHl]; simpl; [reflexivity|]. now f_equal. }
    split; [intros r []|]. split; [reflexivity|].
    split; intros sid H; inversion H.
  - apply NoDup_cons in Hnd as [Hs Hnd].
    destruct (recoverSession_spec (dates k) s d) as (news0 & R0 & C0 & O0 & E0 & P0).
    destruct (IH Hnd (S k) (App.recoverSession (dates k) s d))
      as (news1 & R1 & C1 & O1 & N1 & E1 & P1).
    exists (news0 ++ news1). split; [rewrite R1, R0; now rewrite app_assoc|].
    split; [rewrite C1, C0; apply filter_sessions|].
    split.
    { intros r Hr. apply in_app_or in Hr as [Hr|Hr].
      - exists s. split; [apply list_elem_of_here | auto].
      - destruct (O1 r Hr) as (sid & Hin & Ho). exists sid.
        split; [now apply list_elem_of_further | exact Ho]. }
    split.
    { intros sid Hout. rewrite elem_of_cons in Hout. rewrite entriesOf_app.
      rewrite (entriesOf_none sid s news0) by (auto; tauto).
      rewrite N1 by tauto. reflexivity. }
    split.
    { intros sid Hin Hp. rewrite entriesOf_app.
      destruct (decide (sid = s)) as [->|Hne].
      - rewrite (E0 Hp). simpl. now apply N1.
      - rewrite (entriesOf_none sid s news0) by auto. simpl.
        apply E1.
        + rewrite elem_of_cons in Hin. tauto.
        + now rewrite sessionPayload_recoverSession. }
    intros sid Hin Hp. rewrite entriesOf_app.
    destruct (decide (sid = s)) as [->|Hne].
    + destruct (P0 Hp) as (r & -> & Hr). exists r.
      rewrite (entriesOf_all s [r]) by (intros r' [<-|[]]; apply O0; now left).
      rewrite (N1 s Hs). split; [reflexivity | exact Hr].
    + rewrite (entriesOf_none sid s news0) by auto. simpl.
      destruct (P1 sid) as (r & Hr & Hre).
      * rewrite elem_of_cons in Hin. tauto.
      * now rewrite sessionPayload_recoverSession.
      * exists r. split; [exact Hr|].
        eapply recoveredEntry_transfer; [|exact Hre].
        now apply getSessionChunks_recoverSession.
Qed.

(** C5, as stated, fails: a session whose only chunk holds no bytes is
    in the chunk log with one chunk, and recovery writes no entry for
    it. *)
Lemma recovery_counterexample : ~ recovery_as_stated.
Proof.
  intros H.
  destruct (H someDay emptyChunkOnly "S"%string ltac:(discriminate))
    as (news & r & Hrec & Hent & _).
  vm_compute in Hrec. subst news. discriminate Hent.
Qed.

(** C5, amended: recovery appends to the catalog, for every session
    whose chunks put together hold at least one byte, exactly one entry:
    [pending], flagged [recovered], its payload the session's chunks
    joined in ascending sequence order; for a session with no chunk, or
    with nothing but empty chunks, it appends none. Every new entry comes
    from such a session. Afterwards no session has a chunk left, so
    [getSessionChunks] returns the empty list for each. *)
Theorem crash_recovery (dates : nat -> JsDate) (d : DB) :
  exists news,
    recordings (App.checkForRecovery dates d) = recordings d ++ news
    /\ (forall sid, sessionPayload sid d <> [] ->
          exists r, entriesOf sid news = [r] /\ recoveredEntry sid d r)
    /\ (forall sid, sessionPayload sid d = [] -> entriesOf sid news = [])
    /\ (forall r, In r news -> exists sid, originalSessionId r = Some sid)
    /\ (forall sid, getSessionChunks sid (App.checkForRecovery dates d) = [])
    /\ (forall sid, Sorted le (map sequence (getSessionChunks sid d))
                    /\ Permutation (getSessionChunks sid d) (chunksOfSession sid d)).
Proof.
  unfold App.checkForRecovery.
  destruct (recoverSessions_spec dates (getOrphanedSessions d)
              (NoDup_distinct _ _) 0%nat d) as (news & R & C & O & N & E & P).
  exists news. split; [exact R|].
  assert (Hin: forall sid, sessionPayload sid d <> [] -> sid ∈ getOrphanedSessions d).
  { intros sid Hp. destruct (chunksOfSession sid d) as [|c cs] eqn:Ec.
    - contradiction Hp. now apply sessionPayload_none.
    - assert (Hc: In c (chunksOfSession sid d)) by (rewrite Ec; now left).
      unfold chunksOfSession in Hc. apply List.filter_In in Hc as [Hc Hs].
      apply bool_decide_eq_true_1 in Hs. rewrite <- Hs. now apply orphaned_complete. }
  split; [intros sid Hp; apply P; auto|].
  split.
  { intros sid Hp. destruct (decide (sid ∈ getOrphanedSessions d)); [apply E|apply N]; auto. }
  split.
  { intros r Hr. destruct (O r Hr) as (sid & _ & Ho). eauto. }
  split.
  { intros sid. unfold getSessionChunks, chunksOfSession. rewrite C.
    rewrite (filter_all_out (getOrphanedSessions d) (chunks d))
      by (intros c; apply orphaned_complete).
    reflexivity. }
  intros sid. split; [apply sortBySequence_sorted | apply sortBySequence_perm].
Qed.

(** The example of the specification: [He] under sequence 0 and [llo]
    under sequence 1 come back as one pending entry holding [Hello]. *)
Lemma crash_recovery_witness :
  exists r,
    entriesOf "S" (recordings (App.checkForRecovery someDay helloChunks)) = [r]
    /\ data (blob r) = String.list_byte_of_string "Hello"
    /\ status r = pending /\ recovered r = true
    /\ getSessionChunks "S" (App.checkForRecovery someDay helloChunks) = [].
Proof.
  destruct (crash_recovery someDay helloChunks) as (news & R & P & _ & _ & C & _).
  destruct (P "S"%string ltac:(vm_compute; discriminate)) as (r & Hr & He).
  exists r. rewrite R. simpl. split; [exact Hr|].
  destruct He as (Hs & _ & _ & Hf & _ & Hd).
  split; [rewrite Hd; reflexivity|]. split; [exact Hs|]. split; [exact Hf|].
  apply C.
Defined.
End Recovery.

(** ** The catalog: round trips and invariants *)
Section CatalogRoundTrips.
Import StorageService.

Lemma getRecording_None i l : getRecording i l = None <-> ~ In i (map id l).
Proof.
  induction l as [|x l IH]; simpl.
  - tauto.
  - destruct (Nat.eqb_spec (id x) i) as [E|E].
    + split; [discriminate | intros H; exfalso; apply H; auto].
    + rewrite IH. tauto.
Qed.

Lemma getRecording_app_r i l l' :
  getRecording i l = None -> getRecording i (l ++ l') = getRecording i l'.
Proof.
  induction l as [|x l IH]; simpl; [reflexivity|].
  destruct (Nat.eqb (id x) i); [discriminate | exact IH].
Qed.

Lemma keyGen_fresh d :
  wfCatalog d -> getRecording (recordingsKeyGen d) (recordings d) = None.
Proof.
  intros [_ Hlt]. apply getRecording_None. intros Hin.
  rewrite List.Forall_forall in Hlt. specialize (Hlt _ Hin). lia.
Qed.

Lemma In_keyOrdered_iff d r :
  keyOrdered d -> (In r (recordings d) <-> getRecording (id r) (recordings d) = Some r).
Proof.
  intros Hs. split.
  - apply In_getRecording. exact Hs.
  - apply getRecording_In.
Qed.

Lemma unsynced_iff d r :
  In r (getUnsyncedRecordings d) <-> In r (recordings d) /\ synced r = 0.
Proof.
  unfold getUnsyncedRecordings. rewrite List.filter_In, Z.eqb_eq. reflexivity.
Qed.

(** X1. [saveRecording] hands out a key no record of the catalog carries,
    and the record it stores under that key is read back by
    [getRecording]: it holds the blob given, is [pending] and unsynced
    with no retry behind it, and is returned by the next scan of
    [getUnsyncedRecordings]. Every other key reads as before, and the
    catalog stays in key order below its key generator. *)
Theorem saveRecording_round_trip (b : Blob) (md : Metadata) (now : JsDate) (d : DB) :
  wfCatalog d ->
  let key := fst (saveRecording b md now d) in
  let d' := snd (saveRecording b md now d) in
  ~ In key (map id (recordings d))
  /\ (exists r, getRecording key (recordings d') = Some r
        /\ id r = key /\ blob r = b /\ fileSize r = size b
        /\ timestamp r = iso now
        /\ status r = pending /\ synced r = 0 /\ retryCount r = 0
        /\ driveFileId r = None
        /\ In r (getUnsyncedRecordings d'))
  /\ (forall j, j <> key ->
        getRecording j (recordings d') = getRecording j (recordings d))
  /\ wfCatalog d'.
Proof.
  intros Hwf key d'.
  pose proof (keyGen_fresh d Hwf) as Hfresh.
  split; [apply getRecording_None; exact Hfresh|].
  split.
  - eexists. split.
    + unfold d', key. cbn [saveRecording snd fst recordings].
      rewrite getRecording_app_r by exact Hfresh.
      cbn [getRecording id]. rewrite Nat.eqb_refl. reflexivity.
    + cbn [id blob fileSize timestamp status synced retryCount driveFileId].
      repeat (split; [reflexivity|]).
      apply unsynced_iff. split; [|reflexivity].
      unfold d'. cbn [saveRecording snd recordings].
      apply in_or_app. right. left. reflexivity.
  - split.
    + intros j Hj. unfold d'. cbn [saveRecording snd recordings].
      destruct (getRecording j (recordings d)) as [r|] eqn:E.
      * apply getRecording_app_l. exact E.
      * rewrite getRecording_app_r by exact E.
        cbn [getRecording id].
        destruct (Nat.eqb_spec (recordingsKeyGen d) j) as [E'|E']; [|reflexivity].
        exfalso. apply Hj. symmetry. exact E'.
    + apply saveRecording_wf. exact Hwf.
Qed.

Lemma saveRecording_round_trip_witness :
  exists r,
    getRecording 5 (recordings (snd (saveRecording fragment noMetadata (someDay 0)
                                       threeRecordings))) = Some r
    /\ blob r = fragment /\ status r = pending.
Proof.
  assert (Hwf : wfCatalog threeRecordings).
  { split.
    - unfold keyOrdered. simpl. repeat constructor.
    - simpl. repeat constructor. }
  destruct (saveRecording_round_trip fragment noMetadata (someDay 0) threeRecordings Hwf)
    as (_ & (r & Hr & _ & Hb & _ & _ & Hs & _) & _).
  exists r. repeat split; assumption.
Defined.

(** X2. What a status write does to the upload queue: after
    [updateRecordingStatus(id, status)] the record is in the result of
    [getUnsyncedRecordings] exactly when the status written is not
    [synced]; the scan holds no other record under that id, and the other
    records are in the scan exactly when they were before. *)
Theorem updateRecordingStatus_queue
    (i : nat) (s : Status) (x : ExtraFields) (now : Timestamp) (d : DB)
    (r' : Recording) (d' : DB) :
  keyOrdered d ->
  updateRecordingStatus i s x now d = Ok (r', d') ->
  (In r' (getUnsyncedRecordings d') <-> s <> synced_st)
  /\ (forall r0, In r0 (getUnsyncedRecordings d') -> id r0 = i -> r0 = r')
  /\ (forall r0, id r0 <> i ->
        (In r0 (getUnsyncedRecordings d') <-> In r0 (getUnsyncedRecordings d))).
Proof.
  intros Hs Hu.
  destruct (updateRecordingStatus_keyOrdered _ _ _ _ _ _ _ Hs Hu) as [Hs' _].
  pose proof (updateRecordingStatus_same _ _ _ _ _ _ _ Hu) as Hsame.
  pose proof (getRecording_id _ _ _ Hsame) as Hid.
  assert (Hsyn : synced r' = if decide (s = synced_st) then 1 else 0).
  { unfold updateRecordingStatus in Hu.
    destruct (getRecording i (recordings d)); [|discriminate].
    injection Hu as <- _. reflexivity. }
  split; [|split].
  - rewrite unsynced_iff, Hsyn. split.
    + intros [_ H]. destruct (decide (s = synced_st)); [discriminate | assumption].
    + intros H. split.
      * apply getRecording_In with (i := i). exact Hsame.
      * destruct (decide (s = synced_st)); [contradiction | reflexivity].
  - intros r0 Hin Hi. apply unsynced_iff in Hin as [Hin _].
    apply (In_keyOrdered_iff d' r0 Hs') in Hin. rewrite Hi, Hsame in Hin.
    injection Hin as ->. reflexivity.
  - intros r0 Hne. rewrite !unsynced_iff.
    rewrite (In_keyOrdered_iff d' r0 Hs'), (In_keyOrdered_iff d r0 Hs).
    rewrite (updateRecordingStatus_other _ _ _ _ _ _ _ (id r0) Hu Hne). reflexivity.
Qed.

Lemma updateRecordingStatus_queue_witness :
  exists r' d',
    updateRecordingStatus 2 synced_st (mkExtra None (Some "f2"%string) None None) 7000
      threeRecordings = Ok (r', d')
    /\ ~ In r' (getUnsyncedRecordings d').
Proof.
  eexists. eexists. split; [reflexivity|].
  intros Hin.
  refine (proj1 (proj1 (updateRecordingStatus_queue 2 synced_st _ 7000 threeRecordings
                          _ _ _ eq_refl)) Hin eq_refl).
  unfold keyOrdered. simpl. repeat constructor.
Defined.

Lemma Forall_put (P : Recording -> Prop) r l :
  P r -> List.Forall P l -> List.Forall P (put r l).
Proof.
  intros Hr Hl. induction Hl as [|x l Hx Hl IH]; simpl.
  - constructor; [exact Hr | constructor].
  - destruct (Nat.eqb (id x) (id r)).
    + constructor; assumption.
    + destruct (Nat.ltb (id r) (id x)).
      * constructor; [exact Hr | constructor; assumption].
      * constructor; assumption.
Qed.

Lemma Forall_filter (A : Type) (P : A -> Prop) (f : A -> bool) l :
  List.Forall P l -> List.Forall P (List.filter f l).
Proof.
  intros H. induction H as [|x l Hx Hl IH]; simpl; [constructor|].
  destruct (f x); [constructor; assumption | assumption].
Qed.

Lemma mirrored_setStatus s now x r : mirrored (assign x (setStatus s now r)).
Proof. unfold mirrored. reflexivity. Qed.

Lemma updateRecordingStatus_mirrored i s x now d r' d' :
  mirroredCatalog d -> updateRecordingStatus i s x now d = Ok (r', d') ->
  mirroredCatalog d'.
Proof.
  intros Hm Hu. unfold updateRecordingStatus in Hu.
  destruct (getRecording i (recordings d)) as [r|]; [|discriminate].
  injection Hu as <- <-. unfold mirroredCatalog. cbn [recordings].
  apply Forall_put; [apply mirrored_setStatus | exact Hm].
Qed.

(** X3. The [synced] index key is kept in step with the status: in a
    catalog where [synced] is 1 exactly on the records whose status is
    [synced], it is still so after [saveRecording],
    [updateRecordingStatus], [markRecordingAsSynced],
    [incrementRetryCount], [deleteRecording] and [clearSyncedRecordings];
    and in such a catalog [getUnsyncedRecordings] returns exactly the
    records whose status is not [synced]. *)
Theorem synced_flag_mirrors_status (d : DB) :
  mirroredCatalog d ->
  (forall b md now, mirroredCatalog (snd (saveRecording b md now d)))
  /\ (forall i s x now r' d',
        updateRecordingStatus i s x now d = Ok (r', d') -> mirroredCatalog d')
  /\ (forall i f now r' d',
        markRecordingAsSynced i f now d = Ok (r', d') -> mirroredCatalog d')
  /\ (forall i tRetry tPut r' d',
        incrementRetryCount i tRetry tPut d = Some (Ok (r', d')) -> mirroredCatalog d')
  /\ (forall i, mirroredCatalog (deleteRecording i d))
  /\ mirroredCatalog (snd (clearSyncedRecordings d))
  /\ getUnsyncedRecordings d
     = List.filter (fun r => negb (bool_decide (status r = synced_st))) (recordings d).
Proof.
  intros Hm. repeat split.
  - intros b md now. unfold mirroredCatalog. cbn [saveRecording snd recordings].
    apply List.Forall_app. split; [exact Hm|].
    constructor; [reflexivity | constructor].
  - intros i s x now r' d'. apply updateRecordingStatus_mirrored. exact Hm.
  - intros i [f|] now r' d' Hu.
    + apply (updateRecordingStatus_mirrored _ _ _ _ _ _ _ Hm Hu).
    + unfold markRecordingAsSynced in Hu.
      destruct (getRecording i (recordings d)) as [r|]; [|discriminate].
      injection Hu as <- <-. unfold mirroredCatalog. cbn [recordings].
      apply Forall_put; [reflexivity | exact Hm].
  - intros i tRetry tPut r' d' Hu. unfold incrementRetryCount in Hu.
    destruct (getRecording i (recordings d)) as [r|]; [|discriminate].
    injection Hu as Hu. apply (updateRecordingStatus_mirrored _ _ _ _ _ _ _ Hm Hu).
  - intros i. unfold mirroredCatalog. cbn [deleteRecording recordings].
    apply Forall_filter. exact Hm.
  - unfold mirroredCatalog. cbn [clearSyncedRecordings snd recordings].
    apply Forall_filter. exact Hm.
  - unfold getUnsyncedRecordings. unfold mirroredCatalog in Hm.
    induction Hm as [|r l Hr Hl IH]; [reflexivity|].
    cbn [List.filter]. rewrite IH. unfold mirrored in Hr. rewrite Hr.
    destruct (decide (status r = synced_st)) as [E|E].
    + rewrite bool_decide_eq_true_2 by exact E. reflexivity.
    + rewrite bool_decide_eq_false_2 by exact E. reflexivity.
Qed.

Lemma synced_flag_mirrors_status_witness :
  mirroredCatalog (snd (clearSyncedRecordings threeRecordings))
  /\ map id (getUnsyncedRecordings threeRecordings) = [2; 4]%nat.
Proof.
  assert (Hm : mirroredCatalog threeRecordings).
  { unfold mirroredCatalog. simpl. repeat constructor. }
  split.
  - exact (proj1 (proj2 (proj2 (proj2 (proj2 (proj2
             (synced_flag_mirrors_status threeRecordings Hm))))))).
  - rewrite (proj2 (proj2 (proj2 (proj2 (proj2 (proj2
               (synced_flag_mirrors_status threeRecordings Hm))))))).
    reflexivity.
Defined.

Lemma filter_partition_length (A : Type) (f : A -> bool) l :
  length l = (length (List.filter f l)
              + length (List.filter (fun x => negb (f x)) l))%nat.
Proof.
  induction l as [|x l IH]; simpl; [reflexivity|].
  destruct (f x); simpl; lia.
Qed.

Lemma filter_filter_same (A : Type) (f : A -> bool) l :
  List.filter f (List.filter f l) = List.filter f l.
Proof.
  induction l as [|x l IH]; simpl; [reflexivity|].
  destruct (f x) eqn:E; simpl; [rewrite E, IH; reflexivity | exact IH].
Qed.

Lemma filter_filter_implied (A : Type) (f g : A -> bool) l :
  (forall x, f x = true -> g x = true) ->
  List.filter f (List.filter g l) = List.filter f l.
Proof.
  intros H. induction l as [|x l IH]; simpl; [reflexivity|].
  destruct (g x) eqn:Eg; simpl.
  - rewrite IH. reflexivity.
  - destruct (f x) eqn:Ef; [|exact IH].
    rewrite (H x Ef) in Eg. discriminate.
Qed.

Lemma filter_filter_none (A : Type) (f : A -> bool) l :
  List.filter f (List.filter (fun x => negb (f x)) l) = [].
Proof.
  induction l as [|x l IH]; simpl; [reflexivity|].
  destruct (f x) eqn:E; simpl; [exact IH | rewrite E; exact IH].
Qed.

(** X4. [clearSyncedRecordings] returns the number of records it has
    removed; what it removes are exactly the records whose [synced] key is
    1, so the upload queue is the same before and after; a second call
    finds nothing to remove and returns 0. The chunk log and the key
    generator are left alone. *)
Theorem clearSyncedRecordings_effect (d : DB) :
  let n := fst (clearSyncedRecordings d) in
  let d' := snd (clearSyncedRecordings d) in
  length (recordings d) = (n + length (recordings d'))%nat
  /\ (forall r, In r (recordings d') <-> In r (recordings d) /\ synced r <> 1)
  /\ getUnsyncedRecordings d' = getUnsyncedRecordings d
  /\ clearSyncedRecordings d' = (0%nat, d')
  /\ chunks d' = chunks d
  /\ recordingsKeyGen d' = recordingsKeyGen d.
Proof.
  intros n d'. unfold n, d'. cbn [clearSyncedRecordings fst snd recordings chunks
                                   recordingsKeyGen chunksKeyGen].
  split; [apply filter_partition_length|].
  split.
  { intros r. rewrite List.filter_In, negb_true_iff, Z.eqb_neq. reflexivity. }
  split.
  { unfold getUnsyncedRecordings. cbn [recordings].
    apply filter_filter_implied. intros x Hx.
    apply Z.eqb_eq in Hx. rewrite Hx. reflexivity. }
  split; [|split; reflexivity].
  unfold clearSyncedRecordings. cbn [recordings chunks recordingsKeyGen chunksKeyGen].
  rewrite filter_filter_none.
  rewrite (filter_filter_same _ (fun r => negb (synced r =? 1))). reflexivity.
Qed.

Lemma keyOrdered_filter (f : Recording -> bool) l :
  StronglySorted Nat.lt (map id l) ->
  StronglySorted Nat.lt (map id (List.filter f l)).
Proof.
  induction l as [|x l IH]; simpl; intros Hs; [constructor|].
  apply StronglySorted_inv in Hs as [Hs Hx].
  destruct (f x); simpl.
  - constructor; [apply IH; exact Hs|].
    rewrite List.Forall_forall in *. intros k Hk. apply Hx.
    apply in_map_iff in Hk as (y & <- & Hy). apply List.filter_In in Hy as [Hy _].
    apply in_map. exact Hy.
  - apply IH. exact Hs.
Qed.

Lemma getRecording_filter_ne (f : Recording -> bool) i l :
  (forall r, id r = i -> f r = true) ->
  getRecording i (List.filter f l) = getRecording i l.
Proof.
  intros H. induction l as [|x l IH]; simpl; [reflexivity|].
  destruct (Nat.eqb_spec (id x) i) as [E|E].
  - rewrite (H x E). simpl. rewrite (proj2 (Nat.eqb_eq _ _) E). reflexivity.
  - destruct (f x); simpl; [|exact IH].
    rewrite (proj2 (Nat.eqb_neq _ _) E). exact IH.
Qed.

Lemma filter_all (A : Type) (f : A -> bool) l :
  (forall x, In x l -> f x = true) -> List.filter f l = l.
Proof.
  induction l as [|x l IH]; simpl; intros H; [reflexivity|].
  rewrite (H x) by auto. f_equal. apply IH. intros y Hy. apply H. auto.
Qed.

(** X5. [deleteRecording(id)] removes what is stored under the id and
    nothing else: the id reads as absent afterwards and every other id as
    before; deleting an id that is not there leaves the database as it is;
    the catalog stays well formed, and the key of a deleted record is not
    handed out again by [saveRecording]. *)
Theorem deleteRecording_effect (i : nat) (d : DB) :
  getRecording i (recordings (deleteRecording i d)) = None
  /\ (forall j, j <> i ->
        getRecording j (recordings (deleteRecording i d))
        = getRecording j (recordings d))
  /\ (getRecording i (recordings d) = None -> deleteRecording i d = d)
  /\ (wfCatalog d -> wfCatalog (deleteRecording i d))
  /\ (wfCatalog d -> is_Some (getRecording i (recordings d)) ->
      forall b md now, fst (saveRecording b md now (deleteRecording i d)) <> i).
Proof.
  repeat split.
  - apply getRecording_None. cbn [deleteRecording recordings]. intros Hin.
    apply in_map_iff in Hin as (r & Hr & Hin).
    apply List.filter_In in Hin as [_ Hf].
    rewrite (proj2 (Nat.eqb_eq _ _) Hr) in Hf. discriminate.
  - intros j Hj. cbn [deleteRecording recordings].
    apply getRecording_filter_ne. intros r Hr.
    apply negb_true_iff, Nat.eqb_neq. congruence.
  - intros Hnone. destruct d as [rs k cs kc]. unfold deleteRecording.
    cbn [recordings recordingsKeyGen chunks chunksKeyGen] in *. f_equal.
    apply filter_all. intros r Hr. apply negb_true_iff, Nat.eqb_neq.
    intros E. apply getRecording_None in Hnone. apply Hnone.
    rewrite <- E. apply in_map. exact Hr.
  - cbn [deleteRecording recordings]. apply keyOrdered_filter. apply H.
  - destruct H as [_ H]. cbn [deleteRecording recordings recordingsKeyGen].
    rewrite List.Forall_forall in *. intros k Hk. apply H.
    apply in_map_iff in Hk as (y & <- & Hy). apply List.filter_In in Hy as [Hy _].
    apply in_map. exact Hy.
  - intros [_ Hlt] [r Hr] b md now. cbn [saveRecording fst deleteRecording recordingsKeyGen].
    apply getRecording_Some_key in Hr.
    rewrite List.Forall_forall in Hlt. specialize (Hlt _ Hr). lia.
Qed.

Lemma insertByTimestamp_perm r l : Permutation (insertByTimestamp r l) (r :: l).
Proof.
  induction l as [|x l IH]; simpl; [reflexivity|].
  destruct (Z.leb (timestamp x) (timestamp r)); [reflexivity|].
  rewrite IH. apply perm_swap.
Qed.

Lemma sortByTimestamp_perm l : Permutation (sortByTimestamp l) l.
Proof.
  induction l as [|x l IH]; simpl; [reflexivity|].
  rewrite insertByTimestamp_perm, IH. reflexivity.
Qed.

Lemma insertByTimestamp_sorted r l :
  Sorted newerFirst l -> Sorted newerFirst (insertByTimestamp r l).
Proof.
  induction l as [|x l IH]; simpl; intros Hs.
  - repeat constructor.
  - destruct (Z.leb_spec (timestamp x) (timestamp r)) as [E|E].
    + constructor; [exact Hs | constructor; exact E].
    + apply Sorted_inv in Hs as [Hs Hx].
      constructor; [apply IH; exact Hs|].
      destruct l as [|y l]; simpl.
      * constructor. unfold newerFirst. lia.
      * destruct (Z.leb (timestamp y) (timestamp r)).
        -- constructor. unfold newerFirst. lia.
        -- constructor. inversion Hx. assumption.
Qed.

Lemma sortByTimestamp_sorted l : Sorted newerFirst (sortByTimestamp l).
Proof.
  induction l as [|x l IH]; simpl; [constructor|].
  apply insertByTimestamp_sorted. exact IH.
Qed.

(** X6. [getAllRecordings] lists the catalog newest first: the result
    holds the same records as the store, each as often, and no record in
    it is followed, anywhere later in the list, by one with a later
    timestamp. *)
Theorem getAllRecordings_newest_first (d : DB) :
  Permutation (getAllRecordings d) (recordings d)
  /\ StronglySorted newerFirst (getAllRecordings d)
  /\ length (getAllRecordings d) = length (recordings d).
Proof.
  split; [apply sortByTimestamp_perm|].
  split.
  - apply Sorted_StronglySorted.
    + intros a b c. unfold newerFirst. lia.
    + apply sortByTimestamp_sorted.
  - apply Permutation_length, sortByTimestamp_perm.
Qed.

End CatalogRoundTrips.


(** ** The chunk log *)
Section ChunkLog.
Import StorageService.

Lemma no_chunks_no_session sid d :
  chunksOfSession sid d = [] <-> forall c, In c (chunks d) -> sessionId c <> sid.
Proof.
  unfold chunksOfSession. split.
  - intros H c Hc E.
    assert (Hin : In c (List.filter (fun c => bool_decide (sessionId c = sid)) (chunks d))).
    { apply List.filter_In. split; [exact Hc|]. apply bool_decide_eq_true_2. exact E. }
    rewrite H in Hin. destruct Hin.
  - intros H. induction (chunks d) as [|c l IH]; simpl; [reflexivity|].
    rewrite bool_decide_eq_false_2 by (apply H; left; reflexivity).
    apply IH. intros c' Hc'. apply H. right. exact Hc'.
Qed.

Lemma elem_of_orphaned d sid :
  sid ∈ getOrphanedSessions d <-> chunksOfSession sid d <> [].
Proof.
  unfold getOrphanedSessions. rewrite elem_of_distinct. split.
  - intros [Hin _] Hnone. apply list_elem_of_In in Hin.
    apply in_map_iff in Hin as (c & Hc & Hin).
    rewrite no_chunks_no_session in Hnone. exact (Hnone c Hin Hc).
  - intros Hne. split; [|apply not_elem_of_nil].
    destruct (chunksOfSession sid d) as [|c l] eqn:E; [contradiction|].
    assert (Hin : In c (chunksOfSession sid d)) by (rewrite E; left; reflexivity).
    unfold chunksOfSession in Hin. apply List.filter_In in Hin as [Hin Hs].
    apply bool_decide_eq_true_1 in Hs. subst sid.
    apply list_elem_of_In, in_map. exact Hin.
Qed.

Lemma recoverFromChunks_Some sid d :
  is_Some (recoverFromChunks sid d) <-> chunksOfSession sid d <> [].
Proof.
  unfold recoverFromChunks, getSessionChunks. split.
  - intros [b Hb] Hnone. rewrite Hnone in Hb. discriminate.
  - intros Hne. destruct (sortBySequence (chunksOfSession sid d)) eqn:E.
    + apply sortBySequence_nil in E. contradiction.
    + eexists. reflexivity.
Qed.

(** X7. [clearSessionChunks(sessionId)] removes the chunks of that
    session and nothing else: the session reads as empty afterwards, is no
    longer listed by [getOrphanedSessions] and has nothing to recover; the
    other sessions and the catalog are as before. Called for a session
    with no chunk, or a second time, it changes nothing. *)
Theorem clearSessionChunks_effect (sid : SessionId) (d : DB) :
  let d' := clearSessionChunks sid d in
  getSessionChunks sid d' = []
  /\ recoverFromChunks sid d' = None
  /\ (sid ∉ getOrphanedSessions d')
  /\ (forall sid', sid' <> sid -> getSessionChunks sid' d' = getSessionChunks sid' d)
  /\ recordings d' = recordings d
  /\ (chunksOfSession sid d = [] -> d' = d)
  /\ clearSessionChunks sid d' = d'.
Proof.
  intros d'.
  assert (Hnone : chunksOfSession sid d' = []).
  { unfold d'. rewrite chunksOfSession_clear.
    rewrite bool_decide_eq_true_2 by reflexivity. reflexivity. }
  assert (Hid : forall x, chunksOfSession sid x = [] -> clearSessionChunks sid x = x).
  { intros x Hx. destruct x as [rs k cs kc]. unfold clearSessionChunks.
    cbn [recordings recordingsKeyGen chunks chunksKeyGen]. f_equal.
    rewrite no_chunks_no_session in Hx. cbn [chunks] in Hx.
    induction cs as [|c cs IH]; simpl; [reflexivity|].
    rewrite bool_decide_eq_false_2 by (apply Hx; left; reflexivity).
    simpl. f_equal. apply IH. intros c' Hc'. apply Hx. right. exact Hc'. }
  split; [unfold getSessionChunks; rewrite Hnone; reflexivity|].
  split; [unfold recoverFromChunks, getSessionChunks; rewrite Hnone; reflexivity|].
  split; [rewrite elem_of_orphaned; intros H; apply H; exact Hnone|].
  split.
  { intros sid' Hne. unfold getSessionChunks, d'. rewrite chunksOfSession_clear.
    rewrite bool_decide_eq_false_2 by exact Hne. reflexivity. }
  split; [reflexivity|].
  split; [apply Hid | apply Hid; exact Hnone].
Qed.

(** X8. [getOrphanedSessions] lists each session once, and lists exactly
    the sessions that have a chunk in the log, which are exactly the
    sessions [recoverFromChunks] returns a blob for. *)
Theorem getOrphanedSessions_exact (d : DB) :
  NoDup (getOrphanedSessions d)
  /\ (forall sid, sid ∈ getOrphanedSessions d <-> chunksOfSession sid d <> [])
  /\ (forall sid, sid ∈ getOrphanedSessions d <-> is_Some (recoverFromChunks sid d)).
Proof.
  split; [apply NoDup_distinct|].
  split; [intros sid; apply elem_of_orphaned|].
  intros sid. rewrite recoverFromChunks_Some. apply elem_of_orphaned.
Qed.

(** X9. A chunk written by [saveChunk] is read back by
    [getSessionChunks] for its session: the list gains that chunk and no
    other, is still ascending in [sequence] whatever number the chunk
    carries, and the lists of the other sessions and the catalog are as
    before. *)
Theorem saveChunk_round_trip
    (sid : SessionId) (n : nat) (b : Blob) (t : Timestamp) (d : DB) :
  let c := mkChunk (chunksKeyGen d) sid n b t in
  let d' := snd (saveChunk sid n b t d) in
  fst (saveChunk sid n b t d) = chunksKeyGen d
  /\ (forall c', In c' (getSessionChunks sid d')
                 <-> c' = c \/ In c' (getSessionChunks sid d))
  /\ length (getSessionChunks sid d') = S (length (getSessionChunks sid d))
  /\ Sorted le (map sequence (getSessionChunks sid d'))
  /\ (forall sid', sid' <> sid -> getSessionChunks sid' d' = getSessionChunks sid' d)
  /\ recordings d' = recordings d.
Proof.
  intros c d'.
  assert (Hc : chunksOfSession sid d' = chunksOfSession sid d ++ [c]).
  { unfold d'. rewrite chunksOfSession_saveChunk.
    rewrite bool_decide_eq_true_2 by reflexivity. reflexivity. }
  split; [reflexivity|].
  split.
  { intros c'. unfold getSessionChunks. rewrite Hc. split.
    - intros Hin. apply (Permutation_in _ (sortBySequence_perm _)) in Hin.
      apply in_app_or in Hin as [Hin|[Hin|[]]].
      + right. apply (Permutation_in _ (Permutation_sym (sortBySequence_perm _))).
        exact Hin.
      + left. symmetry. exact Hin.
    - intros Hin.
      apply (Permutation_in _ (Permutation_sym (sortBySequence_perm _))).
      apply in_or_app. destruct Hin as [->|Hin].
      + right. left. reflexivity.
      + left. apply (Permutation_in _ (sortBySequence_perm _)). exact Hin. }
  split.
  { unfold getSessionChunks. rewrite Hc.
    rewrite (Permutation_length (sortBySequence_perm _)).
    rewrite (Permutation_length (sortBySequence_perm (chunksOfSession sid d))).
    rewrite length_app. simpl. lia. }
  split; [apply sortBySequence_sorted|].
  split; [|reflexivity].
  intros sid' Hne. unfold getSessionChunks, d'. rewrite chunksOfSession_saveChunk.
  rewrite bool_decide_eq_false_2 by congruence. rewrite app_nil_r. reflexivity.
Qed.

(** X10. Crash recovery run a second time does nothing: after
    [checkForRecovery] the chunk log is empty, no session is listed as
    orphaned, and a second run leaves the database as the first one left
    it, so no session is recovered twice. *)
Theorem checkForRecovery_idempotent (dates dates' : nat -> JsDate) (d : DB) :
  chunks (App.checkForRecovery dates d) = []
  /\ getOrphanedSessions (App.checkForRecovery dates d) = []
  /\ App.checkForRecovery dates' (App.checkForRecovery dates d)
     = App.checkForRecovery dates d.
Proof.
  assert (Hc : chunks (App.checkForRecovery dates d) = []).
  { unfold App.checkForRecovery.
    destruct (recoverSessions_spec dates (getOrphanedSessions d)
                (NoDup_distinct _ _) 0%nat d) as (news & _ & Hch & _).
    rewrite Hch. apply filter_all_out. intros c Hin. apply orphaned_complete. exact Hin. }
  assert (Ho : getOrphanedSessions (App.checkForRecovery dates d) = []).
  { unfold getOrphanedSessions. rewrite Hc. reflexivity. }
  split; [exact Hc|]. split; [exact Ho|].
  unfold App.checkForRecovery at 1. rewrite Ho. reflexivity.
Qed.

End ChunkLog.


(** ** File names and folder paths *)
Section Names.
Import StorageService.

Lemma nat_of_digit n : nat_of_ascii (digit n) = (48 + n mod 10)%nat.
Proof.
  unfold digit. apply nat_ascii_embedding.
  pose proof (Nat.mod_upper_bound n 10). lia.
Qed.

Lemma isDigit_digit n : isDigit (digit n) = true.
Proof.
  unfold isDigit. rewrite nat_of_digit.
  pose proof (Nat.mod_upper_bound n 10).
  apply andb_true_iff. split; apply Nat.leb_le; lia.
Qed.

Lemma toStringFuel_digits fuel : forall n acc,
  allDigits acc = true -> allDigits (toStringFuel fuel n acc) = true.
Proof.
  induction fuel as [|fuel IH]; intros n acc Hacc; cbn [toStringFuel]; [exact Hacc|].
  assert (H : allDigits (String (digit n) acc) = true).
  { cbn [allDigits]. rewrite isDigit_digit, Hacc. reflexivity. }
  destruct (Nat.ltb n 10); [exact H | apply IH; exact H].
Qed.

(** With enough fuel, [toStringFuel] puts the [k] digits of [n] in front
    of [acc]. *)
Lemma toStringFuel_reads fuel : forall n acc v,
  (n < fuel)%nat ->
  exists k,
    (1 <= k)%nat /\ (n < 10 ^ k)%nat /\ (10 <= n -> 2 <= k)%nat
    /\ String.length (toStringFuel fuel n acc) = (k + String.length acc)%nat
    /\ readDigits (toStringFuel fuel n acc) v = readDigits acc (v * 10 ^ k + n).
Proof.
  induction fuel as [|fuel IH]; intros n acc v Hlt; [lia|].
  cbn [toStringFuel]. destruct (Nat.ltb_spec n 10) as [Hn|Hn].
  - exists 1%nat. cbn [readDigits String.length]. rewrite nat_of_digit.
    rewrite (Nat.mod_small n 10) by exact Hn. rewrite Nat.pow_1_r.
    repeat split; try lia. f_equal. lia.
  - assert (Hdiv : (n / 10 < fuel)%nat).
    { pose proof (Nat.div_lt n 10). lia. }
    destruct (IH (n / 10)%nat (String (digit n) acc) v Hdiv)
      as (k & Hk & Hpow & _ & Hlen & Hread).
    exists (S k). rewrite Hlen, Hread. cbn [readDigits String.length].
    rewrite nat_of_digit. rewrite Nat.pow_succ_r'.
    pose proof (Nat.div_mod_eq n 10) as Hdm.
    pose proof (Nat.mod_upper_bound n 10).
    repeat split; try lia. f_equal. lia.
Qed.

Lemma toString_reads n :
  exists k,
    (1 <= k)%nat /\ (n < 10 ^ k)%nat /\ (10 <= n -> 2 <= k)%nat
    /\ String.length (toString n) = k
    /\ readDigits (toString n) 0 = n.
Proof.
  destruct (toStringFuel_reads (S n) n EmptyString 0%nat) as (k & H1 & H2 & H3 & H4 & H5);
    [lia|].
  exists k. unfold toString. rewrite H4, H5. cbn [readDigits String.length].
  repeat split; lia.
Qed.

Lemma toString_small n : (n < 10)%nat -> toString n = String (digit n) EmptyString.
Proof.
  intros H. unfold toString. cbn [toStringFuel].
  destruct (Nat.ltb_spec n 10); [reflexivity | lia].
Qed.

Lemma toString_two n :
  (10 <= n < 100)%nat ->
  toString n = String (digit (n / 10)) (String (digit n) EmptyString).
Proof.
  intros H. unfold toString.
  destruct n as [|n]; [lia|].
  cbn [toStringFuel].
  destruct (Nat.ltb_spec (S n) 10); [lia|].
  destruct (Nat.ltb_spec (S n / 10) 10) as [H'|H']; [reflexivity|].
  pose proof (Nat.Div0.div_lt_upper_bound (S n) 10 10). lia.
Qed.

Lemma pad_digits n : allDigits (pad n) = true /\ (2 <= String.length (pad n))%nat.
Proof.
  destruct (toString_reads n) as (k & Hk & _ & _ & Hlen & _).
  assert (Hd : allDigits (toString n) = true)
    by (apply toStringFuel_digits; reflexivity).
  unfold pad. rewrite Hlen. destruct (Nat.ltb_spec k 2).
  - cbn [allDigits String.length]. rewrite Hd, Hlen. split; [reflexivity | lia].
  - rewrite Hlen. split; [exact Hd | lia].
Qed.

(** X11. The two-digit fields of a file name: for a number below 100,
    as the month, day, hour, minute and second of a date are, [pad] gives
    exactly two decimal digits, a leading 0 below 10, and they read back
    as the number. For any number the result has at least two characters,
    all of them digits, and reads back as the number. *)
Theorem pad_two_digits (n : nat) :
  allDigits (pad n) = true
  /\ readDigits (pad n) 0 = n
  /\ (2 <= String.length (pad n))%nat
  /\ ((n < 100)%nat -> String.length (pad n) = 2%nat)
  /\ ((n < 10)%nat -> pad n = String "0" (String (digit n) EmptyString))
  /\ ((10 <= n)%nat -> pad n = toString n).
Proof.
  destruct (toString_reads n) as (k & Hk & Hpow & Hten & Hlen & Hread).
  assert (Hd : allDigits (toString n) = true).
  { apply toStringFuel_digits. reflexivity. }
  assert (Hbig : (10 <= n)%nat -> pad n = toString n).
  { intros Hn. unfold pad. rewrite Hlen.
    destruct (Nat.ltb_spec k 2); [lia | reflexivity]. }
  assert (Hsmall : (n < 10)%nat -> pad n = String "0" (String (digit n) EmptyString)).
  { intros Hn. unfold pad. rewrite (toString_small n Hn). reflexivity. }
  split.
  { unfold pad. destruct (Nat.ltb (String.length (toString n)) 2); [|exact Hd].
    cbn [allDigits]. rewrite Hd. reflexivity. }
  split.
  { unfold pad. destruct (Nat.ltb (String.length (toString n)) 2); [|exact Hread].
    cbn [readDigits]. exact Hread. }
  split.
  { unfold pad. rewrite Hlen.
    destruct (Nat.ltb_spec k 2); cbn [String.length]; lia. }
  split; [|split; assumption].
  intros Hn. destruct (Nat.lt_ge_cases n 10) as [H10|H10].
  - rewrite (Hsmall H10). reflexivity.
  - rewrite (Hbig H10), toString_two by lia. reflexivity.
Qed.

Lemma split_noSep sep s : noSep sep s = true -> DriveService.split sep s = [s].
Proof.
  induction s as [|c s IH]; simpl; intros H; [reflexivity|].
  apply andb_true_iff in H as [Hc Hs]. apply negb_true_iff in Hc.
  rewrite Hc, (IH Hs). reflexivity.
Qed.

Lemma split_ne sep s : DriveService.split sep s <> [].
Proof.
  destruct s as [|c s]; simpl; [discriminate|].
  destruct (Ascii.eqb c sep); [discriminate|].
  destruct (DriveService.split sep s); discriminate.
Qed.

Lemma split_append sep s1 s2 :
  noSep sep s1 = true ->
  DriveService.split sep (s1 ++ String sep s2)%string = s1 :: DriveService.split sep s2.
Proof.
  induction s1 as [|c s1 IH]; simpl; intros H.
  - rewrite Ascii.eqb_refl. reflexivity.
  - apply andb_true_iff in H as [Hc Hs]. apply negb_true_iff in Hc.
    rewrite Hc, (IH Hs). reflexivity.
Qed.

Lemma digit_not_slash c : isDigit c = true -> Ascii.eqb c "/" = false.
Proof.
  intros H. destruct (Ascii.eqb_spec c "/"%char) as [->|]; [|reflexivity].
  discriminate H.
Qed.

Lemma digits_noSep s : allDigits s = true -> noSep "/" s = true.
Proof.
  induction s as [|c s IH]; simpl; intros H; [reflexivity|].
  apply andb_true_iff in H as [Hc Hs].
  rewrite (digit_not_slash c Hc), (IH Hs). reflexivity.
Qed.

Lemma digit_not_white c : isDigit c = true -> DriveService.isWhiteSpace c = false.
Proof.
  unfold isDigit, DriveService.isWhiteSpace. intros H.
  apply andb_true_iff in H as [H1 H2]. apply Nat.leb_le in H1, H2.
  destruct (Nat.leb_spec 9 (nat_of_ascii c)); destruct (Nat.leb_spec (nat_of_ascii c) 13);
    destruct (Nat.eqb_spec (nat_of_ascii c) 32);
    destruct (Nat.eqb_spec (nat_of_ascii c) 160); simpl; try reflexivity; lia.
Qed.

Lemma digits_not_blank s :
  allDigits s = true -> (1 <= String.length s)%nat -> DriveService.blank s = false.
Proof.
  destruct s as [|c s]; simpl; intros H Hl; [lia|].
  apply andb_true_iff in H as [Hc _]. rewrite (digit_not_white c Hc). reflexivity.
Qed.

(** X12. The folder path [generateDrivePath] gives a recording is cut by
    [ensureFolderPath] into exactly four folder names, whatever the date:
    [recordings], the year, the two-digit month and the two-digit day. No
    segment is dropped as blank and none is split further. *)
Theorem drive_path_segments (d : JsDate) :
  DriveService.pathParts (generateDrivePath d)
  = ["recordings"%string; toString (fullYear d); pad (month0 d + 1);
     pad (dayOfMonth d)].
Proof.
  assert (Hy : allDigits (toString (fullYear d)) = true)
    by (apply toStringFuel_digits; reflexivity).
  destruct (toString_reads (fullYear d)) as (k & Hk & _ & _ & Hlen & _).
  destruct (pad_digits (month0 d + 1)) as (Hm & Hml).
  destruct (pad_digits (dayOfMonth d)) as (Hd & Hdl).
  unfold DriveService.pathParts, generateDrivePath.
  change ("recordings/" ++ toString (fullYear d) ++ "/" ++ pad (month0 d + 1)
          ++ "/" ++ pad (dayOfMonth d))%string
    with ("recordings" ++ String "/"
            (toString (fullYear d) ++ String "/"
               (pad (month0 d + 1) ++ String "/" (pad (dayOfMonth d)))))%string.
  rewrite split_append by reflexivity.
  rewrite split_append by (apply digits_noSep; exact Hy).
  rewrite split_append by (apply digits_noSep; exact Hm).
  rewrite split_noSep by (apply digits_noSep; exact Hd).
  cbn [List.filter].
  rewrite (digits_not_blank _ Hy) by lia.
  rewrite (digits_not_blank _ Hm) by lia.
  rewrite (digits_not_blank _ Hd) by lia.
  reflexivity.
Qed.

End Names.


(** ** The recorder: pause, stop and cancel *)
Section RecorderControls.
Import RecorderService.

Lemma saveCurrentChunk_begin_fields now r db :
  let r' := fst (fst (saveCurrentChunk_begin now r db)) in
  mediaRecorder r' = mediaRecorder r /\ mediaStream r' = mediaStream r
  /\ chunks r' = chunks r /\ sessionId r' = sessionId r
  /\ chunkInterval r' = chunkInterval r /\ startTime r' = startTime r
  /\ pausedDuration r' = pausedDuration r /\ pauseStartTime r' = pauseStartTime r
  /\ (chunkSequence r <= chunkSequence r')%nat.
Proof.
  unfold saveCurrentChunk_begin.
  destruct (chunks r) eqn:Ec, (mediaRecorder r) eqn:Em;
    try (cbn; repeat split; try assumption; try reflexivity; lia).
  destruct (StorageService.saveChunk_object _ now db) as [[k|] st']; cbn;
    rewrite ?Ec; repeat split; try assumption; try reflexivity; lia.
Qed.

Lemma pause_fields now r db :
  getState r = recording ->
  let r' := fst (fst (pause now r db)) in
  getState r' = paused /\ pauseStartTime r' = Some now
  /\ startTime r' = startTime r /\ pausedDuration r' = pausedDuration r
  /\ sessionId r' = sessionId r /\ chunks r' = chunks r
  /\ (chunkSequence r <= chunkSequence r')%nat.
Proof.
  intros Hst r'. unfold r', pause. rewrite decide_True by exact Hst.
  set (r2 := mkRecorder _ _ _ _ _ _ _ _ _).
  destruct (saveCurrentChunk_begin_fields now r2 db)
    as (Hmr & _ & Hch & Hsid & _ & Hstart & Hpd & Hps & Hseq).
  unfold getState. rewrite Hmr, Hps, Hstart, Hpd, Hsid, Hch.
  split; [|repeat split; exact Hseq].
  unfold getState in Hst. subst r2. unfold setState. cbn.
  destruct (mediaRecorder r); [reflexivity | discriminate Hst].
Qed.

(** X13. The timer stands still during a pause. For a running recorder
    started at [t0] and paused at [t1], [getElapsedTime] returns, at
    whatever time it is asked, the seconds recorded up to [t1]; once
    resumed at [t2], the length of the pause has been added to
    [pausedDuration] and is left out of every later reading, which goes on
    from where the timer stood. The session, its start time and its
    fragments are not touched. *)
Theorem pause_freezes_timer
    (t0 t1 t2 : Z) (r : Recorder) (db : StorageService.Store) :
  getState r = recording ->
  startTime r = Some t0 -> t0 <> 0 -> t1 <> 0 ->
  let rp := fst (fst (pause t1 r db)) in
  let rr := resume t2 rp in
  getState rp = paused
  /\ (forall t, getElapsedTime t rp = (t1 - t0 - pausedDuration r) / 1000)
  /\ (forall t, getElapsedTime_old t rp = (t1 - t0 - pausedDuration r) / 1000)
  /\ getState rr = recording
  /\ pausedDuration rr = pausedDuration r + (t2 - t1)
  /\ (forall t, getElapsedTime t rr
                = (t - t0 - pausedDuration r - (t2 - t1)) / 1000)
  /\ getElapsedTime t2 rr = getElapsedTime t1 rp
  /\ sessionId rr = sessionId r /\ startTime rr = startTime r
  /\ chunks rr = chunks r.
Proof.
  intros Hst Hstart Ht0 Ht1 rp rr.
  destruct (pause_fields t1 r db Hst) as (Hp & Hps & Hs & Hpd & Hsid & Hch & _).
  fold rp in Hp, Hps, Hs, Hpd, Hsid, Hch.
  assert (Htr0 : truthy (Some t0) = true).
  { simpl. apply negb_true_iff, Z.eqb_neq. exact Ht0. }
  assert (Htr1 : truthy (Some t1) = true).
  { simpl. apply negb_true_iff, Z.eqb_neq. exact Ht1. }
  assert (Hep : forall t, getElapsedTime t rp = (t1 - t0 - pausedDuration r) / 1000).
  { intros t. unfold getElapsedTime.
    rewrite Hs, Hstart, Htr0, Hp, Hps, Htr1, Hpd.
    rewrite bool_decide_eq_true_2 by reflexivity. cbn. f_equal. lia. }
  assert (Hrr : getState rr = recording
                /\ pausedDuration rr = pausedDuration r + (t2 - t1)
                /\ pauseStartTime rr = None
                /\ startTime rr = startTime r /\ sessionId rr = sessionId r
                /\ chunks rr = chunks r).
  { unfold rr, resume. rewrite decide_True by exact Hp.
    rewrite Hps, Htr1. unfold getState, setState. cbn.
    unfold getState in Hp. destruct (mediaRecorder rp); [|discriminate Hp].
    cbn. rewrite Hpd, Hs, Hsid, Hch. repeat split. }
  destruct Hrr as (Hr & Hrpd & Hrps & Hrs & Hrsid & Hrch).
  assert (Her : forall t, getElapsedTime t rr
                          = (t - t0 - pausedDuration r - (t2 - t1)) / 1000).
  { intros t. unfold getElapsedTime.
    rewrite Hrs, Hstart, Htr0, Hr, Hrps, Hrpd.
    rewrite bool_decide_eq_false_2 by discriminate. cbn. f_equal. lia. }
  split; [exact Hp|]. split; [exact Hep|].
  split.
  { intros t. unfold getElapsedTime_old.
    rewrite Hs, Hstart, Htr0, Hps, Htr1, Hpd. cbn. f_equal. lia. }
  split; [exact Hr|]. split; [exact Hrpd|]. split; [exact Her|].
  split; [rewrite Her, Hep; f_equal; lia|].
  repeat split; assumption.
Qed.

Lemma pause_freezes_timer_witness :
  getElapsedTime 99000
    (fst (fst (pause 16000 runningRecorder (accepting oneChunkOfA)))) = 15
  /\ getElapsedTime 30000
       (resume 20000
          (fst (fst (pause 16000 runningRecorder (accepting oneChunkOfA))))) = 25.
Proof.
  assert (H0 : (1000 : Z) <> 0) by discriminate.
  assert (H1 : (16000 : Z) <> 0) by discriminate.
  destruct (pause_freezes_timer 1000 16000 20000 runningRecorder
              (accepting oneChunkOfA) eq_refl eq_refl H0 H1) as (_ & Hp & _ & _ & _ & Hr & _).
  split; [rewrite Hp | rewrite Hr]; reflexivity.
Defined.

Lemma handleDataAvailable_chunks d r :
  handleDataAvailable d r
  = mkRecorder (mediaRecorder r) (mediaStream r) (chunks r ++ kept d) (sessionId r)
      (chunkSequence r) (chunkInterval r) (startTime r) (pausedDuration r)
      (pauseStartTime r).
Proof.
  unfold handleDataAvailable, kept. destruct (Nat.ltb 0 (size d)).
  - reflexivity.
  - rewrite app_nil_r. destruct r; reflexivity.
Qed.

(** X14. What [stop()] of the older copy of the recorder resolves with,
    for a recorder with a session open and its media recorder recording or
    paused: a blob of the fragments in memory followed by the one the last
    [dataavailable] event brings, of the media recorder's MIME type,
    together with the session id and the elapsed time, which is now -
    startTime - pausedDuration in whole seconds, less the pause in
    progress when there is one (tp - startTime - pausedDuration for a
    pause begun at [tp]). The session's chunks are removed from the
    store, the other sessions and the catalog are left alone, and the
    recorder ends inactive with the flush timer off, no session and no
    fragment. *)
Theorem stop_resolves
    (last : Blob) (now : Z) (r : Recorder)
    (db : StorageService.DB) (mr : MediaRecorder) (sid : SessionId) :
  mediaRecorder r = Some mr -> state mr <> inactive -> sessionId r = Some sid ->
  exists result r' db',
    stop_old last now r db = (Resolved result, r', db')
    /\ resBlob result = newBlob (chunks r ++ kept last) (mimeType mr)
    /\ resSessionId result = sid /\ resMimeType result = mimeType mr
    /\ (forall t0, startTime r = Some t0 -> t0 <> 0 ->
          (pauseStartTime r = None ->
           resDuration result = (now - t0 - pausedDuration r) / 1000)
          /\ (forall tp, pauseStartTime r = Some tp -> tp <> 0 ->
              resDuration result = (tp - t0 - pausedDuration r) / 1000))
    /\ getState r' = inactive /\ chunkInterval r' = false
    /\ sessionId r' = None /\ chunks r' = []
    /\ StorageService.getSessionChunks sid db' = []
    /\ (forall sid', sid' <> sid ->
          StorageService.getSessionChunks sid' db'
          = StorageService.getSessionChunks sid' db)
    /\ StorageService.recordings db' = StorageService.recordings db.
Proof.
  intros Hmr Hst Hsid.
  unfold stop_old, stop_call. rewrite Hmr.
  rewrite bool_decide_eq_false_2 by exact Hst. cbn [negb].
  rewrite handleDataAvailable_chunks.
  unfold onstop_old, setState, stopChunkInterval.
  cbn [mediaRecorder sessionId chunks mediaStream chunkSequence chunkInterval
       startTime pausedDuration pauseStartTime mimeType].
  rewrite Hmr, Hsid. cbn [mimeType].
  eexists. eexists. eexists. split; [reflexivity|].
  cbn [resBlob resSessionId resMimeType resDuration].
  split; [reflexivity|]. split; [reflexivity|]. split; [reflexivity|].
  split.
  { intros t0 Hs Ht0. split.
    - intros Hps. unfold getElapsedTime_old.
      cbn [startTime pausedDuration pauseStartTime]. rewrite Hs, Hps. cbn.
      rewrite (proj2 (Z.eqb_neq _ _) Ht0). cbn. reflexivity.
    - intros tp Hps Htp. unfold getElapsedTime_old.
      cbn [startTime pausedDuration pauseStartTime]. rewrite Hs, Hps. cbn.
      rewrite (proj2 (Z.eqb_neq _ _) Ht0), (proj2 (Z.eqb_neq _ _) Htp). cbn.
      f_equal. lia. }
  split; [reflexivity|]. split; [reflexivity|]. split; [reflexivity|].
  split; [reflexivity|].
  split.
  { unfold StorageService.getSessionChunks. rewrite chunksOfSession_clear.
    rewrite bool_decide_eq_true_2 by reflexivity. reflexivity. }
  split; [|reflexivity].
  intros sid' Hne. unfold StorageService.getSessionChunks.
  rewrite chunksOfSession_clear. rewrite bool_decide_eq_false_2 by exact Hne.
  reflexivity.
Qed.

Lemma stop_resolves_witness :
  exists result r' db',
    stop_old fragment 21000 runningRecorder oneChunkOfA
    = (Resolved result, r', db')
    /\ size (resBlob result) = 6%nat /\ resDuration result = 20
    /\ StorageService.getSessionChunks "A" db' = [].
Proof.
  assert (Hne : recording <> inactive) by discriminate.
  assert (H0 : (1000 : Z) <> 0) by discriminate.
  destruct (stop_resolves fragment 21000 runningRecorder oneChunkOfA
              _ "A"%string eq_refl Hne eq_refl)
    as (result & r' & db' & Hstop & Hb & _ & _ & Hd & _ & _ & _ & _ & Hc & _).
  exists result, r', db'. split; [exact Hstop|].
  split; [rewrite Hb; reflexivity|].
  split; [|exact Hc].
  rewrite (proj1 (Hd 1000 eq_refl H0) eq_refl). reflexivity.
Defined.

Lemma stop_old_computes last now r db mr sid :
  mediaRecorder r = Some mr -> state mr <> inactive -> sessionId r = Some sid ->
  stop_old last now r db
  = (Resolved
       (mkStopResult (newBlob (chunks r ++ kept last) (mimeType mr))
          (getElapsedTime_old now
             (handleDataAvailable last (setState inactive (stopChunkInterval r))))
          sid (mimeType mr)),
     resetSession (handleDataAvailable last (setState inactive (stopChunkInterval r))),
     StorageService.clearSessionChunks sid db).
Proof.
  intros Hmr Hst Hsid.
  unfold stop_old, stop_call. rewrite Hmr.
  rewrite bool_decide_eq_false_2 by exact Hst. cbn [negb].
  rewrite handleDataAvailable_chunks.
  unfold onstop_old, setState, stopChunkInterval.
  cbn [mediaRecorder sessionId chunks mediaStream chunkSequence chunkInterval
       startTime pausedDuration pauseStartTime mimeType].
  rewrite Hmr, Hsid. reflexivity.
Qed.

Lemma getSessionChunks_clear sid' sid d :
  StorageService.getSessionChunks sid' (StorageService.clearSessionChunks sid d)
  = if bool_decide (sid' = sid) then [] else StorageService.getSessionChunks sid' d.
Proof.
  unfold StorageService.getSessionChunks. rewrite chunksOfSession_clear.
  destruct (bool_decide (sid' = sid)); reflexivity.
Qed.

(** X15. [cancel()] discards the session: its chunks are removed from
    the store, so that it is not listed as orphaned at the next start, no
    catalog entry is written, the chunks of the other sessions stay, and
    the recorder ends inactive with the flush timer off, no session and no
    fragment in memory, also when the last fragment arrives while the
    call is waiting for the store. *)
Theorem cancel_discards
    (last : option Blob) (r : Recorder) (db : StorageService.DB) (sid : SessionId) :
  sessionId r = Some sid -> sid <> ""%string ->
  let r' := fst (cancel last r db) in
  let db' := snd (cancel last r db) in
  StorageService.getSessionChunks sid db' = []
  /\ (sid ∉ StorageService.getOrphanedSessions db')
  /\ (forall sid', sid' <> sid ->
        StorageService.getSessionChunks sid' db'
        = StorageService.getSessionChunks sid' db)
  /\ StorageService.recordings db' = StorageService.recordings db
  /\ getState r' = inactive /\ chunkInterval r' = false
  /\ sessionId r' = None /\ chunks r' = [].
Proof.
  intros Hsid Hne r' db'.
  assert (Hdb : db' = StorageService.clearSessionChunks sid db).
  { unfold db', cancel, cancel_begin. rewrite Hsid.
    rewrite bool_decide_eq_false_2 by exact Hne. reflexivity. }
  assert (Hr : getState r' = inactive /\ chunkInterval r' = false
               /\ sessionId r' = None /\ chunks r' = []).
  { unfold r', cancel, cancel_begin. cbn [fst].
    destruct last as [d|]; [rewrite handleDataAvailable_chunks|];
      unfold getState, resetSession, setState, stopChunkInterval; cbn;
      destruct (mediaRecorder r); repeat split. }
  rewrite Hdb. split; [|split; [|split; [|split; [reflexivity | exact Hr]]]].
  - rewrite getSessionChunks_clear, bool_decide_eq_true_2 by reflexivity. reflexivity.
  - rewrite elem_of_orphaned, chunksOfSession_clear.
    rewrite bool_decide_eq_true_2 by reflexivity. intros H. apply H. reflexivity.
  - intros sid' Hne'. rewrite getSessionChunks_clear.
    rewrite bool_decide_eq_false_2 by exact Hne'. reflexivity.
Qed.

Lemma cancel_discards_witness :
  StorageService.getSessionChunks "A" (snd (cancel (Some fragment) runningRecorder oneChunkOfA))
  = []
  /\ length (StorageService.getSessionChunks "T"
               (snd (cancel (Some fragment) runningRecorder oneChunkOfA))) = 1%nat
  /\ chunks (fst (cancel (Some fragment) runningRecorder oneChunkOfA)) = [].
Proof.
  assert (Hne : "A"%string <> ""%string) by discriminate.
  assert (Hne' : "T"%string <> "A"%string) by discriminate.
  destruct (cancel_discards (Some fragment) runningRecorder oneChunkOfA "A"%string
              eq_refl Hne) as (H1 & _ & H2 & _ & _ & _ & _ & H3).
  split; [exact H1|]. split; [|exact H3].
  rewrite (H2 "T"%string Hne'). reflexivity.
Defined.

(** *** Flushes *)

Lemma data_kept f : concat (map data (kept f)) = data f.
Proof.
  unfold kept, size. destruct (data f) as [|x l] eqn:E; cbn.
  - reflexivity.
  - rewrite E. cbn. rewrite app_nil_r. reflexivity.
Qed.

Lemma start_old_fresh sid supported now r0 r :
  start_old sid supported now r0 = Ok r -> getState r0 <> recording ->
  r = mkRecorder
        (Some (mkMediaRecorder recording
                 (if supported then configMimeType else "audio/webm"%string)))
        true [] (Some sid) 0 true (Some now) 0 None.
Proof.
  unfold start_old, getState. intros Hs Hst.
  destruct (mediaStream r0); [|discriminate Hs]. cbn in Hs.
  destruct (mediaRecorder r0) as [mr|].
  - destruct (decide (state mr = recording)); [contradiction|].
    injection Hs as <-. reflexivity.
  - injection Hs as <-. reflexivity.
Qed.

Lemma pause_recordings now r d :
  StorageService.recordings (StorageService.indexed (snd (fst (pause now r d))))
  = StorageService.recordings (StorageService.indexed d).
Proof.
  unfold pause. destruct (decide (getState r = recording)); [|reflexivity].
  unfold saveCurrentChunk_begin, StorageService.saveChunk_object.
  cbn [chunks mediaRecorder]. unfold setState. cbn [chunks mediaRecorder].
  destruct (chunks r), (mediaRecorder r); try reflexivity.
  destruct (StorageService.accepts d (StorageService.writes d)); reflexivity.
Qed.

(** X16. What one flush of js/recorder.js does with the fragments in
    memory, when the store accepts the write and acknowledges it before
    anything else happens: the chunk object, with the session id, the
    number and the blob of the fragments, is stored as the [sessionId] of
    a record that no session lists, so [getSessionChunks] and
    [recoverFromChunks] return for every session what they returned
    before; the counter has advanced by one; the fragments are dropped
    from memory; and the rest of [saveCurrentChunk] throws at
    [StorageService.saveRecoveryData], which js/storage.js does not
    define. *)
Theorem flush_stores_unlisted_record
    (now : Z) (p : Page) (mr : MediaRecorder) (b : Blob) (bs : list Blob) :
  chunks (recorder p) = b :: bs ->
  mediaRecorder (recorder p) = Some mr ->
  chunkInterval (recorder p) = true ->
  pendingWrites p = [] ->
  StorageService.accepts (storage p) (StorageService.writes (storage p)) = true ->
  let p1 := step p (TimerTick now) in
  let p2 := step p1 ChunkSaved in
  pendingWrites p1 = [true] /\ pendingWrites p2 = []
  /\ StorageService.unlisted (storage p2)
     = StorageService.unlisted (storage p)
       ++ [StorageService.mkUnlistedChunk
             (StorageService.chunksKeyGen (StorageService.indexed (storage p)))
             (StorageService.mkChunkObject (sessionId (recorder p))
                (chunkSequence (recorder p)) (newBlob (b :: bs) (mimeType mr)) now)
             now]
  /\ (forall sid,
        StorageService.getSessionChunks sid (StorageService.indexed (storage p2))
        = StorageService.getSessionChunks sid (StorageService.indexed (storage p)))
  /\ (forall sid,
        StorageService.recoverFromChunks sid (StorageService.indexed (storage p2))
        = StorageService.recoverFromChunks sid (StorageService.indexed (storage p)))
  /\ StorageService.recordings (StorageService.indexed (storage p2))
     = StorageService.recordings (StorageService.indexed (storage p))
  /\ chunkSequence (recorder p2) = S (chunkSequence (recorder p))
  /\ chunks (recorder p1) = b :: bs /\ chunks (recorder p2) = []
  /\ sessionId (recorder p2) = sessionId (recorder p)
  /\ fst (saveCurrentChunk_resume (recorder p1)) = Throw saveRecoveryDataNotAFunction.
Proof.
  intros Hch Hmr Hci Hpw Hacc p1 p2. subst p2 p1.
  destruct p as [r st pw]. cbn [recorder storage pendingWrites] in *. subst pw.
  cbn [step recorder storage pendingWrites]. rewrite Hci.
  unfold saveCurrentChunk_begin, StorageService.saveChunk_object.
  rewrite Hch, Hmr, Hacc.
  cbn [step recorder storage pendingWrites app issued saveCurrentChunk_resume snd fst
       chunks chunkSequence sessionId StorageService.unlisted StorageService.indexed
       mediaRecorder mediaStream chunkInterval startTime pausedDuration
       pauseStartTime].
  unfold StorageService.recoverFromChunks, StorageService.getSessionChunks,
    StorageService.chunksOfSession.
  cbn [StorageService.chunks StorageService.recordings].
  repeat split.
Qed.

Lemma flush_stores_unlisted_record_witness :
  let p := mkPage runningRecorder (accepting oneChunkOfA) [] in
  let p2 := step (step p (TimerTick 31000)) ChunkSaved in
  map (fun u => (StorageService.o_sessionId (StorageService.u_sessionId u),
                 StorageService.o_sequence (StorageService.u_sessionId u),
                 size (StorageService.o_blob (StorageService.u_sessionId u))))
      (StorageService.unlisted (storage p2))
  = [(Some "A"%string, 1%nat, 4%nat)]
  /\ length (StorageService.getSessionChunks "A" (StorageService.indexed (storage p2)))
     = 1%nat
  /\ chunks (recorder p2) = [].
Proof.
  intros p p2.
  destruct (flush_stores_unlisted_record 31000 p _ fragment [fragment]
              eq_refl eq_refl eq_refl eq_refl eq_refl)
    as (_ & _ & Hu & Hs & _ & _ & _ & _ & Hc & _).
  fold p2 in Hu, Hs, Hc.
  split; [rewrite Hu; reflexivity|].
  split; [rewrite Hs; reflexivity | exact Hc].
Defined.

(** *** The calls of the page *)

Lemma call_idle p c : idle p -> idle (call p c).
Proof.
  intros (Hst & Hch & Hci & Hpw). unfold idle.
  destruct c; cbn [call].
  - (* init *)
    cbn [recorder pendingWrites]. unfold getState in *. cbn. auto.
  - (* start *)
    cbn [recorder pendingWrites]. unfold start.
    destruct (negb (mediaStream (recorder p))); [cbn [snd]; auto|].
    rewrite bool_decide_eq_false_2 by (rewrite Hst; discriminate).
    cbn [snd]. unfold getState. cbn. auto.
  - (* pause *)
    cbn [step]. unfold pause.
    rewrite decide_False by (rewrite Hst; discriminate).
    cbn [recorder pendingWrites issued]. rewrite app_nil_r. auto.
  - (* resume *)
    cbn [step recorder pendingWrites]. unfold resume.
    rewrite decide_False by (rewrite Hst; discriminate). auto.
  - (* stop *)
    unfold stop_call. destruct (mediaRecorder (recorder p)) as [mr|] eqn:Hmr;
      [|auto]. cbn [recorder pendingWrites].
    unfold getState, setState, stopChunkInterval. cbn. rewrite Hmr. cbn. auto.
  - (* cancel *)
    unfold cancel, cancel_begin. cbn [recorder pendingWrites].
    unfold getState, resetSession, setState, stopChunkInterval. cbn.
    destruct (mediaRecorder (recorder p)); auto.
  - (* resumeFromRecovery *)
    cbn [recorder pendingWrites]. unfold resumeFromRecovery. cbn [snd].
    unfold getState in *. cbn. auto.
Qed.

Lemma trimmed_refl st : trimmed st st.
Proof. repeat split. intros sid. left. reflexivity. Qed.

Lemma call_trimmed st p c : idle p -> trimmed st (storage p) -> trimmed st (storage (call p c)).
Proof.
  intros (Hst & Hch & Hci & Hpw) Htr.
  destruct c; cbn [call]; try exact Htr.
  - (* pause *)
    cbn [step]. unfold pause.
    rewrite decide_False by (rewrite Hst; discriminate). exact Htr.
  - (* stop *)
    destruct (stop_call (recorder p)) as [[r' b]|e]; exact Htr.
  - (* cancel *)
    unfold cancel, cancel_begin. cbn [storage].
    destruct Htr as (Hu & Hw & Hr & Hc).
    unfold trimmed, StorageService.withIndexed.
    cbn [StorageService.unlisted StorageService.writes StorageService.indexed].
    destruct (sessionId (recorder p)) as [sid|]; [|repeat split; assumption].
    destruct (bool_decide (sid = ""%string)); [repeat split; assumption|].
    split; [exact Hu|]. split; [exact Hw|]. split; [exact Hr|].
    intros sid'. rewrite chunksOfSession_clear.
    destruct (bool_decide (sid' = sid)); [right; reflexivity | apply Hc].
Qed.

Lemma calls_idle st cs : forall p,
  idle p -> trimmed st (storage p) ->
  idle (calls p cs) /\ trimmed st (storage (calls p cs)).
Proof.
  induction cs as [|c cs IH]; intros p Hi Ht; [split; assumption|].
  apply (IH (call p c)); [apply call_idle | apply call_trimmed]; assumption.
Qed.

(** X17. js/recorder.js never records. Whatever calls the page makes of
    the service, in whatever order ([init], [start], [pause], [resume],
    [stop], [cancel], [resumeFromRecovery]), the media recorder is never
    started: the state stays inactive, no fragment is held, the flush
    timer is off and no chunk write is made or pending. Every [start()]
    throws, with the message of [init] missing or with the
    [ReferenceError] of [handleStop]; [stop()] is rejected or never
    settled, its [stop] event never coming. The store is left as it was,
    but for the chunks of a session that [cancel()] clears. *)
Theorem recorder_never_records (st : StorageService.Store) (cs : list Call) :
  let p := calls (mkPage initial st []) cs in
  getState (recorder p) = inactive
  /\ chunks (recorder p) = []
  /\ chunkInterval (recorder p) = false
  /\ pendingWrites p = []
  /\ (forall sid supported,
        fst (start sid supported (recorder p)) = Throw notInitialised
        \/ fst (start sid supported (recorder p)) = Throw handleStopNotDefined)
  /\ (stop_call (recorder p) = Throw noRecording
      \/ exists r', stop_call (recorder p) = Ok (r', false))
  /\ StorageService.unlisted (storage p) = StorageService.unlisted st
  /\ StorageService.writes (storage p) = StorageService.writes st
  /\ StorageService.recordings (StorageService.indexed (storage p))
     = StorageService.recordings (StorageService.indexed st)
  /\ (forall sid,
        StorageService.getSessionChunks sid (StorageService.indexed (storage p))
        = StorageService.getSessionChunks sid (StorageService.indexed st)
        \/ StorageService.getSessionChunks sid (StorageService.indexed (storage p))
           = []).
Proof.
  intros p.
  assert (Hi0 : idle (mkPage initial st [])) by (repeat split).
  destruct (calls_idle st cs _ Hi0 (trimmed_refl st))
    as [(Hst & Hch & Hci & Hpw) (Hu & Hw & Hr & Hc)].
  fold p in Hst, Hch, Hci, Hpw, Hu, Hw, Hr, Hc.
  split; [exact Hst|]. split; [exact Hch|]. split; [exact Hci|].
  split; [exact Hpw|].
  split.
  { intros sid supported. unfold start.
    destruct (negb (mediaStream (recorder p))); [left; reflexivity|].
    rewrite bool_decide_eq_false_2 by (rewrite Hst; discriminate).
    right. reflexivity. }
  split.
  { unfold stop_call. unfold getState in Hst.
    destruct (mediaRecorder (recorder p)) as [mr|]; [|left; reflexivity].
    right. rewrite Hst. rewrite bool_decide_eq_true_2 by reflexivity.
    eexists. reflexivity. }
  split; [exact Hu|]. split; [exact Hw|]. split; [exact Hr|].
  intros sid. unfold StorageService.getSessionChunks.
  destruct (Hc sid) as [-> | ->]; [left | right]; reflexivity.
Qed.

(** The record button pressed twice, then pause, resume and stop: the
    session variables are overwritten by each [start()], and nothing is
    recorded. *)
Example record_button_records_nothing :
  let p := calls (mkPage initial (accepting oneChunkOfA) [])
             [CallInit; CallStart "A" true; CallStart "B" true; CallPause 5000;
              CallResume 6000; CallStop] in
  recorder p
  = mkRecorder (Some (mkMediaRecorder inactive configMimeType)) true []
      (Some "B"%string) 0 false None 0 None
  /\ storage p = accepting oneChunkOfA
  /\ getElapsedTime 7000 (recorder p) = 0.
Proof. repeat split. Qed.

(** *** The older copy *)

Lemma run_old_cons s e es : run_old s (e :: es) = run_old (step_old s e) es.
Proof. reflexivity. Qed.

Lemma saveCurrentChunk_old_begin_rec now r db :
  fst (fst (saveCurrentChunk_old_begin now r db)) = r.
Proof.
  unfold saveCurrentChunk_old_begin.
  destruct (chunks r), (sessionId r) as [sid|]; try reflexivity.
  destruct (bool_decide (sid = ""%string)); reflexivity.
Qed.

Lemma saveCurrentChunk_old_begin_store now r db sid :
  sessionId r = Some sid ->
  forall c, In c (StorageService.chunksOfSession sid
                    (snd (fst (saveCurrentChunk_old_begin now r db)))) ->
    In c (StorageService.chunksOfSession sid db)
    \/ data (StorageService.chunkBlob c) = concat (map data (chunks r)).
Proof.
  intros Hsid c. unfold saveCurrentChunk_old_begin. rewrite Hsid.
  destruct (chunks r) as [|f fs] eqn:Ec; [auto|].
  destruct (bool_decide (sid = ""%string)); [auto|].
  cbn [fst snd]. rewrite chunksOfSession_saveChunk.
  rewrite bool_decide_eq_true_2 by reflexivity.
  intros Hin. apply in_app_or in Hin as [Hin|[<-|[]]]; [left; exact Hin|].
  right. reflexivity.
Qed.

Lemma step_old_chunks s e :
  chunks (rec (step_old s e)) = chunks (rec s) ++ fragmentsOf [e].
Proof.
  destruct e; cbn [step_old fragmentsOf flat_map]; rewrite ?app_nil_r.
  - cbn [rec]. rewrite handleDataAvailable_chunks. reflexivity.
  - destruct (chunkInterval (rec s)); [|reflexivity].
    pose proof (saveCurrentChunk_old_begin_rec now (rec s) (store s)) as H.
    destruct (saveCurrentChunk_old_begin now (rec s) (store s)) as [[r' db'] b].
    cbn in H. subst r'. reflexivity.
  - unfold pause_old. destruct (decide (getState (rec s) = recording)); [|reflexivity].
    match goal with
    | |- context [saveCurrentChunk_old_begin now ?r2 ?db] =>
        pose proof (saveCurrentChunk_old_begin_rec now r2 db) as H;
        destruct (saveCurrentChunk_old_begin now r2 db) as [[r' db'] b]
    end.
    cbn in H. subst r'. reflexivity.
  - cbn [rec]. unfold resume. destruct (decide (getState (rec s) = paused)); [|reflexivity].
    destruct (truthy (pauseStartTime (rec s))); reflexivity.
  - destruct (pendingSaves s); reflexivity.
Qed.

Lemma getState_setState st r :
  getState r <> inactive -> getState (setState st r) = st.
Proof.
  unfold getState, setState. cbn. destruct (mediaRecorder r); [reflexivity | contradiction].
Qed.

Lemma step_old_inv sid s e : oldSessionInv sid s -> oldSessionInv sid (step_old s e).
Proof.
  intros (Hsid & Hst & Hpre). unfold oldSessionInv. destruct e; cbn [step_old].
  - (* a fragment arrives *)
    cbn [rec store]. rewrite handleDataAvailable_chunks.
    unfold getState in *. cbn [sessionId mediaRecorder chunks].
    split; [exact Hsid|]. split; [exact Hst|].
    intros c Hc. destruct (Hpre c Hc) as [rest Hrest].
    exists (rest ++ concat (map data (kept d))).
    rewrite map_app, concat_app, Hrest, app_assoc. reflexivity.
  - (* the flush timer *)
    destruct (chunkInterval (rec s)); [|repeat split; assumption].
    pose proof (saveCurrentChunk_old_begin_rec now (rec s) (store s)) as Hr.
    pose proof (saveCurrentChunk_old_begin_store now (rec s) (store s) sid Hsid) as Hs.
    destruct (saveCurrentChunk_old_begin now (rec s) (store s)) as [[r' db'] b].
    cbn [fst snd] in Hr, Hs. subst r'. cbn [rec store].
    split; [exact Hsid|]. split; [exact Hst|].
    intros c Hc. destruct (Hs c Hc) as [Hin|Hd].
    + apply Hpre. exact Hin.
    + exists []. rewrite Hd, app_nil_r. reflexivity.
  - (* pause *)
    unfold pause_old. destruct (decide (getState (rec s) = recording)) as [Hrec|];
      [|repeat split; assumption].
    match goal with
    | |- context [saveCurrentChunk_old_begin now ?r2 ?db] =>
        pose proof (saveCurrentChunk_old_begin_rec now r2 db) as Hr;
        pose proof (saveCurrentChunk_old_begin_store now r2 db sid) as Hs;
        destruct (saveCurrentChunk_old_begin now r2 db) as [[r' db'] b]
    end.
    cbn [fst snd] in Hr, Hs. subst r'. cbn [rec store].
    unfold getState in *. unfold setState in *.
    cbn [sessionId mediaRecorder chunks] in *.
    split; [exact Hsid|].
    split.
    { destruct (mediaRecorder (rec s)); [discriminate | contradiction]. }
    intros c Hc. destruct (Hs Hsid c Hc) as [Hin|Hd].
    + apply Hpre. exact Hin.
    + exists []. rewrite Hd, app_nil_r. reflexivity.
  - (* resume *)
    cbn [rec store]. unfold resume.
    destruct (decide (getState (rec s) = paused)); [|repeat split; assumption].
    unfold getState in *. unfold setState.
    destruct (truthy (pauseStartTime (rec s)));
      cbn [sessionId mediaRecorder chunks];
      (split; [exact Hsid|]); (split; [|exact Hpre]);
      destruct (mediaRecorder (rec s)); try discriminate; contradiction.
  - (* a write is acknowledged *)
    destruct (pendingSaves s); repeat split; assumption.
Qed.

Lemma run_old_inv sid es : forall s,
  oldSessionInv sid s ->
  oldSessionInv sid (run_old s es)
  /\ chunks (rec (run_old s es)) = chunks (rec s) ++ fragmentsOf es.
Proof.
  induction es as [|e es IH]; intros s Hinv.
  - cbn. rewrite app_nil_r. auto.
  - rewrite run_old_cons.
    destruct (IH _ (step_old_inv sid s e Hinv)) as [Hinv' Hch].
    split; [exact Hinv'|]. rewrite Hch, step_old_chunks.
    rewrite <- app_assoc. unfold fragmentsOf. cbn [flat_map].
    rewrite app_nil_r. reflexivity.
Qed.

(** X18. The older copy of the recorder keeps every fragment in memory
    for the whole session, whatever the order in which fragments, timer
    flushes, pauses, resumptions and acknowledgements come: the in-memory
    list is the list of the non-empty fragments received, every chunk
    the session has in the store holds a prefix of it (each flush writes
    the recording so far, not the part since the flush before), and
    [stop()] resolves with all of it, followed by the last fragment. *)
Theorem old_recorder_keeps_everything
    (sid : SessionId) (supported : bool) (now : Z) (r0 r : Recorder)
    (d : StorageService.DB) (es : list Event) (last : Blob) (t : Z) :
  start_old sid supported now r0 = Ok r ->
  getState r0 <> recording ->
  StorageService.chunksOfSession sid d = [] ->
  let s := run_old (mkSession r d 0) es in
  chunks (rec s) = fragmentsOf es
  /\ (forall c, In c (StorageService.getSessionChunks sid (store s)) ->
        exists rest,
          concat (map data (fragmentsOf es))
          = data (StorageService.chunkBlob c) ++ rest)
  /\ exists result r' db',
       stop_old last t (rec s) (store s) = (Resolved result, r', db')
       /\ data (resBlob result) = concat (map data (fragmentsOf es)) ++ data last
       /\ StorageService.getSessionChunks sid db' = [].
Proof.
  intros Hstart Hst Hnone s.
  pose proof (start_old_fresh _ _ _ _ _ Hstart Hst) as Hr.
  assert (Hinv : oldSessionInv sid (mkSession r d 0)).
  { rewrite Hr. split; [reflexivity|]. split; [discriminate|].
    cbn [store]. rewrite Hnone. intros c []. }
  destruct (run_old_inv sid es _ Hinv) as [(Hsid & Hstate & Hpre) Hch].
  fold s in Hsid, Hstate, Hpre, Hch.
  assert (Hch' : chunks (rec s) = fragmentsOf es).
  { rewrite Hch, Hr. reflexivity. }
  split; [exact Hch'|]. split.
  - intros c Hc. rewrite <- Hch'. apply Hpre.
    unfold StorageService.getSessionChunks in Hc.
    apply (Permutation_in _ (sortBySequence_perm _)). exact Hc.
  - unfold getState in Hstate.
    destruct (mediaRecorder (rec s)) as [mr|] eqn:Hmr; [|contradiction].
    eexists. eexists. eexists. split.
    { apply (stop_old_computes last t _ _ mr sid);
        [exact Hmr | exact Hstate | exact Hsid]. }
    cbn [resBlob newBlob data].
    rewrite map_app, concat_app, data_kept, Hch'. split; [reflexivity|].
    rewrite getSessionChunks_clear, bool_decide_eq_true_2 by reflexivity. reflexivity.
Qed.

Lemma old_recorder_keeps_everything_witness :
  let s := run_old (mkSession
                      (mkRecorder (Some (mkMediaRecorder recording configMimeType))
                         true [] (Some "A"%string) 0 true (Some 1000) 0 None)
                      StorageService.emptyDB 0)
             [DataAvailable fragment; TimerTick 31000; ChunkSaved;
              DataAvailable fragment; TimerTick 61000; ChunkSaved] in
  chunks (rec s) = [fragment; fragment]
  /\ map (fun c => size (StorageService.chunkBlob c))
       (StorageService.getSessionChunks "A" (store s)) = [2; 4]%nat.
Proof.
  intros s.
  assert (Hst : getState readyRecorder <> recording) by discriminate.
  split.
  - exact (proj1 (old_recorder_keeps_everything "A" true 1000 readyRecorder _
                    StorageService.emptyDB
                    [DataAvailable fragment; TimerTick 31000; ChunkSaved;
                     DataAvailable fragment; TimerTick 61000; ChunkSaved]
                    fragment 70000 eq_refl Hst eq_refl)).
  - reflexivity.
Defined.

(** *** The controls of the two App objects *)

(** X19. The record and pause controls never start over an open
    session. With the recorder recording or paused,
    [handleRecordToggle] of js/app.js and [handlePause] of js/drive.js do
    the same: pause a running recording, resume a paused one. The session
    id, the start time and the fragments in memory stay, the chunk counter
    does not go back, and the catalog is not written; [start()] is not
    reached. *)
Theorem controls_keep_session
    (sid : SessionId) (supported : bool) (now : Z) (r : Recorder)
    (d : StorageService.Store) :
  getState r <> inactive ->
  let r' := fst (SupabaseApp.handleRecordToggle sid supported now r d) in
  let d' := snd (SupabaseApp.handleRecordToggle sid supported now r d) in
  App.handlePause now r d = (r', d')
  /\ sessionId r' = sessionId r /\ startTime r' = startTime r
  /\ chunks r' = chunks r /\ (chunkSequence r <= chunkSequence r')%nat
  /\ (getState r = recording -> getState r' = paused)
  /\ (getState r = paused -> getState r' = recording)
  /\ StorageService.recordings (StorageService.indexed d')
     = StorageService.recordings (StorageService.indexed d).
Proof.
  intros Hst r' d'. unfold r', d', SupabaseApp.handleRecordToggle, App.handlePause.
  destruct (getState r) eqn:Est; [contradiction| |].
  - pose proof (pause_fields now r d Est) as (H1 & _ & H3 & _ & H5 & H6 & H7).
    pose proof (pause_recordings now r d) as Hrec.
    destruct (pause now r d) as [[r1 d1] b]. cbn [fst snd store] in *.
    repeat split; intros; try assumption; try discriminate.
  - cbn [fst snd]. unfold resume. rewrite decide_True by exact Est.
    assert (Hne : getState r <> inactive) by (rewrite Est; discriminate).
    unfold getState in *. unfold setState.
    destruct (truthy (pauseStartTime r)); cbn;
      destruct (mediaRecorder r); try contradiction;
      repeat split; intros; try discriminate; try reflexivity; lia.
Qed.

Lemma controls_keep_session_witness :
  sessionId (fst (SupabaseApp.handleRecordToggle "B" true 9000 pausedRecorder
                    (accepting StorageService.emptyDB))) = Some "A"%string
  /\ getState (fst (SupabaseApp.handleRecordToggle "B" true 9000 pausedRecorder
                      (accepting StorageService.emptyDB))) = recording.
Proof.
  assert (Hne : getState pausedRecorder <> inactive) by discriminate.
  destruct (controls_keep_session "B" true 9000 pausedRecorder
              (accepting StorageService.emptyDB) Hne)
    as (_ & H1 & _ & _ & _ & _ & H2 & _).
  split; [exact H1 | exact (H2 eq_refl)].
Defined.

End RecorderControls.

(** ** The Drive service: folders, uploads and the stored token *)
Section DriveUploads.
Import DriveService.

Lemma keepsDrive_refl x : keepsDrive x x.
Proof.
  unfold keepsDrive. do 7 (split; [reflexivity|]).
  split; [exists []; rewrite app_nil_r; reflexivity | auto].
Qed.

Lemma keepsDrive_trans x y z : keepsDrive x y -> keepsDrive y z -> keepsDrive x z.
Proof.
  intros (A1 & A2 & A3 & A4 & A5 & A6 & A7 & [l1 A8] & A9)
         (B1 & B2 & B3 & B4 & B5 & B6 & B7 & [l2 B8] & B9).
  unfold keepsDrive. do 7 (split; [congruence|]).
  split; [|auto].
  exists (l1 ++ l2). rewrite B8, A8, app_assoc. reflexivity.
Qed.

Lemma mintId_not_empty n : mintId n <> ""%string.
Proof. unfold mintId. discriminate. Qed.

Lemma driveStep_keeps x y : driveStep x y -> keepsDrive x y.
Proof.
  intros H. destruct H as [d rm | d rm name parent Hnone | d rm k v].
  - unfold keepsDrive, fetch. cbn. do 7 (split; [reflexivity|]).
    split; [exists []; rewrite app_nil_r; reflexivity | auto].
  - unfold keepsDrive. cbn [fst snd files respond grant signIns folders].
    do 7 (split; [reflexivity|]).
    split; [eexists; reflexivity|]. intros H. split.
    + intros f Hin. destruct H as [Hid _]. cbn [folders] in Hin.
      apply in_app_or in Hin as [Hin|[<-|[]]]; [apply Hid; exact Hin|].
      cbn. apply mintId_not_empty.
    + intros name' parent'. destruct H as [Hid Huniq]. cbn [folders].
      rewrite List.filter_app, length_app. cbn [List.filter].
      destruct (matches name' parent' _) eqn:Em; cbn [length]; [|specialize (Huniq name' parent'); lia].
      unfold matches in Em. cbn in Em.
      apply andb_true_iff in Em as [Em _]. apply andb_true_iff in Em as [E1 E2].
      apply bool_decide_eq_true_1 in E1, E2. subst name' parent'.
      destruct (List.filter (matches name parent) (folders rm)) as [|f fs] eqn:Ef;
        [cbn; lia|].
      exfalso. apply (Hid f); [|exact Hnone].
      assert (Hin : In f (List.filter (matches name parent) (folders rm)))
        by (rewrite Ef; left; reflexivity).
      apply List.filter_In in Hin. apply Hin.
  - unfold keepsDrive, setCache. cbn. do 7 (split; [reflexivity|]).
    split; [exists []; rewrite app_nil_r; reflexivity | auto].
Qed.

Lemma driveSteps_keep x y : rtc driveStep x y -> keepsDrive x y.
Proof.
  induction 1 as [x | x y z Hxy _ IH]; [apply keepsDrive_refl|].
  apply (keepsDrive_trans _ y); [apply driveStep_keeps; exact Hxy | exact IH].
Qed.

(** The loop of [ensureFolderPath] is a sequence of such steps. *)
Lemma ensureParts_steps parts : forall parent current d rm,
  rtc driveStep (d, rm)
    (snd (fst (ensureParts parts parent current d rm)),
     snd (ensureParts parts parent current d rm)).
Proof.
  induction parts as [|name rest IH]; intros parent current d rm; cbn [ensureParts].
  - apply rtc_refl.
  - destruct (folderCache d !! _) as [c|]; [apply IH|].
    unfold findFolder.
    eapply rtc_l; [apply (step_request d rm)|].
    destruct (fetch rm) as [out rm1] eqn:Efetch. cbn [snd].
    assert (Hf : folders rm1 = folders rm).
    { unfold fetch in Efetch. injection Efetch as _ <-. reflexivity. }
    destruct out as [|code]; [apply rtc_refl|].
    destruct (ok code); [|apply rtc_refl].
    assert (Hcreate : forall current',
              match List.filter (matches name parent) (folders rm1) with
              | [] => True
              | f :: _ => folderId f = ""%string
              end ->
              rtc driveStep (d, rm1)
                (snd (fst (match createFolder name parent rm1 with
                           | (Throw e, rm2) => (Throw e, d, rm2)
                           | (Ok f, rm2) =>
                               ensureParts rest f current' (setCache current' f d) rm2
                           end)),
                 snd (match createFolder name parent rm1 with
                      | (Throw e, rm2) => (Throw e, d, rm2)
                      | (Ok f, rm2) =>
                          ensureParts rest f current' (setCache current' f d) rm2
                      end))).
    { intros current' Hnone. unfold createFolder.
      eapply rtc_l; [apply (step_request d rm1)|].
      destruct (fetch rm1) as [out2 rm2] eqn:Efetch2. cbn [snd].
      assert (Hf2 : folders rm2 = folders rm1).
      { unfold fetch in Efetch2. injection Efetch2 as _ <-. reflexivity. }
      destruct out2 as [|code2]; [apply rtc_refl|].
      destruct (ok code2); [|apply rtc_refl].
      eapply rtc_l; [apply (step_folder d rm2 name parent); rewrite Hf2; exact Hnone|].
      eapply rtc_l; [apply (step_cache d _ current')|].
      apply IH. }
    destruct (List.filter (matches name parent) (folders rm1)) as [|f fs] eqn:Efilter.
    + apply Hcreate. exact I.
    + destruct (bool_decide (folderId f = ""%string)) eqn:Eid.
      * apply Hcreate. apply bool_decide_eq_true_1 in Eid. exact Eid.
      * eapply rtc_l; [apply (step_cache d rm1)|]. apply IH.
Qed.

Lemma ensureFolderPath_keeps path d rm :
  keepsDrive (d, rm)
    (snd (fst (ensureFolderPath path d rm)), snd (ensureFolderPath path d rm)).
Proof.
  unfold ensureFolderPath. destruct (folderCache d !! path); [apply keepsDrive_refl|].
  pose proof (driveSteps_keep _ _ (ensureParts_steps (pathParts path) "root" "" d rm)) as H.
  destruct (ensureParts (pathParts path) "root" "" d rm) as [[[p|e] d1] rm1];
    cbn [fst snd] in *; [|exact H].
  apply (keepsDrive_trans _ (d1, rm1)); [exact H|].
  apply driveStep_keeps. apply step_cache.
Qed.

Lemma tidy_folders rm rm' : folders rm' = folders rm -> tidy rm -> tidy rm'.
Proof. unfold tidy. intros ->. auto. Qed.

(** *** One folder per segment *)

Lemma split_app sep s1 s2 :
  split sep (s1 ++ String sep s2)%string = split sep s1 ++ split sep s2.
Proof.
  induction s1 as [|c s1 IH]; simpl.
  - rewrite Ascii.eqb_refl. reflexivity.
  - destruct (Ascii.eqb c sep); [rewrite IH; reflexivity|].
    rewrite IH. pose proof (split_ne sep s1) as Hne.
    destruct (split sep s1) as [|p ps]; [contradiction | reflexivity].
Qed.

Lemma split_segments sep s : Forall (fun p => noSep sep p = true) (split sep s).
Proof.
  induction s as [|c s IH]; cbn [split]; [repeat constructor|].
  destruct (Ascii.eqb c sep) eqn:Ec; [constructor; [reflexivity | exact IH]|].
  destruct (split sep s) as [|p ps]; [repeat constructor; cbn; rewrite Ec; reflexivity|].
  apply Forall_cons_iff in IH as [Hp Hps]. constructor; [|exact Hps].
  cbn. rewrite Ec, Hp. reflexivity.
Qed.

Lemma pathParts_segments path : Forall segment (pathParts path).
Proof.
  unfold pathParts. pose proof (split_segments "/" path) as H.
  induction (split "/" path) as [|p ps IH]; cbn [List.filter]; [constructor|].
  apply Forall_cons_iff in H as [Hp Hps].
  destruct (blank p) eqn:Eb; cbn [negb]; [apply IH; exact Hps|].
  constructor; [split; assumption | apply IH; exact Hps].
Qed.

Lemma pathParts_segment p : segment p -> pathParts p = [p].
Proof.
  intros [Hs Hb]. unfold pathParts. rewrite (split_noSep _ _ Hs).
  cbn [List.filter]. rewrite Hb. reflexivity.
Qed.

Lemma joinPath_snoc parts name :
  joinPath (parts ++ [name])
  = (joinPath parts ++ (if bool_decide (joinPath parts = "") then "" else "/")
     ++ name)%string.
Proof. unfold joinPath. rewrite fold_left_app. reflexivity. Qed.

Lemma append_empty (a b : string) : (a ++ b)%string = ""%string -> b = ""%string.
Proof. destruct a; cbn; [auto | discriminate]. Qed.

Lemma segment_not_empty p : segment p -> p <> ""%string.
Proof. intros [_ Hb] ->. discriminate Hb. Qed.

Lemma joinPath_not_empty parts :
  Forall segment parts -> parts <> [] -> joinPath parts <> ""%string.
Proof.
  destruct parts as [|p ps] using rev_ind; [contradiction|].
  intros Hf _ He. rewrite joinPath_snoc in He.
  apply append_empty, append_empty in He.
  apply Forall_app in Hf as [_ Hp]. apply Forall_cons_iff in Hp as [Hp _].
  exact (segment_not_empty _ Hp He).
Qed.

(** The key built for the segments walked splits back into them. *)
Lemma pathParts_joinPath parts :
  Forall segment parts -> pathParts (joinPath parts) = parts.
Proof.
  induction parts as [|p ps IH] using rev_ind; intros Hf; [reflexivity|].
  apply Forall_app in Hf as [Hps Hp]. apply Forall_cons_iff in Hp as [Hp _].
  rewrite joinPath_snoc.
  destruct ps as [|q qs] using rev_ind.
  - cbn. apply pathParts_segment. exact Hp.
  - rewrite bool_decide_eq_false_2
      by (apply joinPath_not_empty; [exact Hps | intros E; destruct qs; discriminate E]).
    change (joinPath (qs ++ [q]) ++ "/" ++ p)%string
      with (joinPath (qs ++ [q]) ++ String "/" p)%string.
    unfold pathParts. rewrite split_app, List.filter_app.
    fold (pathParts (joinPath (qs ++ [q]))). fold (pathParts p).
    rewrite (IH Hps), (pathParts_segment _ Hp). reflexivity.
Qed.

Lemma folderAt_app l1 : forall l2 p rm,
  folderAt (l1 ++ l2) p rm
  = match folderAt l1 p rm with
    | Some q => folderAt l2 q rm
    | None => None
    end.
Proof.
  induction l1 as [|name l1 IH]; intros l2 p rm; cbn [app folderAt]; [reflexivity|].
  destruct (List.filter (matches name p) (folders rm)) as [|f [|f' fs]];
    [reflexivity | apply IH | reflexivity].
Qed.

Lemma folderAt_folders parts : forall p rm rm',
  folders rm' = folders rm -> folderAt parts p rm' = folderAt parts p rm.
Proof.
  induction parts as [|name parts IH]; intros p rm rm' H; cbn [folderAt]; [reflexivity|].
  rewrite H. destruct (List.filter (matches name p) (folders rm)) as [|f [|f' fs]];
    [reflexivity | apply IH; exact H | reflexivity].
Qed.

(** A folder added where no live folder had its name leaves the paths
    that led somewhere leading there. *)
Lemma folderAt_grow parts : forall p q rm rm' new,
  folders rm' = folders rm ++ [new] ->
  List.filter (matches (folderName new) (folderParent new)) (folders rm) = [] ->
  folderAt parts p rm = Some q -> folderAt parts p rm' = Some q.
Proof.
  induction parts as [|name parts IH]; intros p q rm rm' new Hf Hnone; cbn [folderAt];
    [auto|].
  rewrite Hf, List.filter_app. cbn [List.filter].
  destruct (matches name p new) eqn:Em.
  - unfold matches in Em. apply andb_true_iff in Em as [Em _].
    apply andb_true_iff in Em as [E1 E2].
    apply bool_decide_eq_true_1 in E1, E2. subst name p. rewrite Hnone.
    discriminate.
  - rewrite app_nil_r.
    destruct (List.filter (matches name p) (folders rm)) as [|f [|f' fs]];
      [discriminate | apply (IH _ _ _ _ _ Hf Hnone) | discriminate].
Qed.

Lemma soundCache_folders d rm rm' :
  folders rm' = folders rm -> soundCache d rm -> soundCache d rm'.
Proof.
  intros H Hs path f Hc. rewrite (folderAt_folders _ _ _ _ H). apply Hs. exact Hc.
Qed.

Lemma soundCache_setCache k f d rm :
  soundCache d rm -> folderAt (pathParts k) "root" rm = Some f ->
  soundCache (setCache k f d) rm.
Proof.
  intros Hs Hk path g. unfold setCache. cbn [folderCache].
  destruct (decide (path = k)) as [->|Hne].
  - rewrite lookup_insert_eq. intros [= <-]. exact Hk.
  - rewrite lookup_insert_ne by congruence. apply Hs.
Qed.

Lemma tidy_single name parent rm f fs :
  tidy rm -> List.filter (matches name parent) (folders rm) = f :: fs ->
  fs = [] /\ folderId f <> ""%string.
Proof.
  intros [Hid Hu] Hf. split.
  - specialize (Hu name parent). rewrite Hf in Hu. cbn in Hu.
    destruct fs; [reflexivity | cbn in Hu; lia].
  - apply Hid.
    assert (Hin : In f (List.filter (matches name parent) (folders rm)))
      by (rewrite Hf; left; reflexivity).
    apply List.filter_In in Hin. apply Hin.
Qed.

(** The loop of [ensureFolderPath], on a tidy Drive with a cache that
    tells the truth: when it returns an id, the segments walked so far
    and those it was given lead to that id, one live folder each. *)
Lemma ensureParts_leads parts : forall pre parent d rm f d1 rm1,
  Forall segment (pre ++ parts) -> tidy rm -> soundCache d rm ->
  folderAt pre "root" rm = Some parent ->
  ensureParts parts parent (joinPath pre) d rm = (Ok f, d1, rm1) ->
  folderAt (pre ++ parts) "root" rm1 = Some f /\ tidy rm1 /\ soundCache d1 rm1.
Proof.
  induction parts as [|name rest IH]; intros pre parent d rm f d1 rm1 Hseg Ht Hs Hpre H.
  - cbn [ensureParts] in H. injection H as <- <- <-. rewrite app_nil_r. auto.
  - cbn [ensureParts] in H. rewrite <- joinPath_snoc in H.
    assert (Hseg' : Forall segment ((pre ++ [name]) ++ rest))
      by (rewrite <- app_assoc; exact Hseg).
    assert (Hkey : pathParts (joinPath (pre ++ [name])) = pre ++ [name]).
    { apply pathParts_joinPath. apply Forall_app in Hseg' as [Hp _]. exact Hp. }
    replace (pre ++ name :: rest) with ((pre ++ [name]) ++ rest)
      by (rewrite <- app_assoc; reflexivity).
    destruct (folderCache d !! joinPath (pre ++ [name])) as [c|] eqn:Ec.
    { apply (IH (pre ++ [name]) c d rm); try assumption.
      rewrite <- Hkey. apply Hs. exact Ec. }
    unfold findFolder in H. destruct (fetch rm) as [out rm0] eqn:Ef.
    assert (Hf0 : folders rm0 = folders rm).
    { unfold fetch in Ef. injection Ef as _ <-. reflexivity. }
    destruct out as [|code]; [discriminate H|].
    destruct (ok code); [|discriminate H].
    assert (Hcreate :
              List.filter (matches name parent) (folders rm0) = [] ->
              match createFolder name parent rm0 with
              | (Throw e, rm2) => (Throw e, d, rm2)
              | (Ok f', rm2) =>
                  ensureParts rest f' (joinPath (pre ++ [name]))
                    (setCache (joinPath (pre ++ [name])) f' d) rm2
              end = (Ok f, d1, rm1) ->
              folderAt ((pre ++ [name]) ++ rest) "root" rm1 = Some f
              /\ tidy rm1 /\ soundCache d1 rm1).
    { intros Hnone Hc. unfold createFolder in Hc.
      destruct (fetch rm0) as [out2 rm2] eqn:Ef2.
      assert (Hf2 : folders rm2 = folders rm).
      { unfold fetch in Ef2. injection Ef2 as _ <-. exact Hf0. }
      destruct out2 as [|code2]; [discriminate Hc|].
      destruct (ok code2); [|discriminate Hc].
      set (new := mkFolder (mintId (minted rm2)) name parent false) in Hc.
      set (rm3 := mkRemote (folders rm2 ++ [new]) _ _ _ _ _ _) in Hc.
      assert (Hnone2 : List.filter (matches (folderName new) (folderParent new))
                         (folders rm2) = []).
      { cbn [new folderName folderParent]. rewrite Hf2, <- Hf0. exact Hnone. }
      assert (Ht2 : tidy rm2) by (apply (tidy_folders rm); assumption).
      assert (Ht3 : tidy rm3).
      { assert (Hfree : match List.filter (matches name parent) (folders rm2) with
                        | [] => True
                        | f' :: _ => folderId f' = ""%string
                        end).
        { cbn [new folderName folderParent] in Hnone2. rewrite Hnone2. exact I. }
        pose proof (driveStep_keeps _ _ (step_folder d rm2 name parent Hfree)) as Hk.
        destruct Hk as (_ & _ & _ & _ & _ & _ & _ & _ & K9). apply K9. exact Ht2. }
      assert (Hgrow : forall parts' p q, folderAt parts' p rm = Some q ->
                                         folderAt parts' p rm3 = Some q).
      { intros parts' p q Hq. apply (folderAt_grow parts' p q rm2 rm3 new);
          [reflexivity | exact Hnone2 |].
        rewrite (folderAt_folders _ _ _ _ Hf2). exact Hq. }
      assert (Hnew : folderAt (pre ++ [name]) "root" rm3 = Some (mintId (minted rm2))).
      { rewrite folderAt_app, (Hgrow _ _ _ Hpre). cbn [folderAt].
        cbn [rm3 folders]. rewrite List.filter_app.
        cbn [new folderName folderParent] in Hnone2. rewrite Hnone2.
        cbn [List.filter app]. unfold matches at 1. cbn [new folderName folderParent trashed].
        rewrite !bool_decide_eq_true_2 by reflexivity. reflexivity. }
      eapply (IH (pre ++ [name])); [exact Hseg' | exact Ht3 | | exact Hnew | exact Hc].
      apply soundCache_setCache; [|rewrite Hkey; exact Hnew].
      intros path g Hg. apply Hgrow. apply Hs. exact Hg. }
    assert (Ht0 : tidy rm0) by (apply (tidy_folders rm); assumption).
    destruct (List.filter (matches name parent) (folders rm0)) as [|f0 fs] eqn:Efilter.
    + apply Hcreate; [reflexivity | exact H].
    + destruct (tidy_single _ _ _ _ _ Ht0 Efilter) as [-> Hid].
      rewrite bool_decide_eq_false_2 in H by exact Hid.
      assert (Hfound : folderAt (pre ++ [name]) "root" rm0 = Some (folderId f0)).
      { rewrite folderAt_app, (folderAt_folders _ _ _ _ Hf0), Hpre. cbn [folderAt].
        rewrite Efilter. reflexivity. }
      eapply (IH (pre ++ [name])); [exact Hseg' | exact Ht0 | | exact Hfound | exact H].
      apply soundCache_setCache; [|rewrite Hkey; exact Hfound].
      apply (soundCache_folders d rm); assumption.
Qed.

(** C9: [ensureFolderPath] is idempotent. On a Drive where no two live
    folders share name and parent, with a cache that holds nothing
    wrong, a call that returns a folder id leaves every segment of the
    path naming exactly one live folder under the one before, the last of
    them being the folder returned; the id is cached under the path, so
    the same call made again returns the same id and leaves the service
    and the Drive exactly as they were: no request is sent and no folder
    is created. The first call adds at most one folder per segment and
    removes none, and what was assumed of the Drive and of the cache
    holds again afterwards. *)
Theorem ensureFolderPath_idempotent
    (path : string) (d : Drive) (rm : Remote) (f : FileId) (d1 : Drive)
    (rm1 : Remote) :
  tidy rm -> soundCache d rm ->
  ensureFolderPath path d rm = (Ok f, d1, rm1) ->
  ensureFolderPath path d1 rm1 = (Ok f, d1, rm1)
  /\ folderAt (pathParts path) "root" rm1 = Some f
  /\ folderAt (pathParts path) "root" (snd (ensureFolderPath path d1 rm1)) = Some f
  /\ (exists l, folders rm1 = folders rm ++ l
                /\ (length l <= length (pathParts path))%nat)
  /\ tidy rm1 /\ soundCache d1 rm1.
Proof.
  intros Ht Hs H.
  assert (Hagain : ensureFolderPath path d1 rm1 = (Ok f, d1, rm1)).
  { apply ensureFolderPath_cached. eapply ensureFolderPath_caches; eauto. }
  assert (Hlead : folderAt (pathParts path) "root" rm1 = Some f
                  /\ tidy rm1 /\ soundCache d1 rm1).
  { revert H. unfold ensureFolderPath.
    destruct (folderCache d !! path) as [c|] eqn:Ec.
    - intros [= <- <- <-]. split; [apply Hs; exact Ec | auto].
    - destruct (ensureParts (pathParts path) "root" "" d rm) as [[[p|e] d'] rm'] eqn:Ep;
        [|discriminate].
      intros [= <- <- <-].
      destruct (ensureParts_leads (pathParts path) [] "root" d rm p d' rm'
                  (pathParts_segments path) Ht Hs eq_refl Ep) as (Hl & Ht' & Hs').
      split; [exact Hl|]. split; [exact Ht'|].
      apply soundCache_setCache; assumption. }
  destruct Hlead as (Hl & Ht1 & Hs1).
  split; [exact Hagain|]. split; [exact Hl|].
  split; [rewrite Hagain; exact Hl|].
  split; [|auto].
  pose proof (ensureFolderPath_keeps path d rm) as Hk.
  pose proof (ensureParts_creates (pathParts path) "root" "" d rm) as Hc.
  revert H Hk Hc. unfold ensureFolderPath.
  destruct (folderCache d !! path) as [c|].
  - intros [= <- <- <-] _ _. exists []. rewrite app_nil_r. split; [reflexivity|].
    cbn. lia.
  - destruct (ensureParts (pathParts path) "root" "" d rm) as [[[p|e] d'] rm'];
      [|discriminate].
    intros [= <- <- <-] Hk Hc. unfold keepsDrive in Hk. cbn [fst snd] in Hk, Hc.
    destruct Hk as (_ & _ & _ & _ & _ & _ & _ & [l Hl'] & _).
    exists l. split; [exact Hl'|]. rewrite Hl', length_app in Hc. lia.
Qed.

(** On a Drive that has the folder [A] already, the path [A/B/C] costs
    two folders, [B] under [A] and [C] under [B]; asking again gives the
    same id and no other folder. *)
Lemma ensureFolderPath_idempotent_witness :
  exists f d1 rm1,
    ensureFolderPath "A/B/C" signedInDrive driveWithA = (Ok f, d1, rm1)
    /\ ensureFolderPath "A/B/C" d1 rm1 = (Ok f, d1, rm1)
    /\ folderAt ["A"; "B"; "C"]%string "root" rm1 = Some f
    /\ map (fun x => (folderName x, folderParent x)) (folders rm1)
       = [("A", "root"); ("B", "x1"); ("C", "id0")]%string.
Proof.
  assert (Ht : tidy driveWithA).
  { split.
    - intros x [<-|[]]. discriminate.
    - intros name parent. cbn. destruct (matches name parent _); cbn; lia. }
  assert (Hs : soundCache signedInDrive driveWithA).
  { intros path g Hg. cbn in Hg. rewrite lookup_empty in Hg. discriminate Hg. }
  destruct (ensureFolderPath "A/B/C" signedInDrive driveWithA)
    as [[[f|e] d1] rm1] eqn:E; [|vm_compute in E; discriminate E].
  exists f, d1, rm1. split; [reflexivity|].
  destruct (ensureFolderPath_idempotent _ _ _ _ _ _ Ht Hs E) as (H1 & H2 & _).
  split; [exact H1|]. split; [exact H2|].
  vm_compute in E. injection E as _ _ <-. reflexivity.
Defined.

Lemma uploadFile_outcome b name folder rm :
  match uploadFile b name folder rm with
  | (Ok f, rm') =>
      files rm' = files rm ++ [mkFile f name folder b] /\ folders rm' = folders rm
      /\ respond rm' = respond rm /\ grant rm' = grant rm /\ signIns rm' = signIns rm
  | (Throw e, rm') =>
      files rm' = files rm /\ folders rm' = folders rm
      /\ respond rm' = respond rm /\ grant rm' = grant rm /\ signIns rm' = signIns rm
  end.
Proof.
  unfold uploadFile, fetch. destruct (respond rm (requests rm)) as [|code];
    [cbn; auto|]. destruct (ok code); cbn; auto.
Qed.

(** One attempt: the [try] block. *)
Lemma attemptUpload_outcome b name folderPath d rm :
  let fullPath := if bool_decide (folderPath = ""%string) then ROOT_FOLDER
                  else folderPath in
  match attemptUpload b name folderPath d rm with
  | (Ok result, d1, rm1) =>
      success result = true /\ resFileName result = name
      /\ resFolderPath result = folderPath
      /\ (exists folder, folderCache d1 !! fullPath = Some folder
            /\ files rm1 = files rm ++ [mkFile (resFileId result) name folder b])
      /\ isInitialised d1 = isInitialised d /\ isSignedIn d1 = isSignedIn d
      /\ accessToken d1 = accessToken d
      /\ respond rm1 = respond rm /\ grant rm1 = grant rm
      /\ (tidy rm -> tidy rm1)
  | (Throw e, d1, rm1) =>
      files rm1 = files rm
      /\ isInitialised d1 = isInitialised d /\ isSignedIn d1 = isSignedIn d
      /\ accessToken d1 = accessToken d
      /\ respond rm1 = respond rm /\ grant rm1 = grant rm
      /\ (tidy rm -> tidy rm1)
  end.
Proof.
  intros fullPath. unfold attemptUpload. fold fullPath.
  pose proof (ensureFolderPath_keeps fullPath d rm) as Hk.
  pose proof (ensureFolderPath_caches fullPath d rm) as Hc.
  destruct (ensureFolderPath fullPath d rm) as [[[folder|e] d1] rm1];
    cbn [fst snd] in Hk;
    destruct Hk as (K1 & K2 & K3 & K4 & K5 & K6 & K7 & _ & K9); cbn [fst snd] in *.
  - specialize (Hc folder d1 rm1 eq_refl).
    pose proof (uploadFile_outcome b name folder rm1) as Hu.
    destruct (uploadFile b name folder rm1) as [[f|e] rm2];
      destruct Hu as (U1 & U2 & U3 & U4 & U5).
    + cbn [success resFileName resFolderPath resFileId].
      do 3 (split; [reflexivity|]).
      split; [exists folder; split; [exact Hc | congruence]|].
      do 5 (split; [congruence|]).
      intros Ht. apply (tidy_folders rm1); [exact U2 | apply K9; exact Ht].
    + do 6 (split; [congruence|]).
      intros Ht. apply (tidy_folders rm1); [exact U2 | apply K9; exact Ht].
  - do 6 (split; [assumption|]). exact K9.
Qed.

Lemma uploadRecording_spec fuel b name folderPath : forall d rm out d' rm',
  uploadRecording fuel b name folderPath d rm = Some (out, d', rm') ->
  let fullPath := if bool_decide (folderPath = ""%string) then ROOT_FOLDER
                  else folderPath in
  match out with
  | Ok result =>
      success result = true /\ resFileName result = name
      /\ resFolderPath result = folderPath
      /\ exists folder, folderCache d' !! fullPath = Some folder
           /\ files rm' = files rm ++ [mkFile (resFileId result) name folder b]
  | Throw e => files rm' = files rm /\ errStatus e <> Some 401
  end
  /\ respond rm' = respond rm /\ (tidy rm -> tidy rm').
Proof.
  induction fuel as [|fuel IH]; intros d rm out d' rm' H fullPath; [discriminate|].
  cbn [uploadRecording] in H.
  destruct (isAuthenticated d).
  2:{ cbn in H. injection H as <- <- <-. cbn.
      split; [split; [reflexivity | discriminate]|]. split; [reflexivity | auto]. }
  cbn [negb] in H.
  pose proof (attemptUpload_outcome b name folderPath d rm) as Ha.
  cbn zeta in Ha. fold fullPath in Ha.
  destruct (attemptUpload b name folderPath d rm) as [[[result|e] d1] rm1].
  - injection H as <- <- <-.
    destruct Ha as (A1 & A2 & A3 & A4 & _ & _ & _ & A8 & _ & A10).
    split; [|split; assumption]. do 3 (split; [assumption|]). exact A4.
  - destruct Ha as (A1 & A2 & _ & _ & A5 & A6 & A7).
    destruct (bool_decide (errStatus e = Some 401)) eqn:E401.
    + unfold signIn in H. destruct (isInitialised d1).
      * cbn [negb] in H. destruct (grant rm1 (signIns rm1)) as [token|].
        -- apply IH in H. cbn zeta in H. cbn [files respond folders] in H.
           destruct H as (H1 & H2 & H3).
           split; [|split; [congruence|]].
           ++ rewrite <- A1. exact H1.
           ++ intros Ht. apply H3. apply (tidy_folders rm1); [reflexivity|].
              apply A7. exact Ht.
        -- injection H as <- <- <-. cbn [files respond].
           split; [split; [exact A1 | discriminate]|].
           split; [exact A5|]. intros Ht. apply (tidy_folders rm1); [reflexivity|].
           apply A7. exact Ht.
      * cbn in H. injection H as <- <- <-.
        split; [split; [exact A1 | discriminate]|]. split; [exact A5 | exact A7].
    + injection H as <- <- <-. apply bool_decide_eq_false_1 in E401.
      split; [split; assumption|]. split; assumption.
Qed.

(** X20. What a call of [uploadRecording] that returns has done. When it
    resolves, exactly one file has been added to Drive, and none before
    it in the attempts that failed: the file has the id returned, the name
    and the blob given, and its parent is the folder the cache holds for
    the path ([Voice Recordings] for an empty path). When it throws, no
    file has been added, and the error is never one with status 401: such
    an error leads to a sign-in and a new attempt, or to the error of the
    sign-in. Without a sign-in the call throws before any request. *)
Theorem uploadRecording_outcome
    (fuel : nat) (b : Blob) (name folderPath : string) (d : Drive) (rm : Remote)
    (out : Res UploadResult) (d' : Drive) (rm' : Remote) :
  uploadRecording fuel b name folderPath d rm = Some (out, d', rm') ->
  let fullPath := if bool_decide (folderPath = ""%string) then ROOT_FOLDER
                  else folderPath in
  match out with
  | Ok result =>
      success result = true /\ resFileName result = name
      /\ resFolderPath result = folderPath
      /\ exists folder, folderCache d' !! fullPath = Some folder
           /\ files rm' = files rm ++ [mkFile (resFileId result) name folder b]
  | Throw e => files rm' = files rm /\ errStatus e <> Some 401
  end
  /\ (isAuthenticated d = false ->
      out = Throw (mkError "Not authenticated" None) /\ d' = d /\ rm' = rm).
Proof.
  intros H fullPath. split.
  - exact (proj1 (uploadRecording_spec fuel b name folderPath d rm out d' rm' H)).
  - intros Hna. destruct fuel as [|fuel]; [discriminate|].
    cbn [uploadRecording] in H. rewrite Hna in H. cbn in H.
    injection H as <- <- <-. auto.
Qed.

Lemma uploadRecording_outcome_witness :
  exists result d' rm',
    uploadRecording 3 fragment "a.webm" "recordings/2024/01" signedInDrive expiredTwice
    = Some (Ok result, d', rm')
    /\ map content (files rm') = [fragment].
Proof.
  destruct (uploadRecording 3 fragment "a.webm" "recordings/2024/01" signedInDrive
              expiredTwice) as [[[[result|e] d'] rm']|] eqn:E;
    [|vm_compute in E; discriminate E|vm_compute in E; discriminate E].
  exists result, d', rm'. split; [reflexivity|].
  destruct (uploadRecording_outcome _ _ _ _ _ _ _ _ _ E)
    as [(_ & _ & _ & folder & _ & Hfiles) _].
  rewrite Hfiles. reflexivity.
Defined.

(** X21. [ensureFolderPath] never makes a duplicate and never removes a
    folder: on a Drive where every folder has an id and no two live
    folders share name and parent, this is still so after the call,
    whatever the cache holds and however the call ends, and the folders
    that were there are still there, in front of the new ones. The same
    holds for a whole [uploadRecording], with its retries. *)
Theorem no_duplicate_folders (path : string) (d : Drive) (rm : Remote) :
  tidy rm ->
  tidy (snd (ensureFolderPath path d rm))
  /\ (exists l, folders (snd (ensureFolderPath path d rm)) = folders rm ++ l)
  /\ (forall fuel b name out d' rm',
        uploadRecording fuel b name path d rm = Some (out, d', rm') -> tidy rm').
Proof.
  intros Ht.
  destruct (ensureFolderPath_keeps path d rm) as (_ & _ & _ & _ & _ & _ & _ & K8 & K9).
  cbn [fst snd] in *.
  split; [apply K9; exact Ht|]. split; [exact K8|].
  intros fuel b name out d' rm' H.
  apply (proj2 (proj2 (uploadRecording_spec fuel b name path d rm out d' rm' H))).
  exact Ht.
Qed.

Lemma no_duplicate_folders_witness :
  tidy (snd (ensureFolderPath "A/B/A" signedInDrive emptyRemote)).
Proof.
  assert (Ht : tidy emptyRemote).
  { split; [intros f []|]. intros name parent. cbn. lia. }
  exact (proj1 (no_duplicate_folders "A/B/A" signedInDrive emptyRemote Ht)).
Defined.

Lemma getSetting_setSetting key value defaultValue st :
  StorageService.getSetting key defaultValue (StorageService.setSetting key value st)
  = value.
Proof.
  unfold StorageService.getSetting, StorageService.setSetting, StorageService.Settings in *.
  rewrite lookup_insert_eq. reflexivity.
Qed.

(** X22. The settings store reads back what was written: [getSetting]
    after [setSetting] of the same key returns the value set, [null]
    included, whatever the default; a key that was never set reads as the
    default; writing a key leaves the other keys as they are, and a second
    write to a key replaces the first. *)
Theorem settings_round_trip
    (key : string) (value value' defaultValue : StorageService.SettingValue)
    (st : StorageService.Settings) :
  StorageService.getSetting key defaultValue (StorageService.setSetting key value st)
  = value
  /\ StorageService.getSetting key defaultValue ∅ = defaultValue
  /\ (forall key', key' <> key ->
        StorageService.getSetting key' defaultValue
          (StorageService.setSetting key value st)
        = StorageService.getSetting key' defaultValue st)
  /\ StorageService.setSetting key value (StorageService.setSetting key value' st)
     = StorageService.setSetting key value st.
Proof.
  split; [apply getSetting_setSetting|]. split; [reflexivity|].
  unfold StorageService.getSetting, StorageService.setSetting, StorageService.Settings in *.
  split.
  - intros key' Hne. rewrite lookup_insert_ne by congruence. reflexivity.
  - apply insert_insert_eq.
Qed.

(** X23. The stored token. A token granted at [t] for [expires_in]
    seconds is written to the settings with the expiry [t + expires_in *
    1000]; [init()] on a freshly loaded page, at [t'], signs the service in
    with that token exactly when [t'] is before the expiry, and resolves
    with that answer. An error response leaves the service and the
    settings as they are. After [signOut()] nothing is restored by
    [init()], the service is not authenticated, and the folder cache is
    empty. *)
Theorem stored_token_expiry
    (token : string) (expires_in t t' : Z) (d d0 : Drive)
    (st : StorageService.Settings) :
  isSignedIn d0 = false ->
  let granted := handleTokenResponse (TokenGranted token expires_in) t d st in
  isSignedIn (fst granted) = true /\ accessToken (fst granted) = Some token
  /\ fst (init true t' d0 (snd granted)) = Ok (Z.ltb t' (t + expires_in * 1000))
  /\ (t' < t + expires_in * 1000 ->
      isSignedIn (snd (init true t' d0 (snd granted))) = true
      /\ accessToken (snd (init true t' d0 (snd granted))) = Some token)
  /\ (t + expires_in * 1000 <= t' ->
      isAuthenticated (snd (init true t' d0 (snd granted))) = false)
  /\ isInitialised (snd (init true t' d0 (snd granted))) = true
  /\ (forall error, handleTokenResponse (TokenError error) t d st = (d, st))
  /\ (let out := signOut (fst granted) (snd granted) in
      isAuthenticated (fst out) = false /\ folderCache (fst out) = ∅
      /\ init true t' d0 (snd out)
         = (Ok false, mkDrive true false (accessToken d0) (folderCache d0))).
Proof.
  intros Hd0 granted. unfold granted.
  cbn [handleTokenResponse fst snd isSignedIn accessToken].
  split; [reflexivity|]. split; [reflexivity|].
  unfold init, signOut. cbn [negb fst snd]. rewrite !getSetting_setSetting. rewrite Hd0.
  destruct (Z.ltb_spec t' (t + expires_in * 1000)) as [Hlt|Hge]; cbn.
  - repeat split; auto; try lia.
  - unfold isAuthenticated. cbn. repeat split; auto; try lia.
Qed.

Lemma stored_token_expiry_witness :
  fst (init true 5000 freshDrive
         (snd (handleTokenResponse (TokenGranted "t0" 3600) 1000 freshDrive ∅)))
  = Ok true
  /\ fst (init true 3601000 freshDrive
            (snd (handleTokenResponse (TokenGranted "t0" 3600) 1000 freshDrive ∅)))
     = Ok false.
Proof.
  split.
  - exact (proj1 (proj2 (proj2 (stored_token_expiry "t0" 3600 1000 5000 freshDrive
                                  freshDrive ∅ eq_refl)))).
  - exact (proj1 (proj2 (proj2 (stored_token_expiry "t0" 3600 1000 3601000 freshDrive
                                  freshDrive ∅ eq_refl)))).
Defined.

End DriveUploads.


(** ** The sync pass: what it writes, and what becomes of a recording *)
Section PassWrites.
Import StorageService.

Lemma carriedOver_refl r : carriedOver r r.
Proof. unfold carriedOver. repeat split; lia. Qed.

Lemma carriedOver_trans r1 r2 r3 :
  carriedOver r1 r2 -> carriedOver r2 r3 -> carriedOver r1 r3.
Proof.
  unfold carriedOver.
  intros (A1 & A2 & A3 & A4 & A5 & A6 & A7 & A8 & A9 & A10 & A11)
         (B1 & B2 & B3 & B4 & B5 & B6 & B7 & B8 & B9 & B10 & B11).
  repeat split; try congruence. lia.
Qed.

Lemma catalogCarriedOver_refl d : catalogCarriedOver d d.
Proof.
  unfold catalogCarriedOver. split; [|auto].
  intros i r Hr. exists r. split; [exact Hr | apply carriedOver_refl].
Qed.

Lemma catalogCarriedOver_trans d1 d2 d3 :
  catalogCarriedOver d1 d2 -> catalogCarriedOver d2 d3 -> catalogCarriedOver d1 d3.
Proof.
  intros (A1 & A2 & A3 & A4 & A5) (B1 & B2 & B3 & B4 & B5).
  unfold catalogCarriedOver. split; [|split; [auto|repeat split; congruence]].
  intros i r Hr. destruct (A1 i r Hr) as (r2 & Hr2 & C12).
  destruct (B1 i r2 Hr2) as (r3 & Hr3 & C23).
  exists r3. split; [exact Hr3 | exact (carriedOver_trans _ _ _ C12 C23)].
Qed.

Lemma updateRecordingStatus_carried i s x now d r' d' :
  updateRecordingStatus i s x now d = Ok (r', d') ->
  (forall r, getRecording i (recordings d) = Some r ->
             retryCount r <= default (retryCount r) (x_retryCount x)) ->
  catalogCarriedOver d d'.
Proof.
  intros Hu Hretry.
  pose proof (updateRecordingStatus_same _ _ _ _ _ _ _ Hu) as Hsame.
  pose proof (fun j => updateRecordingStatus_other _ _ _ _ _ _ _ j Hu) as Hother.
  unfold updateRecordingStatus in Hu.
  destruct (getRecording i (recordings d)) as [r|] eqn:G; [|discriminate].
  injection Hu as Hr' Hd'.
  unfold catalogCarriedOver. split; [|split; [|subst d'; repeat split]].
  - intros j r0 Hr0. destruct (Nat.eq_dec j i) as [->|Hne].
    + rewrite G in Hr0. injection Hr0 as <-.
      exists r'. split; [exact Hsame|]. subst r'.
      unfold carriedOver. cbn. repeat split. apply Hretry. reflexivity.
    + exists r0. split; [rewrite (Hother j Hne); exact Hr0 | apply carriedOver_refl].
  - intros j Hnone. destruct (Nat.eq_dec j i) as [->|Hne]; [congruence|].
    rewrite (Hother j Hne). exact Hnone.
Qed.

Lemma passWrite_carried d d' : passWrite d d' -> catalogCarriedOver d d'.
Proof.
  intros [i s f now d0 r' d0' _ Hu | i tRetry tPut d0 r' d0' Hu].
  - apply (updateRecordingStatus_carried _ _ _ _ _ _ _ Hu). intros r _. cbn. lia.
  - unfold incrementRetryCount in Hu.
    destruct (getRecording i (recordings d0)) as [r|] eqn:G; [|discriminate].
    injection Hu as Hu.
    apply (updateRecordingStatus_carried _ _ _ _ _ _ _ Hu).
    intros r0 Hr0. rewrite G in Hr0. injection Hr0 as <-. cbn. lia.
Qed.

Lemma passWrite_hasFile d d' : passWrite d d' -> uploadedHasFile d -> uploadedHasFile d'.
Proof.
  intros [i s f now d0 r' d0' Hf Hu | i tRetry tPut d0 r' d0' Hu] Hinv.
  - unfold updateRecordingStatus in Hu.
    destruct (getRecording i (recordings d0)) as [r|] eqn:G; [|discriminate].
    injection Hu as <- <-. unfold uploadedHasFile. cbn [recordings].
    apply Forall_put; [|exact Hinv]. cbn. intros Hs.
    destruct (Hf Hs) as [x ->]. eexists. reflexivity.
  - unfold incrementRetryCount in Hu.
    destruct (getRecording i (recordings d0)) as [r|] eqn:G; [|discriminate].
    injection Hu as Hu. unfold updateRecordingStatus in Hu. rewrite G in Hu.
    injection Hu as <- <-. unfold uploadedHasFile. cbn [recordings].
    apply Forall_put; [|exact Hinv]. cbn. intros Hs.
    unfold uploadedHasFile in Hinv. rewrite List.Forall_forall in Hinv.
    apply (Hinv r (getRecording_In _ _ _ G) Hs).
Qed.

Lemma passWrite_mirrored d d' : passWrite d d' -> mirroredCatalog d -> mirroredCatalog d'.
Proof.
  intros [i s f now d0 r' d0' _ Hu | i tRetry tPut d0 r' d0' Hu] Hinv.
  - exact (updateRecordingStatus_mirrored _ _ _ _ _ _ _ Hinv Hu).
  - unfold incrementRetryCount in Hu.
    destruct (getRecording i (recordings d0)) as [r|]; [|discriminate].
    injection Hu as Hu. exact (updateRecordingStatus_mirrored _ _ _ _ _ _ _ Hinv Hu).
Qed.

Lemma passWrite_wf d d' :
  passWrite d d' -> wfCatalog d ->
  wfCatalog d' /\ map id (recordings d') = map id (recordings d).
Proof.
  intros [i s f now d0 r' d0' _ Hu | i tRetry tPut d0 r' d0' Hu] Hwf.
  - split; [exact (updateRecordingStatus_wf _ _ _ _ _ _ _ Hwf Hu)|].
    exact (proj2 (updateRecordingStatus_keyOrdered _ _ _ _ _ _ _ (proj1 Hwf) Hu)).
  - unfold incrementRetryCount in Hu.
    destruct (getRecording i (recordings d0)) as [r|]; [|discriminate].
    injection Hu as Hu.
    split; [exact (updateRecordingStatus_wf _ _ _ _ _ _ _ Hwf Hu)|].
    exact (proj2 (updateRecordingStatus_keyOrdered _ _ _ _ _ _ _ (proj1 Hwf) Hu)).
Qed.

(** What a sequence of such writes keeps. *)
Lemma passWrites_keep d d' :
  rtc passWrite d d' ->
  catalogCarriedOver d d'
  /\ (uploadedHasFile d -> uploadedHasFile d')
  /\ (mirroredCatalog d -> mirroredCatalog d')
  /\ (wfCatalog d ->
      wfCatalog d' /\ map id (recordings d') = map id (recordings d)).
Proof.
  induction 1 as [d | d1 d2 d3 H12 _ (I1 & I2 & I3 & I4)].
  - split; [apply catalogCarriedOver_refl|]. auto.
  - split; [exact (catalogCarriedOver_trans _ _ _ (passWrite_carried _ _ H12) I1)|].
    split; [intros H; apply I2, (passWrite_hasFile _ _ H12 H)|].
    split; [intros H; apply I3, (passWrite_mirrored _ _ H12 H)|].
    intros H. destruct (passWrite_wf _ _ H12 H) as [W1 W2].
    destruct (I4 W1) as [W3 W4]. split; [exact W3 | congruence].
Qed.

Lemma App_updateRecordingStatus_write i s f w w' :
  (s = synced_st -> is_Some f) ->
  App.updateRecordingStatus i s (mkExtra None f None None) w = Ok w' ->
  passWrite (App.db w) (App.db w').
Proof.
  intros Hf. unfold App.updateRecordingStatus.
  destruct (updateRecordingStatus i s _ _ (App.db w)) as [[r' d']|e] eqn:E;
    [|discriminate].
  intros [= <-]. cbn [App.db App.setDb]. exact (write_status _ _ _ _ _ _ _ Hf E).
Qed.

Lemma App_incrementRetryCount_write i w w' :
  App.incrementRetryCount i w = Ok w' -> rtc passWrite (App.db w) (App.db w').
Proof.
  unfold App.incrementRetryCount.
  destruct (incrementRetryCount i _ _ (App.db w)) as [[[r' d']|e]|] eqn:E.
  - intros [= <-]. cbn [App.db App.setDb]. apply rtc_once.
    exact (write_retry _ _ _ _ _ _ E).
  - discriminate.
  - intros [= <-]. apply rtc_refl.
Qed.

Lemma recordFailure_writes i w :
  rtc passWrite (App.db w) (App.db (fst (App.recordFailure i w))).
Proof.
  unfold App.recordFailure.
  destruct (App.updateRecordingStatus i failed noExtra w) as [w1|e] eqn:E1;
    [|apply rtc_refl].
  assert (H1 : passWrite (App.db w) (App.db w1)).
  { apply (App_updateRecordingStatus_write i failed None w w1); [discriminate|exact E1]. }
  destruct (App.incrementRetryCount i w1) as [w2|e] eqn:E2; cbn [fst].
  - eapply rtc_l; [exact H1|]. exact (App_incrementRetryCount_write _ _ _ E2).
  - apply rtc_once. exact H1.
Qed.

Lemma syncItem_writes fuel r w :
  rtc passWrite (App.db w) (App.db (fst (App.syncItem fuel r w))).
Proof.
  unfold App.syncItem.
  destruct (Z.leb App.MAX_RETRY_COUNT (retryCount r)); [apply rtc_refl|].
  destruct (App.updateRecordingStatus (id r) uploading noExtra w) as [w1|e] eqn:E1;
    [|apply recordFailure_writes].
  assert (H1 : passWrite (App.db w) (App.db w1)).
  { apply (App_updateRecordingStatus_write (id r) uploading None w w1);
      [discriminate | exact E1]. }
  destruct (DriveService.uploadRecording fuel (blob r) (fileName r) (drivePath r) _ _)
    as [[[[res|e] d] rm]|]; cbn [fst].
  - destruct (App.updateRecordingStatus (id r) synced_st _ _) as [w4|e] eqn:E4; cbn [fst].
    + eapply rtc_l; [exact H1|]. apply rtc_once.
      exact (App_updateRecordingStatus_write _ _ _ _ _
               (fun _ => mk_is_Some _ _ eq_refl) E4).
    + eapply rtc_l; [exact H1|].
      exact (recordFailure_writes (id r) (App.setDrive d rm (App.logUpload (id r) w1))).
  - eapply rtc_l; [exact H1|].
    exact (recordFailure_writes (id r) (App.setDrive d rm (App.logUpload (id r) w1))).
  - apply rtc_once. exact H1.
Qed.

Lemma syncLoop_writes fuel rs : forall w,
  rtc passWrite (App.db w) (App.db (fst (App.syncLoop fuel rs w))).
Proof.
  induction rs as [|r rs IH]; intros w; cbn [App.syncLoop]; [apply rtc_refl|].
  pose proof (syncItem_writes fuel r w) as H.
  destruct (App.syncItem fuel r w) as [w1 [|e|]]; cbn [fst] in *; try exact H.
  exact (rtc_trans _ _ _ H (IH w1)).
Qed.

Lemma syncRecordings_writes fuel w :
  rtc passWrite (App.db w) (App.db (App.worldOf (App.syncRecordings fuel w))).
Proof.
  unfold App.syncRecordings. destruct (App.refuses w); [apply rtc_refl|].
  destruct (getUnsyncedRecordings (App.db (App.setSyncing true w))) as [|r rs];
    [apply rtc_refl|].
  match goal with
  | |- context [App.syncLoop fuel ?l ?w2] =>
      pose proof (syncLoop_writes fuel l w2) as H;
      destruct (App.syncLoop fuel l w2) as [w3 [|e|]]
  end; exact H.
Qed.

(** X24. What a sync pass of [App] does to the local database, however
    Drive behaves and whether the pass returns or waits on an upload for
    ever. Every recording is still there under its id, with its blob,
    timestamp, duration, file name, folder path and origin as they were
    and a retry count that is not lower; no record is added or removed;
    the chunk log and the key generators are not touched. If every
    recording marked [synced] carried a Drive file id before the pass,
    that is so after it, and likewise for the [synced] index key mirroring
    the status and for the key order of the catalog. *)
Theorem sync_pass_keeps_catalog (fuel : nat) (w : App.World) :
  let w' := App.worldOf (App.syncRecordings fuel w) in
  catalogCarriedOver (App.db w) (App.db w')
  /\ (uploadedHasFile (App.db w) -> uploadedHasFile (App.db w'))
  /\ (mirroredCatalog (App.db w) -> mirroredCatalog (App.db w'))
  /\ (wfCatalog (App.db w) ->
      wfCatalog (App.db w')
      /\ map id (recordings (App.db w')) = map id (recordings (App.db w))).
Proof.
  intros w'. apply passWrites_keep. apply syncRecordings_writes.
Qed.

End PassWrites.

(** *** One recording of the scan *)
Section PassItems.
Import StorageService.

Lemma App_updateRecordingStatus_eq i s x w r :
  getRecording i (recordings (App.db w)) = Some r ->
  App.updateRecordingStatus i s x w
  = Ok (App.setDb
          (mkDB (put (assign x (setStatus s (App.clock w (App.clockReads w)) r))
                   (recordings (App.db w)))
             (recordingsKeyGen (App.db w)) (chunks (App.db w))
             (chunksKeyGen (App.db w)))
          (App.setClockReads (App.clockReads w + App.readsOf s) w)).
Proof.
  intros G. unfold App.updateRecordingStatus.
  rewrite (updateRecordingStatus_found _ _ _ _ _ _ G). reflexivity.
Qed.

Lemma getRecording_put_same i r r' l :
  getRecording i l = Some r -> id r' = i -> getRecording i (put r' l) = Some r'.
Proof. intros _ <-. apply getRecording_put_eq. Qed.

Lemma recordFailure_effect i w r :
  getRecording i (recordings (App.db w)) = Some r ->
  exists w' r',
    App.recordFailure i w = (w', App.Continue)
    /\ App.drive w' = App.drive w /\ App.remote w' = App.remote w
    /\ App.onLine w' = App.onLine w
    /\ getRecording i (recordings (App.db w')) = Some r'
    /\ status r' = failed /\ synced r' = 0
    /\ retryCount r' = retryCount r + 1 /\ blob r' = blob r.
Proof.
  intros G. pose proof (getRecording_id _ _ _ G) as Hid.
  unfold App.recordFailure. rewrite (App_updateRecordingStatus_eq _ _ _ _ _ G).
  set (r1 := assign noExtra (setStatus failed _ r)).
  set (w1 := App.setDb _ _).
  assert (G1 : getRecording i (recordings (App.db w1)) = Some r1).
  { unfold w1. cbn [App.db App.setDb recordings].
    apply (getRecording_put_same i r); [exact G | exact Hid]. }
  unfold App.incrementRetryCount, incrementRetryCount. rewrite G1.
  rewrite (updateRecordingStatus_found _ _ _ _ _ _ G1).
  eexists. eexists. split; [reflexivity|].
  cbn [App.drive App.remote App.onLine App.setDb App.setClockReads App.db recordings].
  do 3 (split; [reflexivity|]).
  split; [apply (getRecording_put_same i r1); [exact G1 | exact Hid]|].
  repeat split.
Qed.

(** The loop body when the upload throws. *)
Lemma syncItem_on_throw fuel r w r0 e d rm :
  retryCount r < App.MAX_RETRY_COUNT ->
  getRecording (id r) (recordings (App.db w)) = Some r0 ->
  DriveService.uploadRecording fuel (blob r) (fileName r) (drivePath r)
    (App.drive w) (App.remote w) = Some (Throw e, d, rm) ->
  exists w' r',
    App.syncItem fuel r w = (w', App.Continue)
    /\ App.drive w' = d /\ App.remote w' = rm /\ App.onLine w' = App.onLine w
    /\ getRecording (id r) (recordings (App.db w')) = Some r'
    /\ status r' = failed /\ synced r' = 0
    /\ retryCount r' = retryCount r0 + 1 /\ blob r' = blob r0.
Proof.
  intros Hlt G Hup. pose proof (getRecording_id _ _ _ G) as Hid.
  unfold App.syncItem. rewrite (proj2 (Z.leb_gt _ _) Hlt).
  rewrite (App_updateRecordingStatus_eq _ _ _ _ _ G).
  set (r1 := assign noExtra (setStatus uploading _ r0)).
  set (w1 := App.setDb _ _).
  change (App.drive (App.logUpload (id r) w1)) with (App.drive w).
  change (App.remote (App.logUpload (id r) w1)) with (App.remote w).
  rewrite Hup.
  assert (G1 : getRecording (id r)
                 (recordings (App.db (App.setDrive d rm (App.logUpload (id r) w1))))
               = Some r1).
  { cbn [App.db App.setDrive App.logUpload]. unfold w1.
    cbn [App.db App.setDb recordings].
    apply (getRecording_put_same (id r) r0); [exact G | exact Hid]. }
  destruct (recordFailure_effect _ _ _ G1)
    as (w' & r' & -> & Hd & Hrm & Hon & G' & Hs & Hsy & Hre & Hb).
  exists w', r'. split; [reflexivity|].
  split; [exact Hd|]. split; [exact Hrm|]. split; [exact Hon|].
  split; [exact G'|]. split; [exact Hs|]. split; [exact Hsy|].
  split; [rewrite Hre; reflexivity | rewrite Hb; reflexivity].
Qed.

(** The loop body when the upload resolves. *)
Lemma syncItem_on_ok fuel r w r0 result d rm :
  retryCount r < App.MAX_RETRY_COUNT ->
  getRecording (id r) (recordings (App.db w)) = Some r0 ->
  DriveService.uploadRecording fuel (blob r) (fileName r) (drivePath r)
    (App.drive w) (App.remote w) = Some (Ok result, d, rm) ->
  exists w' r',
    App.syncItem fuel r w = (w', App.Continue)
    /\ App.drive w' = d /\ App.remote w' = rm /\ App.onLine w' = App.onLine w
    /\ getRecording (id r) (recordings (App.db w')) = Some r'
    /\ status r' = synced_st /\ synced r' = 1
    /\ driveFileId r' = Some (DriveService.resFileId result)
    /\ retryCount r' = retryCount r0 /\ blob r' = blob r0.
Proof.
  intros Hlt G Hup. pose proof (getRecording_id _ _ _ G) as Hid.
  unfold App.syncItem. rewrite (proj2 (Z.leb_gt _ _) Hlt).
  rewrite (App_updateRecordingStatus_eq _ _ _ _ _ G).
  set (r1 := assign noExtra (setStatus uploading _ r0)).
  set (w1 := App.setDb _ _).
  change (App.drive (App.logUpload (id r) w1)) with (App.drive w).
  change (App.remote (App.logUpload (id r) w1)) with (App.remote w).
  rewrite Hup.
  assert (G1 : getRecording (id r)
                 (recordings (App.db (App.setDrive d rm (App.logUpload (id r) w1))))
               = Some r1).
  { cbn [App.db App.setDrive App.logUpload]. unfold w1.
    cbn [App.db App.setDb recordings].
    apply (getRecording_put_same (id r) r0); [exact G | exact Hid]. }
  rewrite (App_updateRecordingStatus_eq _ _ _ _ _ G1).
  eexists. eexists. split; [reflexivity|].
  cbn [App.drive App.remote App.onLine App.setDb App.setClockReads App.db recordings
       App.setDrive App.logUpload].
  do 3 (split; [reflexivity|]).
  split; [apply (getRecording_put_same (id r) r1); [exact G1 | exact Hid]|].
  repeat split.
Qed.

End PassItems.

(** *** Drive out of reach, Drive in order *)
Section DriveBehaviour.
Import DriveService.





Lemma ensureParts_reliable parts : forall parent current d rm,
  reliable rm ->
  exists p, fst (fst (ensureParts parts parent current d rm)) = Ok p.
Proof.
  induction parts as [|name rest IH]; intros parent current d rm H; cbn [ensureParts].
  - exists parent. reflexivity.
  - destruct (folderCache d !! _) as [c|]; [apply IH; exact H|].
    assert (Hfetch : forall rm0, respond rm0 = respond rm ->
              exists code, fetch rm0
                           = (Status code,
                              mkRemote (folders rm0) (files rm0) (minted rm0)
                                (S (requests rm0)) (respond rm0) (signIns rm0)
                                (grant rm0))
                           /\ ok code = true).
    { intros rm0 Hr. unfold fetch. rewrite Hr.
      destruct (H (requests rm0)) as (code & -> & Hok). exists code. auto. }
    assert (Hrel : forall rm0, respond rm0 = respond rm -> reliable rm0).
    { intros rm0 Hr. unfold reliable. rewrite Hr. exact H. }
    unfold findFolder. destruct (Hfetch rm eq_refl) as (code & -> & ->).
    set (rm1 := mkRemote _ _ _ _ _ _ _).
    assert (Hcreate : forall current',
              exists p, fst (fst (match createFolder name parent rm1 with
                                  | (Throw e, rm2) => (Throw e, d, rm2)
                                  | (Ok f, rm2) =>
                                      ensureParts rest f current'
                                        (setCache current' f d) rm2
                                  end)) = Ok p).
    { intros current'. unfold createFolder.
      destruct (Hfetch rm1 eq_refl) as (code2 & -> & ->). apply IH.
      apply Hrel. reflexivity. }
    destruct (List.filter (matches name parent) (folders rm1)) as [|f fs].
    + apply Hcreate.
    + destruct (bool_decide (folderId f = ""%string)); [apply Hcreate|].
      apply IH. apply Hrel. reflexivity.
Qed.

Lemma uploadRecording_reliable fuel b name folderPath d rm :
  isAuthenticated d = true -> reliable rm ->
  exists result d1 rm1 folder,
    uploadRecording (S fuel) b name folderPath d rm = Some (Ok result, d1, rm1)
    /\ isAuthenticated d1 = true /\ reliable rm1
    /\ files rm1 = files rm ++ [mkFile (resFileId result) name folder b].
Proof.
  intros Ha Hr. cbn [uploadRecording]. rewrite Ha. cbn [negb].
  pose proof (attemptUpload_outcome b name folderPath d rm) as Ho. cbn zeta in Ho.
  assert (Hok : exists result d1 rm1,
            attemptUpload b name folderPath d rm = (Ok result, d1, rm1)).
  { unfold attemptUpload.
    set (fullPath := if bool_decide (folderPath = ""%string) then ROOT_FOLDER
                     else folderPath).
    pose proof (ensureFolderPath_keeps fullPath d rm) as Hk.
    assert (He : exists folder, fst (fst (ensureFolderPath fullPath d rm)) = Ok folder).
    { unfold ensureFolderPath. destruct (folderCache d !! fullPath) as [c|];
        [exists c; reflexivity|].
      destruct (ensureParts_reliable (pathParts fullPath) "root" "" d rm Hr) as [p Hp].
      destruct (ensureParts (pathParts fullPath) "root" "" d rm) as [[[p'|e] d1] rm1];
        cbn [fst] in Hp; [|discriminate].
      exists p'. reflexivity. }
    destruct He as [folder He].
    destruct (ensureFolderPath fullPath d rm) as [[[folder'|e] d1] rm1];
      unfold keepsDrive in Hk; cbn [fst snd] in *; [|discriminate].
    destruct Hk as (_ & Hresp & _).
    unfold uploadFile, fetch. rewrite Hresp.
    destruct (Hr (requests rm1)) as (code & -> & ->).
    eexists. eexists. eexists. reflexivity. }
  destruct Hok as (result & d1 & rm1 & Eq). rewrite Eq in *.
  destruct Ho as (_ & _ & _ & (folder & _ & Hfiles) & _ & Hs & Ht & Hresp & _).
  exists result, d1, rm1, folder. split; [reflexivity|].
  split; [unfold isAuthenticated in *; rewrite Hs, Ht; exact Ha|].
  split; [unfold reliable; rewrite Hresp; exact Hr | exact Hfiles].
Qed.

End DriveBehaviour.

(** *** The loop over the scan *)
Section PassEffect.
Import StorageService.
Context {X : Type}.
Variable fuel : nat.
Variable E : App.World -> Prop.
Variable Q : Recording -> Recording -> Recording -> Prop.
Variable F : App.World -> list X.
Variable g : Recording -> list X.

(** What the loop body does for a recording below the retry limit, in a
    world where [E] holds: it goes on, [E] still holds, the record stored
    under the id has become one that [Q] relates to the one before, and
    the trace [F] has grown by [g]. *)
Hypothesis E_item : forall r w r0,
  E w -> retryCount r < App.MAX_RETRY_COUNT ->
  getRecording (id r) (recordings (App.db w)) = Some r0 ->
  exists w' r',
    App.syncItem fuel r w = (w', App.Continue)
    /\ E w' /\ getRecording (id r) (recordings (App.db w')) = Some r'
    /\ Q r r0 r' /\ F w' = F w ++ g r.
Hypothesis E_frame : forall w w',
  App.drive w' = App.drive w -> App.remote w' = App.remote w -> E w -> E w'.
Hypothesis F_frame : forall w w', App.remote w' = App.remote w -> F w' = F w.

Lemma syncLoop_effect rs : forall w,
  StronglySorted Nat.lt (map id rs) -> E w ->
  (forall r, In r rs -> is_Some (getRecording (id r) (recordings (App.db w)))) ->
  exists w',
    App.syncLoop fuel rs w = (w', App.Continue) /\ E w'
    /\ (forall r r0, In r rs -> retryCount r < App.MAX_RETRY_COUNT ->
          getRecording (id r) (recordings (App.db w)) = Some r0 ->
          exists r', getRecording (id r) (recordings (App.db w')) = Some r'
                     /\ Q r r0 r')
    /\ (forall j, (forall r, In r rs -> id r = j ->
                             App.MAX_RETRY_COUNT <= retryCount r) ->
          getRecording j (recordings (App.db w'))
          = getRecording j (recordings (App.db w)))
    /\ F w' = F w ++ flat_map g (eligible rs).
Proof using E_item.
  induction rs as [|a rs IH]; intros w Hs HE Hp.
  - exists w. cbn. rewrite app_nil_r. repeat split; auto. intros r r0 [].
  - cbn [map] in Hs. apply StronglySorted_inv in Hs as [Hs Hlt].
    rewrite List.Forall_forall in Hlt.
    assert (Hne : forall r, In r rs -> id r <> id a).
    { intros r Hr. specialize (Hlt (id r) (in_map id _ _ Hr)). lia. }
    destruct (Z.lt_ge_cases (retryCount a) App.MAX_RETRY_COUNT) as [Hlow|Hhigh].
    + (* processed *)
      destruct (Hp a (or_introl eq_refl)) as [r0a G0].
      destruct (E_item a w r0a HE Hlow G0) as (w1 & r1 & Eq & HE1 & G1 & HQ & HF).
      pose proof (proj1 (syncItem_touches fuel a w)) as (_ & Hoth & _).
      rewrite Eq in Hoth. cbn [fst] in Hoth.
      destruct (IH w1 Hs HE1) as (w' & Eq' & HE' & Hrec & Hsame & HF').
      { intros r Hr. rewrite (Hoth (id r) (Hne r Hr)). apply Hp. right. exact Hr. }
      exists w'. cbn [App.syncLoop]. rewrite Eq.
      split; [exact Eq'|]. split; [exact HE'|]. split; [|split].
      * intros r r0 [<-|Hr] Hr_low Gr.
        -- rewrite G0 in Gr. injection Gr as <-.
           exists r1. split; [|exact HQ].
           rewrite Hsame; [exact G1|].
           intros r Hr Hid. exfalso. exact (Hne r Hr Hid).
        -- apply (Hrec r r0 Hr Hr_low). rewrite (Hoth (id r) (Hne r Hr)). exact Gr.
      * intros j Hj.
        assert (Hja : j <> id a).
        { intros ->. specialize (Hj a (or_introl eq_refl) eq_refl). lia. }
        rewrite Hsame; [apply Hoth; exact Hja|].
        intros r Hr. apply Hj. right. exact Hr.
      * rewrite HF', HF. unfold eligible. cbn [List.filter].
        rewrite (proj2 (Z.leb_gt _ _) Hlow). cbn [negb flat_map].
        rewrite app_assoc. reflexivity.
    + (* stepped over *)
      destruct (IH w Hs HE) as (w' & Eq' & HE' & Hrec & Hsame & HF').
      { intros r Hr. apply Hp. right. exact Hr. }
      exists w'. cbn [App.syncLoop]. rewrite (syncItem_skips fuel a w Hhigh).
      split; [exact Eq'|]. split; [exact HE'|]. split; [|split].
      * intros r r0 [<-|Hr] Hr_low Gr; [lia|]. exact (Hrec r r0 Hr Hr_low Gr).
      * intros j Hj. apply Hsame. intros r Hr. apply Hj. right. exact Hr.
      * rewrite HF'. unfold eligible. cbn [List.filter].
        rewrite (proj2 (Z.leb_le _ _) Hhigh). reflexivity.
Qed.

Lemma syncRecordings_effect w :
  keyOrdered (App.db w) -> App.refuses w = false -> E w ->
  exists w',
    App.syncRecordings fuel w = App.Returned w' /\ E w'
    /\ App.isSyncing w' = false
    /\ App.indicator w'
       = Some (length (getUnsyncedRecordings (App.db w')), false)
    /\ (forall r, In r (getUnsyncedRecordings (App.db w)) ->
          retryCount r < App.MAX_RETRY_COUNT ->
          exists r', getRecording (id r) (recordings (App.db w')) = Some r'
                     /\ Q r r r')
    /\ (forall j, (forall r, In r (getUnsyncedRecordings (App.db w)) -> id r = j ->
                             App.MAX_RETRY_COUNT <= retryCount r) ->
          getRecording j (recordings (App.db w'))
          = getRecording j (recordings (App.db w)))
    /\ F w' = F w ++ flat_map g (eligible (getUnsyncedRecordings (App.db w))).
Proof using E_item E_frame F_frame.
  intros Hko Href HE. unfold App.syncRecordings. rewrite Href.
  change (App.db (App.setSyncing true w)) with (App.db w).
  assert (Hin : forall r, In r (getUnsyncedRecordings (App.db w)) ->
                          getRecording (id r) (recordings (App.db w)) = Some r).
  { intros r Hr. apply In_getRecording; [exact Hko|].
    apply List.filter_In in Hr. apply Hr. }
  assert (Hsorted : StronglySorted Nat.lt (map id (getUnsyncedRecordings (App.db w)))).
  { apply keyOrdered_filter. exact Hko. }
  destruct (getUnsyncedRecordings (App.db w)) as [|a rs] eqn:Escan.
  - eexists. split; [reflexivity|].
    split; [apply (E_frame w); [reflexivity | reflexivity | exact HE]|].
    split; [reflexivity|]. split; [reflexivity|].
    split; [intros r []|]. split; [reflexivity|].
    cbn. rewrite app_nil_r. apply F_frame. reflexivity.
  - set (w2 := App.setIndicator _ _).
    destruct (syncLoop_effect (a :: rs) w2 Hsorted) as (w3 & Eq & HE3 & Hrec & Hsame & HF).
    { apply (E_frame w); [reflexivity | reflexivity | exact HE]. }
    { intros r Hr. exists r. apply (Hin r Hr). }
    rewrite Eq. exists (App.finish w3). split; [reflexivity|].
    split; [apply (E_frame w3); [reflexivity | reflexivity | exact HE3]|].
    split; [reflexivity|]. split; [reflexivity|].
    split; [|split].
    + intros r Hr Hlow. apply (Hrec r r Hr Hlow). apply (Hin r Hr).
    + exact Hsame.
    + rewrite (F_frame w3 (App.finish w3) eq_refl), HF.
      rewrite (F_frame w w2 eq_refl). reflexivity.
Qed.

End PassEffect.

(** *** Passes against a Drive out of reach, and against one in order *)
Section PassOutcomes.
Import StorageService.


Lemma reliable_item fuel r w r0 :
  (DriveService.isAuthenticated (App.drive w) = true /\ reliable (App.remote w)) ->
  retryCount r < App.MAX_RETRY_COUNT ->
  getRecording (id r) (recordings (App.db w)) = Some r0 ->
  exists w' r',
    App.syncItem (S fuel) r w = (w', App.Continue)
    /\ (DriveService.isAuthenticated (App.drive w') = true /\ reliable (App.remote w'))
    /\ getRecording (id r) (recordings (App.db w')) = Some r'
    /\ (status r' = synced_st /\ synced r' = 1 /\ is_Some (driveFileId r')
        /\ retryCount r' = retryCount r0 /\ blob r' = blob r0)
    /\ map (fun f => (DriveService.fileName f, DriveService.content f))
         (DriveService.files (App.remote w'))
       = map (fun f => (DriveService.fileName f, DriveService.content f))
           (DriveService.files (App.remote w))
         ++ [(fileName r, blob r)].
Proof.
  intros [Ha Hr] Hlow G.
  destruct (uploadRecording_reliable fuel (blob r) (fileName r) (drivePath r)
              _ _ Ha Hr) as (result & d1 & rm1 & folder & Hup & Ha1 & Hr1 & Hf1).
  destruct (syncItem_on_ok _ _ _ _ _ _ _ Hlow G Hup)
    as (w' & r' & Eq & Hd & Hrm & _ & G' & Hs & Hsy & Hfile & Hre & Hb).
  exists w', r'. rewrite Hd, Hrm, Hf1, map_app.
  split; [exact Eq|]. split; [auto|]. split; [exact G'|].
  split; [|reflexivity].
  split; [exact Hs|]. split; [exact Hsy|]. split; [rewrite Hfile; eexists; reflexivity|].
  auto.
Qed.


Lemma reliable_frame (w w' : App.World) :
  App.drive w' = App.drive w -> App.remote w' = App.remote w ->
  DriveService.isAuthenticated (App.drive w) = true /\ reliable (App.remote w) ->
  DriveService.isAuthenticated (App.drive w') = true /\ reliable (App.remote w').
Proof. intros -> ->. auto. Qed.


Lemma named_files_frame (w w' : App.World) :
  App.remote w' = App.remote w ->
  map (fun f => (DriveService.fileName f, DriveService.content f))
    (DriveService.files (App.remote w'))
  = map (fun f => (DriveService.fileName f, DriveService.content f))
      (DriveService.files (App.remote w)).
Proof. intros ->. reflexivity. Qed.


Lemma refuses_false_inv w :
  App.refuses w = false ->
  App.isSyncing w = false /\ App.onLine w = true
  /\ DriveService.isAuthenticated (App.drive w) = true.
Proof.
  unfold App.refuses.
  destruct (App.isSyncing w), (App.onLine w),
    (DriveService.isAuthenticated (App.drive w)); cbn; intros H;
    try discriminate H; auto.
Qed.

Lemma App_updateRecordingStatus_onLine i s x w w' :
  App.updateRecordingStatus i s x w = Ok w' -> App.onLine w' = App.onLine w.
Proof.
  unfold App.updateRecordingStatus.
  destruct (updateRecordingStatus i s x _ (App.db w)) as [[r' d']|e]; [|discriminate].
  intros [= <-]. reflexivity.
Qed.

Lemma recordFailure_onLine i w :
  App.onLine (fst (App.recordFailure i w)) = App.onLine w.
Proof.
  unfold App.recordFailure.
  destruct (App.updateRecordingStatus i failed noExtra w) as [w1|e] eqn:E1;
    [|reflexivity].
  pose proof (App_updateRecordingStatus_onLine _ _ _ _ _ E1) as H1.
  unfold App.incrementRetryCount.
  destruct (incrementRetryCount i _ _ (App.db w1)) as [[[r' d']|e]|]; cbn; exact H1.
Qed.

Lemma syncItem_onLine fuel r w :
  App.onLine (fst (App.syncItem fuel r w)) = App.onLine w.
Proof.
  unfold App.syncItem.
  destruct (Z.leb App.MAX_RETRY_COUNT (retryCount r)); [reflexivity|].
  destruct (App.updateRecordingStatus (id r) uploading noExtra w) as [w1|e] eqn:E1;
    [|apply recordFailure_onLine].
  pose proof (App_updateRecordingStatus_onLine _ _ _ _ _ E1) as H1.
  destruct (DriveService.uploadRecording fuel (blob r) (fileName r) (drivePath r) _ _)
    as [[[[res|e] d] rm]|]; [| |exact H1].
  - destruct (App.updateRecordingStatus (id r) synced_st _ _) as [w4|e] eqn:E4.
    + cbn [fst]. rewrite (App_updateRecordingStatus_onLine _ _ _ _ _ E4). exact H1.
    + rewrite recordFailure_onLine. exact H1.
  - rewrite recordFailure_onLine. exact H1.
Qed.

Lemma syncLoop_guard fuel rs : forall w,
  App.onLine (fst (App.syncLoop fuel rs w)) = App.onLine w
  /\ App.isSyncing (fst (App.syncLoop fuel rs w)) = App.isSyncing w.
Proof.
  induction rs as [|r rs IH]; intros w; cbn [App.syncLoop]; [auto|].
  pose proof (syncItem_onLine fuel r w) as H1.
  pose proof (syncItem_isSyncing fuel r w) as H2.
  destruct (App.syncItem fuel r w) as [w1 [|e|]]; cbn [fst] in *; auto.
  destruct (IH w1) as [I1 I2]. split; congruence.
Qed.

Lemma syncRecordings_returned fuel w w' :
  App.syncRecordings fuel w = App.Returned w' -> App.refuses w = false ->
  App.isSyncing w' = false /\ App.onLine w' = App.onLine w
  /\ App.indicator w' = Some (length (getUnsyncedRecordings (App.db w')), false).
Proof.
  unfold App.syncRecordings. intros H Href. rewrite Href in H.
  destruct (getUnsyncedRecordings (App.db (App.setSyncing true w))) as [|a rs].
  { injection H as <-. repeat split. }
  revert H. set (w2 := App.setIndicator _ _).
  destruct (syncLoop_guard fuel (a :: rs) w2) as [Hon _].
  destruct (App.syncLoop fuel (a :: rs) w2) as [w3 [|e|]]; cbn [fst] in *;
    intros H; try discriminate H; injection H as <-; repeat split; exact Hon.
Qed.

(** X25. How a sync pass of [App] ends. A call that finds the guard up,
    the network down or Drive signed out returns at once and changes
    nothing. A pass that got past these tests and returns has lowered the
    guard, left [navigator.onLine] alone, and handed the UI the number of
    recordings still unsynced together with the lowered guard. A pass that
    waits for ever on an upload keeps the guard up, so that every later
    call returns at once. *)
Theorem sync_pass_ends (fuel : nat) (w : App.World) :
  (App.refuses w = true -> App.syncRecordings fuel w = App.Returned w)
  /\ (forall w', App.syncRecordings fuel w = App.Returned w' ->
        App.refuses w = false ->
        App.isSyncing w' = false /\ App.onLine w' = App.onLine w
        /\ App.indicator w'
           = Some (length (getUnsyncedRecordings (App.db w')), false))
  /\ (forall w', App.syncRecordings fuel w = App.Hung w' ->
        App.isSyncing w' = true
        /\ forall fuel', App.syncRecordings fuel' w' = App.Returned w').
Proof.
  split; [unfold App.syncRecordings; intros ->; reflexivity|].
  split; [intros w' H Href; exact (syncRecordings_returned fuel w w' H Href)|].
  unfold App.syncRecordings. destruct (App.refuses w); [intros w' H; discriminate H|].
  destruct (getUnsyncedRecordings (App.db (App.setSyncing true w))) as [|a rs];
    [intros w' H; discriminate H|].
  set (w2 := App.setIndicator _ _).
  destruct (syncLoop_guard fuel (a :: rs) w2) as [_ Hsy].
  destruct (App.syncLoop fuel (a :: rs) w2) as [w3 [|e|]]; cbn [fst] in *;
    intros w' H; try discriminate H.
  injection H as <-. split; [exact Hsy|].
  intros fuel'. unfold App.refuses. rewrite Hsy. reflexivity.
Qed.

Lemma unsynced_unique d r r' :
  keyOrdered d -> In r (getUnsyncedRecordings d) -> In r' (getUnsyncedRecordings d) ->
  id r' = id r -> r' = r.
Proof.
  intros Hko Hr Hr' Hid.
  apply List.filter_In in Hr as [Hr _]. apply List.filter_In in Hr' as [Hr' _].
  pose proof (In_getRecording _ _ Hko Hr) as G.
  pose proof (In_getRecording _ _ Hko Hr') as G'.
  rewrite Hid, G in G'. injection G' as ->. reflexivity.
Qed.




Lemma flat_map_singleton (A B : Type) (f : A -> B) l :
  flat_map (fun x => [f x]) l = map f l.
Proof. induction l as [|x l IH]; cbn; [reflexivity | rewrite IH; reflexivity]. Qed.

Lemma drop_map_length (A B : Type) (f : A -> B) l l' k :
  map f l' = map f l ++ k -> map f (drop (length l) l') = k.
Proof.
  revert l'. induction l as [|x l IH]; intros l' H; cbn in *; [exact H|].
  destruct l' as [|y l']; [discriminate|]. cbn in H. injection H as _ H.
  apply IH. exact H.
Qed.

(** X27. A pass of [App] against a Drive that answers every request
    with a 2xx status. The pass returns with the guard lowered; every
    recording of the queue below the retry limit has been uploaded and is
    now [synced], with its [synced] key at 1, a Drive file id, and its
    blob and retry count as they were; Drive has gained exactly one file
    for each of them, in queue order, under the recording's file name and
    holding its blob; and what is left in the queue are exactly the
    recordings that were at the retry limit. *)
Theorem reliable_pass_uploads_queue (fuel : nat) (w : App.World) :
  wfCatalog (App.db w) -> App.refuses w = false -> reliable (App.remote w) ->
  (1 <= fuel)%nat ->
  exists w',
    App.syncRecordings fuel w = App.Returned w'
    /\ App.isSyncing w' = false
    /\ (forall r, In r (getUnsyncedRecordings (App.db w)) ->
          retryCount r < App.MAX_RETRY_COUNT ->
          exists r', getRecording (id r) (recordings (App.db w')) = Some r'
                     /\ status r' = synced_st /\ synced r' = 1
                     /\ is_Some (driveFileId r')
                     /\ retryCount r' = retryCount r /\ blob r' = blob r)
    /\ newFiles w w'
       = map (fun r => (fileName r, blob r))
           (eligible (getUnsyncedRecordings (App.db w)))
    /\ (forall x, In x (getUnsyncedRecordings (App.db w'))
                  <-> In x (getUnsyncedRecordings (App.db w))
                      /\ App.MAX_RETRY_COUNT <= retryCount x)
    /\ App.indicator w'
       = Some (length (getUnsyncedRecordings (App.db w')), false).
Proof.
  intros Hwf Href Hrel Hfuel.
  destruct fuel as [|fuel]; [lia|].
  destruct (refuses_false_inv w Href) as (Hsy & Hon & Ha).
  destruct (syncRecordings_effect (S fuel)
              (fun w => DriveService.isAuthenticated (App.drive w) = true
                        /\ reliable (App.remote w))
              (fun _ r0 r' => status r' = synced_st /\ synced r' = 1
                              /\ is_Some (driveFileId r')
                              /\ retryCount r' = retryCount r0 /\ blob r' = blob r0)
              (fun w => map (fun f => (DriveService.fileName f, DriveService.content f))
                          (DriveService.files (App.remote w)))
              (fun r => [(fileName r, blob r)])
              (reliable_item fuel) reliable_frame named_files_frame
              w (proj1 Hwf) Href (conj Ha Hrel))
    as (w' & Eq & _ & Hsy' & Hind & Hrec & Hsame & HF).
  pose proof (syncRecordings_writes (S fuel) w) as Hw. rewrite Eq in Hw.
  cbn [App.worldOf] in Hw.
  destruct (passWrites_keep _ _ Hw) as ((_ & Hnone & _) & _ & _ & Hwf').
  destruct (Hwf' Hwf) as [[Hko' _] _].
  exists w'. split; [exact Eq|]. split; [exact Hsy'|]. split; [exact Hrec|].
  split.
  { unfold newFiles. apply drop_map_length. rewrite HF, flat_map_singleton.
    reflexivity. }
  split; [|exact Hind].
  intros x. split.
  - intros Hx. apply unsynced_iff in Hx as [Hx Hsyn].
    pose proof (In_getRecording _ _ Hko' Hx) as Gx.
    destruct (getRecording (id x) (recordings (App.db w))) as [r0|] eqn:G0;
      [|rewrite (Hnone _ G0) in Gx; discriminate].
    pose proof (getRecording_In _ _ _ G0) as Hin0.
    pose proof (getRecording_id _ _ _ G0) as Hid0.
    destruct (Z.eq_dec (synced r0) 0) as [Hs0|Hs0].
    + assert (Hq0 : In r0 (getUnsyncedRecordings (App.db w)))
        by (apply unsynced_iff; auto).
      destruct (Z.lt_ge_cases (retryCount r0) App.MAX_RETRY_COUNT) as [Hlt|Hge].
      * destruct (Hrec r0 Hq0 Hlt) as (r' & G' & _ & Hs' & _).
        rewrite Hid0, Gx in G'. injection G' as <-. lia.
      * rewrite Hsame in Gx.
        -- rewrite G0 in Gx. injection Gx as <-. split; [exact Hq0 | lia].
        -- intros r2 Hr2 Hid2.
           rewrite (unsynced_unique _ r0 r2 (proj1 Hwf) Hq0 Hr2) by congruence. lia.
    + rewrite Hsame in Gx.
      * rewrite G0 in Gx. injection Gx as <-. contradiction.
      * intros r2 Hr2 Hid2. exfalso. apply Hs0.
        apply unsynced_iff in Hr2 as [Hr2 Hsyn2].
        pose proof (In_getRecording _ _ (proj1 Hwf) Hr2) as G2.
        rewrite Hid2, G0 in G2. injection G2 as ->. exact Hsyn2.
  - intros [Hx Hhigh].
    assert (G : getRecording (id x) (recordings (App.db w')) = Some x).
    { rewrite Hsame.
      - apply In_getRecording; [exact (proj1 Hwf)|].
        apply List.filter_In in Hx. apply Hx.
      - intros r2 Hr2 Hid.
        rewrite (unsynced_unique _ _ _ (proj1 Hwf) Hx Hr2 Hid). exact Hhigh. }
    apply unsynced_iff. split; [exact (getRecording_In _ _ _ G)|].
    apply unsynced_iff in Hx. apply Hx.
Qed.

Lemma reliable_pass_uploads_queue_witness :
  exists w',
    App.syncRecordings 1 deadLetterWorld = App.Returned w'
    /\ newFiles deadLetterWorld w' = [("b.webm"%string, fragment)]
    /\ map id (getUnsyncedRecordings (App.db w')) = [1%nat].
Proof.
  assert (Hwf : wfCatalog (App.db deadLetterWorld)).
  { split; [unfold keyOrdered|]; cbn; repeat constructor. }
  assert (Hrel : reliable (App.remote deadLetterWorld)).
  { intros k. exists 200. split; reflexivity. }
  destruct (reliable_pass_uploads_queue 1 deadLetterWorld Hwf eq_refl Hrel (le_n 1))
    as (w' & Eq & _ & _ & Hfiles & _ & _).
  exists w'. split; [exact Eq|]. split; [exact Hfiles|].
  vm_compute in Eq. injection Eq as <-. reflexivity.
Defined.

End PassOutcomes.

(** ** Passes that return *)
Section PassReturns.
Import StorageService.

(** *** A Drive that never answers 401 *)

Lemma never401_respond rm rm' :
  DriveService.respond rm' = DriveService.respond rm -> never401 rm -> never401 rm'.
Proof. unfold never401. intros ->. auto. Qed.

Lemma never401_code rm code :
  never401 rm ->
  DriveService.respond rm (DriveService.requests rm) = DriveService.Status code ->
  code <> 401.
Proof. intros H E ->. exact (H _ E). Qed.

Lemma findFolder_never401 name parent rm :
  never401 rm ->
  never401 (snd (DriveService.findFolder name parent rm))
  /\ match fst (DriveService.findFolder name parent rm) with
     | Throw e => errStatus e <> Some 401
     | Ok _ => True
     end.
Proof.
  intros H. unfold DriveService.findFolder, DriveService.fetch.
  destruct (DriveService.respond rm (DriveService.requests rm)) as [|code] eqn:E;
    [split; [exact H | discriminate]|].
  pose proof (never401_code rm code H E) as Hne.
  destruct (DriveService.ok code); (split; [exact H|]); [exact I|].
  cbn. congruence.
Qed.

Lemma createFolder_never401 name parent rm :
  never401 rm ->
  never401 (snd (DriveService.createFolder name parent rm))
  /\ match fst (DriveService.createFolder name parent rm) with
     | Throw e => errStatus e <> Some 401
     | Ok _ => True
     end.
Proof.
  intros H. unfold DriveService.createFolder, DriveService.fetch.
  destruct (DriveService.respond rm (DriveService.requests rm)) as [|code] eqn:E;
    [split; [exact H | discriminate]|].
  pose proof (never401_code rm code H E) as Hne.
  destruct (DriveService.ok code); (split; [exact H|]); [exact I|].
  cbn. congruence.
Qed.

Lemma uploadFile_never401 b name folder rm :
  never401 rm ->
  match fst (DriveService.uploadFile b name folder rm) with
  | Throw e => errStatus e <> Some 401
  | Ok _ => True
  end.
Proof.
  intros H. unfold DriveService.uploadFile, DriveService.fetch.
  destruct (DriveService.respond rm (DriveService.requests rm)) as [|code] eqn:E;
    [discriminate|].
  pose proof (never401_code rm code H E) as Hne.
  destruct (DriveService.ok code); [exact I|]. cbn. congruence.
Qed.

Lemma ensureParts_never401 parts : forall parent current d rm,
  never401 rm ->
  match DriveService.ensureParts parts parent current d rm with
  | (Ok _, _, _) => True
  | (Throw e, _, _) => errStatus e <> Some 401
  end.
Proof.
  induction parts as [|name rest IH]; intros parent current d rm H;
    cbn [DriveService.ensureParts]; [exact I|].
  destruct (DriveService.folderCache d !! _) as [c|]; [apply IH; exact H|].
  destruct (findFolder_never401 name parent rm H) as [H1 He1].
  destruct (DriveService.findFolder name parent rm) as [[found|e] rm1];
    cbn [fst snd] in H1, He1; [|exact He1].
  assert (Hcreate : forall current',
            match (match DriveService.createFolder name parent rm1 with
                   | (Throw e, rm2) => (Throw e, d, rm2)
                   | (Ok f, rm2) =>
                       DriveService.ensureParts rest f current'
                         (DriveService.setCache current' f d) rm2
                   end) with
            | (Ok _, _, _) => True
            | (Throw e, _, _) => errStatus e <> Some 401
            end).
  { intros current'. destruct (createFolder_never401 name parent rm1 H1) as [H2 He2].
    destruct (DriveService.createFolder name parent rm1) as [[f|e] rm2];
      cbn [fst snd] in H2, He2; [apply IH; exact H2 | exact He2]. }
  destruct found as [f|]; [|apply Hcreate].
  destruct (bool_decide (f = ""%string)); [apply Hcreate | apply IH; exact H1].
Qed.

Lemma attemptUpload_never401 b name folderPath d rm :
  never401 rm ->
  match DriveService.attemptUpload b name folderPath d rm with
  | (Ok _, _, _) => True
  | (Throw e, _, _) => errStatus e <> Some 401
  end.
Proof.
  intros H. unfold DriveService.attemptUpload.
  set (fullPath := if bool_decide (folderPath = ""%string) then DriveService.ROOT_FOLDER
                   else folderPath).
  pose proof (ensureFolderPath_keeps fullPath d rm) as Hk.
  assert (He : match DriveService.ensureFolderPath fullPath d rm with
               | (Ok _, _, _) => True
               | (Throw e, _, _) => errStatus e <> Some 401
               end).
  { unfold DriveService.ensureFolderPath.
    destruct (DriveService.folderCache d !! fullPath); [exact I|].
    pose proof (ensureParts_never401 (DriveService.pathParts fullPath) "root" "" d rm H)
      as Hp.
    destruct (DriveService.ensureParts (DriveService.pathParts fullPath) "root" "" d rm)
      as [[[p|e] d1] rm1]; exact Hp. }
  destruct (DriveService.ensureFolderPath fullPath d rm) as [[[folder|e] d1] rm1];
    [|exact He].
  unfold keepsDrive in Hk. cbn [fst snd] in Hk. destruct Hk as (_ & Hresp & _).
  pose proof (uploadFile_never401 b name folder rm1 (never401_respond _ _ Hresp H)) as Hu.
  destruct (DriveService.uploadFile b name folder rm1) as [[f|e] rm2]; exact Hu.
Qed.

(** Against such a Drive every call of [uploadRecording] returns: it
    signs in again and calls itself after a 401 only. *)
Lemma uploadRecording_returns fuel b name folderPath d rm :
  never401 rm ->
  exists out d1 rm1,
    DriveService.uploadRecording (S fuel) b name folderPath d rm = Some (out, d1, rm1)
    /\ never401 rm1.
Proof.
  intros H.
  assert (Hsome : exists out d1 rm1,
            DriveService.uploadRecording (S fuel) b name folderPath d rm
            = Some (out, d1, rm1)).
  { cbn [DriveService.uploadRecording].
    destruct (DriveService.isAuthenticated d); cbn [negb];
      [|eexists; eexists; eexists; reflexivity].
    pose proof (attemptUpload_never401 b name folderPath d rm H) as Ha.
    destruct (DriveService.attemptUpload b name folderPath d rm) as [[[res|e] d1] rm1];
      [eexists; eexists; eexists; reflexivity|].
    rewrite bool_decide_eq_false_2 by exact Ha.
    eexists. eexists. eexists. reflexivity. }
  destruct Hsome as (out & d1 & rm1 & Eq). exists out, d1, rm1. split; [exact Eq|].
  destruct (uploadRecording_spec _ _ _ _ _ _ _ _ _ Eq) as (_ & Hresp & _).
  exact (never401_respond _ _ Hresp H).
Qed.

Lemma App_updateRecordingStatus_remote i s x w w' :
  App.updateRecordingStatus i s x w = Ok w' -> App.remote w' = App.remote w.
Proof.
  unfold App.updateRecordingStatus.
  destruct (updateRecordingStatus i s x _ (App.db w)) as [[r' d']|e]; [|discriminate].
  intros [= <-]. reflexivity.
Qed.

Lemma recordFailure_remote i w :
  App.remote (fst (App.recordFailure i w)) = App.remote w.
Proof.
  unfold App.recordFailure.
  destruct (App.updateRecordingStatus i failed noExtra w) as [w1|e] eqn:E1;
    [|reflexivity].
  pose proof (App_updateRecordingStatus_remote _ _ _ _ _ E1) as H1.
  unfold App.incrementRetryCount.
  destruct (incrementRetryCount i _ _ (App.db w1)) as [[[r' d']|e]|]; cbn; exact H1.
Qed.

Lemma recordFailure_no_hang i w : snd (App.recordFailure i w) <> App.Hang.
Proof.
  unfold App.recordFailure.
  destruct (App.updateRecordingStatus i failed noExtra w) as [w1|e]; [|discriminate].
  destruct (App.incrementRetryCount i w1) as [w2|e]; discriminate.
Qed.

(** One turn of the loop against such a Drive does not wait for ever. *)
Lemma syncItem_returns fuel r w :
  never401 (App.remote w) ->
  never401 (App.remote (fst (App.syncItem (S fuel) r w)))
  /\ snd (App.syncItem (S fuel) r w) <> App.Hang.
Proof.
  intros H. unfold App.syncItem.
  destruct (Z.leb App.MAX_RETRY_COUNT (retryCount r)); [split; [exact H | discriminate]|].
  destruct (App.updateRecordingStatus (id r) uploading noExtra w) as [w1|e] eqn:E1.
  2:{ split; [rewrite recordFailure_remote; exact H | apply recordFailure_no_hang]. }
  pose proof (App_updateRecordingStatus_remote _ _ _ _ _ E1) as H1.
  destruct (uploadRecording_returns fuel (blob r) (fileName r) (drivePath r)
              (App.drive (App.logUpload (id r) w1)) (App.remote (App.logUpload (id r) w1)))
    as (out & d & rm & Eq & Hrm).
  { cbn [App.remote App.logUpload]. rewrite H1. exact H. }
  rewrite Eq. destruct out as [res|e].
  - destruct (App.updateRecordingStatus (id r) synced_st _ _) as [w4|e] eqn:E4.
    + cbn [fst snd]. rewrite (App_updateRecordingStatus_remote _ _ _ _ _ E4).
      split; [exact Hrm | discriminate].
    + split; [rewrite recordFailure_remote; exact Hrm | apply recordFailure_no_hang].
  - split; [rewrite recordFailure_remote; exact Hrm | apply recordFailure_no_hang].
Qed.

Lemma syncLoop_returns fuel rs : forall w,
  never401 (App.remote w) -> snd (App.syncLoop (S fuel) rs w) <> App.Hang.
Proof.
  induction rs as [|r rs IH]; intros w H; cbn [App.syncLoop]; [discriminate|].
  destruct (syncItem_returns fuel r w H) as [H1 Hn].
  destruct (App.syncItem (S fuel) r w) as [w1 [|e|]]; cbn [fst snd] in *;
    [apply IH; exact H1 | discriminate | contradiction].
Qed.

(** A pass against such a Drive returns, with the guard down. *)
Lemma syncRecordings_returns fuel w :
  never401 (App.remote w) ->
  exists w', App.syncRecordings (S fuel) w = App.Returned w'
             /\ (App.refuses w = false -> App.isSyncing w' = false).
Proof.
  intros H.
  assert (Hret : exists w', App.syncRecordings (S fuel) w = App.Returned w').
  { unfold App.syncRecordings. destruct (App.refuses w); [eexists; reflexivity|].
    destruct (getUnsyncedRecordings (App.db (App.setSyncing true w))) as [|a rs];
      [eexists; reflexivity|].
    set (w2 := App.setIndicator _ _).
    pose proof (syncLoop_returns fuel (a :: rs) w2 H) as Hn.
    destruct (App.syncLoop (S fuel) (a :: rs) w2) as [w3 [|e|]]; cbn [snd] in Hn;
      [eexists; reflexivity | eexists; reflexivity | contradiction]. }
  destruct Hret as [w' Eq]. exists w'. split; [exact Eq|].
  intros Href. exact (proj1 (syncRecordings_returned _ _ _ Eq Href)).
Qed.

(** The loop body against such a Drive, for a recording below the retry
    limit: the upload returns, and the recording ends [synced], or
    [failed] with one more retry counted. *)
Lemma never401_item fuel r w r0 :
  never401 (App.remote w) ->
  retryCount r < App.MAX_RETRY_COUNT ->
  getRecording (id r) (recordings (App.db w)) = Some r0 ->
  exists w' r',
    App.syncItem (S fuel) r w = (w', App.Continue)
    /\ never401 (App.remote w')
    /\ getRecording (id r) (recordings (App.db w')) = Some r'
    /\ settled r0 r'
    /\ @nil unit = [] ++ [].
Proof.
  intros H Hlow G.
  destruct (uploadRecording_returns fuel (blob r) (fileName r) (drivePath r)
              (App.drive w) (App.remote w) H) as (out & d & rm & Eq & Hrm).
  destruct out as [res|e].
  - destruct (syncItem_on_ok _ _ _ _ _ _ _ Hlow G Eq)
      as (w' & r' & Es & _ & Hr & _ & G' & Hs & Hsy & _ & Hre & Hb).
    exists w', r'. split; [exact Es|]. split; [rewrite Hr; exact Hrm|].
    split; [exact G'|]. split; [|reflexivity].
    split; [exact Hb|]. left. auto.
  - destruct (syncItem_on_throw _ _ _ _ _ _ _ Hlow G Eq)
      as (w' & r' & Es & _ & Hr & _ & G' & Hs & Hsy & Hre & Hb).
    exists w', r'. split; [exact Es|]. split; [rewrite Hr; exact Hrm|].
    split; [exact G'|]. split; [|reflexivity].
    split; [exact Hb|]. right. auto.
Qed.

Lemma never401_frame (w w' : App.World) :
  App.drive w' = App.drive w -> App.remote w' = App.remote w ->
  never401 (App.remote w) -> never401 (App.remote w').
Proof. intros _ ->. auto. Qed.

(** *** The pass of js/app.js *)

(** With no client the pass ends at its scan: the error is caught, the
    indicator shows it, the guard is released, and no upload is made. *)
Lemma Supabase_pass_stops_at_scan fuel w :
  SupabaseApp.refuses w = false ->
  SupabaseService.supabase (SupabaseApp.supabase w) = None ->
  SupabaseApp.syncRecordings fuel w
  = SupabaseApp.Returned (SupabaseApp.setSyncing false (Some SupabaseApp.error) w).
Proof.
  intros Href Hnone. unfold SupabaseApp.syncRecordings. rewrite Href.
  unfold SupabaseService.getUnsyncedToDriveRecords.
  cbn [SupabaseApp.supabase SupabaseApp.setSyncing]. rewrite Hnone.
  unfold SupabaseApp.setSyncing, SupabaseApp.withSupabase. cbn. reflexivity.
Qed.

(** C1: in the pass of [App] in js/drive.js the failure of one upload
    never ends the pass. For one item: when the upload throws, the
    recording is left [failed] with [retryCount] raised by one, and the
    loop goes on. For the loop: whichever uploads fail, it is never left
    by an exception. For the whole pass, against any Drive that does not
    answer 401 (whatever else it answers, request by request): the pass
    returns with the guard released, every recording of the scan below
    the retry limit has been handed to the uploader, in scan order, and
    each of them is left [synced], or [failed] with one more retry
    counted. The pass of js/app.js has no client to ask for its list: it
    ends at the scan, with the error shown and the guard released, and
    hands nothing to the uploader. *)
Theorem sync_pass_survives_failures
    (fuel : nat) (w : App.World) (wS : SupabaseApp.World) :
  wfCatalog (App.db w) -> App.refuses w = false -> never401 (App.remote w) ->
  SupabaseApp.refuses wS = false ->
  SupabaseService.supabase (SupabaseApp.supabase wS) = None ->
  (forall w0 r r0 e d rm,
      retryCount r < App.MAX_RETRY_COUNT ->
      getRecording (id r) (recordings (App.db w0)) = Some r0 ->
      DriveService.uploadRecording fuel (blob r) (fileName r) (drivePath r)
        (App.drive w0) (App.remote w0) = Some (Throw e, d, rm) ->
      exists w1 r1,
        App.syncItem fuel r w0 = (w1, App.Continue)
        /\ getRecording (id r) (recordings (App.db w1)) = Some r1
        /\ status r1 = failed /\ synced r1 = 0 /\ blob r1 = blob r0
        /\ (safeCount (retryCount r0) -> retryCount r1 = retryCount r0 + 1))
  /\ (forall w0 rs e,
        (forall r, In r rs -> is_Some (getRecording (id r) (recordings (App.db w0)))) ->
        snd (App.syncLoop fuel rs w0) <> App.Abort e)
  /\ (exists w',
        App.syncRecordings (S fuel) w = App.Returned w'
        /\ App.isSyncing w' = false
        /\ App.uploads w'
           = App.uploads w ++ map id (eligible (getUnsyncedRecordings (App.db w)))
        /\ (forall r, In r (getUnsyncedRecordings (App.db w)) ->
              retryCount r < App.MAX_RETRY_COUNT ->
              exists r', getRecording (id r) (recordings (App.db w')) = Some r'
                         /\ settled r r')
        /\ (forall r, In r (getUnsyncedRecordings (App.db w)) ->
              App.MAX_RETRY_COUNT <= retryCount r ->
              getRecording (id r) (recordings (App.db w')) = Some r))
  /\ (exists wS',
        SupabaseApp.syncRecordings fuel wS = SupabaseApp.Returned wS'
        /\ SupabaseApp.isSyncing wS' = false
        /\ SupabaseApp.syncStatus wS' = Some SupabaseApp.error
        /\ SupabaseApp.uploads wS' = SupabaseApp.uploads wS
        /\ SupabaseApp.db wS' = SupabaseApp.db wS
        /\ SupabaseApp.remote wS' = SupabaseApp.remote wS).
Proof.
  intros Hwf Href H401 HrefS Hnone.
  split.
  { intros w0 r r0 e d rm Hlow G Hup.
    destruct (syncItem_on_throw _ _ _ _ _ _ _ Hlow G Hup)
      as (w1 & r1 & Es & _ & _ & _ & G1 & Hs & Hsy & Hre & Hb).
    exists w1, r1. auto 10. }
  split.
  { intros w0 rs e Hin Habs.
    pose proof (syncLoop_never_aborts fuel rs w0 Hin) as Hn.
    destruct (App.syncLoop fuel rs w0) as [w1 [|e'|]]; cbn [snd] in Habs;
      [discriminate Habs | exact Hn | discriminate Habs]. }
  split.
  { destruct (syncRecordings_effect (S fuel)
                (fun w => never401 (App.remote w))
                (fun _ r0 r' => settled r0 r')
                (fun _ => @nil unit) (fun _ => [])
                (never401_item fuel) never401_frame (fun _ _ _ => eq_refl)
                w (proj1 Hwf) Href H401)
      as (w' & Eq & _ & Hsy & _ & Hrec & Hsame & _).
    exists w'. split; [exact Eq|]. split; [exact Hsy|].
    split; [exact (App_pass_uploads_all_eligible _ _ _ Href Eq)|].
    split; [exact Hrec|].
    intros r Hr Hhigh. rewrite Hsame.
    - apply In_getRecording; [exact (proj1 Hwf)|].
      apply List.filter_In in Hr. apply Hr.
    - intros r2 Hr2 Hid.
      rewrite (unsynced_unique _ _ _ (proj1 Hwf) Hr Hr2 Hid). exact Hhigh. }
  eexists. split; [apply Supabase_pass_stops_at_scan; assumption|].
  repeat split.
Qed.

(** The catalog of two pending recordings against a Drive that answers
    the first request with 500 and the others with 200: the first
    recording is left [failed] with one retry, the second is uploaded all
    the same. *)
Lemma sync_pass_survives_failures_witness :
  exists w',
    App.syncRecordings 3 firstUploadFailsApp = App.Returned w'
    /\ App.uploads w' = [1; 2]%nat
    /\ option_map status (getRecording 1 (recordings (App.db w'))) = Some failed
    /\ option_map retryCount (getRecording 1 (recordings (App.db w'))) = Some 1
    /\ option_map status (getRecording 2 (recordings (App.db w'))) = Some synced_st.
Proof.
  assert (Hwf : wfCatalog (App.db firstUploadFailsApp)).
  { split; [unfold keyOrdered|]; cbn; repeat constructor. }
  assert (H401 : never401 (App.remote firstUploadFailsApp)).
  { intros k. cbn. destruct (Nat.eqb k 0); discriminate. }
  destruct (sync_pass_survives_failures 2 firstUploadFailsApp firstUploadFails
              Hwf eq_refl H401 eq_refl eq_refl)
    as (_ & _ & (w' & Eq & _ & Hup & _) & _).
  exists w'. split; [exact Eq|]. split; [exact Hup|].
  vm_compute in Eq. injection Eq as <-. repeat split.
Defined.

(** *** One pass at a time, run to its end *)

Lemma EventLoop_run_app {World Cont Outside : Type} enter continue outside
    (s : @EventLoop.Sys World Cont) (es1 es2 : list (@EventLoop.Event Outside)) :
  EventLoop.run enter continue outside s (es1 ++ es2)
  = EventLoop.run enter continue outside
      (EventLoop.run enter continue outside s es1) es2.
Proof. apply fold_left_app. Qed.

Lemma callsBetween_cons t ts :
  callsBetween (t :: ts)
  = repeat EventLoop.Trigger t ++ EventLoop.Resume 0 :: callsBetween ts.
Proof. unfold callsBetween. cbn [flat_map]. rewrite <- app_assoc. reflexivity. Qed.

(** Calls made while a pass of [App] holds the guard change nothing. *)
Lemma App_calls_refused fuel w k a b t :
  App.isSyncing w = true ->
  EventLoop.run App.enter (App.continue fuel) appOutside
    (EventLoop.mkSys w [k] a b) (repeat EventLoop.Trigger t)
  = EventLoop.mkSys w [k] a b.
Proof.
  intros H. induction t as [|t IH]; [reflexivity|].
  cbn [repeat]. rewrite run_cons. cbn [EventLoop.step EventLoop.world].
  rewrite (App_enter_refused w H). exact IH.
Qed.

Lemma App_block fuel w k a b t ts :
  App.isSyncing w = true ->
  EventLoop.run App.enter (App.continue fuel) appOutside
    (EventLoop.mkSys w [k] a b) (callsBetween (t :: ts))
  = EventLoop.run App.enter (App.continue fuel) appOutside
      (match App.continue fuel k w with
       | (w', Some k') => EventLoop.mkSys w' [k'] a b
       | (w', None) => EventLoop.mkSys w' [] a (S b)
       end) (callsBetween ts).
Proof.
  intros H. rewrite callsBetween_cons, EventLoop_run_app, (App_calls_refused _ _ _ _ _ _ H).
  rewrite run_cons, step_resume_only. reflexivity.
Qed.

Lemma App_loop_called fuel rs : forall w a b,
  App.isSyncing w = true ->
  exists n, forall ts, length ts = n ->
    EventLoop.run App.enter (App.continue fuel) appOutside
      (EventLoop.mkSys w [App.InLoop rs] a b) (callsBetween ts)
    = match App.syncLoop fuel rs w with
      | (w', App.Hang) => EventLoop.mkSys w' [App.Stuck] a b
      | (w', _) => EventLoop.mkSys (App.finish w') [] a (S b)
      end.
Proof.
  induction rs as [|r rs IH]; intros w a b Hg.
  - exists 1%nat. intros [|t [|t' ts]] Hl; try discriminate Hl.
    rewrite (App_block _ _ _ _ _ _ _ Hg). reflexivity.
  - pose proof (syncItem_isSyncing fuel r w) as Hs.
    destruct (App.syncItem fuel r w) as [w1 o] eqn:E. cbn [fst] in Hs.
    destruct o as [|e|].
    + destruct (IH w1 a b) as [n Hn]; [congruence|]. exists (S n).
      intros [|t ts] Hl; [discriminate Hl|]. injection Hl as Hl.
      rewrite (App_block _ _ _ _ _ _ _ Hg). cbn [App.continue App.syncLoop].
      rewrite E. apply Hn. exact Hl.
    + exists 1%nat. intros [|t [|t' ts]] Hl; try discriminate Hl.
      rewrite (App_block _ _ _ _ _ _ _ Hg). cbn [App.continue App.syncLoop].
      rewrite E. reflexivity.
    + exists 1%nat. intros [|t [|t' ts]] Hl; try discriminate Hl.
      rewrite (App_block _ _ _ _ _ _ _ Hg). cbn [App.continue App.syncLoop].
      rewrite E. reflexivity.
Qed.

(** A call of [syncRecordings] with the guard down, followed to the end
    of the pass it starts, with any number of further calls made at each
    of its suspensions: one pass has been started, and the world is where
    the pass run alone leaves it. *)
Lemma App_pass_called fuel w :
  App.refuses w = false ->
  exists n, forall ts, length ts = n ->
    EventLoop.run App.enter (App.continue fuel) appOutside (EventLoop.quiescent w)
      (EventLoop.Trigger :: callsBetween ts)
    = match App.syncRecordings fuel w with
      | App.Returned w' => EventLoop.mkSys w' [] 1 1
      | App.Hung w' => EventLoop.mkSys w' [App.Stuck] 1 0
      end.
Proof.
  intros Href. unfold App.syncRecordings. rewrite Href.
  assert (Hstep : EventLoop.step App.enter (App.continue fuel) appOutside
                    (EventLoop.quiescent w) EventLoop.Trigger
                  = EventLoop.mkSys (App.setSyncing true w)
                      [App.AwaitScan
                         (getUnsyncedRecordings (App.db (App.setSyncing true w)))]
                      1 0).
  { cbn [EventLoop.step EventLoop.quiescent EventLoop.world]. unfold App.enter.
    rewrite Href. reflexivity. }
  destruct (getUnsyncedRecordings (App.db (App.setSyncing true w))) as [|r rs] eqn:E.
  - exists 1%nat. intros [|t [|t' ts]] Hl; try discriminate Hl.
    rewrite run_cons, Hstep, App_block by reflexivity. reflexivity.
  - set (w2 := App.setIndicator _ _).
    destruct (App_loop_called fuel (r :: rs) w2 1 0 eq_refl) as [n Hn].
    exists (S n). intros [|t ts] Hl; [discriminate Hl|]. injection Hl as Hl.
    rewrite run_cons, Hstep, App_block by reflexivity.
    cbn [App.continue]. fold w2. rewrite (Hn ts Hl).
    destruct (App.syncLoop fuel (r :: rs) w2) as [w3 [|e|]]; reflexivity.
Qed.

Lemma Supabase_calls_refused fuel w k a b t :
  SupabaseApp.isSyncing w = true ->
  EventLoop.run SupabaseApp.enter (SupabaseApp.continue fuel) supabaseOutside
    (EventLoop.mkSys w [k] a b) (repeat EventLoop.Trigger t)
  = EventLoop.mkSys w [k] a b.
Proof.
  intros H. induction t as [|t IH]; [reflexivity|].
  cbn [repeat]. rewrite run_cons. cbn [EventLoop.step EventLoop.world].
  rewrite (Supabase_enter_refused w H). exact IH.
Qed.

(** The pass of js/app.js, called with the guard down and called again
    any number of times before it resumes: one pass is started, and it
    ends at its scan. *)
Lemma Supabase_pass_called fuel w t :
  SupabaseApp.refuses w = false ->
  SupabaseService.supabase (SupabaseApp.supabase w) = None ->
  EventLoop.run SupabaseApp.enter (SupabaseApp.continue fuel) supabaseOutside
    (EventLoop.quiescent w) (EventLoop.Trigger :: callsBetween [t])
  = EventLoop.mkSys (SupabaseApp.setSyncing false (Some SupabaseApp.error) w) [] 1 1.
Proof.
  intros Href Hnone. rewrite run_cons.
  cbn [EventLoop.step EventLoop.quiescent EventLoop.world EventLoop.inflight
       EventLoop.started EventLoop.returned].
  unfold SupabaseApp.enter. rewrite Href. cbn [app].
  rewrite callsBetween_cons, EventLoop_run_app, Supabase_calls_refused by reflexivity.
  cbn [callsBetween flat_map]. rewrite run_cons, step_resume_only.
  cbn [SupabaseApp.continue]. unfold SupabaseService.getUnsyncedToDriveRecords.
  cbn [SupabaseApp.supabase SupabaseApp.setSyncing]. rewrite Hnone. reflexivity.
Qed.

(** C2: the sync pass is single-flight. In both passes [isSyncing] is
    tested and set in the first segment of [syncRecordings], before its
    first [await], and a call that finds the guard down (and Drive signed
    in, the network up) starts a pass. Starting with the guard down and
    whatever the order in which calls, resumptions of a suspended pass
    and other events follow one another, at most one pass is in flight, a
    call arriving meanwhile returns at once and changes nothing, and two
    calls in a row start one pass. A call followed by any number of
    further calls at each suspension of the pass it starts: one pass is
    started, and it leaves the world where the pass run alone leaves it;
    against a Drive that never answers 401 that pass returns, so that
    exactly one pass has run to its end, with the guard released. The
    pass of js/app.js, having no client, runs to its end at its scan. *)
Theorem sync_pass_single_flight
    (fuel : nat) (es : list (@EventLoop.Event AppOutside))
    (wA : App.World) (wS : SupabaseApp.World) :
  App.isSyncing wA = false ->
  SupabaseApp.isSyncing wS = false ->
  guardedEntry App.isSyncing App.enter
  /\ guardedEntry SupabaseApp.isSyncing SupabaseApp.enter
  /\ singleFlightAt App.isSyncing App.enter (App.continue fuel) appOutside
       (EventLoop.run App.enter (App.continue fuel) appOutside
          (EventLoop.quiescent wA) es)
  /\ singleFlightAt SupabaseApp.isSyncing SupabaseApp.enter
       (SupabaseApp.continue fuel) supabaseOutside
       (EventLoop.run SupabaseApp.enter (SupabaseApp.continue fuel) supabaseOutside
          (EventLoop.quiescent wS) es)
  /\ (App.refuses wA = false ->
      (exists k, App.enter wA = Some (App.setSyncing true wA, k))
      /\ (exists n, forall ts, length ts = n ->
            EventLoop.run App.enter (App.continue fuel) appOutside
              (EventLoop.quiescent wA) (EventLoop.Trigger :: callsBetween ts)
            = match App.syncRecordings fuel wA with
              | App.Returned w' => EventLoop.mkSys w' [] 1 1
              | App.Hung w' => EventLoop.mkSys w' [App.Stuck] 1 0
              end)
      /\ (never401 (App.remote wA) ->
          exists n w',
            App.syncRecordings (S fuel) wA = App.Returned w'
            /\ App.isSyncing w' = false
            /\ forall ts, length ts = n ->
                 EventLoop.run App.enter (App.continue (S fuel)) appOutside
                   (EventLoop.quiescent wA) (EventLoop.Trigger :: callsBetween ts)
                 = EventLoop.mkSys w' [] 1 1))
  /\ (SupabaseApp.refuses wS = false ->
      SupabaseApp.enter wS
      = Some (SupabaseApp.setSyncing true (Some SupabaseApp.syncing) wS,
              SupabaseApp.AwaitScan)
      /\ (SupabaseService.supabase (SupabaseApp.supabase wS) = None ->
          forall t,
            EventLoop.run SupabaseApp.enter (SupabaseApp.continue fuel) supabaseOutside
              (EventLoop.quiescent wS) (EventLoop.Trigger :: callsBetween [t])
            = EventLoop.mkSys
                (SupabaseApp.setSyncing false (Some SupabaseApp.error) wS) [] 1 1)).
Proof.
  intros HA HS. split; [exact App_guardedEntry|].
  split; [exact Supabase_guardedEntry|].
  split; [apply App_singleFlightAt; exact HA|].
  split; [apply Supabase_singleFlightAt; exact HS|].
  split.
  - intros Href. split; [|split].
    + unfold App.enter. rewrite Href. eexists. reflexivity.
    + exact (App_pass_called fuel wA Href).
    + intros H401.
      destruct (syncRecordings_returns fuel wA H401) as (w' & Eq & Hsy).
      destruct (App_pass_called (S fuel) wA Href) as [n Hn].
      exists n, w'. split; [exact Eq|]. split; [exact (Hsy Href)|].
      intros ts Hl. rewrite (Hn ts Hl), Eq. reflexivity.
  - intros Href. split.
    + unfold SupabaseApp.enter. rewrite Href. reflexivity.
    + intros Hnone t. exact (Supabase_pass_called fuel wS t Href Hnone).
Qed.

(** Two recordings to upload, and the pass called twice before it first
    resumes and once more before each later resumption: one pass runs,
    to its end, with both recordings uploaded. *)
Lemma sync_pass_single_flight_witness :
  singleFlightAt App.isSyncing App.enter (App.continue 3) appOutside
    (EventLoop.run App.enter (App.continue 3) appOutside
       (EventLoop.quiescent idleWorld) doubleTrigger)
  /\ (exists w',
        App.syncRecordings 4 idleWorld = App.Returned w'
        /\ App.isSyncing w' = false /\ App.uploads w' = [1; 2]%nat)
  /\ (let s := EventLoop.run App.enter (App.continue 4) appOutside
                 (EventLoop.quiescent idleWorld)
                 (EventLoop.Trigger :: callsBetween [1; 1; 1; 1]%nat) in
      EventLoop.started s = 1%nat /\ EventLoop.returned s = 1%nat
      /\ EventLoop.inflight s = []
      /\ App.syncRecordings 4 idleWorld = App.Returned (EventLoop.world s))
  /\ EventLoop.run SupabaseApp.enter (SupabaseApp.continue 3) supabaseOutside
       (EventLoop.quiescent idleSupabaseWorld)
       (EventLoop.Trigger :: callsBetween [1%nat])
     = EventLoop.mkSys
         (SupabaseApp.setSyncing false (Some SupabaseApp.error) idleSupabaseWorld)
         [] 1 1.
Proof.
  assert (H401 : never401 (App.remote idleWorld)) by (intros k; discriminate).
  destruct (sync_pass_single_flight 3 doubleTrigger idleWorld idleSupabaseWorld
              eq_refl eq_refl) as (_ & _ & H3 & _ & H5 & H6).
  destruct (H5 eq_refl) as (_ & _ & H53).
  destruct (H53 H401) as (n & w' & Eq & Hsy & _).
  split; [exact H3|]. split.
  - exists w'. split; [exact Eq|]. split; [exact Hsy|].
    vm_compute in Eq. injection Eq as <-. reflexivity.
  - split; [vm_compute; repeat split|].
    exact (proj2 (H6 eq_refl) eq_refl 1%nat).
Defined.

End PassReturns.

(** *** Stopping, and the queue in Supabase *)
Section StopAndSave.
Import StorageService.

(** X28. [handleStop()] of js/drive.js over the older copy of the
    recorder, for a recorder with a session open and its media recorder
    recording or paused. When the blob [stop()] resolves with holds at
    least one byte, exactly one entry is added to the catalog, under a new
    key: [pending], unsynced, never retried, not marked as recovered,
    holding that blob, the media recorder's MIME type and the elapsed time
    as duration (now - startTime - pausedDuration in whole seconds with no
    pause in progress, tp - startTime - pausedDuration with one begun at
    [tp]). When the blob is empty nothing is added. Either way the
    session's chunks are gone, so that crash recovery at the next start
    writes no entry for the session: a recording that was stopped is not
    recovered a second time. *)
Theorem handleStop_saves_once
    (last : Blob) (now : Z)
    (date : JsDate) (dates : nat -> JsDate)
    (r : RecorderService.Recorder) (d : DB) (mr : RecorderService.MediaRecorder)
    (sid : SessionId) :
  RecorderService.mediaRecorder r = Some mr ->
  RecorderService.state mr <> RecorderService.inactive ->
  RecorderService.sessionId r = Some sid ->
  let b := newBlob (RecorderService.chunks r ++ kept last)
             (RecorderService.mimeType mr) in
  let r' := fst (fst (App.handleStop last now date r d)) in
  let d' := snd (fst (App.handleStop last now date r d)) in
  let key := snd (App.handleStop last now date r d) in
  RecorderService.sessionId r' = None
  /\ getSessionChunks sid d' = []
  /\ (size b = 0%nat -> key = None /\ recordings d' = recordings d)
  /\ ((0 < size b)%nat ->
      exists e,
        key = Some (recordingsKeyGen d) /\ recordings d' = recordings d ++ [e]
        /\ id e = recordingsKeyGen d /\ blob e = b
        /\ mimeType e = RecorderService.mimeType mr
        /\ status e = pending /\ synced e = 0 /\ retryCount e = 0
        /\ recovered e = false
        /\ forall t0, RecorderService.startTime r = Some t0 -> t0 <> 0 ->
             (RecorderService.pauseStartTime r = None ->
              duration e = (now - t0 - RecorderService.pausedDuration r) / 1000)
             /\ (forall tp, RecorderService.pauseStartTime r = Some tp -> tp <> 0 ->
                 duration e = (tp - t0 - RecorderService.pausedDuration r) / 1000))
  /\ exists news,
       recordings (App.checkForRecovery dates d') = recordings d' ++ news
       /\ entriesOf sid news = [].
Proof.
  intros Hmr Hst Hsid b r' d' key.
  assert (Hstop := stop_old_computes last now r d mr sid Hmr Hst Hsid).
  assert (Hchunks : chunksOfSession sid d' = []).
  { unfold d', App.handleStop. rewrite Hstop. cbn [RecorderService.resBlob].
    destruct (Nat.ltb 0 (size _)); cbn [fst snd saveRecording];
      unfold chunksOfSession; cbn [chunks];
      fold (chunksOfSession sid (clearSessionChunks sid d));
      rewrite chunksOfSession_clear, bool_decide_eq_true_2 by reflexivity;
      reflexivity. }
  split.
  { unfold r', App.handleStop. rewrite Hstop. cbn [RecorderService.resBlob].
    destruct (Nat.ltb 0 (size _)); reflexivity. }
  split; [unfold getSessionChunks; rewrite Hchunks; reflexivity|].
  split.
  { intros Hsize. unfold key, d', App.handleStop. rewrite Hstop.
    cbn [RecorderService.resBlob]. fold b. rewrite Hsize. cbn. auto. }
  split.
  { intros Hsize. unfold key, d', App.handleStop. rewrite Hstop.
    cbn [RecorderService.resBlob RecorderService.resDuration
         RecorderService.resMimeType]. fold b.
    rewrite (proj2 (Nat.ltb_lt _ _) Hsize).
    cbn [saveRecording fst snd recordings recordingsKeyGen clearSessionChunks].
    eexists. split; [reflexivity|]. split; [reflexivity|].
    cbn [id blob mimeType status synced retryCount recovered duration default
         m_duration m_mimeType m_recovered].
    repeat (split; [reflexivity|]).
    intros t0 Ht0 Hne. rewrite handleDataAvailable_chunks.
    unfold RecorderService.getElapsedTime_old, RecorderService.setState,
      RecorderService.stopChunkInterval.
    cbn [RecorderService.startTime RecorderService.pausedDuration
         RecorderService.pauseStartTime].
    rewrite Ht0. split.
    - intros Hps. rewrite Hps. cbn. rewrite (proj2 (Z.eqb_neq _ _) Hne). reflexivity.
    - intros tp Hps Htp. rewrite Hps. cbn.
      rewrite (proj2 (Z.eqb_neq _ _) Hne), (proj2 (Z.eqb_neq _ _) Htp). cbn.
      f_equal. lia. }
  destruct (recoverSessions_spec dates (getOrphanedSessions d') (NoDup_distinct _ _)
              0%nat d') as (news & Hrec & _ & _ & Hnone & _).
  exists news. split; [exact Hrec|]. apply Hnone.
  rewrite elem_of_orphaned. intros H. apply H. exact Hchunks.
Qed.

Lemma handleStop_saves_once_witness :
  snd (App.handleStop fragment 21000 (someDay 0) runningRecorder oneChunkOfA)
  = Some 1%nat
  /\ getSessionChunks "A"
       (snd (fst (App.handleStop fragment 21000 (someDay 0) runningRecorder
                    oneChunkOfA)))
     = [].
Proof.
  assert (Hne : RecorderService.recording <> RecorderService.inactive) by discriminate.
  destruct (handleStop_saves_once fragment 21000
              (someDay 0) someDay runningRecorder oneChunkOfA _ "A"%string
              eq_refl Hne eq_refl)
    as (_ & H2 & _ & H4 & _).
  split; [|exact H2].
  destruct H4 as (e & Hkey & _); [cbn; lia | exact Hkey].
Defined.

Lemma inits_supabase inits : forall s,
  SupabaseService.supabase (fold_left initWith inits s) = SupabaseService.supabase s.
Proof.
  induction inits as [|[[url key] library] inits IH]; intros s; [reflexivity|].
  cbn [fold_left]. rewrite IH. unfold initWith, SupabaseService.init.
  destruct (SupabaseService.supabase s), library; reflexivity.
Qed.

(** X29. The Supabase service of js/drive.js never gets its client.
    [init] creates one only when [typeof supabase] is ['undefined'], and
    the variable is declared as [null], whose [typeof] is ['object']: after
    any number of calls of [init], with the library loaded or not,
    [supabase] is still [null], and [getUnsyncedToDriveRecords] and
    [markSyncedToDrive] throw 'Supabase service not initialized.' and
    leave the service as it is. *)
Theorem supabase_never_initialised
    (inits : list (string * string * option SupabaseService.Client)) :
  let s := fold_left initWith inits SupabaseService.initial in
  SupabaseService.supabase s = None
  /\ SupabaseService.getUnsyncedToDriveRecords s
     = (Throw SupabaseService.notInitialized, s)
  /\ forall recordId driveId,
       SupabaseService.markSyncedToDrive recordId driveId s
       = (Throw SupabaseService.notInitialized, s).
Proof.
  intros s.
  assert (H : SupabaseService.supabase s = None) by apply inits_supabase.
  split; [exact H|].
  unfold SupabaseService.getUnsyncedToDriveRecords, SupabaseService.markSyncedToDrive.
  rewrite H. split; [reflexivity | intros; reflexivity].
Qed.

(** The service the samples use, set up with a client library that
    answers with two rows: the rows are never asked for. *)
Example initialisedSupabase_has_no_client :
  SupabaseService.supabase initialisedSupabase = None
  /\ fst (SupabaseService.getUnsyncedToDriveRecords initialisedSupabase)
     = Throw SupabaseService.notInitialized.
Proof. split; reflexivity. Qed.

End StopAndSave.
